(** * The Effect FX parser-compiler (effect_parser.cpp), embedded in Rocq

    The development follows the source file top to bottom: the two free
    helpers [semantic_to_builtin] and [align], the parser state with its
    diagnostics and token management, type parsing, the parts of the
    expression compiler the properties below are about (constant folding,
    swizzles, calls, assignment), the statement compiler, variable and
    technique declarations and the driver [run]; then the expression
    levels [parse_expression_unary] and [parse_expression_multary] and
    the declarations [parse_struct], [parse_function],
    [parse_variable_properties] and the entry point of a pass, and
    [effect_parser], which closes the statement compiler over them.

    Conventions.
    - Unsigned machine integers are [Z] with the wrap-around written out
      ([wrap]); a 32-bit lane of the constant union is its bit pattern.
    - References to basic blocks ([spv_basic_block &]) are indices into a
      store of blocks kept in the parser state; a reference to an emitted
      instruction is a block index and a position.
    - Routines of the compiler that live outside effect_parser.cpp (symbol
      table, type and constant interning, access chain lowering, function
      definitions of the builder) are fields of the records [externals]
      and [codegen].  The statement compiler and the declarations also
      reach the expression levels and [parse_struct], [parse_function],
      [parse_variable_properties] and the entry point through fields of
      [externals]; [effect_parser] puts the functions of effect_parser.cpp
      in these fields. *)

From Stdlib Require Import ZArith List String Ascii Bool Lia DecimalString SpecFloat.
Import ListNotations.
Local Open Scope string_scope.
Local Open Scope Z_scope.

Set Implicit Arguments.

(** ** Machine integers *)

Definition wrap (bits x : Z) : Z := x mod 2 ^ bits.

(** [unsigned int], [uint32_t], [spv::Id]. *)
Definition uint32 (x : Z) : Z := wrap 32 x.

(** The [int] view of a 32-bit pattern. *)
Definition as_signed32 (x : Z) : Z := if x <? 2 ^ 31 then x else x - 2 ^ 32.

(** ** Calls that may throw *)

Inductive exception : Type :=
| invalid_argument
| out_of_range.

Inductive cxx (A : Type) : Type :=
| Returns (a : A)
| Throws (e : exception).
Arguments Throws {A} e.

Definition cxx_bind {A B} (c : cxx A) (k : A -> cxx B) : cxx B :=
  match c with
  | Returns a => k a
  | Throws e => Throws e
  end.

(** ** Strings *)

Module Str.

Definition code (c : ascii) : Z := Z.of_N (N_of_ascii c).

(** [::toupper] in the "C" locale. *)
Definition toupper (c : ascii) : ascii :=
  if (97 <=? code c) && (code c <=? 122)
  then ascii_of_N (N_of_ascii c - 32)
  else c.

(** [std::transform(s.begin(), s.end(), s.begin(), ::toupper)]. *)
Fixpoint transform_toupper (s : string) : string :=
  match s with
  | EmptyString => EmptyString
  | String c r => String (toupper c) (transform_toupper r)
  end.

Definition size (s : string) : Z := Z.of_nat (String.length s).

(** [s.substr(pos)] for [pos <= s.size()]. *)
Definition substr (pos : nat) (s : string) : string :=
  String.substring pos (String.length s - pos) s.

(** [s.compare(0, n, lit) == 0]. *)
Definition compare0 (n : nat) (lit s : string) : bool :=
  String.eqb (String.substring 0 n s) lit.

Definition isspace (c : ascii) : bool :=
  (code c =? 32) || ((9 <=? code c) && (code c <=? 13)).

Definition isdigit (c : ascii) : bool := (48 <=? code c) && (code c <=? 57).

Fixpoint skip_space (s : string) : string :=
  match s with
  | String c r => if isspace c then skip_space r else s
  | EmptyString => EmptyString
  end.

(** The value of the longest prefix of decimal digits. *)
Fixpoint leading_digits (acc : Z) (s : string) : Z :=
  match s with
  | String c r => if isdigit c then leading_digits (10 * acc + (code c - 48)) r else acc
  | EmptyString => acc
  end.

(** [long] of the Windows targets the project is built for. *)
Definition LONG_MAX : Z := 2147483647.
Definition LONG_MIN : Z := - 2147483648.

(** [std::stol(s)]: white space, an optional sign, then as many decimal
    digits as there are; [invalid_argument] without a digit,
    [out_of_range] outside [long]. *)
Definition stol (s : string) : cxx Z :=
  let s1 := skip_space s in
  let '(negative, s2) :=
    match s1 with
    | String "-" r => (true, r)
    | String "+" r => (false, r)
    | _ => (false, s1)
    end in
  match s2 with
  | String c _ =>
      if isdigit c then
        let v := leading_digits 0 s2 in
        let v := if negative then - v else v in
        if (LONG_MIN <=? v) && (v <=? LONG_MAX) then Returns v else Throws out_of_range
      else Throws invalid_argument
  | EmptyString => Throws invalid_argument
  end.

End Str.

(** ** Semantic strings *)

Inductive BuiltIn : Type :=
| BuiltInPosition
| BuiltInPointSize
| BuiltInFragDepth
| BuiltInVertexId
| BuiltInFragCoord
| BuiltInMax.

(** [semantic_to_builtin(semantic, index)]: both arguments are passed by
    reference, so the call returns the built-in together with the
    upper-cased string and the index as the call leaves them. *)
Definition semantic_to_builtin (semantic : string) (index : Z)
  : cxx (BuiltIn * string * Z) :=
  let semantic := Str.transform_toupper semantic in
  if String.eqb semantic "SV_POSITION" then Returns (BuiltInPosition, semantic, index)
  else if String.eqb semantic "SV_POINTSIZE" then Returns (BuiltInPointSize, semantic, index)
  else if String.eqb semantic "SV_DEPTH" then Returns (BuiltInFragDepth, semantic, index)
  else if String.eqb semantic "VERTEXID" || String.eqb semantic "SV_VERTEXID"
  then Returns (BuiltInVertexId, semantic, index)
  else
    cxx_bind
      (if (9 <? Str.size semantic) && Str.compare0 9 "SV_TARGET" semantic
       then cxx_bind (Str.stol (Str.substr 9 semantic)) (fun v => Returns (uint32 v))
       else Returns index)
      (fun index =>
         cxx_bind
           (if (8 <? Str.size semantic) && Str.compare0 8 "TEXCOORD" semantic
            then cxx_bind (Str.stol (Str.substr 8 semantic)) (fun v => Returns (uint32 v))
            else Returns index)
           (fun index => Returns (BuiltInMax, semantic, index))).

(** The names the function maps to a built-in. *)
Definition recognized_builtin_name (upper : string) : bool :=
  String.eqb upper "SV_POSITION" || String.eqb upper "SV_POINTSIZE"
  || String.eqb upper "SV_DEPTH" || String.eqb upper "VERTEXID"
  || String.eqb upper "SV_VERTEXID".

(** The names whose index the function reads. *)
Definition indexed_prefix (upper : string) : option nat :=
  if (9 <? Str.size upper) && Str.compare0 9 "SV_TARGET" upper then Some 9%nat
  else if (8 <? Str.size upper) && Str.compare0 8 "TEXCOORD" upper then Some 8%nat
  else None.

(** ** [align] *)

(** Width of [size_t] and [uintptr_t]: 32 or 64 with the target. *)
Definition pointer_width (bits : Z) : Prop := bits = 32 \/ bits = 64.

(** [align(address, alignment)] on [uintptr_t].  The remainder by zero is
    undefined: [None]. *)
Definition align (ptr_bits address alignment : Z) : option Z :=
  if alignment =? 0 then None
  else if negb (address mod alignment =? 0)
       then Some (wrap ptr_bits (address + alignment - address mod alignment))
       else Some address.

(** ** Tokens (the lexer contract) *)

Record location : Type := mk_location {
  source : string;
  line : Z;
  column : Z
}.

(** Token ids.  A token of one character has the character as its id, so
    that [accept('=')] and [tokenid::equal] name the same token. *)
Inductive tokenid : Type :=
| chr (c : ascii)
| end_of_file | identifier
| true_literal | false_literal | int_literal | uint_literal
| float_literal | double_literal | string_literal
| namespace_ | struct_ | technique | pass
| for_ | while_ | do_ | if_ | else_ | switch_ | case_ | default_
| break_ | continue_ | return_ | discard_
| extern_ | static_ | uniform_ | volatile_ | precise
| in_ | out | inout | const_ | linear | noperspective | centroid | nointerpolation
| void_
| bool_ | bool2 | bool3 | bool4 | bool2x2 | bool3x3 | bool4x4
| int_ | int2 | int3 | int4 | int2x2 | int3x3 | int4x4
| uint_ | uint2 | uint3 | uint4 | uint2x2 | uint3x3 | uint4x4
| float_ | float2 | float3 | float4 | float2x2 | float3x3 | float4x4
| vector | matrix | string_ | texture | sampler
| colon_colon | plus_plus | minus_minus
| exclaim_equal | equal_equal | less_equal | greater_equal
| less_less | greater_greater | ampersand_ampersand | pipe_pipe
| percent_equal | ampersand_equal | star_equal | plus_equal | minus_equal
| slash_equal | less_less_equal | greater_greater_equal | caret_equal | pipe_equal.

Definition exclaim := chr "!".
Definition plus := chr "+".
Definition minus := chr "-".
Definition tilde := chr "~".
Definition percent := chr "%".
Definition ampersand := chr "&".
Definition star := chr "*".
Definition slash := chr "/".
Definition less := chr "<".
Definition greater := chr ">".
Definition question := chr "?".
Definition caret := chr "^".
Definition pipe := chr "|".
Definition equal := chr "=".

Definition tokenid_eq_dec (a b : tokenid) : {a = b} + {a <> b}.
Proof. decide equality. apply ascii_dec. Defined.

Definition tokenid_eqb (a b : tokenid) : bool :=
  if tokenid_eq_dec a b then true else false.

(** Floating-point literals are carried as their bit patterns
    (binary32 for [literal_as_float], binary64 for [literal_as_double]). *)
Record token : Type := mk_token {
  id : tokenid;
  tok_location : location;
  literal_as_string : string;
  literal_as_int : Z;
  literal_as_uint : Z;
  literal_as_float : Z;
  literal_as_double : Z
}.

Definition no_location : location := mk_location "" 0 0.

Definition eof_token : token := mk_token end_of_file no_location "" 0 0 0 0.

(** ** Types *)

Inductive datatype : Type :=
| datatype_void | datatype_bool | datatype_int | datatype_uint | datatype_float
| datatype_string | datatype_struct | datatype_texture | datatype_sampler
| datatype_function.

Definition datatype_eqb (a b : datatype) : bool :=
  match a, b with
  | datatype_void, datatype_void | datatype_bool, datatype_bool
  | datatype_int, datatype_int | datatype_uint, datatype_uint
  | datatype_float, datatype_float | datatype_string, datatype_string
  | datatype_struct, datatype_struct | datatype_texture, datatype_texture
  | datatype_sampler, datatype_sampler | datatype_function, datatype_function => true
  | _, _ => false
  end.

(** Fields in the order of the aggregate initializers of the source:
    [{ base, rows, cols, qualifiers, is_pointer, is_input, is_output,
       array_length, definition }]. *)
Record spv_type : Type := mk_type {
  base : datatype;
  rows : Z;
  cols : Z;
  qualifiers : Z;
  is_pointer : bool;
  is_input : bool;
  is_output : bool;
  array_length : Z;
  definition : Z
}.

(** [{ base, rows, cols }] and [{ base, rows, cols, qualifiers }]. *)
Definition type3 (b : datatype) (r c : Z) : spv_type :=
  mk_type b r c 0 false false false 0 0.
Definition type4 (b : datatype) (r c q : Z) : spv_type :=
  mk_type b r c q false false false 0 0.

Definition set_base (t : spv_type) (b : datatype) : spv_type :=
  mk_type b (rows t) (cols t) (qualifiers t) (is_pointer t) (is_input t)
          (is_output t) (array_length t) (definition t).
Definition set_dims (t : spv_type) (r c : Z) : spv_type :=
  mk_type (base t) r c (qualifiers t) (is_pointer t) (is_input t)
          (is_output t) (array_length t) (definition t).
Definition set_qualifiers (t : spv_type) (q : Z) : spv_type :=
  mk_type (base t) (rows t) (cols t) q (is_pointer t) (is_input t)
          (is_output t) (array_length t) (definition t).
Definition set_is_pointer (t : spv_type) (b : bool) : spv_type :=
  mk_type (base t) (rows t) (cols t) (qualifiers t) b (is_input t)
          (is_output t) (array_length t) (definition t).
Definition set_array_length (t : spv_type) (a : Z) : spv_type :=
  mk_type (base t) (rows t) (cols t) (qualifiers t) (is_pointer t) (is_input t)
          (is_output t) a (definition t).
Definition set_definition (t : spv_type) (d : Z) : spv_type :=
  mk_type (base t) (rows t) (cols t) (qualifiers t) (is_pointer t) (is_input t)
          (is_output t) (array_length t) d.

(** Modelled from the spec: the qualifier bitset of section 3.1.  The
    enumerators are declared outside effect_parser.cpp; they are given one
    bit each, in the order the spec lists them, [inout] being [in | out]. *)
Definition qualifier_extern : Z := 1.
Definition qualifier_static : Z := 2.
Definition qualifier_uniform : Z := 4.
Definition qualifier_volatile : Z := 8.
Definition qualifier_precise : Z := 16.
Definition qualifier_in : Z := 32.
Definition qualifier_out : Z := 64.
Definition qualifier_inout : Z := 96.
Definition qualifier_const : Z := 256.
Definition qualifier_linear : Z := 1024.
Definition qualifier_noperspective : Z := 2048.
Definition qualifier_centroid : Z := 4096.
Definition qualifier_nointerpolation : Z := 8192.

(** Modelled from the spec: the structural predicates of section 4.1 with
    the shapes of section 3.1 (scalars 1x1, vectors n x 1 with n > 1,
    matrices with more than one column, [array_length] 0 for a non-array). *)
Definition has (t : spv_type) (q : Z) : bool := Z.land (qualifiers t) q =? q.
Definition is_array (t : spv_type) : bool := negb (array_length t =? 0).
Definition is_numeric (t : spv_type) : bool :=
  match base t with
  | datatype_bool | datatype_int | datatype_uint | datatype_float => true
  | _ => false
  end.
Definition is_vector (t : spv_type) : bool := (1 <? rows t) && (cols t =? 1).
Definition is_matrix (t : spv_type) : bool := (1 <=? rows t) && (1 <? cols t).
Definition is_scalar (t : spv_type) : bool :=
  negb (is_array t) && negb (is_matrix t) && negb (is_vector t) && is_numeric t.
Definition is_void (t : spv_type) : bool := datatype_eqb (base t) datatype_void.
Definition is_boolean (t : spv_type) : bool := datatype_eqb (base t) datatype_bool.
Definition is_integral (t : spv_type) : bool :=
  match base t with
  | datatype_bool | datatype_int | datatype_uint => true
  | _ => false
  end.
Definition is_signed (t : spv_type) : bool :=
  match base t with
  | datatype_int | datatype_float => true
  | _ => false
  end.
Definition is_floating_point (t : spv_type) : bool := datatype_eqb (base t) datatype_float.
Definition is_struct (t : spv_type) : bool := datatype_eqb (base t) datatype_struct.
Definition is_texture (t : spv_type) : bool := datatype_eqb (base t) datatype_texture.
Definition is_sampler (t : spv_type) : bool := datatype_eqb (base t) datatype_sampler.
Definition is_function (t : spv_type) : bool := datatype_eqb (base t) datatype_function.
Definition components (t : spv_type) : Z := rows t * cols t.

(** ** The IR vocabulary used by the parser (from the SPIR-V header) *)

Inductive Op : Type :=
| OpNop | OpExtInst | OpTypeStruct | OpConstant
| OpFunction | OpFunctionCall | OpVariable | OpLoad | OpStore
| OpCompositeConstruct | OpCompositeExtract
| OpImageSampleImplicitLod | OpImageSampleExplicitLod
| OpSNegate | OpFNegate | OpNot | OpLogicalNot
| OpIAdd | OpFAdd | OpISub | OpFSub | OpIMul | OpFMul
| OpUDiv | OpSDiv | OpFDiv | OpUMod | OpSRem | OpFRem
| OpShiftRightLogical | OpShiftRightArithmetic | OpShiftLeftLogical
| OpBitwiseOr | OpBitwiseXor | OpBitwiseAnd
| OpLogicalEqual | OpLogicalNotEqual | OpLogicalOr | OpLogicalAnd
| OpSelect | OpIEqual | OpINotEqual
| OpUGreaterThan | OpSGreaterThan | OpUGreaterThanEqual | OpSGreaterThanEqual
| OpULessThan | OpSLessThan | OpULessThanEqual | OpSLessThanEqual
| OpFOrdEqual | OpFOrdNotEqual | OpFOrdLessThan | OpFOrdGreaterThan
| OpFOrdLessThanEqual | OpFOrdGreaterThanEqual
| OpPhi | OpLoopMerge | OpSelectionMerge | OpLabel
| OpBranch | OpBranchConditional | OpSwitch | OpKill | OpReturn | OpReturnValue.

Definition Op_eq_dec (a b : Op) : {a = b} + {a <> b}.
Proof. decide equality. Defined.

Definition Op_eqb (a b : Op) : bool := if Op_eq_dec a b then true else false.

Inductive Decoration : Type :=
| DecorationBlock | DecorationDescriptorSet | DecorationOffset | DecorationLocation
| DecorationNoPerspective | DecorationCentroid | DecorationFlat
| DecorationHlslSemanticGOOGLE.

Inductive StorageClass : Type :=
| StorageClassUniformConstant | StorageClassInput | StorageClassUniform
| StorageClassOutput | StorageClassPrivate | StorageClassFunction.

Inductive ExecutionModel : Type :=
| ExecutionModelVertex | ExecutionModelFragment.

Definition LoopControlMaskNone : Z := 0.
Definition LoopControlUnrollMask : Z := 1.
Definition LoopControlDontUnrollMask : Z := 2.
Definition SelectionControlMaskNone : Z := 0.
Definition SelectionControlFlattenMask : Z := 1.
Definition SelectionControlDontFlattenMask : Z := 2.

(** An emitted instruction: opcode, result type id, result id, operand
    words. *)
Record spv_instruction : Type := mk_instruction {
  op : Op;
  result_type : Z;
  result : Z;
  operands : list Z;
  ins_location : location
}.

Definition spv_basic_block : Type := list spv_instruction.

(** ** Constants and expressions *)

(** The constant union: sixteen 32-bit lanes read as [as_uint], [as_int]
    or [as_float], a string, and the nested constants of an array. *)
#[warnings="-register-all"]
Inductive spv_constant : Type :=
| mk_constant (lanes : list Z) (string_data : string) (array_data : list spv_constant).

Definition as_uint_lanes (c : spv_constant) : list Z :=
  match c with mk_constant l _ _ => l end.
Definition string_data_of (c : spv_constant) : string :=
  match c with mk_constant _ s _ => s end.
Definition as_array (c : spv_constant) : list spv_constant :=
  match c with mk_constant _ _ a => a end.

(** [c.as_uint[i]]. *)
Definition as_uint (c : spv_constant) (i : nat) : Z := nth i (as_uint_lanes c) 0.

(** [spv_constant c = {}]. *)
Definition zero_constant : spv_constant := mk_constant (repeat 0 16) "" [].

(** A constant whose first lane is [v]. *)
Definition scalar_constant (v : Z) : spv_constant :=
  mk_constant (uint32 v :: repeat 0 15) "" [].

Fixpoint set_nth {A} (i : nat) (v : A) (l : list A) : list A :=
  match l, i with
  | [], _ => []
  | _ :: r, O => v :: r
  | x :: r, S j => x :: set_nth j v r
  end.

(** [c.as_uint[i] = v]. *)
Definition set_lane (c : spv_constant) (i : nat) (v : Z) : spv_constant :=
  match c with mk_constant l s a => mk_constant (set_nth i (uint32 v) l) s a end.

Inductive access_op : Type :=
| op_member (index : Z)
| op_index_static (index : Z)
| op_index_dynamic (index_id : Z)
| op_swizzle (offsets : list Z)
| op_cast (to : spv_type).

Record spv_expression : Type := mk_expression {
  exp_base : Z;
  exp_type : spv_type;
  exp_constant : spv_constant;
  is_lvalue : bool;
  is_constant : bool;
  exp_location : location;
  ops : list access_op
}.

(** [spv_expression e;] *)
Definition empty_expression : spv_expression :=
  mk_expression 0 (type3 datatype_void 0 0) zero_constant false false no_location [].

Definition set_exp_type (e : spv_expression) (t : spv_type) : spv_expression :=
  mk_expression (exp_base e) t (exp_constant e) (is_lvalue e) (is_constant e)
                (exp_location e) (ops e).
Definition set_exp_constant (e : spv_expression) (c : spv_constant) : spv_expression :=
  mk_expression (exp_base e) (exp_type e) c (is_lvalue e) (is_constant e)
                (exp_location e) (ops e).
Definition set_ops (e : spv_expression) (o : list access_op) : spv_expression :=
  mk_expression (exp_base e) (exp_type e) (exp_constant e) (is_lvalue e) (is_constant e)
                (exp_location e) o.

(** Modelled from the spec: the three ways section 3.3 lets an expression
    start over, as an l-value, an r-value or a constant, with an empty
    chain. *)
Definition reset_to_lvalue (b : Z) (t : spv_type) (loc : location) : spv_expression :=
  mk_expression b t zero_constant true false loc [].
Definition reset_to_rvalue (b : Z) (t : spv_type) (loc : location) : spv_expression :=
  mk_expression b t zero_constant false false loc [].
Definition reset_to_rvalue_constant (t : spv_type) (loc : location) (c : spv_constant)
  : spv_expression :=
  mk_expression 0 t c false true loc [].

(** ** Info records (section 3.4) *)

Record spv_struct_member_info : Type := mk_member {
  member_name : string;
  member_type : spv_type;
  member_builtin : BuiltIn;
  member_semantic_index : Z
}.

Record spv_function_info : Type := mk_function {
  fn_name : string;
  fn_unique_name : string;
  return_type : spv_type;
  return_builtin : BuiltIn;
  return_semantic_index : Z;
  parameter_list : list spv_struct_member_info;
  fn_definition : Z;
  entry_point : Z
}.

Record spv_variable_info : Type := mk_variable {
  var_name : string;
  var_unique_name : string;
  var_definition : Z;
  var_builtin : BuiltIn;
  var_semantic : string;
  var_semantic_index : Z;
  annotation_list : list (string * spv_constant);
  var_texture : Z
}.

(** A symbol.  [sym_op] is [OpNop] (zero) when there is no symbol.
    [sym_function] is the address of a function info, written as its
    position in the arena [_functions] ([None] for any other address). *)
Record symbol : Type := mk_symbol {
  sym_op : Op;
  sym_id : Z;
  sym_type : spv_type;
  sym_function : option nat;
  sym_constant : spv_constant;
  member_index : option Z  (* [None] is [numeric_limits<size_t>::max()] *)
}.

Record scope : Type := mk_scope {
  scope_name : string;
  scope_level : Z;
  namespace_level : Z
}.

(** ** Passes and techniques (section 3.4) *)

Record spv_pass_info : Type := mk_pass {
  vs_entry_point : string;
  ps_entry_point : string;
  render_targets : list Z;
  srgb_write_enable : bool;
  blend_enable : bool;
  stencil_enable : bool;
  clear_render_targets : bool;
  color_write_mask : Z;
  stencil_read_mask : Z;
  stencil_write_mask : Z;
  blend_op : Z;
  blend_op_alpha : Z;
  src_blend : Z;
  dest_blend : Z;
  src_blend_alpha : Z;
  dest_blend_alpha : Z;
  stencil_comparison_func : Z;
  stencil_reference_value : Z;
  stencil_op_pass : Z;
  stencil_op_fail : Z;
  stencil_op_depth_fail : Z
}.

Definition set_vs_entry_point (v : string) (i : spv_pass_info) : spv_pass_info :=
  mk_pass v (ps_entry_point i) (render_targets i) (srgb_write_enable i) (blend_enable i) (stencil_enable i) (clear_render_targets i) (color_write_mask i) (stencil_read_mask i) (stencil_write_mask i) (blend_op i) (blend_op_alpha i) (src_blend i) (dest_blend i) (src_blend_alpha i) (dest_blend_alpha i) (stencil_comparison_func i) (stencil_reference_value i) (stencil_op_pass i) (stencil_op_fail i) (stencil_op_depth_fail i).
Definition set_ps_entry_point (v : string) (i : spv_pass_info) : spv_pass_info :=
  mk_pass (vs_entry_point i) v (render_targets i) (srgb_write_enable i) (blend_enable i) (stencil_enable i) (clear_render_targets i) (color_write_mask i) (stencil_read_mask i) (stencil_write_mask i) (blend_op i) (blend_op_alpha i) (src_blend i) (dest_blend i) (src_blend_alpha i) (dest_blend_alpha i) (stencil_comparison_func i) (stencil_reference_value i) (stencil_op_pass i) (stencil_op_fail i) (stencil_op_depth_fail i).
Definition set_render_targets (v : list Z) (i : spv_pass_info) : spv_pass_info :=
  mk_pass (vs_entry_point i) (ps_entry_point i) v (srgb_write_enable i) (blend_enable i) (stencil_enable i) (clear_render_targets i) (color_write_mask i) (stencil_read_mask i) (stencil_write_mask i) (blend_op i) (blend_op_alpha i) (src_blend i) (dest_blend i) (src_blend_alpha i) (dest_blend_alpha i) (stencil_comparison_func i) (stencil_reference_value i) (stencil_op_pass i) (stencil_op_fail i) (stencil_op_depth_fail i).
Definition set_srgb_write_enable (v : bool) (i : spv_pass_info) : spv_pass_info :=
  mk_pass (vs_entry_point i) (ps_entry_point i) (render_targets i) v (blend_enable i) (stencil_enable i) (clear_render_targets i) (color_write_mask i) (stencil_read_mask i) (stencil_write_mask i) (blend_op i) (blend_op_alpha i) (src_blend i) (dest_blend i) (src_blend_alpha i) (dest_blend_alpha i) (stencil_comparison_func i) (stencil_reference_value i) (stencil_op_pass i) (stencil_op_fail i) (stencil_op_depth_fail i).
Definition set_blend_enable (v : bool) (i : spv_pass_info) : spv_pass_info :=
  mk_pass (vs_entry_point i) (ps_entry_point i) (render_targets i) (srgb_write_enable i) v (stencil_enable i) (clear_render_targets i) (color_write_mask i) (stencil_read_mask i) (stencil_write_mask i) (blend_op i) (blend_op_alpha i) (src_blend i) (dest_blend i) (src_blend_alpha i) (dest_blend_alpha i) (stencil_comparison_func i) (stencil_reference_value i) (stencil_op_pass i) (stencil_op_fail i) (stencil_op_depth_fail i).
Definition set_stencil_enable (v : bool) (i : spv_pass_info) : spv_pass_info :=
  mk_pass (vs_entry_point i) (ps_entry_point i) (render_targets i) (srgb_write_enable i) (blend_enable i) v (clear_render_targets i) (color_write_mask i) (stencil_read_mask i) (stencil_write_mask i) (blend_op i) (blend_op_alpha i) (src_blend i) (dest_blend i) (src_blend_alpha i) (dest_blend_alpha i) (stencil_comparison_func i) (stencil_reference_value i) (stencil_op_pass i) (stencil_op_fail i) (stencil_op_depth_fail i).
Definition set_clear_render_targets (v : bool) (i : spv_pass_info) : spv_pass_info :=
  mk_pass (vs_entry_point i) (ps_entry_point i) (render_targets i) (srgb_write_enable i) (blend_enable i) (stencil_enable i) v (color_write_mask i) (stencil_read_mask i) (stencil_write_mask i) (blend_op i) (blend_op_alpha i) (src_blend i) (dest_blend i) (src_blend_alpha i) (dest_blend_alpha i) (stencil_comparison_func i) (stencil_reference_value i) (stencil_op_pass i) (stencil_op_fail i) (stencil_op_depth_fail i).
Definition set_color_write_mask (v : Z) (i : spv_pass_info) : spv_pass_info :=
  mk_pass (vs_entry_point i) (ps_entry_point i) (render_targets i) (srgb_write_enable i) (blend_enable i) (stencil_enable i) (clear_render_targets i) v (stencil_read_mask i) (stencil_write_mask i) (blend_op i) (blend_op_alpha i) (src_blend i) (dest_blend i) (src_blend_alpha i) (dest_blend_alpha i) (stencil_comparison_func i) (stencil_reference_value i) (stencil_op_pass i) (stencil_op_fail i) (stencil_op_depth_fail i).
Definition set_stencil_read_mask (v : Z) (i : spv_pass_info) : spv_pass_info :=
  mk_pass (vs_entry_point i) (ps_entry_point i) (render_targets i) (srgb_write_enable i) (blend_enable i) (stencil_enable i) (clear_render_targets i) (color_write_mask i) v (stencil_write_mask i) (blend_op i) (blend_op_alpha i) (src_blend i) (dest_blend i) (src_blend_alpha i) (dest_blend_alpha i) (stencil_comparison_func i) (stencil_reference_value i) (stencil_op_pass i) (stencil_op_fail i) (stencil_op_depth_fail i).
Definition set_stencil_write_mask (v : Z) (i : spv_pass_info) : spv_pass_info :=
  mk_pass (vs_entry_point i) (ps_entry_point i) (render_targets i) (srgb_write_enable i) (blend_enable i) (stencil_enable i) (clear_render_targets i) (color_write_mask i) (stencil_read_mask i) v (blend_op i) (blend_op_alpha i) (src_blend i) (dest_blend i) (src_blend_alpha i) (dest_blend_alpha i) (stencil_comparison_func i) (stencil_reference_value i) (stencil_op_pass i) (stencil_op_fail i) (stencil_op_depth_fail i).
Definition set_blend_op (v : Z) (i : spv_pass_info) : spv_pass_info :=
  mk_pass (vs_entry_point i) (ps_entry_point i) (render_targets i) (srgb_write_enable i) (blend_enable i) (stencil_enable i) (clear_render_targets i) (color_write_mask i) (stencil_read_mask i) (stencil_write_mask i) v (blend_op_alpha i) (src_blend i) (dest_blend i) (src_blend_alpha i) (dest_blend_alpha i) (stencil_comparison_func i) (stencil_reference_value i) (stencil_op_pass i) (stencil_op_fail i) (stencil_op_depth_fail i).
Definition set_blend_op_alpha (v : Z) (i : spv_pass_info) : spv_pass_info :=
  mk_pass (vs_entry_point i) (ps_entry_point i) (render_targets i) (srgb_write_enable i) (blend_enable i) (stencil_enable i) (clear_render_targets i) (color_write_mask i) (stencil_read_mask i) (stencil_write_mask i) (blend_op i) v (src_blend i) (dest_blend i) (src_blend_alpha i) (dest_blend_alpha i) (stencil_comparison_func i) (stencil_reference_value i) (stencil_op_pass i) (stencil_op_fail i) (stencil_op_depth_fail i).
Definition set_src_blend (v : Z) (i : spv_pass_info) : spv_pass_info :=
  mk_pass (vs_entry_point i) (ps_entry_point i) (render_targets i) (srgb_write_enable i) (blend_enable i) (stencil_enable i) (clear_render_targets i) (color_write_mask i) (stencil_read_mask i) (stencil_write_mask i) (blend_op i) (blend_op_alpha i) v (dest_blend i) (src_blend_alpha i) (dest_blend_alpha i) (stencil_comparison_func i) (stencil_reference_value i) (stencil_op_pass i) (stencil_op_fail i) (stencil_op_depth_fail i).
Definition set_dest_blend (v : Z) (i : spv_pass_info) : spv_pass_info :=
  mk_pass (vs_entry_point i) (ps_entry_point i) (render_targets i) (srgb_write_enable i) (blend_enable i) (stencil_enable i) (clear_render_targets i) (color_write_mask i) (stencil_read_mask i) (stencil_write_mask i) (blend_op i) (blend_op_alpha i) (src_blend i) v (src_blend_alpha i) (dest_blend_alpha i) (stencil_comparison_func i) (stencil_reference_value i) (stencil_op_pass i) (stencil_op_fail i) (stencil_op_depth_fail i).
Definition set_src_blend_alpha (v : Z) (i : spv_pass_info) : spv_pass_info :=
  mk_pass (vs_entry_point i) (ps_entry_point i) (render_targets i) (srgb_write_enable i) (blend_enable i) (stencil_enable i) (clear_render_targets i) (color_write_mask i) (stencil_read_mask i) (stencil_write_mask i) (blend_op i) (blend_op_alpha i) (src_blend i) (dest_blend i) v (dest_blend_alpha i) (stencil_comparison_func i) (stencil_reference_value i) (stencil_op_pass i) (stencil_op_fail i) (stencil_op_depth_fail i).
Definition set_dest_blend_alpha (v : Z) (i : spv_pass_info) : spv_pass_info :=
  mk_pass (vs_entry_point i) (ps_entry_point i) (render_targets i) (srgb_write_enable i) (blend_enable i) (stencil_enable i) (clear_render_targets i) (color_write_mask i) (stencil_read_mask i) (stencil_write_mask i) (blend_op i) (blend_op_alpha i) (src_blend i) (dest_blend i) (src_blend_alpha i) v (stencil_comparison_func i) (stencil_reference_value i) (stencil_op_pass i) (stencil_op_fail i) (stencil_op_depth_fail i).
Definition set_stencil_comparison_func (v : Z) (i : spv_pass_info) : spv_pass_info :=
  mk_pass (vs_entry_point i) (ps_entry_point i) (render_targets i) (srgb_write_enable i) (blend_enable i) (stencil_enable i) (clear_render_targets i) (color_write_mask i) (stencil_read_mask i) (stencil_write_mask i) (blend_op i) (blend_op_alpha i) (src_blend i) (dest_blend i) (src_blend_alpha i) (dest_blend_alpha i) v (stencil_reference_value i) (stencil_op_pass i) (stencil_op_fail i) (stencil_op_depth_fail i).
Definition set_stencil_reference_value (v : Z) (i : spv_pass_info) : spv_pass_info :=
  mk_pass (vs_entry_point i) (ps_entry_point i) (render_targets i) (srgb_write_enable i) (blend_enable i) (stencil_enable i) (clear_render_targets i) (color_write_mask i) (stencil_read_mask i) (stencil_write_mask i) (blend_op i) (blend_op_alpha i) (src_blend i) (dest_blend i) (src_blend_alpha i) (dest_blend_alpha i) (stencil_comparison_func i) v (stencil_op_pass i) (stencil_op_fail i) (stencil_op_depth_fail i).
Definition set_stencil_op_pass (v : Z) (i : spv_pass_info) : spv_pass_info :=
  mk_pass (vs_entry_point i) (ps_entry_point i) (render_targets i) (srgb_write_enable i) (blend_enable i) (stencil_enable i) (clear_render_targets i) (color_write_mask i) (stencil_read_mask i) (stencil_write_mask i) (blend_op i) (blend_op_alpha i) (src_blend i) (dest_blend i) (src_blend_alpha i) (dest_blend_alpha i) (stencil_comparison_func i) (stencil_reference_value i) v (stencil_op_fail i) (stencil_op_depth_fail i).
Definition set_stencil_op_fail (v : Z) (i : spv_pass_info) : spv_pass_info :=
  mk_pass (vs_entry_point i) (ps_entry_point i) (render_targets i) (srgb_write_enable i) (blend_enable i) (stencil_enable i) (clear_render_targets i) (color_write_mask i) (stencil_read_mask i) (stencil_write_mask i) (blend_op i) (blend_op_alpha i) (src_blend i) (dest_blend i) (src_blend_alpha i) (dest_blend_alpha i) (stencil_comparison_func i) (stencil_reference_value i) (stencil_op_pass i) v (stencil_op_depth_fail i).
Definition set_stencil_op_depth_fail (v : Z) (i : spv_pass_info) : spv_pass_info :=
  mk_pass (vs_entry_point i) (ps_entry_point i) (render_targets i) (srgb_write_enable i) (blend_enable i) (stencil_enable i) (clear_render_targets i) (color_write_mask i) (stencil_read_mask i) (stencil_write_mask i) (blend_op i) (blend_op_alpha i) (src_blend i) (dest_blend i) (src_blend_alpha i) (dest_blend_alpha i) (stencil_comparison_func i) (stencil_reference_value i) (stencil_op_pass i) (stencil_op_fail i) v.

Record spv_technique_info : Type := mk_technique {
  tech_name : string;
  tech_unique_name : string;
  tech_annotations : list (string * spv_constant);
  pass_list : list spv_pass_info
}.

(** ** Diagnostics (section 6.5) *)

Inductive severity : Type := sev_error | sev_warning.

Record diagnostic : Type := mk_diagnostic {
  diag_severity : severity;
  diag_location : location;
  diag_code : Z;
  diag_message : string
}.

Definition to_string (n : Z) : string := NilZero.string_of_int (Z.to_int n).

(** The line a diagnostic adds to the text buffer [_errors]. *)
Definition render (d : diagnostic) : string :=
  source (diag_location d) ++ "(" ++ to_string (line (diag_location d)) ++ ", "
  ++ to_string (column (diag_location d)) ++ ")" ++ ": "
  ++ (match diag_severity d with sev_error => "error" | sev_warning => "warning" end)
  ++ (if diag_code d =? 0 then ": " else " X" ++ to_string (diag_code d) ++ ": ")
  ++ diag_message d ++ String "010" "".

Definition is_error (d : diagnostic) : bool :=
  match diag_severity d with sev_error => true | sev_warning => false end.

Record decoration_record : Type := mk_decoration {
  dec_target : Z;
  dec_kind : Decoration;
  dec_operands : list Z
}.

Record member_decoration_record : Type := mk_member_decoration {
  mdec_target : Z;
  mdec_member : Z;
  mdec_kind : Decoration;
  mdec_operands : list Z
}.

(** ** The parser state

    [H] is the state of the collaborators that are not embedded (symbol
    table, type and constant pools, module sections).  [_current_function]
    is [None] for [numeric_limits<size_t>::max()], [_lexer] is [None] for a
    null pointer; the remaining input of a lexer is its list of tokens. *)

Section Parser.

Variable H : Type.

Record parser : Type := mk_parser {
  _lexer : option (list token);
  _lexer_backup : option (list token);
  _token : token;
  _token_next : token;
  _token_backup : token;
  _errors : list diagnostic;
  _next_id : Z;
  _current_block : Z;
  _current_function : option nat;
  _loop_break_target_stack : list Z;
  _loop_continue_target_stack : list Z;
  _functions : list spv_function_info;
  _uniforms : list spv_struct_member_info;
  _global_ubo_type : Z;
  _global_ubo_variable : Z;
  _global_ubo_offset : Z;
  _texture_semantics : list (Z * string);
  _blocks : list spv_basic_block;
  _decorations : list decoration_record;
  _member_decorations : list member_decoration_record;
  _member_names : list (Z * Z * string);
  _files : list (string * list Z);
  _hidden : H
}.

Definition set_lexer (v : option (list token)) (p : parser) : parser :=
  mk_parser v (_lexer_backup p) (_token p) (_token_next p) (_token_backup p) (_errors p) (_next_id p) (_current_block p) (_current_function p) (_loop_break_target_stack p) (_loop_continue_target_stack p) (_functions p) (_uniforms p) (_global_ubo_type p) (_global_ubo_variable p) (_global_ubo_offset p) (_texture_semantics p) (_blocks p) (_decorations p) (_member_decorations p) (_member_names p) (_files p) (_hidden p).
Definition set_lexer_backup (v : option (list token)) (p : parser) : parser :=
  mk_parser (_lexer p) v (_token p) (_token_next p) (_token_backup p) (_errors p) (_next_id p) (_current_block p) (_current_function p) (_loop_break_target_stack p) (_loop_continue_target_stack p) (_functions p) (_uniforms p) (_global_ubo_type p) (_global_ubo_variable p) (_global_ubo_offset p) (_texture_semantics p) (_blocks p) (_decorations p) (_member_decorations p) (_member_names p) (_files p) (_hidden p).
Definition set_token (v : token) (p : parser) : parser :=
  mk_parser (_lexer p) (_lexer_backup p) v (_token_next p) (_token_backup p) (_errors p) (_next_id p) (_current_block p) (_current_function p) (_loop_break_target_stack p) (_loop_continue_target_stack p) (_functions p) (_uniforms p) (_global_ubo_type p) (_global_ubo_variable p) (_global_ubo_offset p) (_texture_semantics p) (_blocks p) (_decorations p) (_member_decorations p) (_member_names p) (_files p) (_hidden p).
Definition set_token_next (v : token) (p : parser) : parser :=
  mk_parser (_lexer p) (_lexer_backup p) (_token p) v (_token_backup p) (_errors p) (_next_id p) (_current_block p) (_current_function p) (_loop_break_target_stack p) (_loop_continue_target_stack p) (_functions p) (_uniforms p) (_global_ubo_type p) (_global_ubo_variable p) (_global_ubo_offset p) (_texture_semantics p) (_blocks p) (_decorations p) (_member_decorations p) (_member_names p) (_files p) (_hidden p).
Definition set_token_backup (v : token) (p : parser) : parser :=
  mk_parser (_lexer p) (_lexer_backup p) (_token p) (_token_next p) v (_errors p) (_next_id p) (_current_block p) (_current_function p) (_loop_break_target_stack p) (_loop_continue_target_stack p) (_functions p) (_uniforms p) (_global_ubo_type p) (_global_ubo_variable p) (_global_ubo_offset p) (_texture_semantics p) (_blocks p) (_decorations p) (_member_decorations p) (_member_names p) (_files p) (_hidden p).
Definition set_errors (v : list diagnostic) (p : parser) : parser :=
  mk_parser (_lexer p) (_lexer_backup p) (_token p) (_token_next p) (_token_backup p) v (_next_id p) (_current_block p) (_current_function p) (_loop_break_target_stack p) (_loop_continue_target_stack p) (_functions p) (_uniforms p) (_global_ubo_type p) (_global_ubo_variable p) (_global_ubo_offset p) (_texture_semantics p) (_blocks p) (_decorations p) (_member_decorations p) (_member_names p) (_files p) (_hidden p).
Definition set_next_id (v : Z) (p : parser) : parser :=
  mk_parser (_lexer p) (_lexer_backup p) (_token p) (_token_next p) (_token_backup p) (_errors p) v (_current_block p) (_current_function p) (_loop_break_target_stack p) (_loop_continue_target_stack p) (_functions p) (_uniforms p) (_global_ubo_type p) (_global_ubo_variable p) (_global_ubo_offset p) (_texture_semantics p) (_blocks p) (_decorations p) (_member_decorations p) (_member_names p) (_files p) (_hidden p).
Definition set_current_block (v : Z) (p : parser) : parser :=
  mk_parser (_lexer p) (_lexer_backup p) (_token p) (_token_next p) (_token_backup p) (_errors p) (_next_id p) v (_current_function p) (_loop_break_target_stack p) (_loop_continue_target_stack p) (_functions p) (_uniforms p) (_global_ubo_type p) (_global_ubo_variable p) (_global_ubo_offset p) (_texture_semantics p) (_blocks p) (_decorations p) (_member_decorations p) (_member_names p) (_files p) (_hidden p).
Definition set_current_function (v : option nat) (p : parser) : parser :=
  mk_parser (_lexer p) (_lexer_backup p) (_token p) (_token_next p) (_token_backup p) (_errors p) (_next_id p) (_current_block p) v (_loop_break_target_stack p) (_loop_continue_target_stack p) (_functions p) (_uniforms p) (_global_ubo_type p) (_global_ubo_variable p) (_global_ubo_offset p) (_texture_semantics p) (_blocks p) (_decorations p) (_member_decorations p) (_member_names p) (_files p) (_hidden p).
Definition set_loop_break_target_stack (v : list Z) (p : parser) : parser :=
  mk_parser (_lexer p) (_lexer_backup p) (_token p) (_token_next p) (_token_backup p) (_errors p) (_next_id p) (_current_block p) (_current_function p) v (_loop_continue_target_stack p) (_functions p) (_uniforms p) (_global_ubo_type p) (_global_ubo_variable p) (_global_ubo_offset p) (_texture_semantics p) (_blocks p) (_decorations p) (_member_decorations p) (_member_names p) (_files p) (_hidden p).
Definition set_loop_continue_target_stack (v : list Z) (p : parser) : parser :=
  mk_parser (_lexer p) (_lexer_backup p) (_token p) (_token_next p) (_token_backup p) (_errors p) (_next_id p) (_current_block p) (_current_function p) (_loop_break_target_stack p) v (_functions p) (_uniforms p) (_global_ubo_type p) (_global_ubo_variable p) (_global_ubo_offset p) (_texture_semantics p) (_blocks p) (_decorations p) (_member_decorations p) (_member_names p) (_files p) (_hidden p).
Definition set_functions (v : list spv_function_info) (p : parser) : parser :=
  mk_parser (_lexer p) (_lexer_backup p) (_token p) (_token_next p) (_token_backup p) (_errors p) (_next_id p) (_current_block p) (_current_function p) (_loop_break_target_stack p) (_loop_continue_target_stack p) v (_uniforms p) (_global_ubo_type p) (_global_ubo_variable p) (_global_ubo_offset p) (_texture_semantics p) (_blocks p) (_decorations p) (_member_decorations p) (_member_names p) (_files p) (_hidden p).
Definition set_uniforms (v : list spv_struct_member_info) (p : parser) : parser :=
  mk_parser (_lexer p) (_lexer_backup p) (_token p) (_token_next p) (_token_backup p) (_errors p) (_next_id p) (_current_block p) (_current_function p) (_loop_break_target_stack p) (_loop_continue_target_stack p) (_functions p) v (_global_ubo_type p) (_global_ubo_variable p) (_global_ubo_offset p) (_texture_semantics p) (_blocks p) (_decorations p) (_member_decorations p) (_member_names p) (_files p) (_hidden p).
Definition set_global_ubo_type (v : Z) (p : parser) : parser :=
  mk_parser (_lexer p) (_lexer_backup p) (_token p) (_token_next p) (_token_backup p) (_errors p) (_next_id p) (_current_block p) (_current_function p) (_loop_break_target_stack p) (_loop_continue_target_stack p) (_functions p) (_uniforms p) v (_global_ubo_variable p) (_global_ubo_offset p) (_texture_semantics p) (_blocks p) (_decorations p) (_member_decorations p) (_member_names p) (_files p) (_hidden p).
Definition set_global_ubo_variable (v : Z) (p : parser) : parser :=
  mk_parser (_lexer p) (_lexer_backup p) (_token p) (_token_next p) (_token_backup p) (_errors p) (_next_id p) (_current_block p) (_current_function p) (_loop_break_target_stack p) (_loop_continue_target_stack p) (_functions p) (_uniforms p) (_global_ubo_type p) v (_global_ubo_offset p) (_texture_semantics p) (_blocks p) (_decorations p) (_member_decorations p) (_member_names p) (_files p) (_hidden p).
Definition set_global_ubo_offset (v : Z) (p : parser) : parser :=
  mk_parser (_lexer p) (_lexer_backup p) (_token p) (_token_next p) (_token_backup p) (_errors p) (_next_id p) (_current_block p) (_current_function p) (_loop_break_target_stack p) (_loop_continue_target_stack p) (_functions p) (_uniforms p) (_global_ubo_type p) (_global_ubo_variable p) v (_texture_semantics p) (_blocks p) (_decorations p) (_member_decorations p) (_member_names p) (_files p) (_hidden p).
Definition set_texture_semantics (v : list (Z * string)) (p : parser) : parser :=
  mk_parser (_lexer p) (_lexer_backup p) (_token p) (_token_next p) (_token_backup p) (_errors p) (_next_id p) (_current_block p) (_current_function p) (_loop_break_target_stack p) (_loop_continue_target_stack p) (_functions p) (_uniforms p) (_global_ubo_type p) (_global_ubo_variable p) (_global_ubo_offset p) v (_blocks p) (_decorations p) (_member_decorations p) (_member_names p) (_files p) (_hidden p).
Definition set_blocks (v : list spv_basic_block) (p : parser) : parser :=
  mk_parser (_lexer p) (_lexer_backup p) (_token p) (_token_next p) (_token_backup p) (_errors p) (_next_id p) (_current_block p) (_current_function p) (_loop_break_target_stack p) (_loop_continue_target_stack p) (_functions p) (_uniforms p) (_global_ubo_type p) (_global_ubo_variable p) (_global_ubo_offset p) (_texture_semantics p) v (_decorations p) (_member_decorations p) (_member_names p) (_files p) (_hidden p).
Definition set_decorations (v : list decoration_record) (p : parser) : parser :=
  mk_parser (_lexer p) (_lexer_backup p) (_token p) (_token_next p) (_token_backup p) (_errors p) (_next_id p) (_current_block p) (_current_function p) (_loop_break_target_stack p) (_loop_continue_target_stack p) (_functions p) (_uniforms p) (_global_ubo_type p) (_global_ubo_variable p) (_global_ubo_offset p) (_texture_semantics p) (_blocks p) v (_member_decorations p) (_member_names p) (_files p) (_hidden p).
Definition set_member_decorations (v : list member_decoration_record) (p : parser) : parser :=
  mk_parser (_lexer p) (_lexer_backup p) (_token p) (_token_next p) (_token_backup p) (_errors p) (_next_id p) (_current_block p) (_current_function p) (_loop_break_target_stack p) (_loop_continue_target_stack p) (_functions p) (_uniforms p) (_global_ubo_type p) (_global_ubo_variable p) (_global_ubo_offset p) (_texture_semantics p) (_blocks p) (_decorations p) v (_member_names p) (_files p) (_hidden p).
Definition set_member_names (v : list (Z * Z * string)) (p : parser) : parser :=
  mk_parser (_lexer p) (_lexer_backup p) (_token p) (_token_next p) (_token_backup p) (_errors p) (_next_id p) (_current_block p) (_current_function p) (_loop_break_target_stack p) (_loop_continue_target_stack p) (_functions p) (_uniforms p) (_global_ubo_type p) (_global_ubo_variable p) (_global_ubo_offset p) (_texture_semantics p) (_blocks p) (_decorations p) (_member_decorations p) v (_files p) (_hidden p).
Definition set_files (v : list (string * list Z)) (p : parser) : parser :=
  mk_parser (_lexer p) (_lexer_backup p) (_token p) (_token_next p) (_token_backup p) (_errors p) (_next_id p) (_current_block p) (_current_function p) (_loop_break_target_stack p) (_loop_continue_target_stack p) (_functions p) (_uniforms p) (_global_ubo_type p) (_global_ubo_variable p) (_global_ubo_offset p) (_texture_semantics p) (_blocks p) (_decorations p) (_member_decorations p) (_member_names p) v (_hidden p).
Definition set_hidden (v : H) (p : parser) : parser :=
  mk_parser (_lexer p) (_lexer_backup p) (_token p) (_token_next p) (_token_backup p) (_errors p) (_next_id p) (_current_block p) (_current_function p) (_loop_break_target_stack p) (_loop_continue_target_stack p) (_functions p) (_uniforms p) (_global_ubo_type p) (_global_ubo_variable p) (_global_ubo_offset p) (_texture_semantics p) (_blocks p) (_decorations p) (_member_decorations p) (_member_names p) (_files p) v.

(** ** The monad of parser actions

    An action runs on a parser state and either finishes with a value and a
    state or does not finish: the loop budget of the model ran out, the
    source has no defined behaviour, or an exception left the parser. *)

Inductive abort : Type :=
| out_of_fuel
| undefined_behaviour
| assertion_failed
| thrown (e : exception).

Inductive outcome (A : Type) : Type :=
| Done (a : A) (p : parser)
| Abort (why : abort).
Arguments Abort {A} why.

Definition M (A : Type) : Type := parser -> outcome A.

Definition ret {A} (a : A) : M A := fun p => Done a p.

Definition bind {A B} (c : M A) (k : A -> M B) : M B :=
  fun p => match c p with
           | Done a p' => k a p'
           | Abort why => Abort why
           end.

Definition get : M parser := fun p => Done p p.
Definition gets {A} (f : parser -> A) : M A := fun p => Done (f p) p.
Definition modify (f : parser -> parser) : M unit := fun p => Done tt (f p).
Definition fail {A} (why : abort) : M A := fun _ => Abort why.

Definition lift_cxx {A} (c : cxx A) : M A :=
  match c with
  | Returns a => ret a
  | Throws e => fail (thrown e)
  end.

End Parser.

Arguments Abort {H A} why.
Arguments ret {H A} a.
Arguments fail {H A} why.
Arguments get {H}.

Declare Scope parser_scope.
Delimit Scope parser_scope with parser.
Notation "x <- c ;; k" := (bind c (fun x => k))
  (at level 61, c at next level, right associativity) : parser_scope.
Notation "' pat <- c ;; k" := (bind c (fun x => match x with pat => k end))
  (at level 61, pat pattern, c at next level, right associativity) : parser_scope.
Notation "c ;; k" := (bind c (fun _ => k))
  (at level 61, right associativity) : parser_scope.
Local Open Scope parser_scope.

(** Loops: the body either goes round again with a new loop state or
    leaves the loop with a result. *)
Inductive loop_step (S R : Type) : Type :=
| Continue (s : S)
| Break (r : R).
Arguments Continue {S R} s.
Arguments Break {S R} r.

Fixpoint loop {H S R} (fuel : nat) (body : S -> M H (loop_step S R)) (s : S) : M H R :=
  match fuel with
  | O => fail out_of_fuel
  | Datatypes.S n =>
      r <- body s ;;
      match r with
      | Continue s' => loop n body s'
      | Break r => ret r
      end
  end.

(** ** Collaborators outside effect_parser.cpp

    The symbol table, the IR builder's pools and the access chain engine are
    used by the parser but defined elsewhere.  They act on the same parser
    state.  The last fields before [default_pass], and
    [add_struct_member_access], are the places of functions of
    effect_parser.cpp that are written down after the statement compiler:
    [effect_parser] fills them. *)
Record externals (H : Type) : Type := mk_externals {
  (* lexer *)
  id_to_name : tokenid -> string;
  (* symbol table *)
  find_symbol : string -> M H symbol;
  find_symbol_in : string -> scope -> bool -> M H symbol;
  insert_symbol : string -> symbol -> bool -> M H bool;
  current_scope : M H scope;
  enter_scope : M H unit;
  leave_scope : M H unit;
  enter_namespace : string -> M H unit;
  leave_namespace : M H unit;
  resolve_function_call : string -> list spv_expression -> scope -> symbol
                          -> M H (bool * bool * symbol);
  (* types *)
  merge : spv_type -> spv_type -> spv_type;
  rank : spv_type -> spv_type -> Z;
  (* binary32 arithmetic of the host on bit patterns, and the conversion
     [static_cast<float>(double)] *)
  host_float : Op -> Z -> Z -> Z;
  narrow_double : Z -> Z;
  (* IR builder *)
  convert_type : spv_type -> M H Z;
  convert_constant : spv_type -> spv_constant -> M H Z;
  define_struct : option Z -> string -> list Z -> M H Z;
  define_variable : option Z -> option string -> location -> spv_type -> StorageClass
                    -> option Z -> M H Z;
  glsl_ext : Z;
  leave_function : M H unit;
  write_module : parser H -> list Z;
  (* access chains *)
  add_cast_operation : spv_expression -> spv_type -> M H spv_expression;
  add_swizzle_access : spv_expression -> list Z -> Z -> spv_expression;
  add_struct_member_access : spv_expression -> string -> location
                             -> M H (bool * spv_expression);
  access_chain_load : nat -> spv_expression -> M H Z;
  access_chain_store : nat -> spv_expression -> Z -> spv_type -> M H unit;
  (* the expression levels and declarations, filled by [effect_parser] *)
  parse_expression_unary : nat -> M H (bool * spv_expression);
  parse_expression_multary : nat -> spv_expression -> Z -> M H (bool * spv_expression);
  parse_struct : M H bool;
  parse_function : spv_type -> string -> M H bool;
  parse_variable_properties : spv_variable_info -> M H (bool * spv_variable_info);
  synthesize_entry_point : string -> location -> symbol -> M H string;
  default_pass : spv_pass_info
}.

Section Compiler.

Context {H : Type}.
Variable E : externals H.

(** Width in bits of [size_t] and [uintptr_t] on the target. *)
Variable ptr_bits : Z.

Abbreviation M := (M H).
Abbreviation parser := (parser H).

(** ** Error handling *)

Definition error (loc : location) (code : Z) (message : string) : M unit :=
  modify (fun p => set_errors (_errors p ++ [mk_diagnostic sev_error loc code message])%list p).

Definition warning (loc : location) (code : Z) (message : string) : M unit :=
  modify (fun p => set_errors (_errors p ++ [mk_diagnostic sev_warning loc code message])%list p).

(** [return error(...), false;] *)
Definition error_false (loc : location) (code : Z) (message : string) : M bool :=
  error loc code message ;; ret false.

(** ** Token management *)

(** [_lexer->lex()]: the next token of the stream, [end_of_file] once the
    input is used up. *)
Definition lex : M token :=
  fun p => match _lexer p with
           | None => Abort undefined_behaviour
           | Some [] => Done eof_token p
           | Some (t :: r) => Done t (set_lexer (Some r) p)
           end.

Definition backup : M unit :=
  fun p => match _lexer p with
           | None => Abort undefined_behaviour
           | Some l => Done tt (set_token_backup (_token_next p)
                                  (set_lexer (Some l) (set_lexer_backup (Some l) p)))
           end.

Definition restore : M unit :=
  modify (fun p => set_token_next (_token_backup p)
                     (set_lexer (_lexer_backup p) (set_lexer_backup (_lexer p) p))).

Definition peek (tokid : tokenid) : M bool :=
  gets (fun p => tokenid_eqb (id (_token_next p)) tokid).

Definition consume : M unit :=
  modify (fun p => set_token (_token_next p) p) ;;
  t <- lex ;;
  modify (set_token_next t).

Definition accept (tokid : tokenid) : M bool :=
  b <- peek tokid ;;
  if b then consume ;; ret true else ret false.

(** [while (!accept(tokid) && !peek(end_of_file)) consume();] *)
Definition consume_until_body (tokid : tokenid) (_ : unit) : M (loop_step unit unit) :=
  a <- accept tokid ;;
  if a then ret (Break tt)
  else
    e <- peek end_of_file ;;
    if e then ret (Break tt) else consume ;; ret (Continue tt).

Definition remaining_tokens (p : parser) : nat :=
  match _lexer p with Some l => List.length l | None => O end.

(** Every round takes a token off the input, so the number of tokens left
    bounds the rounds. *)
Definition consume_until (tokid : tokenid) : M unit :=
  fun p => loop (remaining_tokens p + 2) (consume_until_body tokid) tt p.

Definition expect (tokid : tokenid) : M bool :=
  a <- accept tokid ;;
  if a then ret true
  else
    next <- gets (@_token_next H) ;;
    error (tok_location next) 3000
          ("syntax error: unexpected '" ++ id_to_name E (id next) ++ "', expected '"
           ++ id_to_name E tokid ++ "'") ;;
    ret false.

(** [if (!c) return r; k] *)
Definition require {A} (c : M bool) (r : M A) (k : M A) : M A :=
  b <- c ;; if b then k else r.

(** ** The IR builder, as far as the parser drives it directly *)

(** Modelled from the spec: section 4.8, "reserves monotonically increasing
    ids". *)
Definition make_id : M Z :=
  fun p => Done (_next_id p) (set_next_id (uint32 (_next_id p + 1)) p).

(** A fresh, empty basic block ([spv_basic_block b;]); the result is the
    reference to it. *)
Definition new_block : M nat :=
  fun p => Done (List.length (_blocks p)) (set_blocks (_blocks p ++ [[]])%list p).

Definition update_block (section : nat) (f : spv_basic_block -> spv_basic_block) : M unit :=
  modify (fun p => set_blocks
                     (match nth_error (_blocks p) section with
                      | Some b => set_nth section (f b) (_blocks p)
                      | None => _blocks p
                      end) p).

Definition block_of (p : parser) (section : nat) : spv_basic_block :=
  nth section (_blocks p) [].

(** Modelled from the spec: [add_node_without_result(section, location, op)]
    followed by its [.add(...)] calls appends one instruction without a
    result id to the block. *)
Definition add_node_without_result (section : nat) (loc : location) (o : Op)
           (args : list Z) : M unit :=
  update_block section (fun b => b ++ [mk_instruction o 0 0 args loc])%list.

(** Modelled from the spec: [add_node(section, location, op, type)] with its
    [.add(...)] calls appends one instruction with a fresh result id and
    gives that id. *)
Definition add_node (section : nat) (loc : location) (o : Op) (type_id : Z)
           (args : list Z) : M Z :=
  r <- make_id ;;
  update_block section (fun b => b ++ [mk_instruction o type_id r args loc])%list ;;
  ret r.

(** A node that is completed after other instructions were emitted is
    referred to by its block and position: [node_position] is where the
    next instruction of the block goes, [node_add] is [node.add(...)]. *)
Definition node_position (section : nat) : M nat :=
  gets (fun p => List.length (block_of p section)).

Definition node_add (section position : nat) (args : list Z) : M unit :=
  update_block section
    (fun b => match nth_error b position with
              | Some i => set_nth position
                            (mk_instruction (op i) (result_type i) (result i)
                                            (operands i ++ args) (ins_location i)) b
              | None => b
              end).

(** [section.instructions.insert(section.instructions.end(), other.begin(),
    other.end())]. *)
Definition append_block (section other : nat) : M unit :=
  b <- gets (fun p => block_of p other) ;;
  update_block section (fun s => s ++ b)%list.

(** Modelled from the spec: section 4.5.  Each statement runs inside the
    open block [_current_block]; entering a block emits its label; leaving
    a block emits exactly one terminator and clears [_current_block].  With
    no block open there is nothing to leave. *)
Definition enter_block (section : nat) (label : Z) : M unit :=
  modify (set_current_block label) ;;
  update_block section (fun b => b ++ [mk_instruction OpLabel 0 label [] no_location])%list.

Definition leave_block (section : nat) (terminator : Op) (args : list Z) : M unit :=
  cur <- gets (@_current_block H) ;;
  if cur =? 0 then ret tt
  else
    add_node_without_result section no_location terminator args ;;
    modify (set_current_block 0).

Definition leave_block_and_branch (section : nat) (target : Z) : M unit :=
  leave_block section OpBranch [target].

Definition leave_block_and_branch_conditional (section : nat) (condition t f : Z) : M unit :=
  leave_block section OpBranchConditional [condition; t; f].

Definition leave_block_and_kill (section : nat) : M unit :=
  leave_block section OpKill [].

Definition leave_block_and_return (section : nat) (value : Z) : M unit :=
  if value =? 0 then leave_block section OpReturn []
  else leave_block section OpReturnValue [value].

(** Modelled from the spec: section 4.8, the builder "records decorations
    and member-decorations". *)
Definition add_decoration (target : Z) (d : Decoration) (values : list Z) : M unit :=
  modify (fun p => set_decorations (_decorations p ++ [mk_decoration target d values])%list p).

Definition add_member_decoration (target member : Z) (d : Decoration) (values : list Z)
  : M unit :=
  modify (fun p => set_member_decorations
                     (_member_decorations p
                        ++ [mk_member_decoration target member d (map uint32 values)])%list p).

Definition add_member_name (target member : Z) (name : string) : M unit :=
  modify (fun p => set_member_names (_member_names p ++ [(target, member, name)])%list p).

(** ** Type parsing *)

(** Modelled from the spec: the lexer contract (section 6.1) lists the
    numeric type keywords per base type, vectors [T, T2, T3, T4] and square
    matrices [T2x2, T3x3, T4x4]; their enumerators are consecutive in that
    order, which the arithmetic of [accept_type_class] relies on. *)
Definition tokenid_value (t : tokenid) : Z :=
  match t with
  | bool_ => 0 | bool2 => 1 | bool3 => 2 | bool4 => 3
  | bool2x2 => 4 | bool3x3 => 5 | bool4x4 => 6
  | int_ => 7 | int2 => 8 | int3 => 9 | int4 => 10
  | int2x2 => 11 | int3x3 => 12 | int4x4 => 13
  | uint_ => 14 | uint2 => 15 | uint3 => 16 | uint4 => 17
  | uint2x2 => 18 | uint3x3 => 19 | uint4x4 => 20
  | float_ => 21 | float2 => 22 | float3 => 23 | float4 => 24
  | float2x2 => 25 | float3x3 => 26 | float4x4 => 27
  | _ => 28
  end.

(** The [switch (_token_next.id)] of [accept_type_class]: the type a
    keyword stands for, [None] in the [default] case. *)
Definition type_of_keyword (t : tokenid) (type : spv_type) : option spv_type :=
  let vec b first := set_dims (set_base type b)
                              (uint32 (1 + tokenid_value t - tokenid_value first)) 1 in
  let mat b first :=
    let r := uint32 (2 + tokenid_value t - tokenid_value first) in
    set_dims (set_base type b) r r in
  match t with
  | void_ => Some (set_base type datatype_void)
  | bool_ | bool2 | bool3 | bool4 => Some (vec datatype_bool bool_)
  | bool2x2 | bool3x3 | bool4x4 => Some (mat datatype_bool bool2x2)
  | int_ | int2 | int3 | int4 => Some (vec datatype_int int_)
  | int2x2 | int3x3 | int4x4 => Some (mat datatype_int int2x2)
  | uint_ | uint2 | uint3 | uint4 => Some (vec datatype_uint uint_)
  | uint2x2 | uint3x3 | uint4x4 => Some (mat datatype_uint uint2x2)
  | float_ | float2 | float3 | float4 => Some (vec datatype_float float_)
  | float2x2 | float3x3 | float4x4 => Some (mat datatype_float float2x2)
  | string_ => Some (set_base type datatype_string)
  | texture => Some (set_base type datatype_texture)
  | sampler => Some (set_base type datatype_sampler)
  | _ => None
  end.

Definition unexpected (what : string) : M unit :=
  next <- gets (@_token_next H) ;;
  error (tok_location next) 3000
        ("syntax error: unexpected '" ++ id_to_name E (id next) ++ "'" ++ what).

(** [expect(',') && expect(int_literal)] followed by the range check on
    the dimension; gives the dimension read. *)
Definition expect_dimension (code : Z) (message : string) : M (option Z) :=
  require (expect (chr ",")) (ret None) (
  require (expect int_literal) (ret None) (
    tok <- gets (@_token H) ;;
    if (literal_as_int tok <? 1) || (4 <? literal_as_int tok)
    then error (tok_location tok) code message ;; ret None
    else ret (Some (literal_as_int tok)))).

Fixpoint accept_type_class (fuel : nat) (type : spv_type) : M (bool * spv_type) :=
  match fuel with
  | O => fail out_of_fuel
  | S fuel =>
    let type := set_dims type 0 0 in
    is_identifier <- peek identifier ;;
    if is_identifier then
      let type := set_base type datatype_struct in
      next <- gets (@_token_next H) ;;
      sym <- find_symbol E (literal_as_string next) ;;
      if negb (sym_id sym =? 0) && Op_eqb (sym_op sym) OpTypeStruct
      then consume ;; ret (true, set_definition type (sym_id sym))
      else ret (false, type)
    else
    is_vector_kw <- accept vector ;;
    if is_vector_kw then
      let type := set_dims (set_base type datatype_float) 4 1 in
      lt <- accept (chr "<") ;;
      if lt then
        '(ok, type) <- accept_type_class fuel type ;;
        if negb ok then unexpected ", expected vector element type" ;; ret (false, type)
        else if negb (is_scalar type) then
          tok <- gets (@_token H) ;;
          error (tok_location tok) 3122 "vector element type must be a scalar type" ;;
          ret (false, type)
        else
          r <- expect_dimension 3052 "vector dimension must be between 1 and 4" ;;
          match r with
          | None => ret (false, type)
          | Some r =>
              let type := set_dims type r (cols type) in
              require (expect (chr ">")) (ret (false, type)) (ret (true, type))
          end
      else ret (true, type)
    else
    is_matrix_kw <- accept matrix ;;
    if is_matrix_kw then
      let type := set_dims (set_base type datatype_float) 4 4 in
      lt <- accept (chr "<") ;;
      if lt then
        '(ok, type) <- accept_type_class fuel type ;;
        if negb ok then unexpected ", expected matrix element type" ;; ret (false, type)
        else if negb (is_scalar type) then
          tok <- gets (@_token H) ;;
          error (tok_location tok) 3123 "matrix element type must be a scalar type" ;;
          ret (false, type)
        else
          r <- expect_dimension 3053 "matrix dimensions must be between 1 and 4" ;;
          match r with
          | None => ret (false, type)
          | Some r =>
              let type := set_dims type r (cols type) in
              c <- expect_dimension 3053 "matrix dimensions must be between 1 and 4" ;;
              match c with
              | None => ret (false, type)
              | Some c =>
                  let type := set_dims type (rows type) c in
                  require (expect (chr ">")) (ret (false, type)) (ret (true, type))
              end
          end
      else ret (true, type)
    else
    next <- gets (@_token_next H) ;;
    match type_of_keyword (id next) type with
    | None => ret (false, type)
    | Some type => consume ;; ret (true, type)
    end
  end.

(** One round of [accept_type_qualifiers]: the qualifier keywords in the
    order the function tries them. *)
Definition qualifier_keywords : list (tokenid * Z) :=
  [ (extern_, qualifier_extern); (static_, qualifier_static);
    (uniform_, qualifier_uniform); (volatile_, qualifier_volatile);
    (precise, qualifier_precise);
    (in_, qualifier_in); (out, qualifier_out); (inout, qualifier_inout);
    (const_, qualifier_const);
    (linear, qualifier_linear); (noperspective, qualifier_noperspective);
    (centroid, qualifier_centroid); (nointerpolation, qualifier_nointerpolation) ].

Fixpoint accept_qualifier_keywords (l : list (tokenid * Z)) (q : Z) : M Z :=
  match l with
  | [] => ret q
  | (t, bit) :: r =>
      a <- accept t ;;
      accept_qualifier_keywords r (if a then Z.lor q bit else q)
  end.

Fixpoint accept_type_qualifiers (fuel : nat) (type : spv_type) : M (bool * spv_type) :=
  match fuel with
  | O => fail out_of_fuel
  | S fuel =>
      q <- accept_qualifier_keywords qualifier_keywords 0 ;;
      if q =? 0 then ret (false, type)
      else
        (if Z.land (qualifiers type) q =? q
         then tok <- gets (@_token H) ;;
              warning (tok_location tok) 3048 "duplicate usages specified"
         else ret tt) ;;
        let type := set_qualifiers type (Z.lor (qualifiers type) q) in
        '(_, type) <- accept_type_qualifiers fuel type ;;
        ret (true, type)
  end.

Definition parse_type (fuel : nat) (type : spv_type) : M (bool * spv_type) :=
  let type := set_qualifiers type 0 in
  '(_, type) <- accept_type_qualifiers fuel type ;;
  next <- gets (@_token_next H) ;;
  let loc := tok_location next in
  '(ok, type) <- accept_type_class fuel type ;;
  if negb ok then ret (false, type)
  else if is_integral type
          && (has type qualifier_centroid || has type qualifier_noperspective)
  then error loc 4576
         "signature specifies invalid interpolation mode for integer component type" ;;
       ret (false, type)
  else if has type qualifier_centroid && negb (has type qualifier_noperspective)
  then ret (true, set_qualifiers type (Z.lor (qualifiers type) qualifier_linear))
  else ret (true, type).

(** [assert(c)] *)
Definition assert (c : bool) : M unit :=
  if c then ret tt else fail assertion_failed.

(** ** Expression parsing: operators *)

Definition accept_unary_op : M (option Op) :=
  next <- gets (@_token_next H) ;;
  let found o := consume ;; ret (Some o) in
  if tokenid_eqb (id next) exclaim then found OpLogicalNot
  else if tokenid_eqb (id next) plus then found OpNop
  else if tokenid_eqb (id next) minus then found OpFNegate
  else if tokenid_eqb (id next) tilde then found OpNot
  else if tokenid_eqb (id next) plus_plus then found OpFAdd
  else if tokenid_eqb (id next) minus_minus then found OpFSub
  else ret None.

Definition accept_postfix_op (type : spv_type) : M (option Op) :=
  next <- gets (@_token_next H) ;;
  let found o := consume ;; ret (Some o) in
  if tokenid_eqb (id next) plus_plus
  then found (if is_integral type then OpIAdd else OpFAdd)
  else if tokenid_eqb (id next) minus_minus
  then found (if is_integral type then OpISub else OpFSub)
  else ret None.

(** The operator table of [peek_multary_op]: opcode and precedence. *)
Definition multary_op_table : list (tokenid * (Op * Z)) :=
  [ (percent, (OpFRem, 11)); (ampersand, (OpBitwiseAnd, 6)); (star, (OpFMul, 11));
    (plus, (OpFAdd, 10)); (minus, (OpFSub, 10)); (slash, (OpFDiv, 11));
    (less, (OpFOrdLessThan, 8)); (greater, (OpFOrdGreaterThan, 8));
    (question, (OpSelect, 1)); (caret, (OpBitwiseXor, 5)); (pipe, (OpBitwiseOr, 4));
    (exclaim_equal, (OpLogicalNotEqual, 7)); (ampersand_ampersand, (OpLogicalAnd, 3));
    (less_less, (OpShiftLeftLogical, 9)); (less_equal, (OpFOrdLessThanEqual, 8));
    (equal_equal, (OpLogicalEqual, 7)); (greater_greater, (OpShiftRightLogical, 9));
    (greater_equal, (OpFOrdGreaterThanEqual, 8)); (pipe_pipe, (OpLogicalOr, 2)) ].

Fixpoint lookup_token {A} (t : tokenid) (l : list (tokenid * A)) : option A :=
  match l with
  | [] => None
  | (k, v) :: r => if tokenid_eqb t k then Some v else lookup_token t r
  end.

Definition peek_multary_op : M (option (Op * Z)) :=
  gets (fun p => lookup_token (id (_token_next p)) multary_op_table).

Definition assignment_op (t : tokenid) (type : spv_type) : option Op :=
  let arith (u s f : Op) :=
    if is_integral type then (if is_signed type then s else u) else f in
  if tokenid_eqb t equal then Some OpNop
  else if tokenid_eqb t percent_equal then Some (arith OpUMod OpSRem OpFRem)
  else if tokenid_eqb t ampersand_equal then Some OpBitwiseAnd
  else if tokenid_eqb t star_equal then Some (if is_integral type then OpIMul else OpFMul)
  else if tokenid_eqb t plus_equal then Some (if is_integral type then OpIAdd else OpFAdd)
  else if tokenid_eqb t minus_equal then Some (if is_integral type then OpISub else OpFSub)
  else if tokenid_eqb t slash_equal then Some (arith OpUDiv OpSDiv OpFDiv)
  else if tokenid_eqb t less_less_equal then Some OpShiftLeftLogical
  else if tokenid_eqb t greater_greater_equal
  then Some (if is_signed type then OpShiftRightArithmetic else OpShiftRightLogical)
  else if tokenid_eqb t caret_equal then Some OpBitwiseXor
  else if tokenid_eqb t pipe_equal then Some OpBitwiseOr
  else None.

Definition accept_assignment_op (type : spv_type) : M (option Op) :=
  next <- gets (@_token_next H) ;;
  match assignment_op (id next) type with
  | Some o => consume ;; ret (Some o)
  | None => ret None
  end.

(** ** Expression parsing: literals *)

Definition const_type (b : datatype) (r c : Z) : spv_type := type4 b r c qualifier_const.

(** [while (accept(string_literal)) value += _token.literal_as_string;] *)
Definition string_literal_body (value : string) : M (loop_step string string) :=
  more <- accept string_literal ;;
  if more then
    tok <- gets (@_token H) ;;
    ret (Continue (value ++ literal_as_string tok))
  else ret (Break value).

(** The literal branches of [parse_expression_unary]; [None] when the next
    token is not a literal.  [loc] is the location of the first token of
    the expression. *)
Definition unary_literal (fuel : nat) (loc : location) : M (option spv_expression) :=
  let constant t v := ret (Some (reset_to_rvalue_constant t loc (scalar_constant v))) in
  a <- accept true_literal ;;
  if a then constant (const_type datatype_bool 1 1) 1 else
  a <- accept false_literal ;;
  if a then constant (const_type datatype_bool 1 1) 0 else
  a <- accept int_literal ;;
  if a then tok <- gets (@_token H) ;;
            constant (const_type datatype_int 1 1) (literal_as_int tok) else
  a <- accept uint_literal ;;
  if a then tok <- gets (@_token H) ;;
            constant (const_type datatype_uint 1 1) (literal_as_uint tok) else
  a <- accept float_literal ;;
  if a then
    (* Interpret float bit pattern as int *)
    tok <- gets (@_token H) ;;
    constant (const_type datatype_float 1 1) (literal_as_float tok) else
  a <- accept double_literal ;;
  if a then
    (* Convert double literal to float literal for now *)
    tok <- gets (@_token H) ;;
    warning loc 5000 "double literal truncated to float literal" ;;
    constant (const_type datatype_float 1 1) (narrow_double E (literal_as_double tok)) else
  a <- accept string_literal ;;
  if a then
    tok <- gets (@_token H) ;;
    (* Multiple string literals in sequence are concatenated into a single
       string literal *)
    value <- loop fuel string_literal_body (literal_as_string tok) ;;
    ret (Some (reset_to_rvalue_constant (const_type datatype_string 0 0) loc
                 (mk_constant (repeat 0 16) value [])))
  else ret None.

(** ** Expression parsing: constant folding of binary operators *)

(** The [as_float] view of a lane: the IEEE 754 binary32 value of the bit
    pattern. *)
Definition float_of_bits (x : Z) : spec_float :=
  let s := Z.testbit x 31 in
  let e := Z.land (Z.shiftr x 23) 255 in
  let m := Z.land x (2 ^ 23 - 1) in
  if e =? 0 then
    match m with
    | Zpos mp => S754_finite s mp (-149)
    | _ => S754_zero s
    end
  else if e =? 255 then
    if m =? 0 then S754_infinity s else S754_nan
  else
    match m + 2 ^ 23 with
    | Zpos mp => S754_finite s mp (e - 150)
    | _ => S754_nan
    end.

(** [a == b], [a != b], [a < b], [a <= b] on [float]. *)
Definition float_eq (a b : Z) : bool := SFeqb (float_of_bits a) (float_of_bits b).
Definition float_ne (a b : Z) : bool := negb (float_eq a b).
Definition float_lt (a b : Z) : bool := SFltb (float_of_bits a) (float_of_bits b).
Definition float_le (a b : Z) : bool := SFleb (float_of_bits a) (float_of_bits b).

(** [-a] on [float]: the sign bit is flipped. *)
Definition float_neg (a : Z) : Z := Z.lxor a (2 ^ 31).

Definition INT_MIN : Z := - 2 ^ 31.

(** [a / b] and [a % b] on [int]: undefined for a zero divisor and for
    [INT_MIN / -1]. *)
Definition int_div (a b : Z) : option Z :=
  if (b =? 0) || ((a =? INT_MIN) && (b =? -1)) then None else Some (Z.quot a b).
Definition int_rem (a b : Z) : option Z :=
  if (b =? 0) || ((a =? INT_MIN) && (b =? -1)) then None else Some (Z.rem a b).
Definition uint_div (a b : Z) : option Z := if b =? 0 then None else Some (a / b).
Definition uint_mod (a b : Z) : option Z := if b =? 0 then None else Some (a mod b).

(** Shifts of 32-bit operands: undefined for a count outside 0..31. *)
Definition shift_count_ok (n : Z) : bool := (0 <=? n) && (n <? 32).

(** [for (i = 0; i < n; ++i) data.as_uint[i] = f(data, i);] on the sixteen
    lanes of the union; [None] stands for undefined behaviour. *)
Fixpoint for_lanes (n : nat) (i : nat) (f : spv_constant -> nat -> option Z)
         (data : spv_constant) : option spv_constant :=
  match n with
  | O => Some data
  | S n =>
      if (i <? 16)%nat then
        match f data i with
        | Some v => for_lanes n (S i) f (set_lane data i v)
        | None => None
        end
      else None
  end.

(** The [switch (op)] over two constant operands [lhs] and [rhs] already
    cast to [type]; [data] starts as a copy of [lhs.constant].  [OpFOrdEqual]
    and [OpFOrdNotEqual] have no [break]: control falls through into the
    integer case that follows. *)
Definition fold_binary (o : Op) (type : spv_type) (lhs rhs : spv_constant)
  : option spv_constant :=
  let n := Z.to_nat (components type) in
  let data := lhs in
  let lanes f := for_lanes n 0 f in
  let l i := as_uint lhs i in
  let r i := as_uint rhs i in
  let li i := as_signed32 (as_uint lhs i) in
  let ri i := as_signed32 (as_uint rhs i) in
  let flag (b : bool) := Some (Z.b2z b) in
  let uint_equal := lanes (fun _ i => flag (l i =? r i)) in
  let uint_not_equal := lanes (fun _ i => flag (negb (l i =? r i))) in
  match o with
  | OpFRem | OpFMul | OpFAdd | OpFSub | OpFDiv =>
      lanes (fun d i => Some (host_float E o (as_uint d i) (r i))) data
  | OpSRem => lanes (fun d i => int_rem (as_signed32 (as_uint d i)) (ri i)) data
  | OpUMod => lanes (fun d i => uint_mod (as_uint d i) (r i)) data
  | OpIMul => lanes (fun d i => Some (as_uint d i * r i)) data
  | OpIAdd => lanes (fun d i => Some (as_uint d i + r i)) data
  | OpISub => lanes (fun d i => Some (as_uint d i - r i)) data
  | OpSDiv => lanes (fun d i => int_div (as_signed32 (as_uint d i)) (ri i)) data
  | OpUDiv => lanes (fun d i => uint_div (as_uint d i) (r i)) data
  | OpLogicalAnd | OpBitwiseAnd => lanes (fun d i => Some (Z.land (as_uint d i) (r i))) data
  | OpLogicalOr | OpBitwiseOr => lanes (fun d i => Some (Z.lor (as_uint d i) (r i))) data
  | OpBitwiseXor => lanes (fun d i => Some (Z.lxor (as_uint d i) (r i))) data
  | OpFOrdLessThan => lanes (fun _ i => flag (float_lt (l i) (r i))) data
  | OpSLessThan => lanes (fun _ i => flag (li i <? ri i)) data
  | OpULessThan => lanes (fun _ i => flag (l i <? r i)) data
  | OpFOrdLessThanEqual => lanes (fun _ i => flag (float_le (l i) (r i))) data
  | OpSLessThanEqual => lanes (fun _ i => flag (li i <=? ri i)) data
  | OpULessThanEqual => lanes (fun _ i => flag (l i <=? r i)) data
  | OpFOrdGreaterThan => lanes (fun _ i => flag (float_lt (r i) (l i))) data
  | OpSGreaterThan => lanes (fun _ i => flag (ri i <? li i)) data
  | OpUGreaterThan => lanes (fun _ i => flag (r i <? l i)) data
  | OpFOrdGreaterThanEqual => lanes (fun _ i => flag (float_le (r i) (l i))) data
  | OpSGreaterThanEqual => lanes (fun _ i => flag (ri i <=? li i)) data
  | OpUGreaterThanEqual => lanes (fun _ i => flag (r i <=? l i)) data
  | OpFOrdEqual =>
      match lanes (fun _ i => flag (float_eq (l i) (r i))) data with
      | Some data => uint_equal data
      | None => None
      end
  | OpIEqual | OpLogicalEqual => uint_equal data
  | OpFOrdNotEqual =>
      match lanes (fun _ i => flag (float_ne (l i) (r i))) data with
      | Some data => uint_not_equal data
      | None => None
      end
  | OpINotEqual | OpLogicalNotEqual => uint_not_equal data
  | OpShiftLeftLogical =>
      lanes (fun d i => if shift_count_ok (r i)
                        then Some (Z.shiftl (as_uint d i) (r i)) else None) data
  | OpShiftRightArithmetic =>
      lanes (fun d i => if shift_count_ok (ri i)
                        then Some (Z.shiftr (as_signed32 (as_uint d i)) (ri i)) else None) data
  | OpShiftRightLogical =>
      lanes (fun d i => if shift_count_ok (r i)
                        then Some (Z.shiftr (as_uint d i) (r i)) else None) data
  | _ => Some data
  end.

(** The [switch (op)] that folds a prefix operator on a constant operand. *)
Definition fold_unary (o : Op) (type : spv_type) (c : spv_constant) : option spv_constant :=
  let n := Z.to_nat (components type) in
  match o with
  | OpLogicalNot => for_lanes n 0 (fun d i => Some (Z.b2z (as_uint d i =? 0))) c
  | OpFNegate => for_lanes n 0 (fun d i => Some (float_neg (as_uint d i))) c
  | OpSNegate =>
      for_lanes n 0 (fun d i => if as_signed32 (as_uint d i) =? INT_MIN then None
                                else Some (- as_signed32 (as_uint d i))) c
  | OpNot => for_lanes n 0 (fun d i => Some (Z.lnot (as_uint d i))) c
  | _ => Some c
  end.

(** The operator the parser selects for [==] and [!=] from the merged
    operand type. *)
Definition select_equality_op (o : Op) (type : spv_type) : Op :=
  if is_integral type || is_floating_point type then
    match o with
    | OpLogicalEqual => if is_integral type then OpIEqual else OpFOrdEqual
    | OpLogicalNotEqual => if is_integral type then OpINotEqual else OpFOrdNotEqual
    | _ => o
    end
  else o.

(** The constant branch of a binary operation: [if (lhs.is_constant &&
    rhs.is_constant) { ... }]. *)
Definition fold_constant_operands (o : Op) (type : spv_type) (lhs rhs : spv_expression)
  : M spv_expression :=
  lhs <- add_cast_operation E lhs type ;;
  rhs <- add_cast_operation E rhs type ;;
  match fold_binary o type (exp_constant lhs) (exp_constant rhs) with
  | Some data => ret (reset_to_rvalue_constant type (exp_location lhs) data)
  | None => fail undefined_behaviour
  end.

(** What the [float]-ordered comparison gives in lane [i]. *)
Definition float_ordered_comparison (o : Op) (lhs rhs : spv_constant) (i : nat) : Z :=
  match o with
  | OpFOrdNotEqual => Z.b2z (float_ne (as_uint lhs i) (as_uint rhs i))
  | _ => Z.b2z (float_eq (as_uint lhs i) (as_uint rhs i))
  end.

(** ** Expression parsing: swizzles *)

Inductive swizzle_set : Type := xyzw | rgba | stpq.

Definition swizzle_set_eqb (a b : swizzle_set) : bool :=
  match a, b with
  | xyzw, xyzw | rgba, rgba | stpq, stpq => true
  | _, _ => false
  end.

(** The [switch (subscript[i])] of a vector swizzle. *)
Definition swizzle_component (c : ascii) : option (Z * swizzle_set) :=
  match c with
  | "x"%char => Some (0, xyzw) | "y"%char => Some (1, xyzw)
  | "z"%char => Some (2, xyzw) | "w"%char => Some (3, xyzw)
  | "r"%char => Some (0, rgba) | "g"%char => Some (1, rgba)
  | "b"%char => Some (2, rgba) | "a"%char => Some (3, rgba)
  | "s"%char => Some (0, stpq) | "t"%char => Some (1, stpq)
  | "p"%char => Some (2, stpq) | "q"%char => Some (3, stpq)
  | _ => None
  end.

(** What parsing a swizzle gives: the offsets read (in order) and the
    flag [constant], or the message of error 3018, or no defined result. *)
Inductive swizzle_result : Type :=
| swizzle_ok (offsets : list Z) (constant : bool)
| swizzle_error (message : string)
| swizzle_undefined.

(** [for (k = 0; k < i; ++k) if (offsets[k] == offsets[i]) { constant = true;
    break; }] *)
Definition repeats (offsets : list Z) (o : Z) : bool := existsb (Z.eqb o) offsets.

(** The loop over the characters of a vector swizzle; [offsets] and
    [previous] are the offsets and the set of the characters before. *)
Fixpoint vector_swizzle_loop (subscript : string) (rest : string) (type_rows : Z)
         (offsets : list Z) (previous : option swizzle_set) (constant : bool)
  : swizzle_result :=
  match rest with
  | EmptyString => swizzle_ok offsets constant
  | String c rest =>
      match swizzle_component c with
      | None => swizzle_error ("invalid subscript '" ++ subscript ++ "'")
      | Some (o, set) =>
          if match previous with
             | Some set' => negb (swizzle_set_eqb set set')
             | None => false
             end
          then swizzle_error ("invalid subscript '" ++ subscript ++ "', mixed swizzle sets")
          else if type_rows <=? o
          then swizzle_error ("invalid subscript '" ++ subscript ++ "', swizzle out of range")
          else vector_swizzle_loop subscript rest type_rows (offsets ++ [o])%list (Some set)
                                   (constant || repeats offsets o)
      end
  end.

Definition vector_swizzle (subscript : string) (type_rows : Z) : swizzle_result :=
  if 4 <? Str.size subscript
  then swizzle_error ("invalid subscript '" ++ subscript ++ "', swizzle too long")
  else vector_swizzle_loop subscript subscript type_rows [] None false.

(** [subscript[k]] on a [const std::string]: the terminating zero at
    [k == size()], undefined beyond. *)
Definition char_at (s : string) (k : nat) : option Z :=
  match String.get k s with
  | Some c => Some (Str.code c)
  | None => if (k =? String.length s)%nat then Some 0 else None
  end.

(** The loop of a matrix swizzle, [for (i = 0, j = 0; i < length;
    i += 3 + set, ++j)]; [rounds] bounds the iterations (each moves [i]
    forward by at least three characters). *)
Fixpoint matrix_swizzle_loop (rounds : nat) (subscript : string) (set : Z)
         (type_rows type_cols : Z) (i j : nat) (offsets : list Z) (constant : bool)
  : swizzle_result :=
  match rounds with
  | O => swizzle_ok offsets constant
  | S rounds =>
      if negb (i <? String.length subscript)%nat then swizzle_ok offsets constant
      else
        let coefficient := if set =? 0 then 1 else 0 in
        let s := Z.to_nat set in
        let invalid := swizzle_error ("invalid subscript '" ++ subscript ++ "'") in
        let out_of_range (c : Z) := (c <? 48 + coefficient) || (51 + coefficient <? c) in
        match char_at subscript i with
        | None => swizzle_undefined
        | Some c0 =>
        if negb (c0 =? 95) then invalid else
        match char_at subscript (i + s + 1) with
        | None => swizzle_undefined
        | Some c1 =>
        if out_of_range c1 then invalid else
        match char_at subscript (i + s + 2) with
        | None => swizzle_undefined
        | Some c2 =>
        if out_of_range c2 then invalid else
        match char_at subscript (i + 1) with
        | None => swizzle_undefined
        | Some cm =>
            if negb (set =? 0) && negb (cm =? 109)
            then swizzle_error ("invalid subscript '" ++ subscript ++ "', mixed swizzle sets")
            else
              let row := c1 - 48 - coefficient in
              let col := c2 - 48 - coefficient in
              if (type_rows <=? row) || (type_cols <=? col) || (3 <? j)%nat
              then swizzle_error ("invalid subscript '" ++ subscript
                                  ++ "', swizzle out of range")
              else
                let o := row * 4 + col in
                matrix_swizzle_loop rounds subscript set type_rows type_cols
                                    (i + 3 + s) (S j) (offsets ++ [o])%list
                                    (constant || repeats offsets o)
        end end end end
  end.

Definition matrix_swizzle (subscript : string) (type_rows type_cols : Z) : swizzle_result :=
  if Str.size subscript <? 3
  then swizzle_error ("invalid subscript '" ++ subscript ++ "'")
  else
    let set := match char_at subscript 1 with
               | Some 109 => 1
               | _ => 0
               end in
    matrix_swizzle_loop (String.length subscript) subscript set type_rows type_cols
                        0 0 [] false.

(** [signed char offsets[4] = { -1, -1, -1, -1 }] with the first entries
    written. *)
Definition offsets_array (offsets : list Z) : list Z :=
  firstn 4 (offsets ++ repeat (-1) 4)%list.

(** [exp.type.qualifiers = (exp.type.qualifiers | qualifier_const) &
    ~qualifier_uniform] when the swizzle repeats a component or the
    operand is uniform. *)
Definition swizzle_qualifiers (constant : bool) (e : spv_expression) : spv_expression :=
  if constant || has (exp_type e) qualifier_uniform
  then set_exp_type e
         (set_qualifiers (exp_type e)
            (Z.land (Z.lor (qualifiers (exp_type e)) qualifier_const)
                    (uint32 (Z.lnot qualifier_uniform))))
  else e.

(** The expression a swizzle leaves: the swizzle is added to the access
    chain of [e], then the qualifiers are adjusted. *)
Definition swizzled (e : spv_expression) (offsets : list Z) (constant : bool) (count : Z)
  : spv_expression :=
  swizzle_qualifiers constant (add_swizzle_access E e (offsets_array offsets) count).

(** The vector and the matrix branch of a [.subscript]: the swizzle is
    parsed, added to the access chain and the qualifiers are adjusted. *)
Definition apply_swizzle (r : swizzle_result) (count : Z) (loc : location)
           (e : spv_expression) : M (bool * spv_expression) :=
  match r with
  | swizzle_error message => error loc 3018 message ;; ret (false, e)
  | swizzle_undefined => fail undefined_behaviour
  | swizzle_ok offsets constant => ret (true, swizzled e offsets constant count)
  end.

Fixpoint scalar_swizzle_ok (s : string) (i : nat) : bool :=
  match s with
  | EmptyString => true
  | String c r =>
      if (negb (Ascii.eqb c "x") && negb (Ascii.eqb c "r") && negb (Ascii.eqb c "s"))
         || (3 <? i)%nat
      then false
      else scalar_swizzle_ok r (S i)
  end.

(** The [else if (accept('.'))] branch of the postfix loop. *)
Definition postfix_subscript (e : spv_expression) : M (bool * spv_expression) :=
  require (expect identifier) (ret (false, e)) (
    tok <- gets (@_token H) ;;
    let loc := tok_location tok in
    let subscript := literal_as_string tok in
    let type := exp_type e in
    call <- accept (chr "(") ;;
    if call then
      (if negb (is_struct type) || is_array type
       then error loc 3087 "object does not have methods"
       else error loc 3088 "structures do not have methods") ;;
      ret (false, e)
    else if is_array type then
      error loc 3018 "invalid subscript on array" ;; ret (false, e)
    else if is_vector type then
      apply_swizzle (vector_swizzle subscript (rows type)) (Str.size subscript) loc e
    else if is_matrix type then
      let set := match char_at subscript 1 with
                 | Some 109 => 1
                 | _ => 0
                 end in
      apply_swizzle (matrix_swizzle subscript (rows type) (cols type))
                    (Str.size subscript / (3 + set)) loc e
    else if is_struct type then
      '(ok, e) <- add_struct_member_access E e subscript loc ;;
      if negb ok then ret (false, e)
      else if has (exp_type e) qualifier_uniform
      then ret (true, swizzle_qualifiers false e)
      else ret (true, e)
    else if is_scalar type then
      if 4 <? Str.size subscript then
        error loc 3018 ("invalid subscript '" ++ subscript ++ "', swizzle too long") ;;
        ret (false, e)
      else if negb (scalar_swizzle_ok subscript 0) then
        error loc 3018 ("invalid subscript '" ++ subscript ++ "'") ;; ret (false, e)
      else
        e <- add_cast_operation E e (set_dims type (uint32 (Str.size subscript)) (cols type)) ;;
        ret (true, e)
    else
      error loc 3018 ("invalid subscript '" ++ subscript ++ "'") ;; ret (false, e)).

(** ** Expression parsing: calls *)

(** The constant one of a type: [one.as_uint[i] = is_floating_point ?
    0x3f800000u : 1u] for every component. *)
Definition constant_one (type : spv_type) : option spv_constant :=
  for_lanes (Z.to_nat (components type)) 0
            (fun _ _ => Some (if is_floating_point type then 1065353216 else 1))
            zero_constant.

Definition parameter_bases (parameters : list spv_expression) : list Z :=
  map exp_base parameters.

(** [_functions[_current_function].get() == symbol.function], the
    comparison of two addresses of function infos; reading past the arena
    is undefined. *)
Definition is_current_function (sym : symbol) : M bool :=
  cur <- gets (@_current_function H) ;;
  match cur with
  | None => ret false
  | Some i =>
      fs <- gets (@_functions H) ;;
      match nth_error fs i with
      | None => fail undefined_behaviour
      | Some _ =>
          ret match sym_function sym with
              | Some j => Nat.eqb i j
              | None => false
              end
      end
  end.

(** The end of a call expression, once [resolve_function_call] has picked
    [sym] and the parameters are set up: the intrinsics handled in place
    ([rcp], [saturate], [sincos]), the other intrinsics, and the user
    functions.  The result is the success flag and the new value of
    [exp]. *)
Definition emit_call (section : nat) (loc : location) (sym : symbol)
           (parameters : list spv_expression) (exp : spv_expression)
  : M (bool * spv_expression) :=
  let parameter (i : nat) : M spv_expression :=
    match nth_error parameters i with
    | Some e => ret e
    | None => fail undefined_behaviour
    end in
  if sym_id sym =? 268435457 then (* 0x10000001: rcp *)
    p0 <- parameter 0%nat ;;
    let t0 := exp_type p0 in
    match constant_one t0 with
    | None => fail undefined_behaviour
    | Some one =>
        constant <- convert_constant E t0 one ;;
        t <- convert_type E t0 ;;
        r <- add_node section loc
               (if is_integral t0 then (if is_signed t0 then OpSDiv else OpUDiv) else OpFDiv)
               t [constant; exp_base p0] ;;
        ret (true, reset_to_rvalue r (sym_type sym) loc)
    end
  else if sym_id sym =? 268435458 then (* 0x10000002: saturate *)
    p0 <- parameter 0%nat ;;
    let t0 := exp_type p0 in
    match constant_one t0 with
    | None => fail undefined_behaviour
    | Some one =>
        constant_one <- convert_constant E t0 one ;;
        constant_zero <- convert_constant E t0 zero_constant ;;
        t <- convert_type E t0 ;;
        r <- add_node section loc OpExtInst t
               [glsl_ext E;
                if is_integral t0 then (if is_signed t0 then 45 else 44) else 43;
                exp_base p0; constant_zero; constant_one] ;;
        ret (true, reset_to_rvalue r (sym_type sym) loc)
    end
  else if sym_id sym =? 268435459 then (* 0x10000003: sincos *)
    assert (Nat.eqb (List.length parameters) 3) ;;
    p0 <- parameter 0%nat ;;
    p1 <- parameter 1%nat ;;
    p2 <- parameter 2%nat ;;
    t <- convert_type E (exp_type p0) ;;
    sin_result <- add_node section loc OpExtInst t [glsl_ext E; 13; exp_base p0] ;;
    t <- convert_type E (exp_type p0) ;;
    cos_result <- add_node section loc OpExtInst t [glsl_ext E; 14; exp_base p0] ;;
    add_node_without_result section loc OpStore [exp_base p1; sin_result] ;;
    add_node_without_result section loc OpStore [exp_base p2; cos_result] ;;
    ret (true, reset_to_rvalue 0 (type3 datatype_void 0 0) loc)
  else if negb (Op_eqb (sym_op sym) OpFunctionCall) then
    (* This is an intrinsic, so add the appropriate operators *)
    t <- convert_type E (sym_type sym) ;;
    let head := if Op_eqb (sym_op sym) OpExtInst then [glsl_ext E; sym_id sym] else [] in
    if Op_eqb (sym_op sym) OpImageSampleImplicitLod
       || Op_eqb (sym_op sym) OpImageSampleExplicitLod
    then
      assert (Nat.eqb (List.length parameters) 2) ;;
      p0 <- parameter 0%nat ;;
      p1 <- parameter 1%nat ;;
      r <- add_node section loc (sym_op sym) t (head ++ [exp_base p0; exp_base p1; 0])%list ;;
      ret (true, reset_to_rvalue r (sym_type sym) loc)
    else
      r <- add_node section loc (sym_op sym) t (head ++ parameter_bases parameters)%list ;;
      ret (true, reset_to_rvalue r (sym_type sym) loc)
  else
    (* It is not allowed to do recursive calls *)
    recursive <- is_current_function sym ;;
    if recursive then
      error loc 3500 "recursive function calls are not allowed" ;; ret (false, exp)
    else
      (* This is a function symbol, so add a call to it *)
      t <- convert_type E (sym_type sym) ;;
      r <- add_node section loc OpFunctionCall t (sym_id sym :: parameter_bases parameters) ;;
      ret (true, reset_to_rvalue r (sym_type sym) loc).

(** ** Expression parsing: assignment and sequences *)

(** [lhs.type.has(qualifier_const) || lhs.type.has(qualifier_uniform) ||
    !lhs.is_lvalue]: the expression cannot be assigned to. *)
Definition read_only (e : spv_expression) : bool :=
  has (exp_type e) qualifier_const || has (exp_type e) qualifier_uniform
  || negb (is_lvalue e).

(** The end of an assignment whose target was accepted: the check of the
    types, the conversion of the right hand side, the operation of a
    compound assignment and the store. *)
Definition store_assignment (section : nat) (o : Op) (lhs rhs : spv_expression)
  : M (bool * spv_expression) :=
  (* Cannot assign between incompatible types *)
  if negb (array_length (exp_type lhs) =? array_length (exp_type rhs))
     || (rank E (exp_type lhs) (exp_type rhs) =? 0)
  then error (exp_location rhs) 3020 "cannot convert these types" ;;
       ret (false, lhs)
  else
    (if components (exp_type lhs) <? components (exp_type rhs)
     then warning (exp_location rhs) 3206 "implicit truncation of vector type"
     else ret tt) ;;
    (* Load value of right hand side and perform implicit type conversion *)
    rhs <- add_cast_operation E rhs (exp_type lhs) ;;
    rhs_value <- access_chain_load E section rhs ;;
    assert (negb (rhs_value =? 0)) ;;
    (* Check if this is an assignment with an additional arithmetic instruction *)
    rhs_value <-
      (if Op_eqb o OpNop then ret rhs_value
       else
         (* Load value from left hand side as well to use in the operation *)
         lhs_value <- access_chain_load E section lhs ;;
         assert (negb (lhs_value =? 0)) ;;
         t <- convert_type E (exp_type lhs) ;;
         add_node section (exp_location lhs) o t [lhs_value; rhs_value]) ;;
    (* Write result back to variable *)
    access_chain_store E section lhs rhs_value (exp_type lhs) ;;
    (* Return the result value since you can write assignments within
       expressions *)
    ret (true, reset_to_rvalue rhs_value (exp_type lhs) (exp_location lhs)).

Definition parse_expression_assignment (section : nat) (lhs : spv_expression)
  : M (bool * spv_expression) :=
  (* Parse left hand side of the expression *)
  '(ok, lhs) <- parse_expression_multary E section lhs 0 ;;
  if negb ok then ret (false, lhs)
  else
    (* Check if an operator exists so that this is an assignment *)
    o <- accept_assignment_op (exp_type lhs) ;;
    match o with
    | None => ret (true, lhs)
    | Some o =>
        (* Parse right hand side of the assignment expression *)
        '(ok, rhs) <- parse_expression_multary E section empty_expression 0 ;;
        if negb ok then ret (false, lhs)
        (* Cannot assign to constants and uniform variables *)
        else if read_only lhs
        then error (exp_location lhs) 3025 "l-value specifies const object" ;;
             ret (false, lhs)
        else store_assignment section o lhs rhs
    end.

(** [while (accept(',')) if (!parse_expression_assignment(section, exp))
    return false;] *)
Definition expression_sequence_body (section : nat) (exp : spv_expression)
  : M (loop_step spv_expression (bool * spv_expression)) :=
  comma <- accept (chr ",") ;;
  if comma then
    '(ok, exp) <- parse_expression_assignment section exp ;;
    if ok then ret (Continue exp) else ret (Break (false, exp))
  else ret (Break (true, exp)).

Definition parse_expression (fuel : nat) (section : nat) (exp : spv_expression)
  : M (bool * spv_expression) :=
  '(ok, exp) <- parse_expression_assignment section exp ;;
  if negb ok then ret (false, exp)
  else loop fuel (expression_sequence_body section) exp.

(** ** Array sizes *)

Definition parse_array_size (fuel : nat) (type : spv_type) : M (bool * spv_type) :=
  let type := set_array_length type 0 in
  open <- accept (chr "[") ;;
  if negb open then ret (true, type)
  else
    temp_section <- new_block ;;
    close <- accept (chr "]") ;;
    if close then ret (true, set_array_length type (-1))
    else
      '(ok, expression) <- parse_expression fuel temp_section empty_expression ;;
      ok <- (if ok then expect (chr "]") else ret false) ;;
      if ok then
        if negb (is_constant expression)
           || negb (is_scalar (exp_type expression) && is_integral (exp_type expression))
        then error (exp_location expression) 3058
                   "array dimensions must be literal scalar expressions" ;;
             ret (false, type)
        else
          let type := set_array_length type
                        (as_signed32 (as_uint (exp_constant expression) 0)) in
          if (array_length type <? 1) || (65536 <? array_length type)
          then error (exp_location expression) 3059
                     "array dimension must be between 1 and 65536" ;;
               ret (false, type)
          else ret (true, type)
      else ret (false, type).

(** ** Annotations *)

Fixpoint set_annotation (name : string) (c : spv_constant)
         (annotations : list (string * spv_constant)) : list (string * spv_constant) :=
  match annotations with
  | [] => [(name, c)]
  | (k, v) :: r => if String.eqb k name then (k, c) :: r
                   else (k, v) :: set_annotation name c r
  end.

Definition default_type : spv_type := type3 datatype_void 0 0.

Definition parse_annotations_body (fuel : nat)
           (state : list (string * spv_constant) * bool)
  : M (loop_step (list (string * spv_constant) * bool)
                 (bool * list (string * spv_constant))) :=
  let '(annotations, success) := state in
  close <- peek (chr ">") ;;
  if close then
    ok <- expect (chr ">") ;;
    ret (Break (ok && success, annotations))
  else
    '(typed, _) <- accept_type_class fuel default_type ;;
    (if typed
     then tok <- gets (@_token H) ;;
          warning (tok_location tok) 4717
                  "type prefixes for annotations are deprecated and ignored"
     else ret tt) ;;
    require (expect identifier) (ret (Break (false, annotations))) (
      tok <- gets (@_token H) ;;
      let name := literal_as_string tok in
      temp_section <- new_block ;;
      require (expect (chr "=")) (ret (Break (false, annotations))) (
        '(ok, expression) <- parse_expression_unary E temp_section ;;
        if negb ok then ret (Break (false, annotations))
        else
          require (expect (chr ";")) (ret (Break (false, annotations))) (
            if negb (is_constant expression) then
              error (exp_location expression) 3011 "value must be a literal expression" ;;
              ret (Continue (annotations, false))
            else
              ret (Continue (set_annotation name (exp_constant expression) annotations,
                             success))))).

Definition parse_annotations (fuel : nat) (annotations : list (string * spv_constant))
  : M (bool * list (string * spv_constant)) :=
  open <- accept (chr "<") ;;
  if negb open then ret (true, annotations)
  else loop fuel (parse_annotations_body fuel) (annotations, true).

(** ** Variables *)

Definition default_variable_info : spv_variable_info :=
  mk_variable "" "" 0 BuiltInMax "" 0 [] 0.

(** [std::replace(s.begin(), s.end(), ':', '_')]. *)
Fixpoint replace_colons (s : string) : string :=
  match s with
  | EmptyString => EmptyString
  | String c r => String (if Ascii.eqb c ":" then "_"%char else c) (replace_colons r)
  end.

Fixpoint lookup_semantic (k : Z) (m : list (Z * string)) : string :=
  match m with
  | [] => ""
  | (k', v) :: r => if k =? k' then v else lookup_semantic k r
  end.

(** The checks on the qualifiers of a variable; [None] after an error. *)
Definition check_variable_qualifiers (loc : location) (type : spv_type) (global : bool)
  : M (option spv_type) :=
  if global then
    if has type qualifier_static then
      if has type qualifier_uniform then
        error loc 3007 "uniform global variables cannot be declared 'static'" ;; ret None
      else ret (Some type)
    else
      (if negb (has type qualifier_uniform) && negb (is_texture type || is_sampler type)
       then warning loc 5000 "global variables are considered 'uniform' by default"
       else ret tt) ;;
      if has type qualifier_const then
        error loc 3035 "variables which are 'uniform' cannot be declared 'const'" ;; ret None
      else
        (* Global variables that are not 'static' are always 'extern' and 'uniform' *)
        ret (Some (set_qualifiers type
                     (Z.lor (qualifiers type) (Z.lor qualifier_extern qualifier_uniform))))
  else
    if has type qualifier_extern then
      error loc 3006 "local variables cannot be declared 'extern'" ;; ret None
    else if has type qualifier_uniform then
      error loc 3047 "local variables cannot be declared 'uniform'" ;; ret None
    else if is_texture type || is_sampler type then
      error loc 3038 "local variables cannot be textures or samplers" ;; ret None
    else ret (Some type).

(** The size in bytes of a member of the uniform block, computed in
    [unsigned int]. *)
Definition uniform_size (type : spv_type) : Z :=
  uint32 (4 * (if rows type =? 3 then 4 else rows type) * cols type
          * uint32 (Z.max 1 (array_length type))).

(** The size the std140 rule of the spec gives a member of [rows] x
    [cols] components and array length [array_length], in unbounded
    arithmetic. *)
Definition std140_size (type : spv_type) : Z :=
  4 * (if rows type =? 3 then 4 else rows type) * cols type * Z.max 1 (array_length type).

(** The branch of [parse_variable] for uniform variables: the variable
    becomes a member of the global uniform block.  The running offset
    [_global_ubo_offset] is a 32-bit word, as the decoration operand it is
    written to. *)
Definition declare_uniform (name : string) (type : spv_type) (info : spv_variable_info)
  : M symbol :=
  ubo_type <- gets (@_global_ubo_type H) ;;
  (if ubo_type =? 0 then i <- make_id ;; modify (set_global_ubo_type i) else ret tt) ;;
  ubo_variable <- gets (@_global_ubo_variable H) ;;
  (if ubo_variable =? 0 then i <- make_id ;; modify (set_global_ubo_variable i) else ret tt) ;;
  (* Convert boolean uniform variables to integer type so that they have a defined size *)
  let type := if is_boolean type then set_base type datatype_uint else type in
  let member := mk_member name type (var_builtin info) 0 in
  modify (fun p => set_uniforms (_uniforms p ++ [member])%list p) ;;
  p <- get ;;
  let index := Z.of_nat (List.length (_uniforms p)) - 1 in
  let sym := mk_symbol OpVariable (_global_ubo_variable p) type None zero_constant
                       (Some index) in
  add_member_name (_global_ubo_type p) index name ;;
  let size := uniform_size type in
  let alignment := size in
  match align ptr_bits (_global_ubo_offset p) alignment with
  | None => fail undefined_behaviour
  | Some offset =>
      modify (set_global_ubo_offset (uint32 offset)) ;;
      add_member_decoration (_global_ubo_type p) index DecorationOffset [uint32 offset] ;;
      modify (fun p => set_global_ubo_offset (uint32 (_global_ubo_offset p + size)) p) ;;
      ret sym
  end.

Definition set_var_semantic (info : spv_variable_info) (b : BuiltIn) (s : string) (i : Z)
  : spv_variable_info :=
  mk_variable (var_name info) (var_unique_name info) (var_definition info) b s i
              (annotation_list info) (var_texture info).
Definition set_var_annotations (info : spv_variable_info) (a : list (string * spv_constant))
  : spv_variable_info :=
  mk_variable (var_name info) (var_unique_name info) (var_definition info) (var_builtin info)
              (var_semantic info) (var_semantic_index info) a (var_texture info).
Definition set_var_definition (info : spv_variable_info) (d : Z) : spv_variable_info :=
  mk_variable (var_name info) (var_unique_name info) d (var_builtin info)
              (var_semantic info) (var_semantic_index info) (annotation_list info)
              (var_texture info).

Definition set_literal_as_string (t : token) (s : string) : token :=
  mk_token (id t) (tok_location t) s (literal_as_int t) (literal_as_uint t)
           (literal_as_float t) (literal_as_double t).

(** [b = semantic_to_builtin(_token.literal_as_string, index)]: the string
    of the current token is upper-cased in place. *)
Definition token_semantic (index : Z) : M (BuiltIn * string * Z) :=
  tok <- gets (@_token H) ;;
  '(b, upper, index) <- lift_cxx (semantic_to_builtin (literal_as_string tok) index) ;;
  modify (set_token (set_literal_as_string tok upper)) ;;
  ret (b, upper, index).

Definition string_words (s : string) : list Z := map Str.code (list_ascii_of_string s).

(** The part of [parse_variable] after the array size: semantic,
    annotations, initializer or property block.  [None] after a failure. *)
Definition variable_details (fuel : nat) (loc : location) (type : spv_type) (name : string)
           (section : nat) (global : bool) (info : spv_variable_info)
  : M (option (spv_type * spv_variable_info * spv_expression)) :=
  let initializer := empty_expression in
  colon <- accept (chr ":") ;;
  if colon then
    require (expect identifier) (ret None) (
      if negb global then
        tok <- gets (@_token H) ;;
        error (tok_location tok) 3043 "local variables cannot have semantics" ;; ret None
      else
        '(b, upper, index) <- token_semantic (var_semantic_index info) ;;
        ret (Some (type, set_var_semantic info b upper index, initializer)))
  else
    (* Global variables can have optional annotations *)
    '(ok, info) <-
      (if global
       then '(ok, a) <- parse_annotations fuel (annotation_list info) ;;
            ret (ok, set_var_annotations info a)
       else ret (true, info)) ;;
    if negb ok then ret None
    else
      (* Variables without a semantic may have an optional initializer *)
      assign <- accept (chr "=") ;;
      if assign then
        '(ok, initializer) <- parse_expression_assignment section initializer ;;
        if negb ok then ret None
        else if global && negb (is_constant initializer) then
          error (exp_location initializer) 3011 "initial value must be a literal expression" ;;
          ret None
        (* Check type compatibility *)
        else if ((0 <=? array_length type)
                 && negb (array_length (exp_type initializer) =? array_length type))
                || (rank E (exp_type initializer) type =? 0) then
          error (exp_location initializer) 3017 "initial value does not match variable type" ;;
          ret None
        else if ((rows (exp_type initializer) <? rows type)
                 || (cols (exp_type initializer) <? cols type))
                && negb (is_scalar (exp_type initializer)) then
          error (exp_location initializer) 3017 "cannot implicitly convert these vector types" ;;
          ret None
        else
          (if components type <? components (exp_type initializer)
           then warning (exp_location initializer) 3206 "implicit truncation of vector type"
           else ret tt) ;;
          (* Deduce array size from the initializer expression *)
          let type := if is_array (exp_type initializer)
                      then set_array_length type (array_length (exp_type initializer))
                      else type in
          (* Perform implicit cast from initializer expression to variable type *)
          initializer <- add_cast_operation E initializer type ;;
          ret (Some (type, info, initializer))
      else if is_numeric type then
        (* Numeric variables without an initializer need special handling *)
        if has type qualifier_const then
          error loc 3012 ("missing initial value for '" ++ name ++ "'") ;; ret None
        else if negb (has type qualifier_uniform) then
          ret (Some (type, info, reset_to_rvalue_constant type loc zero_constant))
        else ret (Some (type, info, initializer))
      else
        block <- peek (chr "{") ;;
        if block then
          '(ok, info) <- parse_variable_properties E info ;;
          if ok then ret (Some (type, info, initializer)) else ret None
        else ret (Some (type, info, initializer)).

(** The part of [parse_variable] that creates the symbol; [None] after a
    failure. *)
Definition variable_symbol (loc : location) (type : spv_type) (name : string)
           (section : nat) (global : bool) (info : spv_variable_info)
           (initializer : spv_expression) : M (option symbol) :=
  let storage := if global then StorageClassPrivate else StorageClassFunction in
  if is_numeric type && has type qualifier_const && is_constant initializer then
    (* Variables with a constant initializer and constant type are named constants *)
    ret (Some (mk_symbol OpConstant 0 type None (exp_constant initializer) None))
  else if is_texture type then
    (* Textures are not written to the output *)
    i <- make_id ;;
    modify (fun p => set_texture_semantics ((i, var_semantic info) :: _texture_semantics p) p) ;;
    ret (Some (mk_symbol OpVariable i type None zero_constant None))
  else if is_sampler type then
    (* Samplers are actually combined image samplers *)
    if var_texture info =? 0 then
      error loc 3012 ("missing 'Texture' property for '" ++ name ++ "'") ;; ret None
    else
      semantic <- gets (fun p => lookup_semantic (var_texture info) (_texture_semantics p)) ;;
      let type := set_is_pointer type true in
      d <- define_variable E None (Some (var_unique_name info)) loc type
             (if global then StorageClassUniformConstant else StorageClassFunction) None ;;
      (if negb (String.eqb semantic "")
       then add_decoration d DecorationHlslSemanticGOOGLE (string_words semantic)
       else ret tt) ;;
      ret (Some (mk_symbol OpVariable d type None zero_constant None))
  else if has type qualifier_uniform then
    (* Uniform variables are put into a global uniform buffer structure *)
    sym <- declare_uniform name type info ;;
    ret (Some sym)
  else
    (* All other variables are separate entities *)
    let type := set_is_pointer type true in
    if is_constant initializer then
      (* The initializer expression for 'OpVariable' must be a constant *)
      c <- convert_constant E (exp_type initializer) (exp_constant initializer) ;;
      d <- define_variable E None (Some (var_unique_name info)) loc type storage (Some c) ;;
      ret (Some (mk_symbol OpVariable d type None zero_constant None))
    else
      (* Non-constant initializers are explicitly stored in the variable at the
         definition location instead *)
      initializer_value <- access_chain_load E section initializer ;;
      d <- define_variable E None (Some (var_unique_name info)) loc type storage None ;;
      (if negb (initializer_value =? 0) then
         assert (negb global) ;;
         access_chain_store E section (reset_to_lvalue d type loc) initializer_value
                            (exp_type initializer)
       else ret tt) ;;
      ret (Some (mk_symbol OpVariable d type None zero_constant None)).

Definition parse_variable (fuel : nat) (type : spv_type) (name : string) (section : nat)
           (global : bool) : M bool :=
  tok <- gets (@_token H) ;;
  let loc := tok_location tok in
  if is_void type then error_false loc 3038 "variables cannot be void"
  else if has type qualifier_in || has type qualifier_out
  then error_false loc 3055 "variables cannot be declared 'in' or 'out'"
  else
    (* Check that qualifier combinations are valid *)
    checked <- check_variable_qualifiers loc type global ;;
    match checked with
    | None => ret false
    | Some type =>
        (* The variable name may be followed by an optional array size expression *)
        '(ok, type) <- parse_array_size fuel type ;;
        if negb ok then ret false
        else
          unique_name <-
            (if global
             then sc <- current_scope E ;;
                  ret ((if has type qualifier_uniform then "U" else "V")
                       ++ scope_name sc ++ name)
             else ret name) ;;
          let info := mk_variable name (replace_colons unique_name) 0 BuiltInMax "" 0 [] 0 in
          details <- variable_details fuel loc type name section global info ;;
          match details with
          | None => ret false
          | Some (type, info, initializer) =>
              created <- variable_symbol loc type name section global info initializer ;;
              match created with
              | None => ret false
              | Some sym =>
                  (* Insert the symbol into the symbol table *)
                  inserted <- insert_symbol E name sym global ;;
                  if inserted then ret true
                  else error_false loc 3003 ("redefinition of '" ++ name ++ "'")
              end
          end
    end.

(** ** Statements *)

Definition push_break_target (label : Z) : M unit :=
  modify (fun p => set_loop_break_target_stack (_loop_break_target_stack p ++ [label])%list p).
Definition pop_break_target : M unit :=
  modify (fun p => set_loop_break_target_stack (removelast (_loop_break_target_stack p)) p).
Definition push_continue_target (label : Z) : M unit :=
  modify (fun p => set_loop_continue_target_stack
                     (_loop_continue_target_stack p ++ [label])%list p).
Definition pop_continue_target : M unit :=
  modify (fun p => set_loop_continue_target_stack
                     (removelast (_loop_continue_target_stack p)) p).

(** [stack.back()] of a non-empty stack. *)
Definition back (stack : list Z) : Z := last stack 0.

Definition bool_type : spv_type := type3 datatype_bool 1 1.
Definition int_type : spv_type := type3 datatype_int 1 1.
Definition uint_type : spv_type := type3 datatype_uint 1 1.

(** Load a condition and convert it to the boolean value
    [OpBranchConditional] requires. *)
Definition load_condition (section : nat) (condition : spv_expression) : M Z :=
  condition <- add_cast_operation E condition bool_type ;;
  v <- access_chain_load E section condition ;;
  assert (negb (v =? 0)) ;;
  ret v.

(** The loop that reads [[unroll]], [[loop]], [[branch]], [[flatten]];
    it leaves with the two control masks, or with [None] for
    [return false]. *)
Definition attribute_body (masks : Z * Z) : M (loop_step (Z * Z) (option (Z * Z))) :=
  let '(loop_control, selection_control) := masks in
  open <- accept (chr "[") ;;
  if negb open then ret (Break (Some masks))
  else
    next <- gets (@_token_next H) ;;
    let attribute := literal_as_string next in
    require (expect identifier) (ret (Break None)) (
    require (expect (chr "]")) (ret (Break None)) (
      if String.eqb attribute "unroll"
      then ret (Continue (Z.lor loop_control LoopControlUnrollMask, selection_control))
      else if String.eqb attribute "loop"
      then ret (Continue (Z.lor loop_control LoopControlDontUnrollMask, selection_control))
      else if String.eqb attribute "branch"
      then ret (Continue (loop_control, Z.lor selection_control SelectionControlDontFlattenMask))
      else if String.eqb attribute "flatten"
      then ret (Continue (loop_control, Z.lor selection_control SelectionControlFlattenMask))
      else
        tok <- gets (@_token H) ;;
        warning (tok_location tok) 0 "unknown attribute" ;;
        ret (Continue masks))).

(** [do { if (count++ > 0 && !expect(',')) fail; if (!expect(identifier) ||
    !parse_variable(type, name, section)) fail; } while (!peek(';'));] —
    the result tells whether every declaration went through. *)
Definition declaration_body (fuel : nat) (type : spv_type) (section : nat) (count : Z)
  : M (loop_step Z bool) :=
  comma <- (if 0 <? count then expect (chr ",") else ret true) ;;
  if negb comma then ret (Break false)
  else
    require (expect identifier) (ret (Break false)) (
      tok <- gets (@_token H) ;;
      ok <- parse_variable fuel type (literal_as_string tok) section false ;;
      if negb ok then ret (Break false)
      else
        semi <- peek (chr ";") ;;
        if semi then ret (Break true) else ret (Continue (count + 1))).

Definition declaration_list (fuel : nat) (type : spv_type) (section : nat) : M bool :=
  loop fuel (declaration_body fuel type section) 0.

Section Statement.

(** The statement parser below the one being defined: the recursive calls
    of [parse_statement]. *)
Variable parse_statement_rec : nat -> bool -> M bool.

(** The loop of [parse_statement_block] that skips the rest of a block
    after a failed statement. *)
Definition skip_block_body (level : Z) : M (loop_step Z unit) :=
  e <- peek end_of_file ;;
  if e then ret (Break tt)
  else
    open <- accept (chr "{") ;;
    if open then ret (Continue (uint32 (level + 1)))
    else
      close <- accept (chr "}") ;;
      if close then
        if level =? 0 then ret (Break tt) else ret (Continue (uint32 (level - 1)))
      else consume ;; ret (Continue level).

Definition statement_block_body (fuel : nat) (section : nat) (scoped : bool) (_ : unit)
  : M (loop_step unit bool) :=
  close <- peek (chr "}") ;;
  e <- peek end_of_file ;;
  if close || e then
    (if scoped then leave_scope E else ret tt) ;;
    ok <- expect (chr "}") ;;
    ret (Break ok)
  else
    ok <- parse_statement_rec section true ;;
    if ok then ret (Continue tt)
    else
      (if scoped then leave_scope E else ret tt) ;;
      (* Ignore the rest of this block *)
      loop fuel skip_block_body 0 ;;
      ret (Break false).

Definition parse_statement_block_with (fuel : nat) (section : nat) (scoped : bool) : M bool :=
  require (expect (chr "{")) (ret false) (
    (if scoped then enter_scope E else ret tt) ;;
    loop fuel (statement_block_body fuel section scoped) tt).

(** *** If *)
Definition statement_if (fuel : nat) (section : nat) (loc : location)
           (selection_control : Z) : M bool :=
  true_label <- make_id ;;
  false_label <- make_id ;;
  merge_label <- make_id ;;
  require (expect (chr "(")) (ret false) (
    '(ok, condition) <- parse_expression fuel section empty_expression ;;
    if negb ok then ret false
    else
    require (expect (chr ")")) (ret false) (
      if negb (is_scalar (exp_type condition)) then
        error_false (exp_location condition) 3019
          "if statement conditional expressions must evaluate to a scalar"
      else
        condition_value <- load_condition section condition ;;
        add_node_without_result section loc OpSelectionMerge
                                [merge_label; selection_control] ;;
        leave_block_and_branch_conditional section condition_value true_label false_label ;;
        (* Then block of the if statement *)
        enter_block section true_label ;;
        require (parse_statement_rec section true) (ret false) (
          leave_block_and_branch section merge_label ;;
          (* Else block of the if statement *)
          enter_block section false_label ;;
          has_else <- accept else_ ;;
          require (if has_else then parse_statement_rec section true else ret true)
                  (ret false) (
            leave_block_and_branch section merge_label ;;
            enter_block section merge_label ;;
            ret true)))).

(** *** Switch *)

Record switch_state : Type := mk_switch_state {
  sw_current_block : Z;
  sw_num_case_labels : Z;
  sw_case_literal_and_labels : list Z;
  sw_default_label : Z
}.

(** [while (accept(case_) || accept(default_)) { ... }]; leaves with the
    new state, or with [None] for [return consume_until('}'), false]. *)
Definition case_label_body (fuel : nat) (switch_body_block : nat) (s : switch_state)
  : M (loop_step switch_state (option switch_state)) :=
  is_case <- accept case_ ;;
  is_label <- (if is_case then ret true else accept default_) ;;
  if negb is_label then ret (Break (Some s))
  else
    tok <- gets (@_token H) ;;
    labelled <-
      (if tokenid_eqb (id tok) case_ then
         '(ok, case_label) <- parse_expression fuel switch_body_block empty_expression ;;
         if negb ok then consume_until (chr "}") ;; ret None
         else if negb (is_scalar (exp_type case_label)) || negb (is_constant case_label) then
           error (exp_location case_label) 3020 "non-numeric case expression" ;;
           consume_until (chr "}") ;; ret None
         else
           (* This can be floating point too, which are casted here via the
              constant union *)
           ret (Some (mk_switch_state (sw_current_block s) (sw_num_case_labels s)
                        (sw_case_literal_and_labels s
                           ++ [as_uint (exp_constant case_label) 0; sw_current_block s])%list
                        (sw_default_label s)))
       else
         ret (Some (mk_switch_state (sw_current_block s) (sw_num_case_labels s)
                      (sw_case_literal_and_labels s) (sw_current_block s)))) ;;
    match labelled with
    | None => ret (Break None)
    | Some s =>
        colon <- expect (chr ":") ;;
        if negb colon then consume_until (chr "}") ;; ret (Break None)
        else ret (Continue (mk_switch_state (sw_current_block s)
                              (uint32 (sw_num_case_labels s + 1))
                              (sw_case_literal_and_labels s) (sw_default_label s)))
    end.

(** [while (!peek('}') && !peek(end_of_file)) { ... }] over the body of a
    switch. *)
Definition switch_body (fuel : nat) (switch_body_block : nat) (s : switch_state)
  : M (loop_step switch_state (option switch_state)) :=
  close <- peek (chr "}") ;;
  e <- peek end_of_file ;;
  if close || e then ret (Break (Some s))
  else
    is_case <- peek case_ ;;
    is_default <- peek default_ ;;
    s <- (if is_case || is_default then
            current_block <- make_id ;;
            (* Handle fall-through case *)
            (if negb (sw_num_case_labels s =? 0)
             then leave_block_and_branch switch_body_block current_block
             else ret tt) ;;
            enter_block switch_body_block current_block ;;
            ret (mk_switch_state current_block (sw_num_case_labels s)
                                 (sw_case_literal_and_labels s) (sw_default_label s))
          else ret s) ;;
    labels <- loop fuel (case_label_body fuel switch_body_block) s ;;
    match labels with
    | None => ret (Break None)
    | Some s =>
        ok <- parse_statement_rec switch_body_block true ;;
        if ok then ret (Continue s)
        else consume_until (chr "}") ;; ret (Break None)
    end.

Definition statement_switch (fuel : nat) (section : nat) (loc : location)
           (selection_control : Z) : M bool :=
  merge_label <- make_id ;;
  require (expect (chr "(")) (ret false) (
    '(ok, selector) <- parse_expression fuel section empty_expression ;;
    if negb ok then ret false
    else
    require (expect (chr ")")) (ret false) (
      if negb (is_scalar (exp_type selector)) then
        error_false (exp_location selector) 3019
          "switch statement expression must evaluate to a scalar"
      else
        (* Load selector and convert to integral value as required by 'OpSwitch' *)
        selector <- add_cast_operation E selector int_type ;;
        selector_value <- access_chain_load E section selector ;;
        assert (negb (selector_value =? 0)) ;;
        (* A switch statement leaves the current control flow block *)
        modify (set_current_block 0) ;;
        add_node_without_result section loc OpSelectionMerge
                                [merge_label; selection_control] ;;
        switch_node <- node_position section ;;
        add_node_without_result section loc OpSwitch [selector_value] ;;
        require (expect (chr "{")) (ret false) (
          push_break_target merge_label ;;
          switch_body_block <- new_block ;;
          (* The default case jumps to the end of the switch statement if not
             overwritten *)
          body <- loop fuel (switch_body fuel switch_body_block)
                       (mk_switch_state 0 0 [] merge_label) ;;
          r <- match body with
               | None => ret false
               | Some s =>
                   (if sw_num_case_labels s =? 0
                    then warning loc 5002
                           "switch statement contains no 'case' or 'default' labels"
                    else ret tt) ;;
                   (* Add all case labels to the switch instruction *)
                   node_add section switch_node
                            (sw_default_label s :: sw_case_literal_and_labels s) ;;
                   append_block section switch_body_block ;;
                   enter_block section merge_label ;;
                   expect (chr "}")
               end ;;
          pop_break_target ;;
          ret r))).

(** *** Loops *)

(** The body of a loop statement between the pushes and the pops of the
    break and continue targets. *)
Definition loop_body (section : nat) (merge_label continue_label : Z) (scoped : bool)
  : M bool :=
  push_break_target merge_label ;;
  push_continue_target continue_label ;;
  ok <- parse_statement_rec section scoped ;;
  pop_break_target ;;
  pop_continue_target ;;
  ret ok.

Definition statement_for_scoped (fuel : nat) (section : nat) (loc : location)
           (loop_control : Z) : M bool :=
  (* Parse initializer first *)
  '(typed, type) <- parse_type fuel default_type ;;
  init <- (if typed then declaration_list fuel type section
           else
             (* It is valid for there to be no initializer expression, so ignore result *)
             parse_expression fuel section empty_expression ;; ret true) ;;
  if negb init then ret false
  else
  require (expect (chr ";")) (ret false) (
    header_label <- make_id ;;
    loop_label <- make_id ;;
    merge_label <- make_id ;;
    continue_label <- make_id ;;
    condition_label <- make_id ;;
    leave_block_and_branch section header_label ;;
    (* Begin loop block *)
    enter_block section header_label ;;
    add_node_without_result section loc OpLoopMerge
                            [merge_label; continue_label; loop_control] ;;
    leave_block_and_branch section condition_label ;;
    (* Parse condition block *)
    enter_block section condition_label ;;
    '(has_condition, condition) <- parse_expression fuel section empty_expression ;;
    checked <-
      (if has_condition then
         if negb (is_scalar (exp_type condition)) then
           error_false (exp_location condition) 3019 "scalar value expected"
         else
           condition_value <- load_condition section condition ;;
           leave_block_and_branch_conditional section condition_value loop_label merge_label ;;
           ret true
       else
         (* It is valid for there to be no condition expression *)
         leave_block_and_branch section loop_label ;; ret true) ;;
    if negb checked then ret false
    else
    require (expect (chr ";")) (ret false) (
      (* Parse loop continue block into separate section so it can be appended to
         the end down the line *)
      continue_block <- new_block ;;
      enter_block continue_block continue_label ;;
      parse_expression fuel continue_block empty_expression ;;
      require (expect (chr ")")) (ret false) (
        (* Branch back to the loop header at the end of the continue block *)
        leave_block_and_branch continue_block header_label ;;
        (* Parse loop body block *)
        enter_block section loop_label ;;
        require (loop_body section merge_label continue_label false) (ret false) (
          leave_block_and_branch section continue_label ;;
          (* Append continue section after the main block *)
          append_block section continue_block ;;
          (* Add merge block label to the end of the loop *)
          enter_block section merge_label ;;
          ret true)))).

Definition statement_for (fuel : nat) (section : nat) (loc : location) (loop_control : Z)
  : M bool :=
  require (expect (chr "(")) (ret false) (
    enter_scope E ;;
    r <- statement_for_scoped fuel section loc loop_control ;;
    leave_scope E ;;
    ret r).

Definition statement_while_scoped (fuel : nat) (section : nat) (loc : location)
           (loop_control : Z) : M bool :=
  header_label <- make_id ;;
  loop_label <- make_id ;;
  merge_label <- make_id ;;
  continue_label <- make_id ;;
  condition_label <- make_id ;;
  (* End current block by branching to the next label *)
  leave_block_and_branch section header_label ;;
  (* Begin loop block *)
  enter_block section header_label ;;
  add_node_without_result section loc OpLoopMerge
                          [merge_label; continue_label; loop_control] ;;
  leave_block_and_branch section condition_label ;;
  (* Parse condition block *)
  enter_block section condition_label ;;
  require (expect (chr "(")) (ret false) (
    '(ok, condition) <- parse_expression fuel section empty_expression ;;
    if negb ok then ret false
    else
    require (expect (chr ")")) (ret false) (
      if negb (is_scalar (exp_type condition)) then
        error_false (exp_location condition) 3019 "scalar value expected"
      else
        condition_value <- load_condition section condition ;;
        leave_block_and_branch_conditional section condition_value loop_label merge_label ;;
        (* Parse loop body block *)
        enter_block section loop_label ;;
        require (loop_body section merge_label continue_label false) (ret false) (
          leave_block_and_branch section continue_label ;;
          (* Branch back to the loop header in empty continue block *)
          enter_block section continue_label ;;
          leave_block_and_branch section header_label ;;
          (* Add merge block label to the end of the loop *)
          enter_block section merge_label ;;
          ret true))).

Definition statement_while (fuel : nat) (section : nat) (loc : location) (loop_control : Z)
  : M bool :=
  enter_scope E ;;
  r <- statement_while_scoped fuel section loc loop_control ;;
  leave_scope E ;;
  ret r.

Definition statement_do (fuel : nat) (section : nat) (loc : location) (loop_control : Z)
  : M bool :=
  header_label <- make_id ;;
  loop_label <- make_id ;;
  merge_label <- make_id ;;
  continue_label <- make_id ;;
  (* End current block by branching to the next label *)
  leave_block_and_branch section header_label ;;
  (* Begin loop block *)
  enter_block section header_label ;;
  add_node_without_result section loc OpLoopMerge
                          [merge_label; continue_label; loop_control] ;;
  leave_block_and_branch section loop_label ;;
  (* Parse loop body block *)
  enter_block section loop_label ;;
  require (loop_body section merge_label continue_label true) (ret false) (
    leave_block_and_branch section continue_label ;;
    (* Continue block does the condition evaluation *)
    enter_block section continue_label ;;
    require (expect while_) (ret false) (
    require (expect (chr "(")) (ret false) (
      '(ok, condition) <- parse_expression fuel section empty_expression ;;
      if negb ok then ret false
      else
      require (expect (chr ")")) (ret false) (
      require (expect (chr ";")) (ret false) (
        if negb (is_scalar (exp_type condition)) then
          error_false (exp_location condition) 3019 "scalar value expected"
        else
          condition_value <- load_condition section condition ;;
          leave_block_and_branch_conditional section condition_value header_label merge_label ;;
          (* Add merge block label to the end of the loop *)
          enter_block section merge_label ;;
          ret true))))).

(** *** Break and continue *)

Definition statement_break (section : nat) (loc : location) : M bool :=
  stack <- gets (@_loop_break_target_stack H) ;;
  match stack with
  | [] => error_false loc 3518 "break must be inside loop"
  | _ =>
      (* Branch to the break target of the inner most loop on the stack *)
      leave_block_and_branch section (back stack) ;;
      expect (chr ";")
  end.

Definition statement_continue (section : nat) (loc : location) : M bool :=
  stack <- gets (@_loop_continue_target_stack H) ;;
  match stack with
  | [] => error_false loc 3519 "continue must be inside loop"
  | _ =>
      (* Branch to the continue target of the inner most loop on the stack *)
      leave_block_and_branch section (back stack) ;;
      expect (chr ";")
  end.

(** *** Return and discard *)

(** [_functions[_current_function]->return_type]. *)
Definition parent_return_type : M spv_type :=
  p <- get ;;
  match _current_function p with
  | None => fail undefined_behaviour
  | Some f =>
      match nth_error (_functions p) f with
      | None => fail undefined_behaviour
      | Some parent => ret (return_type parent)
      end
  end.

Definition statement_return (fuel : nat) (section : nat) (loc : location) : M bool :=
  parent_return_type ;;
  semi <- peek (chr ";") ;;
  if negb semi then
    '(ok, return_exp) <- parse_expression fuel section empty_expression ;;
    if negb ok then consume_until (chr ";") ;; ret false
    else
      return_type <- parent_return_type ;;
      if is_void return_type then
        (* Consume the semicolon that follows the return expression so that
           parsing may continue *)
        error loc 3079 "void functions cannot return a value" ;;
        accept (chr ";") ;; ret false
      else if is_array (exp_type return_exp)
              || (rank E (exp_type return_exp) return_type =? 0) then
        error loc 3017 "expression does not match function return type" ;;
        accept (chr ";") ;; ret false
      else
        (if components return_type <? components (exp_type return_exp)
         then warning (exp_location return_exp) 3206 "implicit truncation of vector type"
         else ret tt) ;;
        (* Load return value and perform implicit cast to function return type *)
        return_exp <- add_cast_operation E return_exp return_type ;;
        return_value <- access_chain_load E section return_exp ;;
        assert (negb (return_value =? 0)) ;;
        leave_block_and_return section return_value ;;
        expect (chr ";")
  else
    return_type <- parent_return_type ;;
    if negb (is_void return_type) then
      (* No return value was found, but the function expects one *)
      error loc 3080 "function must return a value" ;;
      accept (chr ";") ;; ret false
    else
      leave_block_and_return section 0 ;;
      expect (chr ";").

Definition statement_discard (section : nat) : M bool :=
  (* Leave the current function block *)
  leave_block_and_kill section ;;
  expect (chr ";").

(** *** Declarations and expression statements *)

Definition statement_declaration_or_expression (fuel : nat) (section : nat) : M bool :=
  (* Handle variable declarations *)
  '(typed, type) <- parse_type fuel default_type ;;
  if typed then
    ok <- declaration_list fuel type section ;;
    if ok then expect (chr ";") else consume_until (chr ";") ;; ret false
  else
    (* Handle expression statements *)
    '(ok, _) <- parse_expression fuel section empty_expression ;;
    if ok then expect (chr ";")
    else
      (* No token should come through here, since all statements and expressions
         should have been handled above, so this is an error in the syntax *)
      unexpected "" ;;
      (* Gracefully consume any remaining characters until the statement would
         usually end, so that parsing may continue despite the error *)
      consume_until (chr ";") ;;
      ret false.

(** *** The statement dispatcher *)

(** The statements that are only valid inside functions; [None] when the
    next token starts none of them. *)
Definition function_statement (fuel : nat) (section : nat) (loop_control selection_control : Z)
  : M (option bool) :=
  next <- gets (@_token_next H) ;;
  let loc := tok_location next in
  let run (s : M bool) : M (option bool) := b <- s ;; ret (Some b) in
  a <- accept if_ ;;
  if a then run (statement_if fuel section loc selection_control) else
  a <- accept switch_ ;;
  if a then run (statement_switch fuel section loc selection_control) else
  a <- accept for_ ;;
  if a then run (statement_for fuel section loc loop_control) else
  a <- accept while_ ;;
  if a then run (statement_while fuel section loc loop_control) else
  a <- accept do_ ;;
  if a then run (statement_do fuel section loc loop_control) else
  a <- accept break_ ;;
  if a then run (statement_break section loc) else
  a <- accept continue_ ;;
  if a then run (statement_continue section loc) else
  a <- accept return_ ;;
  if a then run (statement_return fuel section loc) else
  a <- accept discard_ ;;
  if a then run (statement_discard section) else
  ret None.

Definition statement (fuel : nat) (section : nat) (scoped : bool) : M bool :=
  current_block <- gets (@_current_block H) ;;
  if current_block =? 0 then
    next <- gets (@_token_next H) ;;
    error_false (tok_location next) 3000 "statements are valid only inside a code block"
  else
    (* Read any loop and branch control attributes first *)
    attributes <- loop fuel attribute_body (LoopControlMaskNone, SelectionControlMaskNone) ;;
    match attributes with
    | None => ret false
    | Some (loop_control, selection_control) =>
        (* Parse statement block *)
        block <- peek (chr "{") ;;
        if block then parse_statement_block_with fuel section scoped
        else
          (* Ignore empty statements *)
          empty <- accept (chr ";") ;;
          if empty then ret true
          else
            (* Most statements with the exception of declarations are only valid
               inside functions *)
            current_function <- gets (@_current_function H) ;;
            r <- match current_function with
                 | Some _ => function_statement fuel section loop_control selection_control
                 | None => ret None
                 end ;;
            match r with
            | Some b => ret b
            | None => statement_declaration_or_expression fuel section
            end
    end.

End Statement.

Fixpoint parse_statement (fuel : nat) (section : nat) (scoped : bool) : M bool :=
  match fuel with
  | O => fail out_of_fuel
  | S fuel => statement (parse_statement fuel) fuel section scoped
  end.

Definition parse_statement_block (fuel : nat) (section : nat) (scoped : bool) : M bool :=
  parse_statement_block_with (parse_statement fuel) fuel section scoped.

(** ** Techniques and passes *)

(** The enumeration names a pass state may use for its value. *)
Definition s_enum_values : list (string * Z) :=
  [ ("NONE", 0); ("ZERO", 0); ("ONE", 1);
    ("SRCCOLOR", 2); ("SRCALPHA", 3); ("INVSRCCOLOR", 4); ("INVSRCALPHA", 5);
    ("DESTCOLOR", 8); ("DESTALPHA", 6); ("INVDESTCOLOR", 9); ("INVDESTALPHA", 7);
    ("ADD", 1); ("SUBTRACT", 2); ("REVSUBTRACT", 3); ("MIN", 4); ("MAX", 5);
    ("KEEP", 1); ("REPLACE", 3); ("INVERT", 6); ("INCR", 7); ("INCRSAT", 4);
    ("DECR", 8); ("DECRSAT", 5);
    ("NEVER", 1); ("ALWAYS", 8); ("LESS", 2); ("GREATER", 5); ("LEQUAL", 4);
    ("LESSEQUAL", 4); ("GEQUAL", 7); ("GREATEREQUAL", 7); ("EQUAL", 3);
    ("NEQUAL", 6); ("NOTEQUAL", 6) ].

Fixpoint find_enum (name : string) (l : list (string * Z)) : option Z :=
  match l with
  | [] => None
  | (k, v) :: r => if String.eqb k name then Some v else find_enum name r
  end.

(** [identifier (:: identifier)*] after an optional leading [::]; [None]
    for a token that is not an identifier. *)
Definition qualified_name_body (name : string)
  : M (loop_step string (option string)) :=
  more <- accept colon_colon ;;
  if negb more then ret (Break (Some name))
  else
    require (expect identifier) (ret (Break None)) (
      tok <- gets (@_token H) ;;
      ret (Continue (name ++ "::" ++ literal_as_string tok))).

(** The assignment of a value to one of the render states; [None] for a
    state the pass does not have. *)
Definition set_pass_state (state : string) (value : Z) (info : spv_pass_info)
  : option spv_pass_info :=
  let st s := String.eqb state s in
  let flag := negb (value =? 0) in
  if st "SRGBWriteEnable" then Some (set_srgb_write_enable flag info)
  else if st "BlendEnable" then Some (set_blend_enable flag info)
  else if st "StencilEnable" then Some (set_stencil_enable flag info)
  else if st "ClearRenderTargets" then Some (set_clear_render_targets flag info)
  else if st "RenderTargetWriteMask" || st "ColorWriteMask"
  then Some (set_color_write_mask (Z.land value 255) info)
  else if st "StencilReadMask" || st "StencilMask"
  then Some (set_stencil_read_mask (Z.land value 255) info)
  else if st "StencilWriteMask" then Some (set_stencil_write_mask (Z.land value 255) info)
  else if st "BlendOp" then Some (set_blend_op value info)
  else if st "BlendOpAlpha" then Some (set_blend_op_alpha value info)
  else if st "SrcBlend" then Some (set_src_blend value info)
  else if st "SrcBlendAlpha" then Some (set_src_blend_alpha value info)
  else if st "DestBlend" then Some (set_dest_blend value info)
  else if st "DestBlendAlpha" then Some (set_dest_blend_alpha value info)
  else if st "StencilFunc" then Some (set_stencil_comparison_func value info)
  else if st "StencilRef" then Some (set_stencil_reference_value value info)
  else if st "StencilPass" || st "StencilPassOp" then Some (set_stencil_op_pass value info)
  else if st "StencilFail" || st "StencilFailOp" then Some (set_stencil_op_fail value info)
  else if st "StencilZFail" || st "StencilDepthFail" || st "StencilDepthFailOp"
  then Some (set_stencil_op_depth_fail value info)
  else None.

(** [return ..., consume_until('}'), false;] inside the loop over the
    states of a pass. *)
Definition pass_fails {S} (info : spv_pass_info) : M (loop_step S (bool * spv_pass_info)) :=
  consume_until (chr "}") ;; ret (Break (false, info)).

(** A shader or render target state: the value is looked up in the symbol
    table. *)
Definition pass_symbol_state (fuel : nat) (state : string) (is_shader_state : bool)
           (info : spv_pass_info)
  : M (loop_step spv_pass_info (bool * spv_pass_info)) :=
  (* Starting an identifier with '::' restricts the symbol search to the global
     namespace level *)
  exclusive <- accept colon_colon ;;
  require (expect identifier) (pass_fails info) (
    tok <- gets (@_token H) ;;
    name <- loop fuel qualified_name_body (literal_as_string tok) ;;
    match name with
    | None => pass_fails info
    | Some ident =>
        tok <- gets (@_token H) ;;
        let loc := tok_location tok in
        (* Figure out which scope to start searching in *)
        sc <- (if exclusive then ret (mk_scope "::" 0 0) else current_scope E) ;;
        (* Lookup name in the symbol table *)
        sym <- find_symbol_in E ident sc exclusive ;;
        if is_shader_state then
          if sym_id sym =? 0 then
            error loc 3004 ("undeclared identifier '" ++ ident
                            ++ "', expected function name") ;;
            pass_fails info
          else if negb (is_function (sym_type sym)) then
            error loc 3020 "type mismatch, expected function name" ;; pass_fails info
          (* Ignore invalid functions that were added during error recovery *)
          else if sym_id sym =? 4294967295 then pass_fails info
          else
            name <- synthesize_entry_point E state loc sym ;;
            let info := if Str.compare0 1 "V" state then set_vs_entry_point name info
                        else info in
            let info := if Str.compare0 1 "P" state then set_ps_entry_point name info
                        else info in
            ret (Continue info)
        else
          if sym_id sym =? 0 then
            error loc 3004 ("undeclared identifier '" ++ ident
                            ++ "', expected texture name") ;;
            pass_fails info
          else if negb (is_texture (sym_type sym)) then
            error loc 3020 "type mismatch, expected texture name" ;; pass_fails info
          else
            let target_index :=
              if 12 <? Str.size state
              then match char_at state 12 with
                   | Some c => Z.to_nat (c - 48)
                   | None => O
                   end
              else O in
            ret (Continue (set_render_targets
                             (set_nth target_index (sym_id sym) (render_targets info)) info))
    end).

(** Any other state: an enumeration name or a constant scalar
    expression. *)
Definition pass_value_state (state : string) (loc : location) (info : spv_pass_info)
  : M (loop_step spv_pass_info (bool * spv_pass_info)) :=
  backup ;;
  named <- accept identifier ;;
  expression <-
    (if named then
       (* Transform identifier to uppercase to do case-insensitive comparison *)
       tok <- gets (@_token H) ;;
       let upper := Str.transform_toupper (literal_as_string tok) in
       modify (set_token (set_literal_as_string tok upper)) ;;
       (* Look up identifier in list of possible enumeration names *)
       match find_enum upper s_enum_values with
       | Some v =>
           ret (reset_to_rvalue_constant uint_type (tok_location tok) (scalar_constant v))
       | None =>
           (* No match found, so rewind to parser state before the identifier was
              consumed and try parsing it as a normal expression *)
           restore ;; ret empty_expression
       end
     else ret empty_expression) ;;
  temp_section <- new_block ;;
  (* Parse right hand side as normal expression if no special enumeration name
     was matched already *)
  '(ok, expression) <-
    (if negb (is_constant expression)
     then parse_expression_multary E temp_section expression 0
     else ret (true, expression)) ;;
  if negb ok then unexpected ", expected expression" ;; pass_fails info
  else if negb (is_constant expression) || negb (is_scalar (exp_type expression)) then
    error (exp_location expression) 3011
          "pass state value must be a literal scalar expression" ;;
    pass_fails info
  else
    (* All states below expect the value to be of an unsigned integer type *)
    expression <- add_cast_operation E expression uint_type ;;
    let value := as_uint (exp_constant expression) 0 in
    match set_pass_state state value info with
    | Some info => ret (Continue info)
    | None => error loc 3004 ("unrecognized pass state '" ++ state ++ "'") ;; pass_fails info
    end.

(** [while (!peek('}')) { ... }] over the states of a pass. *)
Definition pass_state_body (fuel : nat) (info : spv_pass_info)
  : M (loop_step spv_pass_info (bool * spv_pass_info)) :=
  close <- peek (chr "}") ;;
  if close then
    ok <- expect (chr "}") ;;
    ret (Break (ok, info))
  else
    (* Parse pass states *)
    require (expect identifier) (pass_fails info) (
      tok <- gets (@_token H) ;;
      let loc := tok_location tok in
      let state := literal_as_string tok in
      require (expect (chr "=")) (pass_fails info) (
        let is_shader_state := String.eqb state "VertexShader" || String.eqb state "PixelShader" in
        let is_texture_state :=
          Str.compare0 12 "RenderTarget" state
          && ((Str.size state =? 12)
              || match char_at state 12 with
                 | Some c => (48 <=? c) && (c <? 56)
                 | None => false
                 end) in
        (* Shader and render target assignment looks up values in the symbol table,
           so handle those separately from the other states *)
        r <- (if is_shader_state || is_texture_state
              then pass_symbol_state fuel state is_shader_state info
              else pass_value_state state loc info) ;;
        match r with
        | Break b => ret (Break b)
        | Continue info =>
            require (expect (chr ";")) (pass_fails info) (ret (Continue info))
        end)).

Definition parse_technique_pass (fuel : nat) (info : spv_pass_info)
  : M (bool * spv_pass_info) :=
  require (expect pass) (ret (false, info)) (
    (* Passes can have an optional name, so consume that if it exists *)
    accept identifier ;;
    require (expect (chr "{")) (ret (false, info)) (
      loop fuel (pass_state_body fuel) info)).

(** [while (!peek('}')) { ... }] over the passes of a technique. *)
Definition technique_body (fuel : nat) (info : spv_technique_info)
  : M (loop_step spv_technique_info bool) :=
  close <- peek (chr "}") ;;
  if close then
    ok <- expect (chr "}") ;;
    ret (Break ok)
  else
    '(ok, parsed) <- parse_technique_pass fuel (default_pass E) ;;
    if ok then
      ret (Continue (mk_technique (tech_name info) (tech_unique_name info)
                                  (tech_annotations info) (pass_list info ++ [parsed])%list))
    else
      (* If there is another pass definition following, try to parse that despite
         the error *)
      another <- peek pass ;;
      if negb another then consume_until (chr "}") ;; ret (Break false)
      else ret (Continue info).

Definition parse_technique (fuel : nat) : M bool :=
  require (expect identifier) (ret false) (
    tok <- gets (@_token H) ;;
    sc <- current_scope E ;;
    let name := literal_as_string tok in
    let unique_name := replace_colons ("T" ++ scope_name sc ++ name) in
    '(ok, annotations) <- parse_annotations fuel [] ;;
    if negb ok then ret false
    else
      require (expect (chr "{")) (ret false) (
        loop fuel (technique_body fuel) (mk_technique name unique_name annotations []))).

(** ** Top level *)

(** [while (!peek('}')) if (!parse_top_level()) success = false;] *)
Definition namespace_body (parse_top_level_rec : M bool) (success : bool)
  : M (loop_step bool bool) :=
  close <- peek (chr "}") ;;
  if close then ret (Break success)
  else
    ok <- parse_top_level_rec ;;
    (* Continue parsing even after encountering an error *)
    ret (Continue (if ok then success else false)).

(** The list of variable names after a type at the top level. *)
Definition global_variables_body (fuel : nat) (type : spv_type) (temp_section : nat)
           (count : Z) : M (loop_step Z bool) :=
  separated <- (if 0 <? count
                then comma <- expect (chr ",") ;;
                     if comma then expect identifier else ret false
                else ret true) ;;
  if negb separated then ret (Break false)
  else
    tok <- gets (@_token H) ;;
    let name := literal_as_string tok in
    ok <- parse_variable fuel type name temp_section true ;;
    if negb ok then
      (* Insert dummy variable into symbol table, so later references can be
         resolved despite the error *)
      insert_symbol E name (mk_symbol OpVariable 4294967295 type None zero_constant None)
                    true ;;
      (* Skip the rest of the statement in case of an error *)
      consume_until (chr ";") ;;
      ret (Break false)
    else
      semi <- peek (chr ";") ;;
      if semi then ret (Break true) else ret (Continue (count + 1)).

Fixpoint parse_top_level (fuel : nat) : M bool :=
  match fuel with
  | O => fail out_of_fuel
  | S fuel =>
    is_namespace <- accept namespace_ ;;
    if is_namespace then
      (* Anonymous namespaces are not supported right now *)
      require (expect identifier) (ret false) (
        tok <- gets (@_token H) ;;
        let name := literal_as_string tok in
        require (expect (chr "{")) (ret false) (
          enter_namespace E name ;;
          (* Recursively parse top level statements until the namespace is closed
             again *)
          success <- loop fuel (namespace_body (parse_top_level fuel)) true ;;
          leave_namespace E ;;
          ok <- expect (chr "}") ;;
          ret (ok && success)))
    else
    is_struct_kw <- accept struct_ ;;
    if is_struct_kw then
      (* Structure definitions are terminated with a semicolon *)
      require (parse_struct E) (ret false) (
      require (expect (chr ";")) (ret false) (ret true))
    else
    is_technique <- accept technique ;;
    if is_technique then
      require (parse_technique fuel) (ret false) (ret true)
    else
    '(typed, type) <- parse_type fuel default_type ;;
    if typed then
      (* Type found, this can be either a variable or a function declaration *)
      require (expect identifier) (ret false) (
        paren <- peek (chr "(") ;;
        if paren then
          (* This is definitely a function declaration, so parse it *)
          tok <- gets (@_token H) ;;
          let name := literal_as_string tok in
          ok <- parse_function E type name ;;
          if ok then ret true
          else
            (* Insert dummy function into symbol table, so later references can be
               resolved despite the error *)
            insert_symbol E name
              (mk_symbol OpFunction 4294967295 (type3 datatype_function 0 0) None
                         zero_constant None) true ;;
            ret false
        else
          (* Global variables can't have non-constant initializers, so don't need a
             valid block as input *)
          temp_section <- new_block ;;
          require (loop fuel (global_variables_body fuel type temp_section) 0) (ret false) (
            (* Variable declarations are finished with a semicolon *)
            require (expect (chr ";")) (ret false) (ret true)))
    else
      (* Ignore single semicolons in the source *)
      semi <- accept (chr ";") ;;
      if semi then ret true
      else
        (* Unexpected token in source stream, consume and report an error about
           it *)
        consume ;;
        tok <- gets (@_token H) ;;
        error (tok_location tok) 3000
              ("syntax error: unexpected '" ++ id_to_name E (id tok) ++ "'") ;;
        ret false
  end.

(** ** The driver *)

(** [while (!peek(end_of_file)) if (!parse_top_level()) success = false;] *)
Definition run_body (fuel : nat) (success : bool) : M (loop_step bool bool) :=
  e <- peek end_of_file ;;
  if e then ret (Break success)
  else
    ok <- parse_top_level fuel ;;
    ret (Continue (if ok then success else false)).

Fixpoint convert_member_types (members : list spv_struct_member_info) : M (list Z) :=
  match members with
  | [] => ret []
  | member :: r =>
      assert (has (member_type member) qualifier_uniform) ;;
      t <- convert_type E (member_type member) ;;
      ts <- convert_member_types r ;;
      ret (t :: ts)
  end.

(** [std::ofstream s(name, ...); write_module(s);] *)
Definition write_file (name : string) : M unit :=
  modify (fun p => set_files ((name, write_module E p) :: _files p) p).

(** [run(input)]; the input is the token stream the lexer makes of the
    source text. *)
Definition run (fuel : nat) (input : list token) : M bool :=
  modify (fun p => set_lexer_backup None (set_lexer (Some input) p)) ;;
  consume ;;
  success <- loop fuel (run_body fuel) true ;;
  (* Create global uniform buffer object *)
  ubo_type <- gets (@_global_ubo_type H) ;;
  (if negb (ubo_type =? 0) then
     members <- gets (@_uniforms H) ;;
     member_types <- convert_member_types members ;;
     define_struct E (Some ubo_type) "$Globals" member_types ;;
     add_decoration ubo_type DecorationBlock [] ;;
     add_decoration ubo_type DecorationDescriptorSet [0] ;;
     ubo_variable <- gets (@_global_ubo_variable H) ;;
     define_variable E (Some ubo_variable) (Some "$Globals") no_location
       (mk_type datatype_struct 0 0 qualifier_uniform true false false 0 ubo_type)
       StorageClassUniform None ;;
     ret tt
   else ret tt) ;;
  write_file "test.spv" ;;
  ret success.

End Compiler.

(** ** The declarations and the expression levels of effect_parser.cpp

    [parse_expression_unary], [parse_expression_multary],
    [parse_variable_properties], [parse_struct], [parse_function] and the
    entry point a pass makes for its shader are functions of
    effect_parser.cpp.  They are written down here over the collaborators
    [E] and [C]; [effect_parser] puts them in the place of the fields of the same
    names, so that the parser it gives leaves to its collaborators only
    what is outside effect_parser.cpp. *)

(** The book-keeping record of a structure ([_structs]). *)
Record spv_struct_info : Type := mk_struct {
  struct_name : string;
  struct_unique_name : string;
  struct_definition : Z;
  member_list : list spv_struct_member_info
}.

(** What these functions use, next to [externals], of the code outside
    effect_parser.cpp: the other steps of an access chain, the table
    [_structs], the table of the intrinsics, and the function definitions
    of the IR builder.  [short_circuit] is the macro
    [RESHADEFX_SHORT_CIRCUIT]; [function_variables] and
    [function_definition] are the two blocks of
    [_functions2[_current_function]]; [intrinsic_function] is what
    [symbol.function] points to when it is not an entry of [_functions]
    ([None] for a null pointer). *)
Record codegen (H : Type) : Type := mk_codegen {
  short_circuit : bool;
  add_member_access : spv_expression -> Z -> spv_type -> M H spv_expression;
  add_static_index_access : spv_expression -> Z -> M H spv_expression;
  add_dynamic_index_access : spv_expression -> Z -> M H spv_expression;
  structs_at : Z -> M H spv_struct_info;
  structs_assign : Z -> spv_struct_info -> M H unit;
  intrinsic_function : symbol -> option spv_function_info;
  define_function : option string -> location -> spv_type -> M H Z;
  define_parameter : string -> location -> spv_type -> M H Z;
  function_variables : M H nat;
  function_definition : M H nat;
  add_builtin : Z -> BuiltIn -> M H unit;
  add_entry_point : string -> Z -> ExecutionModel -> list Z -> M H unit
}.

Section Source.

Context {H : Type}.
Variable E : externals H.
Variable C : codegen H.
Variable ptr_bits : Z.

Abbreviation M := (M H).

(** [parse_expression_unary] one level down: the recursive calls of the
    expression parser.  [exp] is passed by reference in the source; here
    every function gives the new value of [exp] with its result. *)
Variable unary : nat -> spv_expression -> M (bool * spv_expression).

(** What the first part of [parse_expression_unary] leaves: [Continue exp]
    goes on to the postfix operators, [Break (ok, exp)] is [return ok]. *)
Definition unary_step : Type := loop_step spv_expression (bool * spv_expression).


(** *** Prefix operators *)

(** [if (exp.type.is_integral()) switch (op) { ... }] of a prefix
    operator. *)
Definition integral_prefix_op (o : Op) : Op :=
  match o with
  | OpFNegate => OpSNegate
  | OpFAdd => OpIAdd
  | OpFSub => OpISub
  | _ => o
  end.

(** [!exp.type.is_scalar() && !exp.type.is_vector() &&
    !exp.type.is_matrix()] *)
Definition not_basic (t : spv_type) : bool :=
  negb (is_scalar t) && negb (is_vector t) && negb (is_matrix t).

(** [++] or [--] on [exp], whose value is loaded as [value]: the constant
    one of the type is added or subtracted and the result stored back. *)
Definition increment (section : nat) (location : location) (o : Op) (exp : spv_expression)
           (value : Z) : M Z :=
  (* Create a constant one in the type of the expression *)
  match constant_one (exp_type exp) with
  | None => fail undefined_behaviour
  | Some one =>
      constant <- convert_constant E (exp_type exp) one ;;
      t <- convert_type E (exp_type exp) ;;
      result <- add_node section location o t [value; constant] ;;
      (* The "++" and "--" operands modify the source variable, so store result
         back into it *)
      access_chain_store E section exp result (exp_type exp) ;;
      ret result
  end.

Definition prefix_operator (section : nat) (location : location) (o : Op)
           (exp : spv_expression) : M unary_step :=
  (* Parse the actual expression *)
  '(ok, exp) <- unary section exp ;;
  if negb ok then ret (Break (false, exp))
  (* Unary operators are only valid on basic types *)
  else if not_basic (exp_type exp) then
    error (exp_location exp) 3022 "scalar, vector, or matrix expected" ;;
    ret (Break (false, exp))
  (* Ignore "+" operator since it does not actually do anything *)
  else if Op_eqb o OpNop then ret (Continue exp)
  (* The "~" bitwise operator is only valid on integral types *)
  else if Op_eqb o OpNot && negb (is_integral (exp_type exp)) then
    error (exp_location exp) 3082 "int or unsigned int type required" ;;
    ret (Break (false, exp))
  else
    (* Choose correct operator depending on the input expression type *)
    let o := if is_integral (exp_type exp) then integral_prefix_op o else o in
    (* Load the right hand side value if it was not yet resolved at this point *)
    value <- access_chain_load E section exp ;;
    assert (negb (value =? 0)) ;;
    (* Special handling for the "++" and "--" operators *)
    if Op_eqb o OpFAdd || Op_eqb o OpFSub || Op_eqb o OpIAdd || Op_eqb o OpISub then
      if read_only exp then
        error location 3025 "l-value specifies const object" ;; ret (Break (false, exp))
      else
        increment section location o exp value ;;
        ret (Continue exp)
    else
      (* All other prefix operators return a new r-value.  The 'OpLogicalNot'
         operator expects a boolean type as input, so perform cast if necessary *)
      exp <- (if Op_eqb o OpLogicalNot && negb (is_boolean (exp_type exp))
              then add_cast_operation E exp
                     (type3 datatype_bool (rows (exp_type exp)) (cols (exp_type exp)))
              else ret exp) ;;
      if is_constant exp then
        match fold_unary o (exp_type exp) (exp_constant exp) with
        | None => fail undefined_behaviour
        | Some data => ret (Continue (reset_to_rvalue_constant (exp_type exp) location data))
        end
      else
        t <- convert_type E (exp_type exp) ;;
        result <- add_node section location o t [value] ;;
        ret (Continue (reset_to_rvalue result (exp_type exp) location)).

(** *** Parentheses and casts *)

Definition parenthesized (fuel : nat) (section : nat) (location : location)
           (exp : spv_expression) : M unary_step :=
  (* Parse expression between the parentheses *)
  let between : M unary_step :=
    '(ok, exp) <- parse_expression E fuel section exp ;;
    if negb ok then ret (Break (false, exp))
    else
      close <- expect E (chr ")") ;;
      if close then ret (Continue exp) else ret (Break (false, exp)) in
  backup ;;
  (* Check if this is a C-style cast expression *)
  '(is_type, cast_type) <- accept_type_class E fuel default_type ;;
  if is_type then
    is_call <- peek (chr "(") ;;
    if is_call then
      (* This is not a C-style cast but a constructor call, so need to roll-back
         and parse that instead *)
      restore ;; between
    else
      close <- expect E (chr ")") ;;
      if close then
        (* Parse expression behind cast operator *)
        '(ok, exp) <- unary section exp ;;
        if negb ok then ret (Break (false, exp))
        (* Check if the types already match, in which case there is nothing to do *)
        else if datatype_eqb (base (exp_type exp)) (base cast_type)
                && ((rows (exp_type exp) =? rows cast_type)
                    && (cols (exp_type exp) =? cols cast_type))
                && negb (is_array (exp_type exp) || is_array cast_type)
        then ret (Break (true, exp))
        (* Can only cast between numeric types *)
        else if is_numeric (exp_type exp) && is_numeric cast_type then
          if (components (exp_type exp) <? components cast_type)
             && negb (is_scalar (exp_type exp))
          then error location 3017 "cannot convert these vector types" ;;
               ret (Break (false, exp))
          else
            exp <- add_cast_operation E exp cast_type ;;
            ret (Break (true, exp))
        else
          error location 3017 "cannot convert non-numeric types" ;;
          ret (Break (false, exp))
      else
        (* Type name was not followed by a closing parenthesis *)
        ret (Break (false, exp))
  else between.

(** *** Initializer lists *)

Definition is_empty {A} (l : list A) : bool :=
  match l with [] => true | _ => false end.

(** [x = n] for an [int x] and a [size_t n]. *)
Definition int_of_size (n : nat) : Z := as_signed32 (uint32 (Z.of_nat n)).

(** [while (!peek('}')) { ... }] over the elements; [None] is
    [return consume_until('}'), false]. *)
Definition initializer_body (section : nat) (state : list spv_expression * bool * spv_type)
  : M (loop_step (list spv_expression * bool * spv_type)
                 (option (list spv_expression * bool * spv_type))) :=
  let '(elements, constant, composite_type) := state in
  close <- peek (chr "}") ;;
  if close then ret (Break (Some state))
  else
    (* There should be a comma between arguments *)
    comma <- (if negb (is_empty elements) then expect E (chr ",") else ret true) ;;
    if negb comma then consume_until (chr "}") ;; ret (Break None)
    else
      (* Initializer lists might contain a comma at the end, so break out of the
         loop if nothing follows afterwards *)
      close <- peek (chr "}") ;;
      if close then ret (Break (Some state))
      else
        (* Parse the argument expression *)
        '(ok, element) <- parse_expression_assignment E section empty_expression ;;
        if negb ok then consume_until (chr "}") ;; ret (Break None)
        else
          (* Result is only constant if all arguments are constant *)
          ret (Continue ((elements ++ [element])%list,
                         constant && is_constant element,
                         merge E composite_type (exp_type element))).

(** [for (auto &elem : elements) { add_cast_operation(elem, type);
    ... }]: the elements after the cast. *)
Fixpoint cast_all (type : spv_type) (elements : list spv_expression)
  : M (list spv_expression) :=
  match elements with
  | [] => ret []
  | elem :: r =>
      elem <- add_cast_operation E elem type ;;
      r <- cast_all type r ;;
      ret (elem :: r)
  end.

(** [for (auto &elem : elements) { add_cast_operation(elem, type);
    ids.push_back(access_chain_load(section, elem)); assert(ids.back() !=
    0); }] *)
Fixpoint cast_and_load_all (section : nat) (type : spv_type)
         (elements : list spv_expression) : M (list Z) :=
  match elements with
  | [] => ret []
  | elem :: r =>
      elem <- add_cast_operation E elem type ;;
      i <- access_chain_load E section elem ;;
      assert (negb (i =? 0)) ;;
      ids <- cast_and_load_all section type r ;;
      ret (i :: ids)
  end.

Definition initializer_list (fuel : nat) (section : nat) (location : location)
           (exp : spv_expression) : M unary_step :=
  list <- loop fuel (initializer_body section) ([], true, type3 datatype_void 1 1) ;;
  match list with
  | None => ret (Break (false, exp))
  | Some (elements, constant, composite_type) =>
      exp <-
        (if constant then
           elements <- cast_all composite_type elements ;;
           let constant_data := mk_constant (repeat 0 16) "" (map exp_constant elements) in
           let composite_type :=
             set_array_length composite_type (int_of_size (List.length elements)) in
           ret (reset_to_rvalue_constant composite_type location constant_data)
         else
           ids <- cast_and_load_all section composite_type elements ;;
           let composite_type :=
             set_array_length composite_type (int_of_size (List.length elements)) in
           t <- convert_type E composite_type ;;
           result <- add_node section location OpCompositeConstruct t ids ;;
           ret (reset_to_rvalue result composite_type location)) ;;
      ok <- expect E (chr "}") ;;
      ret (Break (ok, exp))
  end.

(** *** Constructors *)

(** [while (!peek(')')) { ... }] over the arguments of a constructor;
    [None] is [return false]. *)
Definition constructor_body (section : nat) (state : list spv_expression * bool * Z)
  : M (loop_step (list spv_expression * bool * Z)
                 (option (list spv_expression * bool * Z))) :=
  let '(arguments, constant, num_components) := state in
  close <- peek (chr ")") ;;
  if close then ret (Break (Some state))
  else
    (* There should be a comma between arguments *)
    comma <- (if negb (is_empty arguments) then expect E (chr ",") else ret true) ;;
    if negb comma then ret (Break None)
    else
      (* Parse the argument expression *)
      '(ok, argument) <- parse_expression_assignment E section empty_expression ;;
      if negb ok then ret (Break None)
      (* Constructors are only defined for numeric base types *)
      else if negb (is_numeric (exp_type argument)) then
        error (exp_location argument) 3017 "cannot convert non-numeric types" ;;
        ret (Break None)
      else
        ret (Continue ((arguments ++ [argument])%list,
                       constant && is_constant argument,
                       uint32 (num_components + components (exp_type argument)))).

(** [for (k = 0; k < n; ++k) data.as_uint[i++] = source.as_uint[k];] on
    the sixteen lanes of the two unions; [None] stands for undefined
    behaviour. *)
Fixpoint copy_lanes (n : nat) (k i : nat) (source data : spv_constant)
  : option (spv_constant * nat) :=
  match n with
  | O => Some (data, i)
  | S n =>
      if (k <? 16)%nat && (i <? 16)%nat
      then copy_lanes n (S k) (S i) source (set_lane data i (as_uint source k))
      else None
  end.

(** The constant a constructor makes of constant arguments. *)
Fixpoint constructor_constant (type : spv_type) (arguments : list spv_expression)
         (i : nat) (data : spv_constant) : M spv_constant :=
  match arguments with
  | [] => ret data
  | argument :: r =>
      argument <- add_cast_operation E argument (set_base (exp_type argument) (base type)) ;;
      match copy_lanes (Z.to_nat (components (exp_type argument))) 0 i
                       (exp_constant argument) data with
      | None => fail undefined_behaviour
      | Some (data, i) => constructor_constant type r i data
      end
  end.

(** [for (index = 0; index < argument.type.components(); ++index) { ... }]:
    every component of an argument as a scalar of the base type. *)
Fixpoint extract_scalars (section : nat) (type : spv_type) (argument : spv_expression)
         (n : nat) (index : Z) : M (list Z) :=
  match n with
  | O => ret []
  | S n =>
      scalar <- add_static_index_access C argument index ;;
      scalar <- add_cast_operation E scalar (set_base (exp_type scalar) (base type)) ;;
      i <- access_chain_load E section scalar ;;
      assert (negb (i =? 0)) ;;
      ids <- extract_scalars section type argument n (uint32 (index + 1)) ;;
      ret (i :: ids)
  end.

(** First, extract all arguments so that a list of scalars exist. *)
Fixpoint matrix_scalars (section : nat) (type : spv_type) (arguments : list spv_expression)
  : M (list Z) :=
  match arguments with
  | [] => ret []
  | argument :: r =>
      ids <-
        (if negb (is_scalar (exp_type argument)) then
           extract_scalars section type argument
                           (Z.to_nat (components (exp_type argument))) 0
         else
           argument <- add_cast_operation E argument
                         (set_base (exp_type argument) (base type)) ;;
           i <- access_chain_load E section argument ;;
           assert (negb (i =? 0)) ;;
           ret [i]) ;;
      more <- matrix_scalars section type r ;;
      ret (ids ++ more)%list
  end.

(** [ids[i + k]] for [k < n]; reading past the end is undefined. *)
Fixpoint ids_from (ids : list Z) (i n : nat) : option (list Z) :=
  match n with
  | O => Some []
  | S n =>
      match nth_error ids i, ids_from ids (S i) n with
      | Some x, Some r => Some (x :: r)
      | _, _ => None
      end
  end.

(** Second, turn that list of scalars into a list of column vectors:
    [for (i = 0; i < ids.size(); i += type.rows) { ...; ids[i] =
    node.result; }]. *)
Definition column_body (section : nat) (location : location) (type : spv_type)
           (state : nat * list Z) : M (loop_step (nat * list Z) (list Z)) :=
  let '(i, ids) := state in
  if negb (i <? List.length ids)%nat then ret (Break ids)
  else
    t <- convert_type E (set_dims type (rows type) 1) ;;
    match ids_from ids i (Z.to_nat (rows type)) with
    | None => fail undefined_behaviour
    | Some column =>
        result <- add_node section location OpCompositeConstruct t column ;;
        ret (Continue ((i + Z.to_nat (rows type))%nat, set_nth i result ids))
    end.

(** [for (i = 0; i < ids.size(); i += type.rows) node.add(ids[i]);] *)
Fixpoint every_nth (rounds : nat) (step : nat) (i : nat) (ids : list Z) : option (list Z) :=
  match rounds with
  | O => None
  | S rounds =>
      match nth_error ids i with
      | None => Some []
      | Some x =>
          match every_nth rounds step (i + step) ids with
          | Some r => Some (x :: r)
          | None => None
          end
      end
  end.

(** [for (auto &argument : arguments) { ... }] of a vector constructor. *)
Fixpoint vector_arguments (section : nat) (type : spv_type) (arguments : list spv_expression)
  : M (list Z) :=
  match arguments with
  | [] => ret []
  | argument :: r =>
      argument <- add_cast_operation E argument (set_base (exp_type argument) (base type)) ;;
      assert (is_scalar (exp_type argument) || is_vector (exp_type argument)) ;;
      i <- access_chain_load E section argument ;;
      assert (negb (i =? 0)) ;;
      ids <- vector_arguments section type r ;;
      ret (i :: ids)
  end.

Definition constructor (fuel : nat) (section : nat) (location : location) (type : spv_type)
           (exp : spv_expression) : M unary_step :=
  open <- expect E (chr "(") ;;
  if negb open then ret (Break (false, exp))
  else if negb (is_numeric type) then
    error location 3037 "constructors only defined for numeric base types" ;;
    ret (Break (false, exp))
  else
    (* Empty constructors do not exist *)
    close <- accept (chr ")") ;;
    if close then
      error location 3014 "incorrect number of arguments to numeric-type constructor" ;;
      ret (Break (false, exp))
    else
      (* Parse entire argument expression list *)
      list <- loop fuel (constructor_body section) ([], true, 0) ;;
      match list with
      | None => ret (Break (false, exp))
      | Some (arguments, constant, num_components) =>
          (* The list should be terminated with a parenthesis *)
          close <- expect E (chr ")") ;;
          if negb close then ret (Break (false, exp))
          (* The total number of argument elements needs to match the number of
             elements in the result type *)
          else if negb (num_components =? uint32 (components type)) then
            error location 3014
                  "incorrect number of arguments to numeric-type constructor" ;;
            ret (Break (false, exp))
          else
            assert ((0 <? num_components) && (num_components <=? 16)
                    && negb (is_array type)) ;;
            if constant then
              (* Constants can be converted at compile time *)
              data <- constructor_constant type arguments 0 zero_constant ;;
              ret (Continue (reset_to_rvalue_constant type location data))
            else if (1 <? List.length arguments)%nat then
              (* There must be exactly one constituent for each top-level component
                 of the result *)
              if is_matrix type then
                assert (rows type =? cols type) ;;
                ids <- matrix_scalars section type arguments ;;
                ids <- loop (S (List.length ids)) (column_body section location type)
                            (O, ids) ;;
                (* Finally, construct a matrix from those column vectors *)
                t <- convert_type E type ;;
                match every_nth (S (List.length ids)) (Z.to_nat (rows type)) 0 ids with
                | None => fail out_of_fuel
                | Some columns =>
                    result <- add_node section location OpCompositeConstruct t columns ;;
                    ret (Continue (reset_to_rvalue result type location))
                end
              else
                (* The exception is that for constructing a vector, a contiguous
                   subset of the scalars consumed can be represented by a vector
                   operand instead *)
                assert (is_vector type) ;;
                ids <- vector_arguments section type arguments ;;
                t <- convert_type E type ;;
                result <- add_node section location OpCompositeConstruct t ids ;;
                ret (Continue (reset_to_rvalue result type location))
            else
              (* A constructor call with a single argument is identical to a cast *)
              match arguments with
              | [] => fail assertion_failed
              | argument :: _ =>
                  exp <- add_cast_operation E argument type ;;
                  ret (Continue exp)
              end
      end.

(** *** Calls and names *)

(** [while (!peek(')')) { ... }] over the arguments of a call; [None] is
    [return false]. *)
Definition call_arguments_body (section : nat) (arguments : list spv_expression)
  : M (loop_step (list spv_expression) (option (list spv_expression))) :=
  close <- peek (chr ")") ;;
  if close then ret (Break (Some arguments))
  else
    (* There should be a comma between arguments *)
    comma <- (if negb (is_empty arguments) then expect E (chr ",") else ret true) ;;
    if negb comma then ret (Break None)
    else
      (* Parse the argument expression *)
      '(ok, argument) <- parse_expression_assignment E section empty_expression ;;
      if negb ok then ret (Break None)
      else ret (Continue (arguments ++ [argument])%list).

(** [symbol.function], with [assert(symbol.function != nullptr)]. *)
Definition callee (sym : symbol) : M spv_function_info :=
  match sym_function sym with
  | Some j =>
      fs <- gets (@_functions H) ;;
      match nth_error fs j with
      | Some info => ret info
      | None => fail undefined_behaviour
      end
  | None =>
      match intrinsic_function C sym with
      | Some info => ret info
      | None => fail assertion_failed
      end
  end.

(** We need to allocate some temporary variables to pass in and load
    results from pointer parameters: the arguments after the cast to the
    type of their parameter, and the parameters. *)
Fixpoint call_parameters (section : nat) (parameter_types : list spv_struct_member_info)
         (i : nat) (arguments : list spv_expression)
  : M (list spv_expression * list spv_expression) :=
  match arguments with
  | [] => ret ([], [])
  | argument :: r =>
      match nth_error parameter_types i with
      | None => fail undefined_behaviour
      | Some parameter =>
          let param_type := member_type parameter in
          (if components param_type <? components (exp_type argument)
           then warning (exp_location argument) 3206 "implicit truncation of vector type"
           else ret tt) ;;
          argument <- add_cast_operation E argument (set_is_pointer param_type false) ;;
          parameter <-
            (if is_pointer param_type then
               v <- define_variable E None None (exp_location argument) param_type
                                    StorageClassFunction None ;;
               ret (reset_to_lvalue v param_type (exp_location argument))
             else
               v <- access_chain_load E section argument ;;
               ret (reset_to_rvalue v param_type (exp_location argument))) ;;
          '(arguments, parameters) <- call_parameters section parameter_types (S i) r ;;
          ret (argument :: arguments, parameter :: parameters)
      end
  end.

(** Copy in parameters from the argument access chains to parameter
    variables. *)
Fixpoint copy_in (section : nat) (arguments parameters : list spv_expression) : M unit :=
  match arguments, parameters with
  | argument :: arguments, parameter :: parameters =>
      (* Only do this for pointer parameters as discovered above *)
      (if is_lvalue parameter && has (exp_type parameter) qualifier_in then
         v <- access_chain_load E section argument ;;
         access_chain_store E section parameter v (exp_type argument)
       else ret tt) ;;
      copy_in section arguments parameters
  | _, _ => ret tt
  end.

(** Copy out parameters from parameter variables back to the argument
    access chains. *)
Fixpoint copy_out (section : nat) (arguments parameters : list spv_expression) : M unit :=
  match arguments, parameters with
  | argument :: arguments, parameter :: parameters =>
      (if is_lvalue parameter && has (exp_type parameter) qualifier_out then
         v <- access_chain_load E section parameter ;;
         access_chain_store E section argument v (exp_type argument)
       else ret tt) ;;
      copy_out section arguments parameters
  | _, _ => ret tt
  end.

Definition function_call (fuel : nat) (section : nat) (location : location)
           (ident : string) (sc : scope) (sym : symbol) (exp : spv_expression)
  : M unary_step :=
  (* Can only call symbols that are functions, but do not abort yet if no symbol
     was found since the identifier may reference an intrinsic *)
  if negb (sym_id sym =? 0) && negb (Op_eqb (sym_op sym) OpFunction) then
    error location 3005
          ("identifier '" ++ ident ++ "' represents a variable, not a function") ;;
    ret (Break (false, exp))
  else
    (* Parse entire argument expression list *)
    list <- loop fuel (call_arguments_body section) [] ;;
    match list with
    | None => ret (Break (false, exp))
    | Some arguments =>
        (* The list should be terminated with a parenthesis *)
        close <- expect E (chr ")") ;;
        if negb close then ret (Break (false, exp))
        else
          (* Try to resolve the call by searching through both function symbols and
             intrinsics *)
          let undeclared := sym_id sym =? 0 in
          '(resolved, ambiguous, sym) <- resolve_function_call E ident arguments sc sym ;;
          if negb resolved then
            (if undeclared && Op_eqb (sym_op sym) OpFunctionCall then
               error location 3004 ("undeclared identifier '" ++ ident ++ "'")
             else if ambiguous then
               error location 3067 ("ambiguous function call to '" ++ ident ++ "'")
             else
               error location 3013
                     ("no matching function overload for '" ++ ident ++ "'")) ;;
            ret (Break (false, exp))
          else
            info <- callee sym ;;
            '(arguments, parameters) <-
              call_parameters section (parameter_list info) 0 arguments ;;
            copy_in section arguments parameters ;;
            '(ok, exp) <- emit_call E section location sym parameters exp ;;
            if negb ok then ret (Break (false, exp))
            else
              copy_out section arguments parameters ;;
              ret (Continue exp)
    end.

Definition variable_reference (location : location) (ident : string) (sym : symbol)
           (exp : spv_expression) : M unary_step :=
  (* Show error if no symbol matching the identifier was found *)
  if Op_eqb (sym_op sym) OpNop then
    error location 3004 ("undeclared identifier '" ++ ident ++ "'") ;;
    ret (Break (false, exp))
  else if Op_eqb (sym_op sym) OpVariable then
    match member_index sym with
    | Some index =>
        exp <- add_member_access C
                 (reset_to_lvalue (sym_id sym)
                    (mk_type datatype_struct 0 0 0 false false false 0 (sym_id sym))
                    location)
                 index (sym_type sym) ;;
        ret (Continue exp)
    | None =>
        (* Simply return the pointer to the variable, dereferencing is done on site
           where necessary *)
        ret (Continue (reset_to_lvalue (sym_id sym) (sym_type sym) location))
    end
  else if Op_eqb (sym_op sym) OpConstant then
    (* Constants are loaded into the access chain *)
    ret (Continue (reset_to_rvalue_constant (sym_type sym) location (sym_constant sym)))
  else
    (* Can only reference variables and constants by name, functions need to be
       called *)
    error location 3005
          ("identifier '" ++ ident ++ "' represents a function, not a variable") ;;
    ret (Break (false, exp)).

(** At this point only identifiers are left to check and resolve. *)
Definition named (fuel : nat) (section : nat) (location : location) (exp : spv_expression)
  : M unary_step :=
  (* Starting an identifier with '::' restricts the symbol search to the global
     namespace level *)
  exclusive <- accept colon_colon ;;
  found <- (if exclusive then expect E identifier else accept identifier) ;;
  if negb found then ret (Break (false, exp))
  else
    tok <- gets (@_token H) ;;
    (* Can concatenate multiple '::' to force symbol search for a specific
       namespace level *)
    name <- loop fuel (qualified_name_body E) (literal_as_string tok) ;;
    match name with
    | None => ret (Break (false, exp))
    | Some ident =>
        (* Figure out which scope to start searching in *)
        sc <- (if exclusive then ret (mk_scope "::" 0 0) else current_scope E) ;;
        (* Lookup name in the symbol table *)
        sym <- find_symbol_in E ident sc exclusive ;;
        (* Check if this is a function call or variable reference *)
        call <- accept (chr "(") ;;
        if call then function_call fuel section location ident sc sym exp
        else variable_reference location ident sym exp
    end.

(** *** Postfix operators *)

(** The [.subscript] of a structure: the member is looked up in
    [_structs] and added to the access chain. *)
Definition member_position (subscript : string) (members : list spv_struct_member_info)
  : nat :=
  (fix go (l : list spv_struct_member_info) (i : nat) : nat :=
     match l with
     | [] => i
     | member :: r => if String.eqb (member_name member) subscript then i else go r (S i)
     end) members O.

Definition struct_member_access (exp : spv_expression) (subscript : string)
           (location : location) : M (bool * spv_expression) :=
  (* Find member with matching name is structure definition *)
  info <- structs_at C (definition (exp_type exp)) ;;
  let member_index := member_position subscript (member_list info) in
  info <- structs_at C (definition (exp_type exp)) ;;
  match nth_error (member_list info) member_index with
  | None =>
      error location 3018 ("invalid subscript '" ++ subscript ++ "'") ;;
      ret (false, exp)
  | Some _ =>
      (* Add field index to current access chain *)
      info <- structs_at C (definition (exp_type exp)) ;;
      match nth_error (member_list info) member_index with
      | None => fail undefined_behaviour
      | Some member =>
          exp <- add_member_access C exp (Z.of_nat member_index) (member_type member) ;;
          ret (true, exp)
      end
  end.

(** [while (!peek(tokenid::end_of_file)) { ... }] *)
Definition postfix_body (fuel : nat) (section : nat) (exp : spv_expression)
  : M unary_step :=
  e <- peek end_of_file ;;
  if e then ret (Break (true, exp))
  else
    next <- gets (@_token_next H) ;;
    let location := tok_location next in
    (* Check if a postfix operator exists *)
    o <- accept_postfix_op (exp_type exp) ;;
    match o with
    | Some o =>
        (* Unary operators are only valid on basic types *)
        if not_basic (exp_type exp) then
          error (exp_location exp) 3022 "scalar, vector, or matrix expected" ;;
          ret (Break (false, exp))
        else if read_only exp then
          error (exp_location exp) 3025 "l-value specifies const object" ;;
          ret (Break (false, exp))
        else
          (* Load current value from expression *)
          value <- access_chain_load E section exp ;;
          assert (negb (value =? 0)) ;;
          result <- increment section location o exp value ;;
          (* All postfix operators return a r-value *)
          ret (Continue (reset_to_rvalue result (exp_type exp) location))
    | None =>
        dot <- accept (chr ".") ;;
        if dot then
          '(ok, exp) <- postfix_subscript E exp ;;
          if ok then ret (Continue exp) else ret (Break (false, exp))
        else
          bracket <- accept (chr "[") ;;
          if bracket then
            if negb (is_array (exp_type exp)) && negb (is_vector (exp_type exp))
               && negb (is_matrix (exp_type exp))
            then
              tok <- gets (@_token H) ;;
              error (tok_location tok) 3121
                    "array, matrix, vector, or indexable object type expected in index expression" ;;
              ret (Break (false, exp))
            else
              (* Parse index expression *)
              '(ok, index) <- parse_expression E fuel section empty_expression ;;
              if negb ok then ret (Break (false, exp))
              else
                close <- expect E (chr "]") ;;
                if negb close then ret (Break (false, exp))
                else if negb (is_scalar (exp_type index))
                        || negb (is_integral (exp_type index))
                then
                  error (exp_location index) 3120
                        "invalid type for index - index must be a scalar" ;;
                  ret (Break (false, exp))
                (* Add index expression to current access chain *)
                else if is_constant index then
                  exp <- add_static_index_access C exp (as_uint (exp_constant index) 0) ;;
                  ret (Continue exp)
                else
                  v <- access_chain_load E section index ;;
                  exp <- add_dynamic_index_access C exp v ;;
                  ret (Continue exp)
          else ret (Break (true, exp))
    end.

(** *** [parse_expression_unary] *)

Definition parse_expression_unary_body (fuel : nat) (section : nat) (exp : spv_expression)
  : M (bool * spv_expression) :=
  next <- gets (@_token_next H) ;;
  let location := tok_location next in
  first <-
    ((* Check if a prefix operator exists *)
     o <- accept_unary_op ;;
     match o with
     | Some o => prefix_operator section location o exp
     | None =>
         paren <- accept (chr "(") ;;
         if paren then parenthesized fuel section location exp
         else
           brace <- accept (chr "{") ;;
           if brace then initializer_list fuel section location exp
           else
             literal <- unary_literal E fuel location ;;
             match literal with
             | Some exp => ret (Continue exp)
             | None =>
                 (* Check if this is a constructor call expression *)
                 '(is_type, type) <- accept_type_class E fuel default_type ;;
                 if is_type then constructor fuel section location type exp
                 else named fuel section location exp
             end
     end) ;;
  match first with
  | Break r => ret r
  | Continue exp => loop fuel (postfix_body fuel section) exp
  end.

(** *** [parse_expression_multary] *)

(** [if (type.is_integral()) switch (op) { ... }] of a binary operator. *)
Definition integral_binary_op (o : Op) (type : spv_type) : Op :=
  match o with
  | OpFRem => if is_signed type then OpSRem else OpUMod
  | OpFMul => OpIMul
  | OpFAdd => OpIAdd
  | OpFSub => OpISub
  | OpFDiv => if is_signed type then OpSDiv else OpUDiv
  | OpFOrdLessThan => if is_signed type then OpSLessThan else OpULessThan
  | OpFOrdGreaterThan => if is_signed type then OpSGreaterThan else OpUGreaterThan
  | OpFOrdLessThanEqual => if is_signed type then OpSLessThanEqual else OpULessThanEqual
  | OpFOrdGreaterThanEqual =>
      if is_signed type then OpSGreaterThanEqual else OpUGreaterThanEqual
  | OpShiftRightLogical =>
      if is_signed type then OpShiftRightArithmetic else OpShiftRightLogical
  | _ => o
  end.

(** The checks on the operands of a binary operator: the operator and the
    type of the operation and whether the result is boolean; [None] after
    an error. *)
Definition check_binary (o : Op) (lhs rhs : spv_expression)
  : M (option (Op * spv_type * bool)) :=
  (* Deduce the result base type based on implicit conversion rules *)
  let type := merge E (exp_type lhs) (exp_type rhs) in
  if Op_eqb o OpLogicalEqual || Op_eqb o OpLogicalNotEqual then
    (* Select operator matching the argument types *)
    let o := select_equality_op o type in
    (* Cannot check equality between incompatible types *)
    if is_array (exp_type lhs) || is_array (exp_type rhs)
       || negb (definition (exp_type lhs) =? definition (exp_type rhs))
    then error (exp_location rhs) 3020 "type mismatch" ;; ret None
    (* Equality checks return a boolean value *)
    else ret (Some (o, type, true))
  else if Op_eqb o OpBitwiseAnd || Op_eqb o OpBitwiseOr || Op_eqb o OpBitwiseXor then
    (* Cannot perform bitwise operations on non-integral types *)
    if negb (is_integral (exp_type lhs)) then
      error (exp_location lhs) 3082 "int or unsigned int type required" ;; ret None
    else if negb (is_integral (exp_type rhs)) then
      error (exp_location rhs) 3082 "int or unsigned int type required" ;; ret None
    else ret (Some (o, type, false))
  else
    let type := if Op_eqb o OpLogicalAnd || Op_eqb o OpLogicalOr
                then set_base type datatype_bool else type in
    (* Logical operations return a boolean value *)
    let boolean_result :=
      Op_eqb o OpFOrdLessThan || Op_eqb o OpFOrdGreaterThan
      || Op_eqb o OpFOrdLessThanEqual || Op_eqb o OpFOrdGreaterThanEqual in
    (* Select operator matching the argument types *)
    let o := if is_integral type then integral_binary_op o type else o in
    (* Cannot perform arithmetic operations on non-basic types *)
    if not_basic (exp_type lhs) then
      error (exp_location lhs) 3022 "scalar, vector, or matrix expected" ;; ret None
    else if not_basic (exp_type rhs) then
      error (exp_location rhs) 3022 "scalar, vector, or matrix expected" ;; ret None
    else ret (Some (o, type, boolean_result)).

(** [if (e.type.components() > type.components()) warning(e.location,
    3206, ...)] *)
Definition warn_truncation (e : spv_expression) (type : spv_type) : M unit :=
  if components type <? components (exp_type e)
  then warning (exp_location e) 3206 "implicit truncation of vector type"
  else ret tt.

(** [add_cast_operation(e, type); v = access_chain_load(section, e);
    assert(v != 0);] *)
Definition cast_and_load (section : nat) (e : spv_expression) (type : spv_type)
  : M (spv_expression * Z) :=
  e <- add_cast_operation E e type ;;
  v <- access_chain_load E section e ;;
  assert (negb (v =? 0)) ;;
  ret (e, v).

Definition binary_operation (section : nat) (o : Op) (right_precedence : Z)
           (lhs : spv_expression) : M unary_step :=
  (* Parse the right hand side of the binary operation *)
  rhs_block <- new_block ;;
  '(ok, rhs) <- parse_expression_multary E rhs_block empty_expression right_precedence ;;
  if negb ok then ret (Break (false, lhs))
  else
    checked <- check_binary o lhs rhs ;;
    match checked with
    | None => ret (Break (false, lhs))
    | Some (o, type, boolean_result) =>
        warn_truncation lhs type ;;
        warn_truncation rhs type ;;
        if is_constant lhs && is_constant rhs then
          lhs <- fold_constant_operands E o type lhs rhs ;;
          ret (Continue lhs)
        else
          (* Load values and perform implicit type conversions *)
          '(lhs, lhs_value) <- cast_and_load section lhs type ;;
          if short_circuit C && (Op_eqb o OpLogicalAnd || Op_eqb o OpLogicalOr) then
            (* Short circuit for logical && and || operators *)
            merge_label <- make_id ;;
            parent0_label <- gets (@_current_block H) ;;
            parent1_label <- make_id ;;
            (if Op_eqb o OpLogicalAnd then
               (* Emit "if ( lhs) result = rhs" *)
               leave_block_and_branch_conditional section lhs_value parent1_label
                                                  merge_label
             else
               (* Emit "if (!lhs) result = rhs" *)
               t <- convert_type E type ;;
               cond <- add_node section (exp_location lhs) OpLogicalNot t [lhs_value] ;;
               leave_block_and_branch_conditional section cond parent1_label merge_label) ;;
            enter_block section parent1_label ;;
            append_block section rhs_block ;;
            '(rhs, rhs_value) <- cast_and_load section rhs type ;;
            leave_block_and_branch section merge_label ;;
            enter_block section merge_label ;;
            t <- convert_type E type ;;
            result <- add_node section (exp_location lhs) OpPhi t
                               [lhs_value; parent0_label; rhs_value; parent1_label] ;;
            ret (Continue (reset_to_rvalue result type (exp_location lhs)))
          else
            append_block section rhs_block ;;
            '(rhs, rhs_value) <- cast_and_load section rhs type ;;
            (* Certain operations return a boolean type instead of the type of the
               input expressions *)
            let type := if boolean_result
                        then type3 datatype_bool (rows type) (cols type) else type in
            t <- convert_type E type ;;
            result <- add_node section (exp_location lhs) o t [lhs_value; rhs_value] ;;
            ret (Continue (reset_to_rvalue result type (exp_location lhs)))
    end.

Definition ternary_operation (fuel : nat) (section : nat) (lhs : spv_expression)
  : M unary_step :=
  (* A conditional expression needs a scalar or vector type condition *)
  if negb (is_scalar (exp_type lhs)) && negb (is_vector (exp_type lhs)) then
    error (exp_location lhs) 3022 "boolean or vector expression expected" ;;
    ret (Break (false, lhs))
  else
    (* Parse the first part of the right hand side of the ternary operation *)
    true_block <- new_block ;;
    '(ok, true_exp) <- parse_expression E fuel true_block empty_expression ;;
    if negb ok then ret (Break (false, lhs))
    else
      colon <- expect E (chr ":") ;;
      if negb colon then ret (Break (false, lhs))
      else
        (* Parse the second part of the right hand side of the ternary operation *)
        false_block <- new_block ;;
        '(ok, false_exp) <- parse_expression_assignment E false_block empty_expression ;;
        if negb ok then ret (Break (false, lhs))
        (* Check that the condition dimension matches that of at least one side *)
        else if is_vector (exp_type lhs)
                && negb (rows (exp_type lhs) =? rows (exp_type true_exp))
                && negb (cols (exp_type lhs) =? cols (exp_type true_exp))
        then
          error (exp_location lhs) 3020 "dimension of conditional does not match value" ;;
          ret (Break (false, lhs))
        (* Check that the two value expressions can be converted between each
           other *)
        else if negb (array_length (exp_type true_exp) =? array_length (exp_type false_exp))
                || negb (definition (exp_type true_exp) =? definition (exp_type false_exp))
        then
          error (exp_location false_exp) 3020 "type mismatch between conditional values" ;;
          ret (Break (false, lhs))
        else
          (* Deduce the result base type based on implicit conversion rules *)
          let type := merge E (exp_type true_exp) (exp_type false_exp) in
          warn_truncation true_exp type ;;
          warn_truncation false_exp type ;;
          if short_circuit C then
            true_label <- make_id ;;
            false_label <- make_id ;;
            merge_label <- make_id ;;
            '(lhs, condition_value) <-
              cast_and_load section lhs (type3 datatype_bool (rows (exp_type lhs)) 1) ;;
            add_node_without_result section (exp_location lhs) OpSelectionMerge
                                    [merge_label; SelectionControlMaskNone] ;;
            leave_block_and_branch_conditional section condition_value true_label
                                               false_label ;;
            enter_block section true_label ;;
            append_block section true_block ;;
            '(true_exp, true_value) <- cast_and_load section true_exp type ;;
            leave_block_and_branch section merge_label ;;
            enter_block section false_label ;;
            append_block section false_block ;;
            '(false_exp, false_value) <- cast_and_load section false_exp type ;;
            leave_block_and_branch section merge_label ;;
            enter_block section merge_label ;;
            t <- convert_type E type ;;
            result <- add_node section (exp_location lhs) OpPhi t
                               [true_value; true_label; false_value; false_label] ;;
            ret (Continue (reset_to_rvalue result type (exp_location lhs)))
          else
            append_block section true_block ;;
            append_block section false_block ;;
            (* Load values and perform implicit type conversions *)
            '(lhs, condition_value) <-
              cast_and_load section lhs (type3 datatype_bool (rows type) 1) ;;
            '(true_exp, true_value) <- cast_and_load section true_exp type ;;
            '(false_exp, false_value) <- cast_and_load section false_exp type ;;
            t <- convert_type E type ;;
            result <- add_node section (exp_location lhs) OpSelect t
                               [condition_value; true_value; false_value] ;;
            ret (Continue (reset_to_rvalue result type (exp_location lhs))).

(** [while (peek_multary_op(op, right_precedence)) { ... }] *)
Definition multary_body (fuel : nat) (section : nat) (left_precedence : Z)
           (lhs : spv_expression) : M unary_step :=
  o <- peek_multary_op ;;
  match o with
  | None => ret (Break (true, lhs))
  | Some (o, right_precedence) =>
      (* Only process this operator if it has a lower precedence than the current
         operation, otherwise leave it for later and abort *)
      if right_precedence <=? left_precedence then ret (Break (true, lhs))
      else
        (* Finally consume the operator token *)
        consume ;;
        (* Check if this is a binary or ternary operation *)
        if negb (Op_eqb o OpSelect) then binary_operation section o right_precedence lhs
        else ternary_operation fuel section lhs
  end.

Definition parse_expression_multary_body (fuel : nat) (section : nat) (lhs : spv_expression)
           (left_precedence : Z) : M (bool * spv_expression) :=
  (* Parse left hand side of the expression *)
  '(ok, lhs) <- unary section lhs ;;
  if negb ok then ret (false, lhs)
  else loop fuel (multary_body fuel section left_precedence) lhs.

End Source.

Section Declarations.

Context {H : Type}.
Variable E : externals H.
Variable C : codegen H.
Variable ptr_bits : Z.

Abbreviation M := (M H).

(** *** [parse_variable_properties] *)

(** The enumeration names a property may use for its value. *)
Definition s_values : list (string * Z) :=
  [ ("NONE", 0); ("POINT", 0); ("LINEAR", 1); ("ANISOTROPIC", 3);
    ("WRAP", 1); ("REPEAT", 1); ("MIRROR", 2); ("CLAMP", 3); ("BORDER", 4);
    ("R8", 1); ("R16F", 2); ("R32F", 3); ("RG8", 4); ("R8G8", 4); ("RG16", 5);
    ("R16G16", 5); ("RG16F", 6); ("R16G16F", 6); ("RG32F", 7); ("R32G32F", 7);
    ("RGBA8", 8); ("R8G8B8A8", 8); ("RGBA16", 9); ("R16G16B16A16", 9);
    ("RGBA16F", 10); ("R16G16B16A16F", 10); ("RGBA32F", 11); ("R32G32B32A32F", 11);
    ("DXT1", 12); ("DXT3", 13); ("DXT4", 14); ("LATC1", 15); ("LATC2", 16) ].

(** The properties with a scalar value.  The record [spv_variable_info] of
    this development keeps, of the properties, the texture, which
    [parse_variable] reads again; the stores to the properties named here
    change nothing else of the state of the parser. *)
Definition value_properties : list string :=
  [ "Width"; "Height"; "MipLevels"; "Format"; "SRGBTexture"; "SRGBReadEnable";
    "AddressU"; "AddressV"; "AddressW"; "MinFilter"; "MagFilter"; "MipFilter";
    "MinLOD"; "MaxMipLevel"; "MaxLOD"; "MipLODBias"; "MipMapLodBias" ].

Definition set_var_texture (info : spv_variable_info) (t : Z) : spv_variable_info :=
  mk_variable (var_name info) (var_unique_name info) (var_definition info) (var_builtin info)
              (var_semantic info) (var_semantic_index info) (annotation_list info) t.

(** [return ..., consume_until('}'), false;] inside the loop over the
    properties. *)
Definition properties_fail {S} (props : spv_variable_info)
  : M (loop_step S (bool * spv_variable_info)) :=
  consume_until (chr "}") ;; ret (Break (false, props)).

(** [while (!peek('}')) { ... }] over the properties. *)
Definition property_body (props : spv_variable_info)
  : M (loop_step spv_variable_info (bool * spv_variable_info)) :=
  close <- peek (chr "}") ;;
  if close then
    ok <- expect E (chr "}") ;;
    ret (Break (ok, props))
  else
    require (expect E identifier) (properties_fail props) (
      tok <- gets (@_token H) ;;
      let name := literal_as_string tok in
      let location := tok_location tok in
      require (expect E (chr "=")) (properties_fail props) (
        backup ;;
        named <- accept identifier ;;
        expression <-
          (if named then
             (* Transform identifier to uppercase to do case-insensitive comparison *)
             tok <- gets (@_token H) ;;
             let upper := Str.transform_toupper (literal_as_string tok) in
             modify (set_token (set_literal_as_string tok upper)) ;;
             (* Look up identifier in list of possible enumeration names *)
             match find_enum upper s_values with
             | Some v =>
                 ret (reset_to_rvalue_constant uint_type (tok_location tok)
                                               (scalar_constant v))
             | None =>
                 (* No match found, so rewind to parser state before the identifier
                    was consumed and try parsing it as a normal expression *)
                 restore ;; ret empty_expression
             end
           else ret empty_expression) ;;
        temp_section <- new_block ;;
        (* Parse right hand side as normal expression if no special enumeration name
           was matched already *)
        '(ok, expression) <-
          (if negb (is_constant expression)
           then parse_expression_multary E temp_section expression 0
           else ret (true, expression)) ;;
        if negb ok then unexpected E ", expected expression" ;; properties_fail props
        else
          r <-
            (if String.eqb name "Texture" then
               if negb (is_texture (exp_type expression)) then
                 error location 3020 "type mismatch, expected texture name" ;;
                 ret None
               else ret (Some (set_var_texture props (exp_base expression)))
             else if negb (is_constant expression)
                     || negb (is_scalar (exp_type expression)) then
               error (exp_location expression) 3011
                     "value must be a literal scalar expression" ;;
               ret None
             else
               (* All states below expect the value to be of an unsigned integer
                  type *)
               expression <- add_cast_operation E expression uint_type ;;
               if existsb (String.eqb name) value_properties then ret (Some props)
               else
                 error location 3004 ("unrecognized property '" ++ name ++ "'") ;;
                 ret None) ;;
          match r with
          | None => properties_fail props
          | Some props =>
              require (expect E (chr ";")) (properties_fail props) (ret (Continue props))
          end)).

Definition parse_variable_properties_body (fuel : nat) (props : spv_variable_info)
  : M (bool * spv_variable_info) :=
  require (expect E (chr "{")) (ret (false, props)) (
    loop fuel property_body props).

(** *** [parse_struct] *)

(** [return consume_until('}'), false;] inside the loops over the
    members. *)
Definition struct_fails {S R} : M (loop_step S (option R)) :=
  consume_until (chr "}") ;; ret (Break None).

(** [do { ... } while (!peek(';'));] over the names declared with one
    type; the state is [count], the members and the ids of their types. *)
Definition member_names_body (fuel : nat) (type : spv_type)
           (state : Z * list spv_struct_member_info * list Z)
  : M (loop_step (Z * list spv_struct_member_info * list Z)
                 (option (list spv_struct_member_info * list Z))) :=
  let '(count, members, member_types) := state in
  comma <- (if 0 <? count then expect E (chr ",") else ret true) ;;
  if negb comma then struct_fails
  else
    require (expect E identifier) struct_fails (
      tok <- gets (@_token H) ;;
      let name := literal_as_string tok in
      '(ok, type) <- parse_array_size E fuel type ;;
      if negb ok then struct_fails
      else
        colon <- accept (chr ":") ;;
        semantic <-
          (if colon then
             require (expect E identifier) (ret None) (
               '(b, _, index) <- token_semantic 0 ;;
               ret (Some (b, index)))
           else ret (Some (BuiltInMax, 0))) ;;
        match semantic with
        | None => struct_fails
        | Some (b, index) =>
            (* Add member type to list *)
            t <- convert_type E type ;;
            (* Save member name and type for book keeping *)
            let members := (members ++ [mk_member name type b index])%list in
            let member_types := (member_types ++ [t])%list in
            semi <- peek (chr ";") ;;
            if semi then ret (Break (Some (members, member_types)))
            else ret (Continue (uint32 (count + 1), members, member_types))
        end).

(** [while (!peek('}')) { ... }] over the member declarations. *)
Definition struct_body (fuel : nat) (state : list spv_struct_member_info * list Z)
  : M (loop_step (list spv_struct_member_info * list Z)
                 (option (list spv_struct_member_info * list Z))) :=
  let '(members, member_types) := state in
  close <- peek (chr "}") ;;
  if close then ret (Break (Some state))
  else
    '(typed, type) <- parse_type E fuel default_type ;;
    if negb typed then unexpected E ", expected struct member type" ;; struct_fails
    else
      next <- gets (@_token_next H) ;;
      if is_void type then
        error (tok_location next) 3038 "struct members cannot be void" ;; struct_fails
      else if has type qualifier_in || has type qualifier_out then
        error (tok_location next) 3055 "struct members cannot be declared 'in' or 'out'" ;;
        struct_fails
      else if is_struct type then
        error (tok_location next) 3090 "nested struct members are not supported" ;;
        struct_fails
      else
        declared <- loop fuel (member_names_body fuel type) (0, members, member_types) ;;
        match declared with
        | None => ret (Break None)
        | Some state =>
            semi <- expect E (chr ";") ;;
            if semi then ret (Continue state) else struct_fails
        end.

(** [for (i = 0; i < info.member_list.size(); ++i)
    add_member_name(info.definition, i, ...);] *)
Fixpoint add_member_names (definition : Z) (i : Z) (members : list spv_struct_member_info)
  : M unit :=
  match members with
  | [] => ret tt
  | member :: r =>
      add_member_name definition i (member_name member) ;;
      add_member_names definition (uint32 (i + 1)) r
  end.

Definition parse_struct_body (fuel : nat) : M bool :=
  tok <- gets (@_token H) ;;
  let location := tok_location tok in
  named <- accept identifier ;;
  tok <- gets (@_token H) ;;
  let name := if named then literal_as_string tok
              else "__anonymous_struct_" ++ to_string (line location) ++ "_"
                   ++ to_string (column location) in
  sc <- current_scope E ;;
  let unique_name := replace_colons ("S" ++ scope_name sc ++ name) in
  require (expect E (chr "{")) (ret false) (
    declared <- loop fuel (struct_body fuel) ([], []) ;;
    match declared with
    | None => ret false
    | Some (members, member_types) =>
        (if is_empty member_types then warning location 5001 "struct has no members"
         else ret tt) ;;
        definition <- define_struct E None unique_name member_types ;;
        structs_assign C definition (mk_struct name unique_name definition members) ;;
        add_member_names definition 0 members ;;
        (* Insert the symbol into the symbol table *)
        inserted <- insert_symbol E name
                      (mk_symbol OpTypeStruct definition default_type None zero_constant None)
                      true ;;
        if negb inserted then error_false location 3003 ("redefinition of '" ++ name ++ "'")
        else expect E (chr "}")
    end).

(** *** [parse_function] *)

Definition default_function_info : spv_function_info :=
  mk_function "" "" default_type BuiltInMax 0 [] 0 0.

(** A write through [info], the reference to the entry of [_functions]
    at [index]. *)
Definition update_function (index : nat) (f : spv_function_info -> spv_function_info)
  : M unit :=
  modify (fun p => set_functions
                     (match nth_error (_functions p) index with
                      | Some info => set_nth index (f info) (_functions p)
                      | None => _functions p
                      end) p).

(** A read through [info]. *)
Definition function_at (index : nat) : M spv_function_info :=
  fs <- gets (@_functions H) ;;
  match nth_error fs index with
  | Some info => ret info
  | None => fail undefined_behaviour
  end.

Definition set_fn_names (name unique_name : string) (type : spv_type)
           (i : spv_function_info) : spv_function_info :=
  mk_function name unique_name type (return_builtin i) (return_semantic_index i)
              (parameter_list i) (fn_definition i) (entry_point i).
Definition set_fn_definition (d : Z) (i : spv_function_info) : spv_function_info :=
  mk_function (fn_name i) (fn_unique_name i) (return_type i) (return_builtin i)
              (return_semantic_index i) (parameter_list i) d (entry_point i).
Definition set_return_semantic (b : BuiltIn) (index : Z) (i : spv_function_info)
  : spv_function_info :=
  mk_function (fn_name i) (fn_unique_name i) (return_type i) b index
              (parameter_list i) (fn_definition i) (entry_point i).
Definition add_parameter (param : spv_struct_member_info) (i : spv_function_info)
  : spv_function_info :=
  mk_function (fn_name i) (fn_unique_name i) (return_type i) (return_builtin i)
              (return_semantic_index i) (parameter_list i ++ [param])%list
              (fn_definition i) (entry_point i).
Definition set_entry_point (e : Z) (i : spv_function_info) : spv_function_info :=
  mk_function (fn_name i) (fn_unique_name i) (return_type i) (return_builtin i)
              (return_semantic_index i) (parameter_list i) (fn_definition i) e.

(** [return error(param_location, code, message), false;] inside the loop
    over the parameters. *)
Definition parameter_error (loc : location) (code : Z) (message : string)
  : M (loop_step unit bool) :=
  error loc code message ;; ret (Break false).

(** [while (!peek(')')) { ... }] over the parameters of the function at
    [index]; the result tells whether the list went through. *)
Definition parameter_body (fuel : nat) (index : nat) (_ : unit)
  : M (loop_step unit bool) :=
  close <- peek (chr ")") ;;
  if close then ret (Break true)
  else
    info <- function_at index ;;
    comma <- (if negb (is_empty (parameter_list info)) then expect E (chr ",")
              else ret true) ;;
    if negb comma then ret (Break false)
    else
      '(typed, type) <- parse_type E fuel default_type ;;
      if negb typed then unexpected E ", expected parameter type" ;; ret (Break false)
      else
        require (expect E identifier) (ret (Break false)) (
          tok <- gets (@_token H) ;;
          let name := literal_as_string tok in
          let param_location := tok_location tok in
          if is_void type then
            parameter_error param_location 3038 "function parameters cannot be void"
          else if has type qualifier_extern then
            parameter_error param_location 3006
                            "function parameters cannot be declared 'extern'"
          else if has type qualifier_static then
            parameter_error param_location 3007
                            "function parameters cannot be declared 'static'"
          else if has type qualifier_uniform then
            parameter_error param_location 3047
              "function parameters cannot be declared 'uniform', consider placing in global scope instead"
          else if has type qualifier_out && has type qualifier_const then
            parameter_error param_location 3046 "output parameters cannot be declared 'const'"
          else
            (* Function parameters are implicitly 'in' if not explicitly defined as
               'out' *)
            let type := if negb (has type qualifier_out)
                        then set_qualifiers type (Z.lor (qualifiers type) qualifier_in)
                        else type in
            '(ok, type) <- parse_array_size E fuel type ;;
            if negb ok then ret (Break false)
            else
              (* Handle parameter type semantic *)
              colon <- accept (chr ":") ;;
              semantic <-
                (if colon then
                   require (expect E identifier) (ret None) (
                     '(b, _, i) <- token_semantic 0 ;;
                     ret (Some (b, i)))
                 else ret (Some (BuiltInMax, 0))) ;;
              match semantic with
              | None => ret (Break false)
              | Some (b, i) =>
                  let type := set_is_pointer type true in
                  definition <- define_parameter C name param_location type ;;
                  inserted <- insert_symbol E name
                                (mk_symbol OpVariable definition type None zero_constant None)
                                false ;;
                  if negb inserted then
                    parameter_error param_location 3003
                                    ("redefinition of '" ++ name ++ "'")
                  else
                    update_function index (add_parameter (mk_member name type b i)) ;;
                    ret (Continue tt)
              end).

(** The part of [parse_function] inside the scope of the function: what
    runs between [enter_scope()] and the calls of [leave_scope()] and
    [leave_function()] that every way out of the function makes. *)
Definition function_scope (fuel : nat) (location : location) (type : spv_type)
           (name : string) (index : nat) : M bool :=
  parameters <- loop fuel (parameter_body fuel index) tt ;;
  if negb parameters then ret false
  else
    require (expect E (chr ")")) (ret false) (
      (* Handle return type semantic *)
      colon <- accept (chr ":") ;;
      semantic <-
        (if colon then
           require (expect E identifier) (ret false) (
             if is_void type then
               tok <- gets (@_token H) ;;
               error_false (tok_location tok) 3076 "void function cannot have a semantic"
             else
               info <- function_at index ;;
               '(b, _, i) <- token_semantic (return_semantic_index info) ;;
               update_function index (set_return_semantic b i) ;;
               ret true)
         else ret true) ;;
      if negb semantic then ret false
      else
        (* A function has to start with a new block *)
        variables <- function_variables C ;;
        label <- make_id ;;
        enter_block variables label ;;
        definition <- function_definition C ;;
        success <- parse_statement_block E ptr_bits fuel definition false ;;
        (* Add implicit return statement to the end of functions *)
        current <- gets (@_current_block H) ;;
        (if negb (current =? 0) then
           definition <- function_definition C ;;
           leave_block_and_return definition 0
         else ret tt) ;;
        (* Insert the symbol into the symbol table *)
        info <- function_at index ;;
        inserted <- insert_symbol E name
                      (mk_symbol OpFunction (fn_definition info)
                                 (type3 datatype_function 0 0) (Some index)
                                 zero_constant None)
                      true ;;
        if negb inserted then error_false location 3003 ("redefinition of '" ++ name ++ "'")
        else ret success).

Definition parse_function_body (fuel : nat) (type : spv_type) (name : string) : M bool :=
  tok <- gets (@_token H) ;;
  let location := tok_location tok in
  (* Functions always have a parameter list *)
  require (expect E (chr "(")) (ret false) (
    if negb (qualifiers type =? 0) then
      error_false location 3047 "function return type cannot have any qualifiers"
    else
      index <- gets (fun p => List.length (_functions p)) ;;
      modify (fun p => set_functions (_functions p ++ [default_function_info])%list p) ;;
      sc <- current_scope E ;;
      update_function index
        (set_fn_names name (replace_colons ("F" ++ scope_name sc ++ name)) type) ;;
      (* Add function instruction and insert the symbol into the symbol table *)
      info <- function_at index ;;
      definition <- define_function C (Some (fn_unique_name info)) location type ;;
      update_function index (set_fn_definition definition) ;;
      (* Enter function scope *)
      enter_scope E ;;
      result <- function_scope fuel location type name index ;;
      leave_scope E ;;
      leave_function E ;;
      ret result).

(** *** The entry point of a shader *)

(** The decorations of an input or output variable of the entry point. *)
Definition add_interpolation_decorations (variable : Z) (type : spv_type) : M unit :=
  (if has type qualifier_noperspective
   then add_decoration variable DecorationNoPerspective [] else ret tt) ;;
  (if has type qualifier_centroid
   then add_decoration variable DecorationCentroid [] else ret tt) ;;
  (if has type qualifier_nointerpolation
   then add_decoration variable DecorationFlat [] else ret tt).

Definition BuiltIn_eqb (a b : BuiltIn) : bool :=
  match a, b with
  | BuiltInPosition, BuiltInPosition | BuiltInPointSize, BuiltInPointSize
  | BuiltInFragDepth, BuiltInFragDepth | BuiltInVertexId, BuiltInVertexId
  | BuiltInFragCoord, BuiltInFragCoord | BuiltInMax, BuiltInMax => true
  | _, _ => false
  end.

Definition input_type_of (t : spv_type) : spv_type :=
  mk_type (base t) (rows t) (cols t) (qualifiers t) true true (is_output t)
          (array_length t) (definition t).
Definition output_type_of (t : spv_type) : spv_type :=
  mk_type (base t) (rows t) (cols t) (qualifiers t) true (is_input t) true
          (array_length t) (definition t).

(** [create_input_param] and [create_output_param]: the id is added to
    [call_params]. *)
Definition create_param (param : spv_struct_member_info) : M Z :=
  define_variable E None None no_location (member_type param) StorageClassFunction None.

(** [create_input_variable]: the id is added to [inputs_and_outputs]. *)
Definition create_input_variable (is_ps : bool) (param : spv_struct_member_info) : M Z :=
  input_variable <- define_variable E None None no_location
                      (input_type_of (member_type param)) StorageClassInput None ;;
  (if is_ps && BuiltIn_eqb (member_builtin param) BuiltInPosition
   then add_builtin C input_variable BuiltInFragCoord
   else if negb (BuiltIn_eqb (member_builtin param) BuiltInMax)
   then add_builtin C input_variable (member_builtin param)
   else add_decoration input_variable DecorationLocation [member_semantic_index param]) ;;
  add_interpolation_decorations input_variable (member_type param) ;;
  ret input_variable.

(** [create_output_variable]: the id is added to [inputs_and_outputs]. *)
Definition create_output_variable (param : spv_struct_member_info) : M Z :=
  output_variable <- define_variable E None None no_location
                       (output_type_of (member_type param)) StorageClassOutput None ;;
  (if negb (BuiltIn_eqb (member_builtin param) BuiltInMax)
   then add_builtin C output_variable (member_builtin param)
   else add_decoration output_variable DecorationLocation [member_semantic_index param]) ;;
  add_interpolation_decorations output_variable (member_type param) ;;
  ret output_variable.

Fixpoint create_output_variables (members : list spv_struct_member_info) : M (list Z) :=
  match members with
  | [] => ret []
  | member :: r =>
      v <- create_output_variable member ;;
      vs <- create_output_variables r ;;
      ret (v :: vs)
  end.

(** The members of a structure parameter are read from their input
    variables: the variables and the values loaded. *)
Fixpoint load_members (section : nat) (is_ps : bool) (members : list spv_struct_member_info)
  : M (list Z * list Z) :=
  match members with
  | [] => ret ([], [])
  | member :: r =>
      input_variable <- create_input_variable is_ps member ;;
      t <- convert_type E (set_is_pointer (member_type member) false) ;;
      value <- add_node section no_location OpLoad t [input_variable] ;;
      '(variables, elements) <- load_members section is_ps r ;;
      ret (input_variable :: variables, value :: elements)
  end.

(** Handle input parameters: the state is [inputs_and_outputs] and
    [call_params]. *)
Fixpoint entry_parameters (section : nat) (is_ps : bool)
         (parameters : list spv_struct_member_info) (inputs_and_outputs call_params : list Z)
  : M (list Z * list Z) :=
  match parameters with
  | [] => ret (inputs_and_outputs, call_params)
  | param :: r =>
      '(inputs_and_outputs, call_params) <-
        (if has (member_type param) qualifier_out then
           function_variable <- create_param param ;;
           let call_params := (call_params ++ [function_variable])%list in
           (* Flatten structure parameters *)
           if is_struct (member_type param) then
             info <- structs_at C (definition (member_type param)) ;;
             outputs <- create_output_variables (member_list info) ;;
             ret ((inputs_and_outputs ++ outputs)%list, call_params)
           else
             output <- create_output_variable param ;;
             ret ((inputs_and_outputs ++ [output])%list, call_params)
         else
           param_variable <- create_param param ;;
           let call_params := (call_params ++ [param_variable])%list in
           (* Flatten structure parameters *)
           if is_struct (member_type param) then
             info <- structs_at C (definition (member_type param)) ;;
             '(variables, elements) <- load_members section is_ps (member_list info) ;;
             t <- convert_type E (set_is_pointer (member_type param) false) ;;
             composite_value <- add_node section no_location OpCompositeConstruct t
                                         elements ;;
             add_node_without_result section no_location OpStore
                                     [param_variable; composite_value] ;;
             ret ((inputs_and_outputs ++ variables)%list, call_params)
           else
             input_variable <- create_input_variable is_ps param ;;
             t <- convert_type E (set_is_pointer (member_type param) false) ;;
             value <- add_node section no_location OpLoad t [input_variable] ;;
             add_node_without_result section no_location OpStore [param_variable; value] ;;
             ret ((inputs_and_outputs ++ [input_variable])%list, call_params)) ;;
      entry_parameters section is_ps r inputs_and_outputs call_params
  end.

(** [v[i]] of a vector; reading past the end is undefined. *)
Definition element (v : list Z) (i : nat) : M Z :=
  match nth_error v i with
  | Some x => ret x
  | None => fail undefined_behaviour
  end.

(** The members of a structure value are stored to the output variables
    from [inputs_and_outputs_index] on. *)
Fixpoint store_members (section : nat) (value : Z) (inputs_and_outputs : list Z)
         (members : list spv_struct_member_info) (member_index : Z)
         (inputs_and_outputs_index : nat) : M nat :=
  match members with
  | [] => ret inputs_and_outputs_index
  | member :: r =>
      t <- convert_type E (member_type member) ;;
      member_value <- add_node section no_location OpCompositeExtract t
                               [value; member_index] ;;
      output <- element inputs_and_outputs inputs_and_outputs_index ;;
      add_node_without_result section no_location OpStore [output; member_value] ;;
      store_members section value inputs_and_outputs r (member_index + 1)
                    (S inputs_and_outputs_index)
  end.

(** The second loop over the parameters: the values of the [out]
    parameters are stored to the output variables. *)
Fixpoint entry_results (section : nat) (parameters : list spv_struct_member_info)
         (inputs_and_outputs call_params : list Z)
         (param_index inputs_and_outputs_index : nat) : M unit :=
  match parameters with
  | [] => ret tt
  | param :: r =>
      inputs_and_outputs_index <-
        (if has (member_type param) qualifier_out then
           t <- convert_type E (set_is_pointer (member_type param) false) ;;
           variable <- element call_params param_index ;;
           value <- add_node section no_location OpLoad t [variable] ;;
           if is_struct (member_type param) then
             info <- structs_at C (definition (member_type param)) ;;
             store_members section value inputs_and_outputs (member_list info) 0
                           inputs_and_outputs_index
           else
             output <- element inputs_and_outputs inputs_and_outputs_index ;;
             add_node_without_result section no_location OpStore [output; value] ;;
             ret (S inputs_and_outputs_index)
         else
           if is_struct (member_type param) then
             info <- structs_at C (definition (member_type param)) ;;
             ret (inputs_and_outputs_index + List.length (member_list info))%nat
           else ret (S inputs_and_outputs_index)) ;;
      entry_results section r inputs_and_outputs call_params (S param_index)
                    inputs_and_outputs_index
  end.

(** The members of a structure result are stored to new output
    variables. *)
Fixpoint store_result_members (section : nat) (call_result : Z)
         (members : list spv_struct_member_info) (member_index : Z) : M (list Z) :=
  match members with
  | [] => ret []
  | member :: r =>
      result <- create_output_variable member ;;
      t <- convert_type E (member_type member) ;;
      member_result <- add_node section no_location OpCompositeExtract t
                                [call_result; member_index] ;;
      add_node_without_result section no_location OpStore [result; member_result] ;;
      results <- store_result_members section call_result r (member_index + 1) ;;
      ret (result :: results)
  end.

(** [std::find_if(_functions.begin(), _functions.end(), ...)]: the first
    entry whose definition is [id]; dereferencing the end is undefined. *)
Fixpoint find_function (id : Z) (fs : list spv_function_info) (i : nat) : option nat :=
  match fs with
  | [] => None
  | info :: r => if fn_definition info =? id then Some i else find_function id r (S i)
  end.

(** We need to generate a special entry point function which translates
    between function parameters and input/output variables. *)
Definition generate_entry_point (location : location) (is_vs is_ps : bool) (index : nat)
  : M unit :=
  (* Generate the glue entry point function *)
  entry <- define_function C None location (type3 datatype_void 0 0) ;;
  update_function index (set_entry_point entry) ;;
  variables <- function_variables C ;;
  label <- make_id ;;
  enter_block variables label ;;
  section <- function_definition C ;;
  (* Handle input parameters *)
  info <- function_at index ;;
  '(inputs_and_outputs, call_params) <-
    entry_parameters section is_ps (parameter_list info) [] [] ;;
  info <- function_at index ;;
  t <- convert_type E (return_type info) ;;
  call_result <- add_node section location OpFunctionCall t
                          (fn_definition info :: call_params) ;;
  info <- function_at index ;;
  entry_results section (parameter_list info) inputs_and_outputs call_params 0 0 ;;
  info <- function_at index ;;
  inputs_and_outputs <-
    (if is_struct (return_type info) then
       members <- structs_at C (definition (return_type info)) ;;
       results <- store_result_members section call_result (member_list members) 0 ;;
       ret (inputs_and_outputs ++ results)%list
     else if negb (is_void (return_type info)) then
       result <- define_variable E None None location (output_type_of (return_type info))
                                 StorageClassOutput None ;;
       (if negb (BuiltIn_eqb (return_builtin info) BuiltInMax)
        then add_builtin C result (return_builtin info)
        else add_decoration result DecorationLocation [return_semantic_index info]) ;;
       add_node_without_result section no_location OpStore [result; call_result] ;;
       ret (inputs_and_outputs ++ [result])%list
     else ret inputs_and_outputs) ;;
  leave_block_and_return section 0 ;;
  leave_function E ;;
  (* Add entry point *)
  info <- function_at index ;;
  add_entry_point C (fn_name info) (entry_point info)
                  (if is_vs then ExecutionModelVertex else ExecutionModelFragment)
                  inputs_and_outputs.

(** The shader of a pass, from [is_vs] to the name the pass keeps. *)
Definition synthesize_entry_point_body (state : string) (location : location) (sym : symbol)
  : M string :=
  let is_vs := Str.compare0 1 "V" state in
  let is_ps := Str.compare0 1 "P" state in
  (* Look up the matching function info for this function definition *)
  fs <- gets (@_functions H) ;;
  match find_function (sym_id sym) fs 0 with
  | None => fail undefined_behaviour
  | Some index =>
      info <- function_at index ;;
      (if entry_point info =? 0 then generate_entry_point location is_vs is_ps index
       else ret tt) ;;
      info <- function_at index ;;
      ret (fn_name info)
  end.

End Declarations.

(** *** The parser of effect_parser.cpp *)

(** The collaborators [E] with other functions in the place of the fields
    that stand for functions of effect_parser.cpp. *)
Definition with_functions {H} (E : externals H)
           (unary : nat -> M H (bool * spv_expression))
           (multary : nat -> spv_expression -> Z -> M H (bool * spv_expression))
           (member : spv_expression -> string -> location -> M H (bool * spv_expression))
           (structure : M H bool)
           (function : spv_type -> string -> M H bool)
           (properties : spv_variable_info -> M H (bool * spv_variable_info))
           (entry : string -> location -> symbol -> M H string)
  : externals H :=
  {| id_to_name := id_to_name E;
     find_symbol := find_symbol E;
     find_symbol_in := find_symbol_in E;
     insert_symbol := insert_symbol E;
     current_scope := current_scope E;
     enter_scope := enter_scope E;
     leave_scope := leave_scope E;
     enter_namespace := enter_namespace E;
     leave_namespace := leave_namespace E;
     resolve_function_call := resolve_function_call E;
     merge := merge E;
     rank := rank E;
     host_float := host_float E;
     narrow_double := narrow_double E;
     convert_type := convert_type E;
     convert_constant := convert_constant E;
     define_struct := define_struct E;
     define_variable := define_variable E;
     glsl_ext := glsl_ext E;
     leave_function := leave_function E;
     write_module := write_module E;
     add_cast_operation := add_cast_operation E;
     add_swizzle_access := add_swizzle_access E;
     add_struct_member_access := member;
     access_chain_load := access_chain_load E;
     access_chain_store := access_chain_store E;
     parse_expression_unary := unary;
     parse_expression_multary := multary;
     parse_struct := structure;
     parse_function := function;
     parse_variable_properties := properties;
     synthesize_entry_point := entry;
     default_pass := default_pass E |}.

(** The parser and its [parse_expression_unary] to a depth of calls of
    [fuel]; a call below that depth does not return.  Of [E] the fields
    that stand for functions of effect_parser.cpp are not used. *)
Fixpoint levels {H} (E : externals H) (C : codegen H) (ptr_bits : Z) (fuel : nat)
  : externals H * (nat -> spv_expression -> M H (bool * spv_expression)) :=
  match fuel with
  | O =>
      (with_functions E (fun _ => fail out_of_fuel) (fun _ _ _ => fail out_of_fuel)
                   (fun _ _ _ => fail out_of_fuel) (fail out_of_fuel)
                   (fun _ _ => fail out_of_fuel) (fun _ => fail out_of_fuel)
                   (fun _ _ _ => fail out_of_fuel),
       fun _ _ => fail out_of_fuel)
  | S fuel =>
      let '(below, unary_below) := levels E C ptr_bits fuel in
      let unary := parse_expression_unary_body below C unary_below fuel in
      (with_functions E
         (fun section => unary section empty_expression)
         (parse_expression_multary_body below C unary_below fuel)
         (struct_member_access C)
         (parse_struct_body below C fuel)
         (parse_function_body below C ptr_bits fuel)
         (parse_variable_properties_body below fuel)
         (synthesize_entry_point_body below C),
       unary)
  end.

Definition effect_parser {H} (E : externals H) (C : codegen H) (ptr_bits : Z) (fuel : nat)
  : externals H :=
  fst (levels E C ptr_bits fuel).

(** ** A parser as it is constructed *)

(** The state of a parser before [run]: nothing lexed, no diagnostics, no
    open block, no current function, an empty uniform block.  [first_id] is
    the first id the builder hands out, [h] the state of the
    collaborators. *)
Definition new_parser {H} (h : H) (first_id : Z) : parser H :=
  mk_parser None None eof_token eof_token eof_token [] first_id 0 None [] [] [] []
            0 0 0 [] [] [] [] [] [] h.

(** The error-severity diagnostics of a state. *)
Definition error_diagnostics {H} (p : parser H) : list diagnostic :=
  filter is_error (_errors p).

Definition error_codes {H} (p : parser H) : list Z := map diag_code (error_diagnostics p).

(** ** Reference collaborators

    One concrete choice of the collaborators, used to run the parser on
    example programs: an empty symbol table, a builder that hands out fresh
    ids and serializes only the module header of section 6.4, access chains
    that record casts and swizzles, and expressions that are literals. *)
Module Reference.

Definition no_symbol : symbol := mk_symbol OpNop 0 (type3 datatype_void 0 0) None zero_constant None.

Definition token_name (t : tokenid) : string :=
  match t with
  | chr c => String c ""
  | end_of_file => "end of file"
  | identifier => "identifier"
  | _ => "keyword"
  end.

Definition fresh_id : M unit Z :=
  fun p => Done (_next_id p) (set_next_id (uint32 (_next_id p + 1)) p).

Definition given_or_fresh (given : option Z) : M unit Z :=
  match given with
  | Some i => ret i
  | None => fresh_id
  end.

Definition record_cast (e : spv_expression) (t : spv_type) : spv_expression :=
  set_ops (set_exp_type e t) (ops e ++ [op_cast t])%list.

Definition record_swizzle (e : spv_expression) (offsets : list Z) (count : Z)
  : spv_expression :=
  set_ops (set_exp_type e (set_dims (exp_type e) count 1)) (ops e ++ [op_swizzle offsets])%list.

Definition module_header (p : parser unit) : list Z := [119734787; 66048; 0; _next_id p; 0].

Definition empty_pass : spv_pass_info :=
  mk_pass "" "" (repeat 0 8) false false false false 0 0 0 0 0 0 0 0 0 0 0 0 0 0.

(** Everything but the expression parsers. *)
Definition collaborators
           (unary : nat -> M unit (bool * spv_expression))
           (multary : nat -> spv_expression -> Z -> M unit (bool * spv_expression))
  : externals unit :=
  {| id_to_name := token_name;
     find_symbol := fun _ => ret no_symbol;
     find_symbol_in := fun _ _ _ => ret no_symbol;
     insert_symbol := fun _ _ _ => ret true;
     current_scope := ret (mk_scope "::" 0 0);
     enter_scope := ret tt;
     leave_scope := ret tt;
     enter_namespace := fun _ => ret tt;
     leave_namespace := ret tt;
     resolve_function_call := fun _ _ _ s => ret (false, false, s);
     merge := fun a _ => a;
     rank := fun _ _ => 1;
     host_float := fun _ a _ => a;
     narrow_double := fun _ => 0;
     convert_type := fun _ => fresh_id;
     convert_constant := fun _ _ => fresh_id;
     define_struct := fun given _ _ => given_or_fresh given;
     define_variable := fun given _ _ _ _ _ => given_or_fresh given;
     glsl_ext := 1;
     leave_function := ret tt;
     write_module := module_header;
     add_cast_operation := fun e t => ret (record_cast e t);
     add_swizzle_access := record_swizzle;
     add_struct_member_access := fun e _ _ => ret (false, e);
     access_chain_load := fun _ e => if is_constant e then fresh_id else ret (exp_base e);
     access_chain_store := fun _ _ _ _ => ret tt;
     parse_expression_unary := unary;
     parse_expression_multary := multary;
     parse_struct := ret false;
     parse_function := fun _ _ => ret false;
     parse_variable_properties := fun info => ret (false, info);
     synthesize_entry_point := fun _ _ _ => ret "";
     default_pass := empty_pass |}.

Definition no_expression : M unit (bool * spv_expression) := ret (false, empty_expression).

(** Collaborators without expressions. *)
Definition base : externals unit :=
  collaborators (fun _ => no_expression) (fun _ _ _ => no_expression).

(** An expression is a literal, or a name, which stands for a local
    [float4] variable and may be followed by one [.subscript]. *)
Definition float4_type : spv_type := type3 datatype_float 4 1.

Definition primary (section : nat) : M unit (bool * spv_expression) :=
  next <- gets (@_token_next unit) ;;
  let loc := tok_location next in
  literal <- unary_literal base 8 loc ;;
  match literal with
  | Some e => ret (true, e)
  | None =>
      named <- accept identifier ;;
      if named then
        let e := reset_to_lvalue 1 float4_type loc in
        dot <- accept (chr ".") ;;
        if dot then postfix_subscript base e else ret (true, e)
      else no_expression
  end.

Definition E : externals unit := collaborators primary (fun section _ _ => primary section).

(** Tokens of example programs. *)
Definition tok (t : tokenid) : token := mk_token t no_location "" 0 0 0 0.
Definition punct (c : ascii) : token := tok (chr c).
Definition name (s : string) : token := mk_token identifier no_location s 0 0 0 0.
Definition int_lit (v : Z) : token := mk_token int_literal no_location "" v 0 0 0.
Definition float_lit (bits : Z) : token := mk_token float_literal no_location "" 0 0 bits 0.

(** A parser in the middle of a function body: block 0 of the store is the
    body, label 1 is open, function 0 is the current one, and [input] is
    what is left to read. *)
Definition some_function : spv_function_info :=
  mk_function "f" "F__f" (type3 datatype_void 0 0) BuiltInMax 0 [] 1 0.

Definition in_function (input : list token) : parser unit :=
  match input with
  | [] => set_lexer (Some []) (new_parser tt 10)
  | t :: r =>
      set_token_next t (set_lexer (Some r)
        (set_blocks [[]] (set_functions [some_function]
          (set_current_function (Some 0%nat) (set_current_block 1 (new_parser tt 10))))))
  end.

(** [break;] inside two nested loops whose break targets are 7 and 9. *)
Definition break_in_loop : parser unit :=
  set_loop_break_target_stack [7; 9] (in_function [tok break_; punct ";"]).

(** [switch (1) { ; }] *)
Definition unlabelled_switch : list token :=
  [ tok switch_; punct "("; int_lit 1; punct ")"; punct "{"; punct ";"; punct "}" ].

(** [case 1.5: }] and [switch (1) { case 1.5: ; }]; 1069547520 is the
    binary32 encoding of 1.5. *)
Definition float_case_label : list token :=
  [ tok case_; float_lit 1069547520; punct ":"; punct "}" ].
Definition switch_on_float_case : list token :=
  [ tok switch_; punct "("; int_lit 1; punct ")"; punct "{";
    tok case_; float_lit 1069547520; punct ":"; punct ";"; punct "}" ].

(** [technique T { pass { = } pass { } }]: the first pass is malformed. *)
Definition two_passes : list token :=
  [ tok technique; name "T"; punct "{"; tok pass; punct "{"; punct "="; punct "}";
    tok pass; punct "{"; punct "}"; punct "}" ].

(** [technique T < a = ;]: the annotation has no value. *)
Definition annotation_without_value : list token :=
  [ tok technique; name "T"; punct "<"; name "a"; punct "="; punct ";" ].

(** [uniform float4x4 M; uniform float3 v;] *)
Definition two_uniforms : list token :=
  [ tok uniform_; tok float4x4; name "M"; punct ";";
    tok uniform_; tok float3; name "v"; punct ";" ].

(** The symbol a call resolves to when it names the function being
    defined: a user function whose info is entry 0 of the arena. *)
Definition self_symbol : symbol :=
  mk_symbol OpFunctionCall 1 (type3 datatype_function 0 0) (Some 0%nat) zero_constant None.

Definition v_xy_assigned : list token :=
  [ name "v"; punct "."; name "xy"; punct "="; int_lit 1; punct ";" ].

End Reference.

(** ** Reference collaborators with a symbol table

    A second choice of the collaborators, used to run the parser of
    [effect_parser] on programs that declare and call functions. *)

(** Modelled from the spec: the symbol table of section 4.2.  "Scopes form
    a stack"; a lookup "starts in scope and walks outward unless
    exclusive", which "restricts lookup to the global scope"; a
    redefinition in the same scope is refused; a call is resolved among
    "all function symbols reachable under the name" by the sum of the
    ranks of the arguments, a candidate with a zero rank is rejected, the
    unique candidate of least cost is picked and "ties set ambiguous".  No
    intrinsic is registered.  [conversion_rank] is section 4.1: a positive
    cost when an implicit conversion exists, zero when not.  What a failed
    resolution leaves in the operator of the symbol is said neither by
    the source nor by the spec: it is the parameter [failed_op].  The
    function definitions of the builder give every function two new
    blocks and make it the current function. *)
Module Table.

Record state : Type := mk_state {
  scope_now : scope;
  outer_scopes : list scope;
  symbols : list (string * scope * symbol);
  structs : list (Z * spv_struct_info);
  function_blocks : list (nat * nat)
}.

Definition empty : state := mk_state (mk_scope "::" 0 0) [] [] [] [].

Definition set_scopes (now : scope) (outer : list scope) (t : state) : state :=
  mk_state now outer (symbols t) (structs t) (function_blocks t).
Definition set_symbols (l : list (string * scope * symbol)) (t : state) : state :=
  mk_state (scope_now t) (outer_scopes t) l (structs t) (function_blocks t).
Definition set_structs (l : list (Z * spv_struct_info)) (t : state) : state :=
  mk_state (scope_now t) (outer_scopes t) (symbols t) l (function_blocks t).
Definition set_function_blocks (l : list (nat * nat)) (t : state) : state :=
  mk_state (scope_now t) (outer_scopes t) (symbols t) (structs t) l.

Definition table : M state state := gets (@_hidden state).
Definition update (f : state -> state) : M state unit :=
  modify (fun p => set_hidden (f (_hidden p)) p).

Definition scope_eqb (a b : scope) : bool :=
  String.eqb (scope_name a) (scope_name b) && (scope_level a =? scope_level b).

(** An entry of the scope [s] is seen from the scope [from]. *)
Definition reachable (exclusive : bool) (from s : scope) : bool :=
  if exclusive then scope_level s =? 0
  else (scope_level s <=? scope_level from)
       && String.prefix (scope_name s) (scope_name from).

Definition no_symbol : symbol :=
  mk_symbol OpNop 0 default_type None zero_constant None.

(** The innermost of the entries of a name, the newest among equals. *)
Fixpoint innermost (name : string) (exclusive : bool) (from : scope)
         (l : list (string * scope * symbol)) (best : option (scope * symbol))
  : option (scope * symbol) :=
  match l with
  | [] => best
  | (n, s, y) :: r =>
      let best :=
        if String.eqb n name && reachable exclusive from s then
          match best with
          | Some (s', _) => if scope_level s' <? scope_level s then Some (s, y) else best
          | None => Some (s, y)
          end
        else best in
      innermost name exclusive from r best
  end.

(** Modelled from the spec: [find_symbol] of section 4.2, the innermost
    entry seen from [from], or a symbol with id 0. *)
Definition lookup (name : string) (from : scope) (exclusive : bool) : M state symbol :=
  t <- table ;;
  ret match innermost name exclusive from (symbols t) None with
      | Some (_, y) => y
      | None => no_symbol
      end.

Definition enter (name : string) (namespace : bool) : M state unit :=
  update (fun t =>
    let now := scope_now t in
    set_scopes (mk_scope (scope_name now ++ name) (scope_level now + 1)
                         (namespace_level now + (if namespace then 1 else 0)))
               (now :: outer_scopes t) t).

Definition leave (namespace : bool) : M state unit :=
  update (fun t =>
    let now := scope_now t in
    let kept := if namespace then symbols t
                else filter (fun e => negb (scope_eqb (snd (fst e)) now)) (symbols t) in
    match outer_scopes t with
    | outer :: r => set_scopes outer r (set_symbols kept t)
    | [] => set_symbols kept t
    end).

Definition is_function_symbol (y : symbol) : bool := Op_eqb (sym_op y) OpFunction.

(** Modelled from the spec: [insert_symbol] of section 4.2; only
    functions may share a name in a scope. *)
Definition insert (name : string) (y : symbol) (global : bool) : M state bool :=
  t <- table ;;
  let now := scope_now t in
  let s := if global then mk_scope (scope_name now) (namespace_level now) (namespace_level now)
           else now in
  if existsb (fun e => String.eqb (fst (fst e)) name && scope_eqb (snd (fst e)) s
                       && negb (is_function_symbol (snd e) && is_function_symbol y))
             (symbols t)
  then ret false
  else update (set_symbols ((name, s, y) :: symbols t)) ;; ret true.

Definition same_shape (a b : spv_type) : bool :=
  (rows a =? rows b) && (cols a =? cols b).

(** Modelled from the spec: [rank] of section 4.1. *)
Definition conversion_rank (a b : spv_type) : Z :=
  if negb (array_length a =? array_length b) then 0
  else if is_numeric a && is_numeric b then
    if same_shape a b || is_scalar a || (components b <? components a)
    then (if datatype_eqb (base a) (base b) then 1 else 2)
         + (if same_shape a b then 0 else 1)
    else 0
  else if datatype_eqb (base a) (base b) && (definition a =? definition b) then 1
  else 0.

Definition base_rank (b : datatype) : Z :=
  match b with
  | datatype_bool => 1 | datatype_int => 2 | datatype_uint => 3 | datatype_float => 4
  | _ => 0
  end.

(** Modelled from the spec: [merge] of section 4.1. *)
Definition common_type (a b : spv_type) : spv_type :=
  let b' := if base_rank (base a) <? base_rank (base b) then base b else base a in
  if is_scalar a && negb (is_scalar b) then set_base b b'
  else if is_scalar b then set_base a b'
  else set_dims (set_base a b') (Z.max (rows a) (rows b)) (Z.max (cols a) (cols b)).

(** The cost of a call of [info] with [arguments]; [None] for a candidate
    that is rejected. *)
Fixpoint cost (arguments : list spv_expression) (parameters : list spv_struct_member_info)
  : option Z :=
  match arguments, parameters with
  | [], [] => Some 0
  | a :: arguments, p :: parameters =>
      let r := conversion_rank (exp_type a) (member_type p) in
      if r =? 0 then None
      else option_map (Z.add r) (cost arguments parameters)
  | _, _ => None
  end.

(** The candidates of least cost seen so far. *)
Fixpoint least (arguments : list spv_expression) (fs : list spv_function_info)
         (candidates : list symbol) (best : option (Z * list symbol))
  : option (Z * list symbol) :=
  match candidates with
  | [] => best
  | y :: r =>
      let best :=
        match sym_function y with
        | None => best
        | Some j =>
            match nth_error fs j with
            | None => best
            | Some info =>
                match cost arguments (parameter_list info), best with
                | None, _ => best
                | Some c, None => Some (c, [y])
                | Some c, Some (c', ys) =>
                    if c <? c' then Some (c, [y])
                    else if c =? c' then Some (c', y :: ys)
                    else best
                end
            end
        end in
      least arguments fs r best
  end.

(** Modelled from the spec: [resolve_function_call] of section 4.2. *)
Definition resolve (failed_op : Op) (name : string) (arguments : list spv_expression)
           (from : scope) (y : symbol) : M state (bool * bool * symbol) :=
  t <- table ;;
  fs <- gets (@_functions state) ;;
  let candidates :=
    map snd (filter (fun e => String.eqb (fst (fst e)) name
                              && reachable false from (snd (fst e))
                              && is_function_symbol (snd e))
                    (symbols t)) in
  let failed := mk_symbol failed_op (sym_id y) (sym_type y) (sym_function y)
                          (sym_constant y) (member_index y) in
  match least arguments fs candidates None with
  | Some (_, [f]) =>
      let type := match sym_function f with
                  | Some j => match nth_error fs j with
                              | Some info => return_type info
                              | None => default_type
                              end
                  | None => default_type
                  end in
      ret (true, false,
           mk_symbol OpFunctionCall (sym_id f) type (sym_function f) zero_constant None)
  | Some _ => ret (false, true, failed)
  | None => ret (false, false, failed)
  end.

Definition given_or_fresh (given : option Z) : M state Z :=
  match given with
  | Some i => ret i
  | None => make_id
  end.

Definition begin_function : M state Z :=
  i <- make_id ;;
  variables <- new_block ;;
  definition <- new_block ;;
  t <- table ;;
  modify (set_current_function (Some (List.length (function_blocks t)))) ;;
  update (set_function_blocks (function_blocks t ++ [(variables, definition)])%list) ;;
  ret i.

Definition blocks_of_function : M state (nat * nat) :=
  t <- table ;;
  current <- gets (@_current_function state) ;;
  match current with
  | None => fail undefined_behaviour
  | Some i =>
      match nth_error (function_blocks t) i with
      | Some b => ret b
      | None => fail undefined_behaviour
      end
  end.

Fixpoint struct_of (d : Z) (l : list (Z * spv_struct_info)) : spv_struct_info :=
  match l with
  | [] => mk_struct "" "" 0 []
  | (k, info) :: r => if k =? d then info else struct_of d r
  end.

Definition element_type (t : spv_type) : spv_type :=
  if is_array t then set_array_length t 0
  else if is_matrix t then set_dims t (rows t) 1
  else set_dims t 1 1.

Definition header (p : parser state) : list Z := [119734787; 66048; 0; _next_id p; 0].

Definition E (failed_op : Op) : externals state :=
  {| id_to_name := Reference.token_name;
     find_symbol := fun name => s <- gets (fun p => scope_now (_hidden p)) ;;
                                lookup name s false;
     find_symbol_in := lookup;
     insert_symbol := insert;
     current_scope := gets (fun p => scope_now (_hidden p));
     enter_scope := enter "" false;
     leave_scope := leave false;
     enter_namespace := fun name => enter (name ++ "::") true;
     leave_namespace := leave true;
     resolve_function_call := resolve failed_op;
     merge := common_type;
     rank := conversion_rank;
     host_float := fun _ a _ => a;
     narrow_double := fun _ => 0;
     convert_type := fun _ => make_id;
     convert_constant := fun _ _ => make_id;
     define_struct := fun given _ _ => given_or_fresh given;
     define_variable := fun given _ _ _ _ _ => given_or_fresh given;
     glsl_ext := 1;
     leave_function := modify (set_current_function None);
     write_module := header;
     add_cast_operation := fun e t => ret (Reference.record_cast e t);
     add_swizzle_access := Reference.record_swizzle;
     add_struct_member_access := fun e _ _ => ret (false, e);
     access_chain_load := fun _ e => if is_lvalue e || is_constant e then make_id
                                     else ret (exp_base e);
     access_chain_store := fun _ _ _ _ => ret tt;
     parse_expression_unary := fun _ => fail out_of_fuel;
     parse_expression_multary := fun _ _ _ => fail out_of_fuel;
     parse_struct := fail out_of_fuel;
     parse_function := fun _ _ => fail out_of_fuel;
     parse_variable_properties := fun _ => fail out_of_fuel;
     synthesize_entry_point := fun _ _ _ => fail out_of_fuel;
     default_pass := Reference.empty_pass |}.

Definition C : codegen state :=
  {| short_circuit := false;
     add_member_access := fun e index type =>
       ret (set_ops (set_exp_type e type) (ops e ++ [op_member index])%list);
     add_static_index_access := fun e index =>
       ret (set_ops (set_exp_type e (element_type (exp_type e)))
                    (ops e ++ [op_index_static index])%list);
     add_dynamic_index_access := fun e index =>
       ret (set_ops (set_exp_type e (element_type (exp_type e)))
                    (ops e ++ [op_index_dynamic index])%list);
     structs_at := fun d => t <- table ;; ret (struct_of d (structs t));
     structs_assign := fun d info => update (fun t => set_structs ((d, info) :: structs t) t);
     intrinsic_function := fun _ => None;
     define_function := fun _ _ _ => begin_function;
     define_parameter := fun _ _ _ => make_id;
     function_variables := b <- blocks_of_function ;; ret (fst b);
     function_definition := b <- blocks_of_function ;; ret (snd b);
     add_builtin := fun _ _ => ret tt;
     add_entry_point := fun _ _ _ _ => ret tt |}.

(** The parser of effect_parser.cpp over these collaborators, for a
    target with pointers of 64 bits. *)
Definition parser_of (failed_op : Op) (fuel : nat) : externals state :=
  effect_parser (E failed_op) C 64 fuel.

Definition compile (failed_op : Op) (fuel : nat) (input : list token)
  : outcome state bool :=
  run (parser_of failed_op fuel) 64 fuel input (new_parser empty 1).

(** S6, [float f(float x) { return f(x); }] *)
Definition recursive_function : list token :=
  [ Reference.tok float_; Reference.name "f"; Reference.punct "(";
    Reference.tok float_; Reference.name "x"; Reference.punct ")"; Reference.punct "{";
    Reference.tok return_; Reference.name "f"; Reference.punct "("; Reference.name "x";
    Reference.punct ")"; Reference.punct ";"; Reference.punct "}" ].

(** [float f(float x) { return x; } float g(float x) { return f(x); }] *)
Definition function_and_caller : list token :=
  [ Reference.tok float_; Reference.name "f"; Reference.punct "(";
    Reference.tok float_; Reference.name "x"; Reference.punct ")"; Reference.punct "{";
    Reference.tok return_; Reference.name "x"; Reference.punct ";"; Reference.punct "}";
    Reference.tok float_; Reference.name "g"; Reference.punct "(";
    Reference.tok float_; Reference.name "x"; Reference.punct ")"; Reference.punct "{";
    Reference.tok return_; Reference.name "f"; Reference.punct "("; Reference.name "x";
    Reference.punct ")"; Reference.punct ";"; Reference.punct "}" ].

(** A parser in the middle of a function body: block 1 of the store is
    the body, label 1 is open, function 0 is the current one, and [input]
    is what is left to read. *)
Definition in_function (input : list token) : parser state :=
  set_token_next (hd eof_token input)
    (set_lexer (Some (tl input))
       (set_blocks [[]; []]
          (set_functions [Reference.some_function]
             (set_current_function (Some 0%nat)
                (set_current_block 1
                   (new_parser (set_function_blocks [(0%nat, 1%nat)] empty) 10)))))).

(** [while (1 < 2) { break; }] *)
Definition loop_with_break : list token :=
  [ Reference.tok while_; Reference.punct "("; Reference.int_lit 1; Reference.punct "<";
    Reference.int_lit 2; Reference.punct ")"; Reference.punct "{"; Reference.tok break_;
    Reference.punct ";"; Reference.punct "}" ].

End Table.

(** ** States named in the properties *)

(** The state [consume] leaves when there is a lexer. *)
Definition consumed {H} (p : parser H) : parser H :=
  match _lexer p with
  | Some (t :: r) => set_token_next t (set_lexer (Some r) (set_token (_token_next p) p))
  | _ => set_token_next eof_token (set_token (_token_next p) p)
  end.

(** The stack a [break] or a [continue] looks at, and the error it reports
    when the stack is empty. *)
Definition target_stack {H} (keyword : tokenid) (p : parser H) : list Z :=
  if tokenid_eqb keyword break_ then _loop_break_target_stack p
  else _loop_continue_target_stack p.

Definition outside_loop_error (keyword : tokenid) (loc : location) : diagnostic :=
  if tokenid_eqb keyword break_
  then mk_diagnostic sev_error loc 3518 "break must be inside loop"
  else mk_diagnostic sev_error loc 3519 "continue must be inside loop".

Definition no_block_error (loc : location) : diagnostic :=
  mk_diagnostic sev_error loc 3000 "statements are valid only inside a code block".

(** The terminator [leave_block_and_branch] emits. *)
Definition branch_to (target : Z) : spv_instruction :=
  mk_instruction OpBranch 0 0 [target] no_location.

(** The state in which the body of a [switch] is read: the header of the
    statement, [OpSelectionMerge] and [OpSwitch] with the selector alone, is
    in the block, no block is open, the brace is consumed, the merge label
    is the break target and the block of the body is new. *)
Definition switch_opened {H} (section : nat) (loc : location)
           (merge_label selection_control selector_value : Z) (p : parser H) : parser H :=
  let q := consumed (set_current_block 0 p) in
  set_blocks (set_nth section
                      (block_of p section
                         ++ [ mk_instruction OpSelectionMerge 0 0
                                             [merge_label; selection_control] loc;
                              mk_instruction OpSwitch 0 0 [selector_value] loc ])
                      (_blocks p) ++ [[]])%list
             (set_loop_break_target_stack (_loop_break_target_stack p ++ [merge_label])%list q).

(** The state in which the expression of a first [case] label is read: the
    block of the case, whose label is the next id, is open in the block of
    the body, and [case] is consumed. *)
Definition case_opened {H} (switch_body_block : nat) (p : parser H) : parser H :=
  consumed
    (set_blocks (set_nth switch_body_block
                         (block_of p switch_body_block
                            ++ [mk_instruction OpLabel 0 (_next_id p) [] no_location])
                         (_blocks p))%list
                (set_current_block (_next_id p)
                   (set_next_id (uint32 (_next_id p + 1)) p))).

(** ** Diagnostics named in the properties *)


Definition with_diagnostic {H} (d : diagnostic) (p : parser H) : parser H :=
  set_errors (_errors p ++ [d])%list p.

Definition recursion_error (loc : location) : diagnostic :=
  mk_diagnostic sev_error loc 3500 "recursive function calls are not allowed".

(** ** Notions named in the further properties *)

(** [n] calls of [consume]. *)
Fixpoint consume_times {H} (n : nat) : M H unit :=
  match n with
  | O => ret tt
  | S n => consume ;; consume_times n
  end.

(** The shape [accept_type_class] leaves in a type it accepts. *)
Definition class_shape (type t : spv_type) : Prop :=
  (if is_numeric t then 1 <= rows t <= 4 /\ 1 <= cols t <= 4
   else rows t = 0 /\ cols t = 0)
  /\ qualifiers t = qualifiers type
  /\ array_length t = array_length type.

(** The comparison operators of the fold. *)
Definition comparison_ops : list Op :=
  [ OpFOrdLessThan; OpSLessThan; OpULessThan;
    OpFOrdLessThanEqual; OpSLessThanEqual; OpULessThanEqual;
    OpFOrdGreaterThan; OpSGreaterThan; OpUGreaterThan;
    OpFOrdGreaterThanEqual; OpSGreaterThanEqual; OpUGreaterThanEqual;
    OpFOrdEqual; OpIEqual; OpLogicalEqual;
    OpFOrdNotEqual; OpINotEqual; OpLogicalNotEqual ].

(** The characters of [s] name, in one swizzle set, the components
    [offsets] of a vector of [type_rows] components. *)
Definition names_components (set : swizzle_set) (type_rows : Z) (s : string)
           (offsets : list Z) : Prop :=
  Forall2 (fun c o => swizzle_component c = Some (o, set) /\ 0 <= o < type_rows)
          (list_ascii_of_string s) offsets.

(** [o] is the offset [row * 4 + col] of an element a matrix of
    [type_rows] x [type_cols] has. *)
Definition matrix_element (type_rows type_cols : Z) (o : Z) : Prop :=
  exists row col, o = row * 4 + col
                  /\ 0 <= row < type_rows /\ 0 <= col < type_cols
                  /\ row <= 3 /\ col <= 3.

(** A constant as the parser builds them: sixteen lanes of 32 bits. *)
Definition lanes_ok (c : spv_constant) : Prop :=
  List.length (as_uint_lanes c) = 16%nat
  /\ forall k, 0 <= as_uint c k < 2 ^ 32.

(** The value a prefix operator gives a lane. *)
Definition unary_lane (o : Op) (x : Z) : option Z :=
  match o with
  | OpLogicalNot => Some (Z.b2z (x =? 0))
  | OpFNegate => Some (float_neg x)
  | OpSNegate => if as_signed32 x =? INT_MIN then None else Some (- as_signed32 x)
  | OpNot => Some (Z.lnot x)
  | _ => Some x
  end.

(** The bit [accept_type_qualifiers] sets for a keyword, and the bits it
    sets for a run of keywords. *)
Definition qualifier_of (t : tokenid) : option Z :=
  option_map snd (find (fun k => tokenid_eqb (fst k) t) qualifier_keywords).

Definition qualifier_bits (ks : list token) (q : Z) : Z :=
  fold_left (fun q t => match qualifier_of (id t) with
                        | Some bit => Z.lor q bit
                        | None => q
                        end) ks q.

(** Token runs in which every brace opened is closed again and no brace
    is closed that the run did not open. *)
Inductive balanced : list token -> Prop :=
| balanced_nil : balanced []
| balanced_token (t : token) (b : list token) :
    id t <> chr "{" -> id t <> chr "}" -> id t <> end_of_file ->
    balanced b -> balanced (t :: b)
| balanced_block (open close : token) (inner b : list token) :
    id open = chr "{" -> id close = chr "}" ->
    balanced inner -> balanced b -> balanced (open :: inner ++ close :: b).

(** The tokens the parser has before it: the look-ahead token and what the
    lexer has left. *)
Definition upcoming {H} (p : parser H) (ts : list token) : Prop :=
  exists l, _lexer p = Some l /\ _token_next p :: l = ts.

(** The two stacks of jump targets. *)
Definition targets {H} (p : parser H) : list Z * list Z :=
  (_loop_break_target_stack p, _loop_continue_target_stack p).

(** [c], started with the targets [s], ends with the targets [s'] when it
    returns. *)
Definition from_to {H A} (s : list Z * list Z) (c : M H A) (s' : list Z * list Z) : Prop :=
  forall p a p', targets p = s -> c p = Done a p' -> targets p' = s'.

(** [c] leaves the targets as it found them. *)
Definition keeps_targets {H A} (c : M H A) : Prop := forall s, from_to s c s.

(** A property of computations that every collaborator has. *)
Record collaborators_all {H} (P : forall A, M H A -> Prop) (E : externals H) : Prop := {
  all_find_symbol : forall s, P _ (find_symbol E s);
  all_find_symbol_in : forall s sc x, P _ (find_symbol_in E s sc x);
  all_insert_symbol : forall n s g, P _ (insert_symbol E n s g);
  all_current_scope : P _ (current_scope E);
  all_enter_scope : P _ (enter_scope E);
  all_leave_scope : P _ (leave_scope E);
  all_enter_namespace : forall s, P _ (enter_namespace E s);
  all_leave_namespace : P _ (leave_namespace E);
  all_resolve_function_call : forall n a sc s, P _ (resolve_function_call E n a sc s);
  all_convert_type : forall t, P _ (convert_type E t);
  all_convert_constant : forall t c, P _ (convert_constant E t c);
  all_define_struct : forall i n m, P _ (define_struct E i n m);
  all_define_variable : forall i n l t s c, P _ (define_variable E i n l t s c);
  all_leave_function : P _ (leave_function E);
  all_add_cast_operation : forall e t, P _ (add_cast_operation E e t);
  all_add_struct_member_access : forall e n l, P _ (add_struct_member_access E e n l);
  all_access_chain_load : forall s e, P _ (access_chain_load E s e);
  all_access_chain_store : forall s e v t, P _ (access_chain_store E s e v t);
  all_parse_expression_unary : forall s, P _ (parse_expression_unary E s);
  all_parse_expression_multary : forall s e l, P _ (parse_expression_multary E s e l);
  all_parse_struct : P _ (parse_struct E);
  all_parse_function : forall t n, P _ (parse_function E t n);
  all_parse_variable_properties : forall i, P _ (parse_variable_properties E i);
  all_synthesize_entry_point : forall s l y, P _ (synthesize_entry_point E s l y)
}.

(** A property of computations that every collaborator outside
    effect_parser.cpp has: the fields of [E] that do not stand for a
    function of effect_parser.cpp, and the fields of [C]. *)
Record outside_all {H} (P : forall A, M H A -> Prop) (E : externals H) : Prop := {
  out_find_symbol : forall s, P _ (find_symbol E s);
  out_find_symbol_in : forall s sc x, P _ (find_symbol_in E s sc x);
  out_insert_symbol : forall n s g, P _ (insert_symbol E n s g);
  out_current_scope : P _ (current_scope E);
  out_enter_scope : P _ (enter_scope E);
  out_leave_scope : P _ (leave_scope E);
  out_enter_namespace : forall s, P _ (enter_namespace E s);
  out_leave_namespace : P _ (leave_namespace E);
  out_resolve_function_call : forall n a sc s, P _ (resolve_function_call E n a sc s);
  out_convert_type : forall t, P _ (convert_type E t);
  out_convert_constant : forall t c, P _ (convert_constant E t c);
  out_define_struct : forall i n m, P _ (define_struct E i n m);
  out_define_variable : forall i n l t s c, P _ (define_variable E i n l t s c);
  out_leave_function : P _ (leave_function E);
  out_add_cast_operation : forall e t, P _ (add_cast_operation E e t);
  out_access_chain_load : forall s e, P _ (access_chain_load E s e);
  out_access_chain_store : forall s e v t, P _ (access_chain_store E s e v t)
}.

Record codegen_all {H} (P : forall A, M H A -> Prop) (C : codegen H) : Prop := {
  gen_add_member_access : forall e i t, P _ (add_member_access C e i t);
  gen_add_static_index_access : forall e i, P _ (add_static_index_access C e i);
  gen_add_dynamic_index_access : forall e i, P _ (add_dynamic_index_access C e i);
  gen_structs_at : forall d, P _ (structs_at C d);
  gen_structs_assign : forall d i, P _ (structs_assign C d i);
  gen_define_function : forall n l t, P _ (define_function C n l t);
  gen_define_parameter : forall n l t, P _ (define_parameter C n l t);
  gen_function_variables : P _ (function_variables C);
  gen_function_definition : P _ (function_definition C);
  gen_add_builtin : forall v b, P _ (add_builtin C v b);
  gen_add_entry_point : forall n e m l, P _ (add_entry_point C n e m l)
}.

(** [c] only adds to the diagnostics. *)
Definition appends_diagnostics {H A} (c : M H A) : Prop :=
  forall p a p', c p = Done a p' -> exists more, _errors p' = (_errors p ++ more)%list.

(** [c], when it returns [a] in the state [p'], has [Q a p']. *)
Definition ends_with {H A} (Q : A -> parser H -> Prop) (c : M H A) : Prop :=
  forall p a p', c p = Done a p' -> Q a p'.

(** Where [consume_until('}')] leaves the parser: behind a closing brace,
    or at the end of the input. *)
Definition skipped_to_brace {H} (p : parser H) : Prop :=
  id (_token p) = chr "}" \/ id (_token_next p) = end_of_file.

(** What a round over the states of a pass promises: a failure has
    skipped to a brace. *)
Definition pass_round {H S} (r : loop_step S (bool * spv_pass_info)) (p : parser H) : Prop :=
  match r with
  | Break (false, _) => skipped_to_brace p
  | _ => True
  end.

(** * Properties *)

Unset Implicit Arguments.

(** ** Machine integers *)

Lemma wrap_small (bits x : Z) : 0 <= x < 2 ^ bits -> wrap bits x = x.
Proof. intros Hx. unfold wrap. now apply Z.mod_small. Qed.

Lemma uint32_small (x : Z) : 0 <= x < 2 ^ 32 -> uint32 x = x.
Proof. apply wrap_small. Qed.

(** ** Semantic strings *)

Lemma sv_target_is_not_texcoord (s : string) :
  Str.compare0 9 "SV_TARGET" s = true -> Str.compare0 8 "TEXCOORD" s = false.
Proof.
  unfold Str.compare0. destruct s as [|c s]; simpl; [discriminate|].
  destruct (Ascii.eqb c "S") eqn:HS; [|discriminate].
  apply Ascii.eqb_eq in HS. subst c. reflexivity.
Qed.

Lemma leading_digits_lower (s : string) (acc : Z) :
  0 <= acc -> acc <= Str.leading_digits acc s.
Proof.
  revert acc. induction s as [|c s IH]; intros acc Hacc; cbn [Str.leading_digits]; [lia|].
  destruct (Str.isdigit c) eqn:Hd; [|lia].
  unfold Str.isdigit in Hd. apply andb_prop in Hd. destruct Hd as [H1 H2].
  apply Z.leb_le in H1. apply Z.leb_le in H2.
  specialize (IH (10 * acc + (Str.code c - 48)) ltac:(lia)). lia.
Qed.

(** [std::stol] on a string that starts with a digit reads the number its
    leading digits form, as long as that fits a [long]. *)
Lemma stol_of_number (c : ascii) (r : string) :
  Str.isdigit c = true ->
  Str.leading_digits 0 (String c r) <= Str.LONG_MAX ->
  Str.stol (String c r) = Returns (Str.leading_digits 0 (String c r)).
Proof.
  intros Hd Hmax.
  assert (Hlow : 0 <= Str.leading_digits 0 (String c r)) by (apply leading_digits_lower; lia).
  unfold Str.stol.
  assert (Hs : Str.skip_space (String c r) = String c r).
  { cbn [Str.skip_space]. replace (Str.isspace c) with false; [reflexivity|].
    unfold Str.isdigit in Hd. unfold Str.isspace.
    apply andb_prop in Hd. destruct Hd as [H1 H2].
    apply Z.leb_le in H1. apply Z.leb_le in H2.
    symmetry. apply orb_false_intro; [apply Z.eqb_neq; lia|].
    apply andb_false_intro2. apply Z.leb_gt. lia. }
  rewrite Hs.
  assert (Hsign : match String c r with
                  | String "-" r0 => (true, r0)
                  | String "+" r0 => (false, r0)
                  | _ => (false, String c r)
                  end = (false, String c r)).
  { destruct c as [[] [] [] [] [] [] [] []]; try reflexivity; discriminate Hd. }
  rewrite Hsign. rewrite Hd.
  replace ((Str.LONG_MIN <=? Str.leading_digits 0 (String c r))
           && (Str.leading_digits 0 (String c r) <=? Str.LONG_MAX)) with true; [reflexivity|].
  symmetry. apply andb_true_intro.
  split; apply Z.leb_le; [unfold Str.LONG_MIN; lia | exact Hmax].
Qed.

(** C5, as amended.  For a semantic that names none of the built-ins,
    [semantic_to_builtin] gives [BuiltInMax] whenever it returns.  It sets
    the index only for a name that, upper-cased, starts with [SV_TARGET] or
    [TEXCOORD] and goes on: to the number [std::stol] reads from the rest
    (an exception of [std::stol] leaves the function).  For every other
    name the index stays what it was. *)
Theorem semantic_index_only_for_indexed_names (semantic : string) (index : Z) :
  recognized_builtin_name (Str.transform_toupper semantic) = false ->
  semantic_to_builtin semantic index =
  match indexed_prefix (Str.transform_toupper semantic) with
  | None => Returns (BuiltInMax, Str.transform_toupper semantic, index)
  | Some n =>
      cxx_bind (Str.stol (Str.substr n (Str.transform_toupper semantic)))
               (fun v => Returns (BuiltInMax, Str.transform_toupper semantic, uint32 v))
  end.
Proof.
  intros Hname. unfold semantic_to_builtin, indexed_prefix.
  set (upper := Str.transform_toupper semantic) in *.
  unfold recognized_builtin_name in Hname.
  repeat (apply orb_false_elim in Hname; destruct Hname as [Hname ?]).
  repeat match goal with H : String.eqb _ _ = false |- _ => rewrite H; clear H end.
  cbn [orb].
  destruct ((9 <? Str.size upper) && Str.compare0 9 "SV_TARGET" upper) eqn:H9.
  - apply andb_prop in H9. destruct H9 as [_ H9].
    rewrite (sv_target_is_not_texcoord _ H9), andb_false_r.
    destruct (Str.stol (Str.substr 9 upper)); reflexivity.
  - destruct ((8 <? Str.size upper) && Str.compare0 8 "TEXCOORD" upper); cbn [cxx_bind].
    + destruct (Str.stol (Str.substr 8 upper)); reflexivity.
    + reflexivity.
Qed.

(** C5, witness: [texcoord3] names no built-in and gets index 3. *)
Lemma semantic_index_witness :
  recognized_builtin_name (Str.transform_toupper "texcoord3") = false
  /\ semantic_to_builtin "texcoord3" 7 = Returns (BuiltInMax, "TEXCOORD3", 3).
Proof.
  split; [reflexivity|].
  exact (semantic_index_only_for_indexed_names "texcoord3" 7 eq_refl).
Defined.

(** C5, counterexample: [COLOR2] names no built-in and ends in the digit 2,
    but the index is not set to 2: it stays what it was, 0 or 7 here. *)
Lemma color2_keeps_the_index :
  recognized_builtin_name (Str.transform_toupper "COLOR2") = false
  /\ semantic_to_builtin "COLOR2" 0 = Returns (BuiltInMax, "COLOR2", 0)
  /\ semantic_to_builtin "COLOR2" 7 = Returns (BuiltInMax, "COLOR2", 7).
Proof. repeat split. Qed.

(** ** Constant folding *)

Lemma set_nth_length {A} (i : nat) (v : A) (l : list A) : List.length (set_nth i v l) = List.length l.
Proof.
  revert i. induction l as [|x l IH]; intros [|i]; simpl; auto.
Qed.

Lemma nth_set_nth {A} (i k : nat) (v d : A) (l : list A) :
  nth k (set_nth i v l) d = if Nat.eqb k i && (i <? List.length l)%nat then v else nth k l d.
Proof.
  revert i k. induction l as [|x l IH]; intros i k.
  - simpl. destruct i, k; simpl; try rewrite andb_false_r; reflexivity.
  - destruct i as [|i], k as [|k]; simpl; try reflexivity.
    rewrite IH. reflexivity.
Qed.

Lemma as_uint_set_lane (c : spv_constant) (i k : nat) (v : Z) :
  as_uint (set_lane c i v) k =
  if Nat.eqb k i && (i <? List.length (as_uint_lanes c))%nat then uint32 v else as_uint c k.
Proof. destruct c as [l s a]. unfold as_uint. simpl. apply nth_set_nth. Qed.

Lemma lanes_set_lane (c : spv_constant) (i : nat) (v : Z) :
  List.length (as_uint_lanes (set_lane c i v)) = List.length (as_uint_lanes c).
Proof. destruct c as [l s a]. simpl. apply set_nth_length. Qed.

(** A lane loop whose values do not depend on the lanes written so far
    overwrites the lanes it runs over and keeps the others. *)
Lemma for_lanes_pointwise (g : nat -> Z) (n i : nat) (d : spv_constant) :
  (i + n <= 16)%nat -> List.length (as_uint_lanes d) = 16%nat ->
  exists d', for_lanes n i (fun _ k => Some (g k)) d = Some d'
             /\ List.length (as_uint_lanes d') = 16%nat
             /\ forall k, as_uint d' k =
                          if (i <=? k)%nat && (k <? i + n)%nat then uint32 (g k) else as_uint d k.
Proof.
  revert i d. induction n as [|n IH]; intros i d Hi Hd.
  - exists d. repeat split; auto. intros k.
    replace ((i <=? k)%nat && (k <? i + 0)%nat) with false; [reflexivity|].
    symmetry. apply andb_false_iff.
    destruct (Nat.leb_spec i k); [right; apply Nat.ltb_ge; lia | now left].
  - cbn [for_lanes].
    replace (i <? 16)%nat with true by (symmetry; apply Nat.ltb_lt; lia).
    destruct (IH (S i) (set_lane d i (g i))) as (d' & Hrun & Hlen & Hk).
    + lia.
    + now rewrite lanes_set_lane.
    + exists d'. repeat split; auto. intros k. rewrite Hk, as_uint_set_lane, Hd.
      replace (i <? 16)%nat with true by (symmetry; apply Nat.ltb_lt; lia).
      rewrite andb_true_r.
      destruct (Nat.eqb_spec k i) as [->|Hne].
      * replace (S i <=? i)%nat with false by (symmetry; apply Nat.leb_gt; lia).
        replace (i <=? i)%nat with true by (symmetry; apply Nat.leb_le; lia).
        replace (i <? i + S n)%nat with true by (symmetry; apply Nat.ltb_lt; lia).
        reflexivity.
      * destruct (Nat.leb_spec (S i) k), (Nat.leb_spec i k); try lia; cbn [andb]; try reflexivity.
        replace (k <? i + S n)%nat with (k <? S i + n)%nat by (f_equal; lia). reflexivity.
Qed.

Lemma b2z_small (b : bool) : uint32 (Z.b2z b) = Z.b2z b.
Proof. destruct b; reflexivity. Qed.

(** Folding [==] and [!=] with the float opcodes gives, in every lane of
    the type, the comparison of the two bit patterns: the float comparison
    written first is overwritten by the integer case control falls into. *)
Lemma float_equality_folds_bit_patterns {H} (E : externals H) (o : Op) (type : spv_type)
        (lhs rhs : spv_constant) :
  o = OpFOrdEqual \/ o = OpFOrdNotEqual ->
  0 <= components type <= 16 ->
  List.length (as_uint_lanes lhs) = 16%nat ->
  exists data,
    fold_binary E o type lhs rhs = Some data
    /\ forall k, (k < Z.to_nat (components type))%nat ->
                 as_uint data k =
                 Z.b2z (if Op_eqb o OpFOrdEqual
                        then as_uint lhs k =? as_uint rhs k
                        else negb (as_uint lhs k =? as_uint rhs k)).
Proof.
  intros Ho Hn Hlen.
  assert (Hn' : (0 + Z.to_nat (components type) <= 16)%nat) by lia.
  destruct Ho as [-> | ->]; cbn [fold_binary].
  - destruct (@for_lanes_pointwise
                (fun i => Z.b2z (float_eq (as_uint lhs i) (as_uint rhs i))) _ _ lhs Hn' Hlen)
      as (d1 & -> & Hlen1 & _).
    destruct (@for_lanes_pointwise
                (fun i => Z.b2z (as_uint lhs i =? as_uint rhs i)) _ _ d1 Hn' Hlen1)
      as (d2 & -> & _ & Hk).
    exists d2. split; [reflexivity|]. intros k Hlt. rewrite Hk.
    replace ((0 <=? k)%nat && (k <? 0 + Z.to_nat (components type))%nat) with true.
    + apply b2z_small.
    + symmetry. apply andb_true_intro. split; [reflexivity | apply Nat.ltb_lt; lia].
  - destruct (@for_lanes_pointwise
                (fun i => Z.b2z (float_ne (as_uint lhs i) (as_uint rhs i))) _ _ lhs Hn' Hlen)
      as (d1 & -> & Hlen1 & _).
    destruct (@for_lanes_pointwise
                (fun i => Z.b2z (negb (as_uint lhs i =? as_uint rhs i))) _ _ d1 Hn' Hlen1)
      as (d2 & -> & _ & Hk).
    exists d2. split; [reflexivity|]. intros k Hlt. rewrite Hk.
    replace ((0 <=? k)%nat && (k <? 0 + Z.to_nat (components type))%nat) with true.
    + apply b2z_small.
    + symmetry. apply andb_true_intro. split; [reflexivity | apply Nat.ltb_lt; lia].
Qed.

(** C4.  The operands are the constants [-0.0] (the literal [0.0] under the
    prefix minus) and [0.0] of type [float]; the operator selected for [==]
    is [OpFOrdEqual].  The float-ordered comparison of the two is true, but
    the fold gives 0 (false); likewise [!=] folds to 1 (true) where the
    float comparison is false. *)
Theorem signed_zero_equality_folds_bitwise {H} (E : externals H) :
  fold_unary OpFNegate (type3 datatype_float 1 1) (scalar_constant 0)
  = Some (scalar_constant 2147483648)
  /\ select_equality_op OpLogicalEqual (type3 datatype_float 1 1) = OpFOrdEqual
  /\ select_equality_op OpLogicalNotEqual (type3 datatype_float 1 1) = OpFOrdNotEqual
  /\ float_ordered_comparison OpFOrdEqual (scalar_constant 2147483648) (scalar_constant 0) 0 = 1
  /\ fold_binary E OpFOrdEqual (type3 datatype_float 1 1)
                 (scalar_constant 2147483648) (scalar_constant 0)
     = Some (scalar_constant 0)
  /\ float_ordered_comparison OpFOrdNotEqual (scalar_constant 2147483648) (scalar_constant 0) 0
     = 0
  /\ fold_binary E OpFOrdNotEqual (type3 datatype_float 1 1)
                 (scalar_constant 2147483648) (scalar_constant 0)
     = Some (scalar_constant 1).
Proof. repeat split. Qed.

(** ** The uniform block *)

Lemma std140_size_bounds (type : spv_type) :
  1 <= rows type <= 4 -> 1 <= cols type <= 4 -> -1 <= array_length type <= 65536 ->
  4 <= std140_size type <= 2 ^ 22.
Proof.
  intros Hr Hc Ha. unfold std140_size.
  assert (Hm : 1 <= Z.max 1 (array_length type) <= 65536) by lia.
  assert (Hrr : 1 <= (if rows type =? 3 then 4 else rows type) <= 4)
    by (destruct (rows type =? 3); lia).
  set (r := if rows type =? 3 then 4 else rows type) in *.
  set (m := Z.max 1 (array_length type)) in *.
  change (2 ^ 22) with 4194304.
  assert (Hrc : 1 <= r * cols type <= 16) by nia.
  assert (Hrcm : 1 <= r * cols type * m <= 16 * 65536) by nia.
  lia.
Qed.

Lemma uniform_size_exact (type : spv_type) :
  1 <= rows type <= 4 -> 1 <= cols type <= 4 -> -1 <= array_length type <= 65536 ->
  uniform_size type = std140_size type.
Proof.
  intros Hr Hc Ha. pose proof (std140_size_bounds type Hr Hc Ha) as Hb.
  unfold uniform_size. rewrite (@uint32_small (Z.max 1 (array_length type))).
  - apply uint32_small. fold (std140_size type). change (2 ^ 32) with 4294967296.
    change (2 ^ 22) with 4194304 in Hb. lia.
  - change (2 ^ 32) with 4294967296. lia.
Qed.

Lemma uniform_size_of_uint (type : spv_type) :
  uniform_size (if is_boolean type then set_base type datatype_uint else type) = uniform_size type.
Proof. destruct (is_boolean type); reflexivity. Qed.

Lemma align_rounds_up (ptr_bits address alignment : Z) :
  0 < alignment -> 0 <= address -> address + alignment <= 2 ^ ptr_bits ->
  exists aligned,
    align ptr_bits address alignment = Some aligned
    /\ aligned mod alignment = 0
    /\ address <= aligned < address + alignment.
Proof.
  intros Hal Had Hfit. unfold align.
  replace (alignment =? 0) with false by (symmetry; apply Z.eqb_neq; lia).
  pose proof (Z.mod_pos_bound address alignment Hal) as Hm.
  destruct (address mod alignment =? 0) eqn:Hz; cbn [negb].
  - apply Z.eqb_eq in Hz. exists address. repeat split; auto; lia.
  - apply Z.eqb_neq in Hz.
    exists (address + alignment - address mod alignment).
    rewrite wrap_small by lia.
    repeat split; try lia.
    rewrite (Z.div_mod address alignment) at 1 by lia.
    replace (alignment * (address / alignment) + address mod alignment + alignment
             - address mod alignment)
      with ((address / alignment + 1) * alignment) by ring.
    apply Z.mod_mul. lia.
Qed.

(** C3.  Declaring a numeric uniform of [rows] x [cols] components and array
    length [a] (dimensions 1..4, [a] in -1..65536), while the block still
    fits 32-bit offsets: the member gets the Offset decoration
    [align(previous_offset, size)] with [size = 4 * (rows == 3 ? 4 : rows) *
    cols * max(1, a)], which is the previous offset rounded up to a multiple
    of [size], and the running offset advances to that offset plus
    [size]. *)
Theorem uniform_member_offset {H} (ptr_bits : Z) (name : string)
        (type : spv_type) (info : spv_variable_info) (p : parser H) :
  32 <= ptr_bits ->
  1 <= rows type <= 4 -> 1 <= cols type <= 4 -> -1 <= array_length type <= 65536 ->
  0 <= _global_ubo_offset p ->
  _global_ubo_offset p + 2 * std140_size type <= 2 ^ 32 ->
  exists sym p' offset,
    declare_uniform ptr_bits name type info p = Done sym p'
    /\ align ptr_bits (_global_ubo_offset p) (std140_size type) = Some offset
    /\ offset mod std140_size type = 0
    /\ _global_ubo_offset p <= offset < _global_ubo_offset p + std140_size type
    /\ _member_decorations p' =
       (_member_decorations p
          ++ [mk_member_decoration (_global_ubo_type p') (Z.of_nat (List.length (_uniforms p)))
                                   DecorationOffset [offset]])%list
    /\ member_index sym = Some (Z.of_nat (List.length (_uniforms p)))
    /\ _global_ubo_offset p' = offset + std140_size type.
Proof.
  intros Hptr Hr Hc Ha Hprev Hfit.
  pose proof (std140_size_bounds type Hr Hc Ha) as Hsize.
  assert (Hpow : 2 ^ 32 <= 2 ^ ptr_bits) by (apply Z.pow_le_mono_r; lia).
  destruct (@align_rounds_up ptr_bits (_global_ubo_offset p) (std140_size type))
    as (offset & Halign & Hmod & Hrange); try lia.
  assert (Hoff : uint32 offset = offset) by (apply uint32_small; lia).
  assert (Hnext : uint32 (offset + std140_size type) = offset + std140_size type)
    by (apply uint32_small; lia).
  assert (Hlen : forall A (l : list A) (x : A),
             Z.of_nat (List.length (l ++ [x])) - 1 = Z.of_nat (List.length l)).
  { intros A l x. rewrite length_app. simpl. lia. }
  unfold declare_uniform, bind, gets, get, modify, ret, make_id, add_member_name,
    add_member_decoration.
  destruct (_global_ubo_type p =? 0); cbn -[uint32 uniform_size align];
    destruct (_global_ubo_variable p =? 0); cbn -[uint32 uniform_size align];
    rewrite uniform_size_of_uint, (uniform_size_exact type Hr Hc Ha), Halign;
    cbn -[uint32 uniform_size align];
    rewrite ?Hoff, ?Hnext, ?Hlen;
    eexists _, _, offset; repeat split; try reflexivity; lia.
Qed.

(** C3, witness: a [float3] declared at running offset 64 (after a
    [float4x4]) is placed at 64 and the running offset becomes 80. *)
Lemma uniform_member_offset_witness :
  exists sym p' offset,
    declare_uniform 64 "v" (type4 datatype_float 3 1 qualifier_uniform) default_variable_info
                    (set_global_ubo_offset 64 (new_parser tt 1)) = Done sym p'
    /\ align 64 64 16 = Some offset
    /\ offset mod 16 = 0
    /\ 64 <= offset < 64 + 16
    /\ _member_decorations p' = [mk_member_decoration (_global_ubo_type p') 0 DecorationOffset [offset]]
    /\ member_index sym = Some 0
    /\ _global_ubo_offset p' = offset + 16.
Proof.
  apply (@uniform_member_offset unit 64 "v" (type4 datatype_float 3 1 qualifier_uniform)
           default_variable_info (set_global_ubo_offset 64 (new_parser tt 1)));
    simpl; lia.
Defined.

(** The program [uniform float4x4 M; uniform float3 v;] run through the
    driver: [M] is member 0 at offset 0, [v] is member 1 at offset 64, the
    block ends at 80, and both members carry an Offset decoration. *)
Example uniform_block_of_two_members :
  match run Reference.E 64 30 Reference.two_uniforms (new_parser tt 1) with
  | Done ok p =>
      ok = true
      /\ map (fun d => (mdec_member d, mdec_kind d, mdec_operands d)) (_member_decorations p)
         = [(0, DecorationOffset, [0]); (1, DecorationOffset, [64])]
      /\ map member_name (_uniforms p) = ["M"; "v"]
      /\ _global_ubo_offset p = 80
  | Abort _ => False
  end.
Proof. vm_compute. repeat split. Qed.

(** ** Calls *)

(** The check in front of the call instruction: for a symbol of a user
    function ([OpFunctionCall], not one of the three intrinsics handled in
    place) whose info is the one of the function being defined, error 3500
    is reported, the expression fails, and nothing is emitted. *)
Lemma call_of_the_current_function {H} (E : externals H) (section : nat) (loc : location)
        (sym : symbol) (parameters : list spv_expression) (exp : spv_expression)
        (p : parser H) (f : nat) :
  sym_op sym = OpFunctionCall ->
  sym_id sym <> 268435457 -> sym_id sym <> 268435458 -> sym_id sym <> 268435459 ->
  _current_function p = Some f ->
  (f < List.length (_functions p))%nat ->
  sym_function sym = Some f ->
  exists p',
    emit_call E section loc sym parameters exp p = Done (false, exp) p'
    /\ _errors p' = (_errors p ++ [recursion_error loc])%list
    /\ _blocks p' = _blocks p.
Proof.
  intros Hop H1 H2 H3 Hcur Hf Hsym.
  unfold emit_call.
  apply Z.eqb_neq in H1, H2, H3. rewrite H1, H2, H3, Hop.
  change (negb (Op_eqb OpFunctionCall OpFunctionCall)) with false. cbv iota.
  unfold bind at 1. unfold is_current_function, bind, gets.
  rewrite Hcur.
  destruct (nth_error (_functions p) f) eqn:Hnth.
  - rewrite Hsym, Nat.eqb_refl. cbn.
    eexists. repeat split.
  - apply nth_error_None in Hnth. lia.
Qed.

(** Conversely, a call of a user function that goes through is not a call
    of the function being defined. *)
Lemma emitted_call_is_not_recursive {H} (E : externals H) (section : nat) (loc : location)
        (sym : symbol) (parameters : list spv_expression) (exp e : spv_expression)
        (p p' : parser H) :
  sym_op sym = OpFunctionCall ->
  sym_id sym <> 268435457 -> sym_id sym <> 268435458 -> sym_id sym <> 268435459 ->
  emit_call E section loc sym parameters exp p = Done (true, e) p' ->
  is_current_function sym p = Done false p.
Proof.
  intros Hop H1 H2 H3.
  unfold emit_call.
  apply Z.eqb_neq in H1, H2, H3. rewrite H1, H2, H3, Hop.
  change (negb (Op_eqb OpFunctionCall OpFunctionCall)) with false. cbv iota.
  unfold bind at 1.
  destruct (is_current_function sym p) as [[|] p1|] eqn:Hrec; try discriminate.
  intros _. revert Hrec. unfold is_current_function, bind, gets, ret, fail.
  destruct (_current_function p); [destruct (nth_error (_functions p) n)|];
    intros Heq; inversion Heq; subst; reflexivity.
Qed.

(** Inside function 0, with a symbol of function 0. *)
Example call_of_function_0_in_function_0 :
  exists p',
    emit_call Reference.E 0 no_location Reference.self_symbol [] empty_expression
              (Reference.in_function [Reference.punct ";"])
    = Done (false, empty_expression) p'
    /\ _errors p' = [recursion_error no_location]
    /\ _blocks p' = [[]].
Proof.
  apply (@call_of_the_current_function unit Reference.E 0 no_location Reference.self_symbol []
           empty_expression (Reference.in_function [Reference.punct ";"]) 0%nat);
    simpl; try reflexivity; try lia; discriminate.
Qed.

(** C7: the recursive function of S6, [float f(float x) { return f(x); }],
    compiled by the parser of effect_parser.cpp over a symbol table.
    [parse_function] inserts the symbol of [f] after the body is parsed,
    so the call in the body does not resolve: the function is rejected, no
    [OpFunctionCall] is emitted, and the one diagnostic is error 3004,
    undeclared identifier, or error 3013, no matching overload, by what
    the failed resolution leaves in the symbol.  It is not error 3500. *)
Theorem recursive_call_is_reported_as_undeclared (failed_op : Op) :
  match Table.compile failed_op 12 Table.recursive_function with
  | Done ok p =>
      ok = false
      /\ error_codes p = [if Op_eqb failed_op OpFunctionCall then 3004 else 3013]
      /\ forallb (forallb (fun i => negb (Op_eqb (op i) OpFunctionCall))) (_blocks p) = true
  | Abort _ => False
  end.
Proof. destruct failed_op; vm_compute; repeat split; reflexivity. Qed.

(** A call of a function that is declared resolves, and the call is
    emitted: [float f(float x) { return x; } float g(float x) { return
    f(x); }]. *)
Example call_of_a_declared_function :
  match Table.compile OpFunctionCall 12 Table.function_and_caller with
  | Done ok p =>
      ok = true /\ _errors p = []
      /\ map (fun i => (op i, operands i)) (List.concat (_blocks p))
         = [ (OpLabel, []); (OpReturnValue, [4]); (OpLabel, []);
             (OpFunctionCall, [1; 8]); (OpReturnValue, [11]) ]
  | Abort _ => False
  end.
Proof. vm_compute. repeat split; reflexivity. Qed.

(** ** Swizzles and assignment *)

Lemma NoDup_snoc {A} (l : list A) (x : A) : NoDup (l ++ [x]) <-> NoDup l /\ ~ In x l.
Proof.
  induction l as [|a l IH]; simpl.
  - split; [intros _; split; [constructor | tauto] | intros _; repeat constructor; tauto].
  - split.
    + intros Hnd. inversion Hnd as [|? ? Hin Hnd']; subst.
      apply IH in Hnd'. destruct Hnd' as [Hl Hx]. split.
      * constructor; [|exact Hl]. intros Ha. apply Hin. apply in_or_app. now left.
      * intros [Hax | Hxl]; [|tauto]. subst. apply Hin. apply in_or_app. right. now left.
    + intros [Hnd Hx]. inversion Hnd as [|? ? Hin Hnd']; subst.
      constructor.
      * intros Ha. apply in_app_or in Ha. destruct Ha as [Ha | [Ha | []]]; [tauto|].
        subst. tauto.
      * apply IH. tauto.
Qed.

Lemma repeats_In (l : list Z) (o : Z) : repeats l o = true <-> In o l.
Proof.
  unfold repeats. rewrite existsb_exists. split.
  - intros (x & Hin & Heq). apply Z.eqb_eq in Heq. now subst.
  - intros Hin. exists o. split; [exact Hin | apply Z.eqb_refl].
Qed.

(** The flag of a swizzle loop after one more offset. *)
Lemma constant_flag_step (offsets : list Z) (o : Z) (constant : bool) :
  (constant = false <-> NoDup offsets) ->
  (constant || repeats offsets o = false <-> NoDup (offsets ++ [o])).
Proof.
  intros Hinv. rewrite NoDup_snoc, orb_false_iff, <- Hinv.
  split; intros [Hc Hr]; (split; [exact Hc|]).
  - intros Hin. apply repeats_In in Hin. congruence.
  - destruct (repeats offsets o) eqn:Hrep; [|reflexivity].
    apply repeats_In in Hrep. tauto.
Qed.

Lemma vector_swizzle_loop_flag (subscript rest : string) (type_rows : Z) (offsets : list Z)
      (previous : option swizzle_set) (constant : bool) (offsets' : list Z) (constant' : bool) :
  vector_swizzle_loop subscript rest type_rows offsets previous constant
  = swizzle_ok offsets' constant' ->
  (constant = false <-> NoDup offsets) ->
  (constant' = false <-> NoDup offsets').
Proof.
  revert offsets previous constant.
  induction rest as [|c rest IH]; intros offsets previous constant; cbn [vector_swizzle_loop].
  - intros Heq Hinv. inversion Heq; subst. exact Hinv.
  - destruct (swizzle_component c) as [[o set]|]; [|discriminate].
    destruct (match previous with
              | Some set' => negb (swizzle_set_eqb set set')
              | None => false
              end); [discriminate|].
    destruct (type_rows <=? o); [discriminate|].
    intros Heq Hinv. apply (IH _ _ _ Heq). now apply constant_flag_step.
Qed.

Lemma matrix_swizzle_loop_flag (rounds : nat) (subscript : string) (set type_rows type_cols : Z)
      (i j : nat) (offsets : list Z) (constant : bool) (offsets' : list Z) (constant' : bool) :
  matrix_swizzle_loop rounds subscript set type_rows type_cols i j offsets constant
  = swizzle_ok offsets' constant' ->
  (constant = false <-> NoDup offsets) ->
  (constant' = false <-> NoDup offsets').
Proof.
  revert i j offsets constant.
  induction rounds as [|rounds IH]; intros i j offsets constant; cbn [matrix_swizzle_loop].
  - intros Heq Hinv. inversion Heq; subst. exact Hinv.
  - destruct (negb (i <? String.length subscript)%nat).
    { intros Heq Hinv. inversion Heq; subst. exact Hinv. }
    destruct (char_at subscript i) as [c0|]; [|discriminate].
    destruct (negb (c0 =? 95)); [discriminate|].
    destruct (char_at subscript (i + Z.to_nat set + 1)) as [c1|]; [|discriminate].
    match goal with |- context [if ?b then swizzle_error _ else _] => destruct b end;
      [discriminate|].
    destruct (char_at subscript (i + Z.to_nat set + 2)) as [c2|]; [|discriminate].
    match goal with |- context [if ?b then swizzle_error _ else _] => destruct b end;
      [discriminate|].
    destruct (char_at subscript (i + 1)) as [cm|]; [|discriminate].
    match goal with |- context [if ?b then swizzle_error _ else _] => destruct b end;
      [discriminate|].
    match goal with |- context [if ?b then swizzle_error _ else _] => destruct b end;
      [discriminate|].
    intros Heq Hinv. apply (IH _ _ _ _ Heq). now apply constant_flag_step.
Qed.

(** The flag [constant] of a swizzle that parsed tells whether an offset
    occurs more than once. *)
Lemma swizzle_flag (r : swizzle_result) (subscript : string) (type_rows type_cols : Z)
      (offsets : list Z) (constant : bool) :
  r = vector_swizzle subscript type_rows \/ r = matrix_swizzle subscript type_rows type_cols ->
  r = swizzle_ok offsets constant ->
  (constant = true <-> ~ NoDup offsets).
Proof.
  intros Hr Hok.
  assert (Hflag : constant = false <-> NoDup offsets).
  { destruct Hr as [-> | ->].
    - unfold vector_swizzle in Hok. destruct (4 <? Str.size subscript); [discriminate|].
      eapply vector_swizzle_loop_flag; [exact Hok|]. split; [constructor | reflexivity].
    - unfold matrix_swizzle in Hok. destruct (Str.size subscript <? 3); [discriminate|].
      eapply matrix_swizzle_loop_flag; [exact Hok|]. split; [constructor | reflexivity]. }
  destruct constant; split; intros Hx; try reflexivity; try discriminate.
  - intros Hnd. apply Hflag in Hnd. discriminate.
  - exfalso. apply Hx. now apply Hflag.
Qed.

Lemma land_single_bit (q k : Z) :
  0 <= k -> Z.land q (2 ^ k) = if Z.testbit q k then 2 ^ k else 0.
Proof.
  intros Hk. apply Z.bits_inj'. intros n Hn.
  rewrite Z.land_spec, Z.pow2_bits_eqb by lia.
  destruct (Z.eqb_spec k n) as [->|Hne].
  - rewrite andb_true_r. destruct (Z.testbit q n) eqn:Hq.
    + now rewrite Z.pow2_bits_true.
    + now rewrite Z.bits_0.
  - rewrite andb_false_r. destruct (Z.testbit q k).
    + now rewrite Z.pow2_bits_false.
    + now rewrite Z.bits_0.
Qed.

Lemma has_single_bit (t : spv_type) (k : Z) :
  0 <= k -> has t (2 ^ k) = Z.testbit (qualifiers t) k.
Proof.
  intros Hk. unfold has. rewrite land_single_bit by exact Hk.
  destruct (Z.testbit (qualifiers t) k).
  - apply Z.eqb_refl.
  - apply Z.eqb_neq. pose proof (Z.pow_pos_nonneg 2 k). lia.
Qed.






(** [v.xy = 1;] goes through: no diagnostic, and the value is stored. *)
Example distinct_swizzle_is_assigned :
  match parse_expression_assignment Reference.E 0 empty_expression
                                    (Reference.in_function Reference.v_xy_assigned) with
  | Done (ok, _) p => ok = true /\ _errors p = []
  | Abort _ => False
  end.
Proof. vm_compute. split; reflexivity. Qed.

(** ** Statements *)

Section StatementFacts.
Context {H : Type}.
Variable E : externals H.

(** *** Tokens *)

Lemma tokenid_eqb_refl (t : tokenid) : tokenid_eqb t t = true.
Proof. unfold tokenid_eqb. destruct (tokenid_eq_dec t t); congruence. Qed.

Lemma tokenid_eqb_neq (a b : tokenid) : a <> b -> tokenid_eqb a b = false.
Proof. intros Hne. unfold tokenid_eqb. destruct (tokenid_eq_dec a b); congruence. Qed.

Lemma consume_done (p : parser H) (l : list token) :
  _lexer p = Some l -> consume p = Done tt (consumed p).
Proof.
  intros Hl. unfold consume, bind, modify, lex, consumed. cbn. rewrite Hl.
  destruct l; reflexivity.
Qed.

Lemma consumed_lexer (p : parser H) (l : list token) :
  _lexer p = Some l -> _lexer (consumed p) = Some (tl l).
Proof. intros Hl. unfold consumed. rewrite Hl. destruct l; cbn; [exact Hl | reflexivity]. Qed.

Lemma accept_hit (t : tokenid) (p : parser H) (l : list token) :
  _lexer p = Some l -> id (_token_next p) = t -> accept t p = Done true (consumed p).
Proof.
  intros Hl Ht. unfold accept, bind, peek, gets. rewrite Ht, tokenid_eqb_refl.
  rewrite (consume_done p l Hl). reflexivity.
Qed.

Lemma accept_miss (t : tokenid) (p : parser H) :
  id (_token_next p) <> t -> accept t p = Done false p.
Proof.
  intros Ht. unfold accept, bind, peek, gets. now rewrite (tokenid_eqb_neq _ _ Ht).
Qed.

Lemma peek_miss (t : tokenid) (p : parser H) :
  id (_token_next p) <> t -> peek t p = Done false p.
Proof. intros Ht. unfold peek, gets. now rewrite (tokenid_eqb_neq _ _ Ht). Qed.

(** [expect] leaves the code and the control-flow state alone. *)
Lemma expect_frame (t : tokenid) (p : parser H) (l : list token) :
  _lexer p = Some l ->
  exists ok p',
    expect E t p = Done ok p'
    /\ _blocks p' = _blocks p
    /\ _current_block p' = _current_block p.
Proof.
  intros Hl. unfold expect. unfold bind at 1.
  destruct (tokenid_eq_dec (id (_token_next p)) t) as [Heq|Hne].
  - rewrite (accept_hit t p l Hl Heq). eexists _, _. split; [reflexivity|].
    unfold consumed. rewrite Hl. destruct l; split; reflexivity.
  - rewrite (accept_miss t p Hne). eexists _, _. split; [reflexivity|]. split; reflexivity.
Qed.


Lemma attribute_loop_idle (fuel : nat) (p : parser H) :
  id (_token_next p) <> chr "[" ->
  loop (S fuel) (attribute_body E) (LoopControlMaskNone, SelectionControlMaskNone) p
  = Done (Some (LoopControlMaskNone, SelectionControlMaskNone)) p.
Proof.
  intros Ht. cbn [loop]. unfold bind at 1. unfold attribute_body at 1.
  unfold bind at 1. rewrite (accept_miss _ p Ht). reflexivity.
Qed.

(** *** The dispatcher *)

Variable ptr_bits : Z.

Lemma parse_statement_unfold (fuel : nat) (section : nat) (scoped : bool) :
  parse_statement E ptr_bits (S fuel) section scoped
  = statement E ptr_bits (parse_statement E ptr_bits fuel) fuel section scoped.
Proof. reflexivity. Qed.

(** The statement dispatcher up to the statements of functions: with a
    block open, inside a function, and the next token none of [[], [{], [;],
    the statement is one of the function statements or a declaration or an
    expression. *)
Lemma statement_dispatch (fuel : nat) (section : nat) (scoped : bool) (p : parser H) (f : nat) :
  _current_block p <> 0 ->
  _current_function p = Some f ->
  id (_token_next p) <> chr "[" ->
  id (_token_next p) <> chr "{" ->
  id (_token_next p) <> chr ";" ->
  parse_statement E ptr_bits (S (S fuel)) section scoped p =
  match function_statement E ptr_bits (parse_statement E ptr_bits (S fuel)) (S fuel) section
                           LoopControlMaskNone SelectionControlMaskNone p with
  | Done (Some b) p' => Done b p'
  | Done None p' => statement_declaration_or_expression E ptr_bits (S fuel) section p'
  | Abort why => Abort why
  end.
Proof.
  intros Hblock Hfun H1 H2 H3.
  rewrite (parse_statement_unfold (S fuel)). unfold statement.
  unfold bind at 1. unfold gets at 1.
  rewrite (proj2 (Z.eqb_neq _ _) Hblock).
  unfold bind at 1. rewrite attribute_loop_idle by exact H1.
  unfold bind at 1. rewrite peek_miss by exact H2.
  unfold bind at 1. rewrite accept_miss by exact H3.
  unfold bind at 1. unfold gets at 1.
  unfold bind at 1. rewrite Hfun.
  destruct (function_statement E ptr_bits (parse_statement E ptr_bits (S fuel)) (S fuel) section
              LoopControlMaskNone SelectionControlMaskNone p) as [[b|] p'|]; reflexivity.
Qed.

(** *** Break and continue *)

Ltac miss Htok := unfold bind at 1; rewrite accept_miss by (rewrite Htok; discriminate).

Lemma break_dispatch (fuel : nat) (section : nat) (scoped : bool) (p : parser H)
      (l : list token) (f : nat) :
  id (_token_next p) = break_ ->
  _lexer p = Some l ->
  _current_block p <> 0 ->
  _current_function p = Some f ->
  parse_statement E ptr_bits (S (S fuel)) section scoped p
  = statement_break E section (tok_location (_token_next p)) (consumed p).
Proof.
  intros Htok Hl Hblock Hfun.
  rewrite (statement_dispatch fuel section scoped p f Hblock Hfun)
    by (rewrite Htok; discriminate).
  unfold function_statement.
  unfold bind at 1. unfold gets at 1.
  do 5 miss Htok.
  unfold bind at 1. rewrite (accept_hit break_ p l Hl Htok).
  unfold bind, ret.
  destruct (statement_break E section (tok_location (_token_next p)) (consumed p));
    reflexivity.
Qed.

Lemma continue_dispatch (fuel : nat) (section : nat) (scoped : bool) (p : parser H)
      (l : list token) (f : nat) :
  id (_token_next p) = continue_ ->
  _lexer p = Some l ->
  _current_block p <> 0 ->
  _current_function p = Some f ->
  parse_statement E ptr_bits (S (S fuel)) section scoped p
  = statement_continue E section (tok_location (_token_next p)) (consumed p).
Proof.
  intros Htok Hl Hblock Hfun.
  rewrite (statement_dispatch fuel section scoped p f Hblock Hfun)
    by (rewrite Htok; discriminate).
  unfold function_statement.
  unfold bind at 1. unfold gets at 1.
  do 6 miss Htok.
  unfold bind at 1. rewrite (accept_hit continue_ p l Hl Htok).
  unfold bind, ret.
  destruct (statement_continue E section (tok_location (_token_next p)) (consumed p));
    reflexivity.
Qed.

(** Leaving an open block with a branch: one [OpBranch] at the end of the
    block, and no block open afterwards. *)
Lemma leave_block_and_branch_open (section : nat) (target : Z) (q : parser H) :
  _current_block q <> 0 ->
  (section < List.length (_blocks q))%nat ->
  exists q',
    leave_block_and_branch section target q = Done tt q'
    /\ block_of q' section = (block_of q section ++ [branch_to target])%list
    /\ (forall other, other <> section -> block_of q' other = block_of q other)
    /\ _current_block q' = 0
    /\ _lexer q' = _lexer q
    /\ _errors q' = _errors q.
Proof.
  intros Hopen Hsec.
  unfold leave_block_and_branch, leave_block, bind, gets, add_node_without_result,
    update_block, modify.
  rewrite (proj2 (Z.eqb_neq _ _) Hopen).
  destruct (nth_error (_blocks q) section) as [b|] eqn:Hb.
  2:{ apply nth_error_None in Hb. lia. }
  eexists. split; [reflexivity|]. cbn.
  unfold block_of. cbn.
  repeat split.
  - rewrite nth_set_nth, Nat.eqb_refl.
    replace (section <? List.length (_blocks q))%nat with true
      by (symmetry; apply Nat.ltb_lt; exact Hsec).
    cbn. f_equal. symmetry. now apply nth_error_nth.
  - intros other Hother. rewrite nth_set_nth.
    now rewrite (proj2 (Nat.eqb_neq _ _) Hother).
Qed.


Lemma consumed_frame (p : parser H) :
  _blocks (consumed p) = _blocks p
  /\ _current_block (consumed p) = _current_block p
  /\ _loop_break_target_stack (consumed p) = _loop_break_target_stack p
  /\ _loop_continue_target_stack (consumed p) = _loop_continue_target_stack p
  /\ _errors (consumed p) = _errors p.
Proof. unfold consumed. destruct (_lexer p) as [[|t r]|]; repeat split. Qed.

(** A [break] or [continue] with a target on its stack. *)
Lemma branch_statement (section : nat) (stack : list Z) (q : parser H) (l : list token) :
  stack <> [] ->
  _lexer q = Some l ->
  _current_block q <> 0 ->
  (section < List.length (_blocks q))%nat ->
  exists ok q',
    (leave_block_and_branch section (back stack) ;; expect E (chr ";"))%parser q = Done ok q'
    /\ block_of q' section = (block_of q section ++ [branch_to (last stack 0)])%list
    /\ (forall other, other <> section -> block_of q' other = block_of q other)
    /\ _current_block q' = 0.
Proof.
  intros Hstack Hl Hopen Hsec.
  destruct (leave_block_and_branch_open section (back stack) q Hopen Hsec)
    as (q1 & Hleave & Hblock & Hothers & Hclosed & Hlex & _).
  unfold bind. rewrite Hleave.
  destruct (expect_frame (chr ";") q1 l) as (ok & q2 & Hexpect & Hblocks & Hcur).
  { now rewrite Hlex. }
  exists ok, q2. split; [exact Hexpect|].
  unfold block_of in *. rewrite Hblocks. repeat split; try assumption. congruence.
Qed.

(** C6: a [break] (a [continue]) statement read in an open block of a
    function.  With an empty break (continue) target stack it fails with
    error 3518 (3519) and the blocks are as they were; with a target on the
    stack the block being written gains exactly one [OpBranch] to the target
    on top of the stack, every other block is as it was, and no block is
    open afterwards. *)
Theorem break_and_continue_statements (keyword : tokenid) (fuel : nat) (section : nat)
        (scoped : bool) (p : parser H) (l : list token) (f : nat) :
  keyword = break_ \/ keyword = continue_ ->
  id (_token_next p) = keyword ->
  _lexer p = Some l ->
  _current_block p <> 0 ->
  _current_function p = Some f ->
  (section < List.length (_blocks p))%nat ->
  (target_stack keyword p = [] ->
   parse_statement E ptr_bits (S (S fuel)) section scoped p
   = Done false (with_diagnostic
                   (outside_loop_error keyword (tok_location (_token_next p))) (consumed p))
   /\ _blocks (consumed p) = _blocks p)
  /\ (target_stack keyword p <> [] ->
      exists ok p',
        parse_statement E ptr_bits (S (S fuel)) section scoped p = Done ok p'
        /\ block_of p' section
           = (block_of p section ++ [branch_to (last (target_stack keyword p) 0)])%list
        /\ (forall other, other <> section -> block_of p' other = block_of p other)
        /\ _current_block p' = 0).
Proof.
  intros Hkw Htok Hl Hopen Hfun Hsec.
  destruct (consumed_frame p) as (Hblocks & Hcur & Hbreak & Hcontinue & _).
  assert (Hsection : forall k, block_of (consumed p) k = block_of p k)
    by (intros k; unfold block_of; now rewrite Hblocks).
  destruct Hkw as [-> | ->].
  - rewrite (break_dispatch fuel section scoped p l f Htok Hl Hopen Hfun).
    unfold target_stack, outside_loop_error. cbn [tokenid_eqb].
    change (tokenid_eqb break_ break_) with true. cbv iota.
    unfold statement_break.
    split.
    + intros Hempty. unfold bind at 1. unfold gets at 1. rewrite Hbreak, Hempty.
      split; [reflexivity | exact Hblocks].
    + intros Hstack. unfold bind at 1. unfold gets at 1. rewrite Hbreak.
      destruct (branch_statement section (_loop_break_target_stack p) (consumed p) (tl l))
        as (ok & p' & Hrun & Hblock & Hothers & Hclosed); try assumption.
      * now apply consumed_lexer.
      * now rewrite Hcur.
      * now rewrite Hblocks.
      * exists ok, p'. rewrite <- !Hsection.
        destruct (_loop_break_target_stack p) as [|t r]; [contradiction|].
        repeat split; try assumption.
        intros other Hother. rewrite <- Hsection. now apply Hothers.
  - rewrite (continue_dispatch fuel section scoped p l f Htok Hl Hopen Hfun).
    unfold target_stack, outside_loop_error.
    change (tokenid_eqb continue_ break_) with false. cbv iota.
    unfold statement_continue.
    split.
    + intros Hempty. unfold bind at 1. unfold gets at 1. rewrite Hcontinue, Hempty.
      split; [reflexivity | exact Hblocks].
    + intros Hstack. unfold bind at 1. unfold gets at 1. rewrite Hcontinue.
      destruct (branch_statement section (_loop_continue_target_stack p) (consumed p) (tl l))
        as (ok & p' & Hrun & Hblock & Hothers & Hclosed); try assumption.
      * now apply consumed_lexer.
      * now rewrite Hcur.
      * now rewrite Hblocks.
      * exists ok, p'. rewrite <- !Hsection.
        destruct (_loop_continue_target_stack p) as [|t r]; [contradiction|].
        repeat split; try assumption.
        intros other Hother. rewrite <- Hsection. now apply Hothers.
Qed.

(** *** Statements outside a basic block *)

Lemma statement_guard (fuel : nat) (section : nat) (scoped : bool) (p : parser H) :
  _current_block p = 0 ->
  parse_statement E ptr_bits (S fuel) section scoped p
  = Done false (with_diagnostic (no_block_error (tok_location (_token_next p))) p).
Proof.
  intros Hclosed. rewrite parse_statement_unfold. unfold statement.
  unfold bind at 1. unfold gets at 1. rewrite Hclosed. reflexivity.
Qed.

Lemma leave_block_closes (section : nat) (terminator : Op) (args : list Z) (q : parser H) :
  exists q', leave_block section terminator args q = Done tt q' /\ _current_block q' = 0.
Proof.
  unfold leave_block, bind, gets. destruct (_current_block q =? 0) eqn:Hcur.
  - exists q. split; [reflexivity | now apply Z.eqb_eq].
  - eexists. split; reflexivity.
Qed.

Lemma expect_keeps_the_block (t : tokenid) (q : parser H) (ok : bool) (q' : parser H) :
  expect E t q = Done ok q' ->
  _current_block q' = _current_block q /\ _blocks q' = _blocks q.
Proof.
  unfold expect, accept, peek, consume, lex, error, bind, gets, modify, ret.
  destruct (tokenid_eqb (id (_token_next q)) t); cbn.
  - destruct (_lexer q) as [[|x r]|]; [| |discriminate];
      intros Hrun; injection Hrun as _ <-; split; reflexivity.
  - intros Hrun; injection Hrun as _ <-; split; reflexivity.
Qed.

(** A terminator followed by [expect(';')] leaves no block open. *)
Lemma terminated_statement (section : nat) (terminator : Op) (args : list Z)
      (q : parser H) (ok : bool) (q' : parser H) :
  (leave_block section terminator args ;; expect E (chr ";"))%parser q = Done ok q' ->
  _current_block q' = 0.
Proof.
  unfold bind.
  destruct (leave_block_closes section terminator args q) as (q1 & -> & Hclosed).
  intros Hrun. apply expect_keeps_the_block in Hrun. destruct Hrun as [-> _]. exact Hclosed.
Qed.

Ltac step Hrun :=
  unfold bind at 1 in Hrun;
  match type of Hrun with
  | match ?c with _ => _ end = _ => destruct c as [? ?|?] eqn:?; [|discriminate Hrun]
  end.

Lemma return_closes (fuel : nat) (section : nat) (loc : location) (q q' : parser H) :
  statement_return E fuel section loc q = Done true q' -> _current_block q' = 0.
Proof.
  unfold statement_return, leave_block_and_return. intros Hrun.
  step Hrun. step Hrun.
  match type of Hrun with context [negb ?b] => destruct b end; cbn [negb] in Hrun.
  - step Hrun.
    match type of Hrun with context [negb (is_void ?t)] => destruct (is_void t) end;
      cbn [negb] in Hrun.
    + change (0 =? 0) with true in Hrun. cbv iota in Hrun.
      now apply terminated_statement in Hrun.
    + do 2 step Hrun. discriminate Hrun.
  - step Hrun.
    match type of Hrun with (let (_, _) := ?x in _) _ = _ => destruct x as [ok return_exp] end.
    destruct ok; cbn [negb] in Hrun.
    + step Hrun.
      match type of Hrun with context [is_void ?t] => destruct (is_void t) end.
      { do 2 step Hrun. discriminate Hrun. }
      match type of Hrun with (if ?c then _ else _) _ = _ => destruct c end.
      { do 2 step Hrun. discriminate Hrun. }
      do 4 step Hrun.
      match type of Hrun with context [?v =? 0] => destruct (v =? 0) end;
        now apply terminated_statement in Hrun.
    + step Hrun. discriminate Hrun.
Qed.

Lemma break_closes (section : nat) (loc : location) (q q' : parser H) :
  statement_break E section loc q = Done true q' -> _current_block q' = 0.
Proof.
  unfold statement_break, leave_block_and_branch. intros Hrun.
  unfold bind at 1 in Hrun. unfold gets at 1 in Hrun.
  destruct (_loop_break_target_stack q); [discriminate Hrun|].
  now apply terminated_statement in Hrun.
Qed.

Lemma continue_closes (section : nat) (loc : location) (q q' : parser H) :
  statement_continue E section loc q = Done true q' -> _current_block q' = 0.
Proof.
  unfold statement_continue, leave_block_and_branch. intros Hrun.
  unfold bind at 1 in Hrun. unfold gets at 1 in Hrun.
  destruct (_loop_continue_target_stack q); [discriminate Hrun|].
  now apply terminated_statement in Hrun.
Qed.

Lemma discard_closes (section : nat) (q q' : parser H) :
  statement_discard E section q = Done true q' -> _current_block q' = 0.
Proof.
  unfold statement_discard, leave_block_and_kill. intros Hrun.
  now apply terminated_statement in Hrun.
Qed.

Lemma return_dispatch (fuel : nat) (section : nat) (scoped : bool) (p : parser H)
      (l : list token) (f : nat) :
  id (_token_next p) = return_ ->
  _lexer p = Some l ->
  _current_block p <> 0 ->
  _current_function p = Some f ->
  parse_statement E ptr_bits (S (S fuel)) section scoped p
  = statement_return E (S fuel) section (tok_location (_token_next p)) (consumed p).
Proof.
  intros Htok Hl Hblock Hfun.
  rewrite (statement_dispatch fuel section scoped p f Hblock Hfun)
    by (rewrite Htok; discriminate).
  unfold function_statement.
  unfold bind at 1. unfold gets at 1.
  do 7 miss Htok.
  unfold bind at 1. rewrite (accept_hit return_ p l Hl Htok).
  unfold bind, ret.
  destruct (statement_return E (S fuel) section (tok_location (_token_next p)) (consumed p));
    reflexivity.
Qed.

Lemma discard_dispatch (fuel : nat) (section : nat) (scoped : bool) (p : parser H)
      (l : list token) (f : nat) :
  id (_token_next p) = discard_ ->
  _lexer p = Some l ->
  _current_block p <> 0 ->
  _current_function p = Some f ->
  parse_statement E ptr_bits (S (S fuel)) section scoped p
  = statement_discard E section (consumed p).
Proof.
  intros Htok Hl Hblock Hfun.
  rewrite (statement_dispatch fuel section scoped p f Hblock Hfun)
    by (rewrite Htok; discriminate).
  unfold function_statement.
  unfold bind at 1. unfold gets at 1.
  do 8 miss Htok.
  unfold bind at 1. rewrite (accept_hit discard_ p l Hl Htok).
  unfold bind, ret.
  destruct (statement_discard E section (consumed p)); reflexivity.
Qed.

(** [consume_until] returns, and only moves through the input. *)
Lemma consume_until_loop_done (t : tokenid) (l : list token) :
  forall (fuel : nat) (p : parser H),
    _lexer p = Some l -> (List.length l + 2 <= fuel)%nat ->
    exists p', loop fuel (consume_until_body t) tt p = Done tt p'
               /\ _errors p' = _errors p /\ _blocks p' = _blocks p
               /\ _current_block p' = _current_block p.
Proof.
  induction l as [|x r IH]; intros fuel p Hl Hfuel.
  - destruct fuel as [|[|fuel]]; [cbn in Hfuel; lia | cbn in Hfuel; lia |].
    cbn [loop]. unfold bind at 1. unfold consume_until_body at 1. unfold bind at 1.
    destruct (tokenid_eq_dec (id (_token_next p)) t) as [Hit|Hmiss].
    { rewrite (accept_hit t p [] Hl Hit). unfold ret. exists (consumed p).
      destruct (consumed_frame p) as (? & ? & _ & _ & ?). auto. }
    rewrite (accept_miss t p Hmiss). unfold bind at 1.
    destruct (tokenid_eq_dec (id (_token_next p)) end_of_file) as [Heof|Hmore].
    { unfold peek, gets. rewrite Heof, tokenid_eqb_refl. unfold ret. exists p. auto. }
    rewrite (peek_miss end_of_file p Hmore). unfold bind at 1.
    rewrite (consume_done p [] Hl). unfold ret.
    assert (Hnext : id (_token_next (consumed p)) = end_of_file)
      by (unfold consumed; rewrite Hl; reflexivity).
    assert (Hl' : _lexer (consumed p) = Some []) by (apply (consumed_lexer p [] Hl)).
    destruct (consumed_frame p) as (Hb & Hc & _ & _ & He).
    cbn [loop]. unfold bind at 1. unfold consume_until_body at 1. unfold bind at 1.
    destruct (tokenid_eq_dec (id (_token_next (consumed p))) t) as [Hit|Hmiss'].
    { rewrite (accept_hit t (consumed p) [] Hl' Hit). unfold ret.
      exists (consumed (consumed p)).
      destruct (consumed_frame (consumed p)) as (? & ? & _ & _ & ?).
      repeat split; congruence. }
    rewrite (accept_miss t (consumed p) Hmiss'). unfold bind at 1.
    unfold peek, gets. rewrite Hnext, tokenid_eqb_refl. unfold ret.
    exists (consumed p). auto.
  - destruct fuel as [|fuel]; [cbn in Hfuel; lia|].
    cbn [loop]. unfold bind at 1. unfold consume_until_body at 1. unfold bind at 1.
    destruct (tokenid_eq_dec (id (_token_next p)) t) as [Hit|Hmiss].
    { rewrite (accept_hit t p (x :: r) Hl Hit). unfold ret. exists (consumed p).
      destruct (consumed_frame p) as (? & ? & _ & _ & ?). auto. }
    rewrite (accept_miss t p Hmiss). unfold bind at 1.
    destruct (tokenid_eq_dec (id (_token_next p)) end_of_file) as [Heof|Hmore].
    { unfold peek, gets. rewrite Heof, tokenid_eqb_refl. unfold ret. exists p. auto. }
    rewrite (peek_miss end_of_file p Hmore). unfold bind at 1.
    rewrite (consume_done p (x :: r) Hl). unfold ret.
    destruct (consumed_frame p) as (Hb & Hc & _ & _ & He).
    destruct (IH fuel (consumed p)) as (p' & Hrun & He' & Hb' & Hc').
    { apply (consumed_lexer p (x :: r) Hl). }
    { cbn in Hfuel. lia. }
    exists p'. rewrite Hrun. repeat split; congruence.
Qed.

Lemma consume_until_done (t : tokenid) (p : parser H) (l : list token) :
  _lexer p = Some l ->
  exists p', consume_until t p = Done tt p'
             /\ _errors p' = _errors p /\ _blocks p' = _blocks p
             /\ _current_block p' = _current_block p.
Proof.
  intros Hl. unfold consume_until.
  apply (consume_until_loop_done t l); [exact Hl|].
  unfold remaining_tokens. rewrite Hl. lia.
Qed.

(** A statement in the body of a [switch] before any label: the header has
    left no block open. *)
Lemma unlabelled_switch_statement (n fuel : nat) (switch_body_block : nat)
      (s : switch_state) (p : parser H) (l : list token) :
  _current_block p = 0 ->
  _lexer p = Some l ->
  ~ In (id (_token_next p)) [chr "}"; end_of_file; case_; default_] ->
  exists p',
    switch_body E (parse_statement E ptr_bits (S n)) (S fuel) switch_body_block s p
    = Done (Break None) p'
    /\ _errors p' = (_errors p ++ [no_block_error (tok_location (_token_next p))])%list.
Proof.
  intros Hclosed Hl Hnext.
  assert (Hne : forall t, In t [chr "}"; end_of_file; case_; default_] ->
                          id (_token_next p) <> t)
    by (intros t Hin Heq; apply Hnext; now rewrite Heq).
  unfold switch_body.
  unfold bind at 1. rewrite (peek_miss (chr "}") p) by (apply Hne; cbn; auto).
  unfold bind at 1. rewrite (peek_miss end_of_file p) by (apply Hne; cbn; auto).
  cbn [orb].
  unfold bind at 1. rewrite (peek_miss case_ p) by (apply Hne; cbn; auto).
  unfold bind at 1. rewrite (peek_miss default_ p) by (apply Hne; cbn; auto).
  cbn [orb]. unfold bind at 1. unfold ret at 1.
  unfold bind at 1. cbn [loop]. unfold bind at 1. unfold case_label_body at 1.
  unfold bind at 1. rewrite (accept_miss case_ p) by (apply Hne; cbn; auto).
  unfold bind at 1. rewrite (accept_miss default_ p) by (apply Hne; cbn; auto).
  cbn [negb]. unfold ret at 1. unfold ret at 1.
  unfold bind at 1. rewrite (statement_guard n switch_body_block true p Hclosed).
  destruct (consume_until_done (chr "}")
              (with_diagnostic (no_block_error (tok_location (_token_next p))) p) l Hl)
    as (p' & Hrun & Herrors & _).
  exists p'. unfold bind. rewrite Hrun. split; [reflexivity | exact Herrors].
Qed.

(** C9: [parse_statement] entered with no basic block open fails with
    error 3000 and changes nothing else.  A [return], [break], [continue]
    or [discard] statement that succeeds leaves no block open, and neither
    does the header of a [switch]: the statement read next, in the same
    block or before the first label of the switch, is rejected with that
    error. *)
Theorem statement_outside_a_block (fuel : nat) (section : nat) (scoped : bool)
        (p : parser H) :
  (_current_block p = 0 ->
   parse_statement E ptr_bits (S fuel) section scoped p
   = Done false (with_diagnostic (no_block_error (tok_location (_token_next p))) p))
  /\ (forall (l : list token) (f : nat) (p' : parser H),
        In (id (_token_next p)) [return_; break_; continue_; discard_] ->
        _lexer p = Some l ->
        _current_function p = Some f ->
        parse_statement E ptr_bits (S (S fuel)) section scoped p = Done true p' ->
        forall (fuel' : nat) (section' : nat) (scoped' : bool),
          parse_statement E ptr_bits (S fuel') section' scoped' p'
          = Done false (with_diagnostic (no_block_error (tok_location (_token_next p'))) p'))
  /\ (forall (n : nat) (s : switch_state) (l : list token),
        _current_block p = 0 ->
        _lexer p = Some l ->
        ~ In (id (_token_next p)) [chr "}"; end_of_file; case_; default_] ->
        exists p',
          switch_body E (parse_statement E ptr_bits (S n)) (S fuel) section s p
          = Done (Break None) p'
          /\ _errors p'
             = (_errors p ++ [no_block_error (tok_location (_token_next p))])%list).
Proof.
  split; [apply statement_guard|]. split.
  - intros l f p' Hkeyword Hl Hfun Hrun fuel' section' scoped'.
    apply statement_guard.
    destruct (Z.eq_dec (_current_block p) 0) as [Hclosed|Hopen].
    { rewrite (statement_guard (S fuel) section scoped p Hclosed) in Hrun. discriminate Hrun. }
    destruct Hkeyword as [Htok|[Htok|[Htok|[Htok|[]]]]]; symmetry in Htok.
    + rewrite (return_dispatch fuel section scoped p l f Htok Hl Hopen Hfun) in Hrun.
      now apply return_closes in Hrun.
    + rewrite (break_dispatch fuel section scoped p l f Htok Hl Hopen Hfun) in Hrun.
      now apply break_closes in Hrun.
    + rewrite (continue_dispatch fuel section scoped p l f Htok Hl Hopen Hfun) in Hrun.
      now apply continue_closes in Hrun.
    + rewrite (discard_dispatch fuel section scoped p l f Htok Hl Hopen Hfun) in Hrun.
      now apply discard_closes in Hrun.
  - intros n s l. apply unlabelled_switch_statement.
Qed.

(** *** Case labels *)

(** A float literal is the constant whose first lane holds the bits of the
    literal. *)
Lemma float_literal_constant (fuel : nat) (loc : location) (p : parser H) (l : list token) :
  id (_token_next p) = float_literal ->
  _lexer p = Some l ->
  unary_literal E fuel loc p
  = Done (Some (reset_to_rvalue_constant (const_type datatype_float 1 1) loc
                  (scalar_constant (literal_as_float (_token_next p)))))
         (consumed p).
Proof.
  intros Htok Hl. unfold unary_literal.
  do 4 miss Htok.
  unfold bind at 1. rewrite (accept_hit float_literal p l Hl Htok).
  unfold bind, gets, ret. f_equal. unfold consumed. rewrite Hl. destruct l; reflexivity.
Qed.

(** One round of the loop over the labels: a [case] whose expression is a
    scalar constant adds lane 0 of the constant, as it is stored, and the
    label of the current case to the list of literals and labels. *)
Lemma case_label_round (fuel : nat) (switch_body_block : nat)
        (s : switch_state) (p p1 : parser H) (l l1 : list token) (case_label : spv_expression) :
  id (_token_next p) = case_ ->
  _lexer p = Some l ->
  parse_expression E fuel switch_body_block empty_expression (consumed p)
  = Done (true, case_label) p1 ->
  is_scalar (exp_type case_label) = true ->
  is_constant case_label = true ->
  id (_token_next p1) = chr ":" ->
  _lexer p1 = Some l1 ->
  case_label_body E fuel switch_body_block s p
  = Done (Continue (mk_switch_state
                      (sw_current_block s)
                      (uint32 (sw_num_case_labels s + 1))
                      (sw_case_literal_and_labels s
                         ++ [as_uint (exp_constant case_label) 0; sw_current_block s])%list
                      (sw_default_label s)))
         (consumed p1).
Proof.
  intros Htok Hl Hparse Hscalar Hconstant Hcolon Hl1.
  unfold case_label_body.
  unfold bind at 1. rewrite (accept_hit case_ p l Hl Htok).
  unfold bind at 1. unfold ret at 1. cbn [negb].
  unfold bind at 1. unfold gets at 1.
  assert (Htoken : id (_token (consumed p)) = case_).
  { unfold consumed. rewrite Hl. destruct l; exact Htok. }
  rewrite Htoken, tokenid_eqb_refl.
  unfold bind at 1. unfold bind at 1. rewrite Hparse.
  cbn [negb]. rewrite Hscalar, Hconstant. cbn [negb orb]. unfold ret at 1.
  unfold bind at 1. unfold expect. unfold bind at 1.
  rewrite (accept_hit (chr ":") p1 l1 Hl1 Hcolon). reflexivity.
Qed.

(** *** The switch statement around a case label *)

Lemma expect_hit (t : tokenid) (p : parser H) (l : list token) :
  _lexer p = Some l -> id (_token_next p) = t -> expect E t p = Done true (consumed p).
Proof.
  intros Hl Ht. unfold expect. unfold bind at 1. rewrite (accept_hit t p l Hl Ht). reflexivity.
Qed.

Lemma peek_hit (t : tokenid) (p : parser H) :
  id (_token_next p) = t -> peek t p = Done true p.
Proof. intros Ht. unfold peek, gets. now rewrite Ht, tokenid_eqb_refl. Qed.

Lemma update_block_at (section : nat) (f : spv_basic_block -> spv_basic_block) (p : parser H) :
  (section < List.length (_blocks p))%nat ->
  update_block section f p
  = Done tt (set_blocks (set_nth section (f (block_of p section)) (_blocks p)) p).
Proof.
  intros Hlt. unfold update_block, modify, block_of.
  destruct (nth_error (_blocks p) section) as [b|] eqn:Hb.
  - now rewrite (@nth_error_nth _ (_blocks p) section b [] Hb).
  - apply nth_error_None in Hb. lia.
Qed.

Lemma block_of_set_nth (section k : nat) (b : spv_basic_block) (bl : list spv_basic_block)
      (p : parser H) :
  (section < List.length bl)%nat ->
  block_of (set_blocks (set_nth section b bl) p) k
  = if Nat.eqb k section then b else nth k bl [].
Proof.
  intros Hlt. unfold block_of. cbn. rewrite nth_set_nth.
  apply Nat.ltb_lt in Hlt. rewrite Hlt, andb_true_r. reflexivity.
Qed.

Lemma loop_S {S R} (fuel : nat) (body : S -> M H (loop_step S R)) (s : S) (p : parser H) :
  loop (Datatypes.S fuel) body s p
  = match body s p with
    | Done (Continue s') p' => loop fuel body s' p'
    | Done (Break r) p' => Done r p'
    | Abort why => Abort why
    end.
Proof. cbn [loop]. unfold bind. destruct (body s p) as [[s'|r] p'|]; reflexivity. Qed.

Lemma set_nth_twice {A} (i : nat) (v w : A) (l : list A) :
  set_nth i v (set_nth i w l) = set_nth i v l.
Proof. revert i. induction l as [|x l IH]; intros [|i]; simpl; congruence. Qed.

Lemma nth_error_set_nth {A} (i : nat) (v : A) (l : list A) :
  (i < List.length l)%nat -> nth_error (set_nth i v l) i = Some v.
Proof.
  revert i. induction l as [|x l IH]; intros [|i] Hlt; simpl in *; try lia; [reflexivity|].
  apply IH. lia.
Qed.


(** C10: in [switch (SELECTOR) { case LABEL: BODY }] the selector is cast
    to [int] and loaded, and the label may be any scalar constant, of a
    floating-point type as well as of an integral one.  The statement is
    accepted and its [OpSwitch] instruction ends up with the operands:
    the loaded selector, the merge label as the default target, lane 0 of
    the constant of the label as it is stored (the bit pattern of a
    float, not its value converted to [int]) and the label of the case.
    The hypotheses say what the expression parser, the access chain and
    the statement of the body return, that the tokens between them are
    the ones of the statement, and that the label and the body leave the
    [OpSwitch] instruction where it is. *)
Theorem case_label_records_the_bits
        (rec : nat -> bool -> M H bool) (fuel section : nat) (loc : location)
        (selection_control : Z)
        (p p1 p2 p3 p4 p5 : parser H) (l l1 l3 l4 l5 : list token) (case_token : token)
        (selector selector_int case_label : spv_expression) (selector_value : Z) :
  let merge_label := _next_id p in
  let switch_body_block := List.length (_blocks p3) in
  let switch_node := S (List.length (block_of p3 section)) in
  (2 <= fuel)%nat ->
  id (_token_next p) = chr "(" -> _lexer p = Some l ->
  parse_expression E fuel section empty_expression
                   (consumed (set_next_id (uint32 (_next_id p + 1)) p))
  = Done (true, selector) p1 ->
  id (_token_next p1) = chr ")" -> _lexer p1 = Some l1 ->
  is_scalar (exp_type selector) = true ->
  add_cast_operation E selector int_type (consumed p1) = Done selector_int p2 ->
  access_chain_load E section selector_int p2 = Done selector_value p3 ->
  selector_value <> 0 ->
  (section < List.length (_blocks p3))%nat ->
  id (_token_next p3) = chr "{" -> _lexer p3 = Some (case_token :: l3) ->
  id case_token = case_ ->
  parse_expression E fuel switch_body_block empty_expression
                   (case_opened switch_body_block
                      (switch_opened section loc merge_label selection_control
                                     selector_value p3))
  = Done (true, case_label) p4 ->
  is_scalar (exp_type case_label) = true ->
  is_constant case_label = true ->
  id (_token_next p4) = chr ":" -> _lexer p4 = Some l4 ->
  id (hd eof_token l4) <> case_ -> id (hd eof_token l4) <> default_ ->
  rec switch_body_block true (consumed p4) = Done true p5 ->
  id (_token_next p5) = chr "}" -> _lexer p5 = Some l5 ->
  nth_error (block_of p5 section) switch_node
  = Some (mk_instruction OpSwitch 0 0 [selector_value] loc) ->
  exists p',
    statement_switch E rec fuel section loc selection_control p = Done true p'
    /\ nth_error (block_of p' section) switch_node
       = Some (mk_instruction OpSwitch 0 0
                 [ selector_value; merge_label;
                   as_uint (exp_constant case_label) 0; _next_id p3 ] loc).
Proof.
  intros merge_label switch_body_block switch_node
         Hfuel Hopen Hl Hselector Hclose Hl1 Hscalar Hcast Hload Hvalue Hsection
         Hbrace Hl3 Hcase Hlabel Hlscalar Hlconstant Hcolon Hl4 Hnocase Hnodefault
         Hbody Hend Hl5 Hnode.
  unfold statement_switch, require.
  unfold bind at 1. unfold make_id at 1.
  unfold bind at 1.
  rewrite (expect_hit (chr "(") (set_next_id (uint32 (_next_id p + 1)) p) l Hl Hopen).
  unfold bind at 1. rewrite Hselector. cbn [negb].
  unfold bind at 1. rewrite (expect_hit (chr ")") p1 l1 Hl1 Hclose).
  rewrite Hscalar. cbn [negb].
  unfold bind at 1. rewrite Hcast.
  unfold bind at 1. rewrite Hload.
  unfold bind at 1. unfold assert.
  apply Z.eqb_neq in Hvalue. rewrite Hvalue. cbn [negb]. unfold ret at 1.
  unfold bind at 1. unfold modify at 1.
  set (q0 := set_current_block 0 p3).
  assert (Hq0 : (section < List.length (_blocks q0))%nat) by exact Hsection.
  unfold add_node_without_result at 1. unfold bind at 1.
  rewrite (update_block_at section _ q0 Hq0).
  set (i1 := mk_instruction OpSelectionMerge 0 0 [_next_id p; selection_control] loc).
  set (q1 := set_blocks _ q0).
  assert (Hb1 : block_of q1 section = (block_of p3 section ++ [i1])%list).
  { unfold q1. rewrite block_of_set_nth by exact Hq0. now rewrite Nat.eqb_refl. }
  assert (Hq1 : (section < List.length (_blocks q1))%nat).
  { unfold q1. cbn. rewrite set_nth_length. exact Hsection. }
  unfold bind at 1. unfold node_position at 1, gets at 1. rewrite Hb1.
  replace (List.length (block_of p3 section ++ [i1])) with switch_node
    by (rewrite length_app; cbn; unfold switch_node; lia).
  unfold add_node_without_result at 1. unfold bind at 1.
  rewrite (update_block_at section _ q1 Hq1). rewrite Hb1.
  set (i2 := mk_instruction OpSwitch 0 0 [selector_value] loc).
  set (q2 := set_blocks _ q1).
  unfold bind at 1.
  rewrite (expect_hit (chr "{") q2 (case_token :: l3) Hl3 Hbrace).
  unfold bind at 1. unfold push_break_target at 1, modify at 1.
  set (X := set_loop_break_target_stack _ _).
  assert (HX : List.length (_blocks X) = switch_body_block).
  { unfold X. cbn [_blocks set_loop_break_target_stack].
    destruct (consumed_frame q2) as (-> & _). unfold q2. cbn. rewrite set_nth_length.
    unfold q1. cbn. rewrite set_nth_length. reflexivity. }
  unfold bind at 1. unfold new_block at 1. rewrite HX.
  set (q3 := set_blocks _ _).
  assert (Hq3 : q3 = switch_opened section loc merge_label selection_control selector_value p3).
  { unfold q3, X, switch_opened, q2, q1, q0, consumed, block_of. cbn. rewrite Hl3. cbn.
    unfold i2, i1. rewrite set_nth_twice, <- app_assoc. destruct p3; reflexivity. }
  clearbody q3. subst q3. clear HX X q2 q1 Hb1 Hq1 q0 Hq0.
  set (q := switch_opened _ _ _ _ _ _) in *.
  assert (Hqtok : _token_next q = case_token).
  { unfold q, switch_opened, consumed. cbn. rewrite Hl3. reflexivity. }
  assert (Hqlex : _lexer q = Some l3).
  { unfold q, switch_opened, consumed. cbn. rewrite Hl3. reflexivity. }
  assert (Hqid : _next_id q = _next_id p3).
  { unfold q, switch_opened, consumed. cbn. rewrite Hl3. reflexivity. }
  assert (Hqblocks : _blocks q
                     = (set_nth section (block_of p3 section ++ [i1; i2]) (_blocks p3) ++ [[]])%list).
  { reflexivity. }
  assert (Hqlen : List.length (_blocks q) = S switch_body_block).
  { rewrite Hqblocks, length_app, set_nth_length. apply Nat.add_1_r. }
  assert (Hloop : loop fuel (switch_body E rec fuel switch_body_block)
                       (mk_switch_state 0 0 [] (_next_id p)) q
                  = Done (Some (mk_switch_state (_next_id p3) 1
                                  [as_uint (exp_constant case_label) 0; _next_id p3]
                                  (_next_id p))) p5).
  { destruct fuel as [|[|fuel]]; [exfalso; clear -Hfuel; lia | exfalso; clear -Hfuel; lia |]. clear Hfuel.
    remember (S (S fuel)) as n eqn:Hn.
    rewrite Hn at 1. rewrite loop_S. unfold switch_body at 1.
    unfold bind at 1. rewrite peek_miss by (rewrite Hqtok, Hcase; discriminate).
    unfold bind at 1. rewrite peek_miss by (rewrite Hqtok, Hcase; discriminate).
    cbn [orb]. unfold bind at 1. rewrite peek_hit by (rewrite Hqtok; exact Hcase).
    unfold bind at 1. rewrite peek_miss by (rewrite Hqtok, Hcase; discriminate).
    cbn [orb]. unfold bind at 1. unfold bind at 1. unfold make_id at 1.
    cbn [sw_num_case_labels Z.eqb negb]. unfold bind at 1. unfold ret at 1.
    unfold bind at 1. unfold enter_block at 1. unfold bind at 1. unfold modify at 1.
    rewrite update_block_at
      by (change (switch_body_block < List.length (_blocks q))%nat; rewrite Hqlen; lia).
    unfold ret at 1. cbn [sw_case_literal_and_labels sw_default_label].
    set (qe := set_blocks _ _).
    assert (Hqe : consumed qe = case_opened switch_body_block q) by reflexivity.
    assert (Hqetok : id (_token_next qe) = case_) by (rewrite <- Hcase, <- Hqtok; reflexivity).
    assert (Hqelex : _lexer qe = Some l3) by (rewrite <- Hqlex; reflexivity).
    rewrite <- Hqe in Hlabel.
    unfold bind at 1. rewrite Hn at 1. rewrite loop_S.
    rewrite (case_label_round n switch_body_block _ qe p4 l3 l4 case_label
               Hqetok Hqelex Hlabel Hlscalar Hlconstant Hcolon Hl4).
    cbn [sw_current_block sw_num_case_labels sw_case_literal_and_labels sw_default_label
         Z.add app uint32].
    change (uint32 1) with 1. rewrite Hqid.
    assert (Hnext4 : _token_next (consumed p4) = hd eof_token l4)
      by (unfold consumed; rewrite Hl4; destruct l4; reflexivity).
    rewrite loop_S. unfold case_label_body at 1.
    unfold bind at 1. rewrite accept_miss by (rewrite Hnext4; exact Hnocase).
    unfold bind at 1. rewrite accept_miss by (rewrite Hnext4; exact Hnodefault).
    cbn [negb]. unfold ret at 1.
    unfold bind at 1. rewrite Hbody. unfold ret at 1.
    rewrite loop_S. unfold switch_body at 1.
    unfold bind at 1. rewrite peek_hit by exact Hend.
    unfold bind at 1. rewrite peek_miss by (rewrite Hend; discriminate).
    reflexivity. }
  unfold bind at 1. rewrite Hloop. clear Hloop.
  unfold bind at 1. cbn [sw_num_case_labels Z.eqb sw_default_label sw_case_literal_and_labels].
  unfold bind at 1. unfold ret at 1.
  assert (Hp5 : (section < List.length (_blocks p5))%nat).
  { destruct (Nat.lt_ge_cases section (List.length (_blocks p5))) as [Hlt|Hge]; [exact Hlt|].
    unfold block_of in Hnode. rewrite nth_overflow in Hnode by exact Hge.
    destruct switch_node; discriminate Hnode. }
  unfold bind at 1. unfold node_add at 1. rewrite (update_block_at section _ p5 Hp5).
  rewrite Hnode. cbn [op result_type result operands ins_location app].
  set (q5 := set_blocks _ p5).
  unfold bind at 1. unfold append_block at 1. unfold bind at 1. unfold gets at 1.
  assert (Hq5 : (section < List.length (_blocks q5))%nat).
  { unfold q5. cbn. rewrite set_nth_length. exact Hp5. }
  rewrite (update_block_at section _ q5 Hq5).
  set (q6 := set_blocks _ q5).
  unfold bind at 1. unfold enter_block at 1. unfold bind at 1. unfold modify at 1.
  assert (Hq6 : (section < List.length (_blocks (set_current_block (_next_id p) q6)))%nat).
  { unfold q6. cbn. rewrite set_nth_length. exact Hq5. }
  rewrite (update_block_at section _ _ Hq6).
  set (q7 := set_blocks _ _).
  assert (Hq7tok : id (_token_next q7) = chr "}") by exact Hend.
  assert (Hq7lex : _lexer q7 = Some l5) by exact Hl5.
  rewrite (expect_hit (chr "}") q7 l5 Hq7lex Hq7tok).
  unfold bind at 1. unfold pop_break_target at 1, modify at 1. unfold ret.
  eexists. split; [reflexivity|].
  assert (Hnode5 : (switch_node < List.length (block_of p5 section))%nat).
  { apply nth_error_Some. rewrite Hnode. discriminate. }
  unfold block_of at 1. cbn [_blocks set_loop_break_target_stack].
  destruct (consumed_frame q7) as (-> & _).
  change (nth section (_blocks q7) []) with (block_of q7 section).
  unfold q7. rewrite block_of_set_nth by exact Hq6. rewrite Nat.eqb_refl.
  change (block_of (set_current_block (_next_id p) q6) section) with (block_of q6 section).
  unfold q6. rewrite block_of_set_nth by exact Hq5. rewrite Nat.eqb_refl.
  unfold q5 at 1. rewrite block_of_set_nth by exact Hp5. rewrite Nat.eqb_refl.
  rewrite !nth_error_app1
    by (repeat rewrite length_app; rewrite set_nth_length; lia).
  apply nth_error_set_nth. exact Hnode5.
Qed.



End StatementFacts.

(** C6, witness: [break;] inside two nested loops whose break targets are
    the labels 7 and 9. *)
Lemma break_statement_witness :
  target_stack break_ Reference.break_in_loop = [7; 9]
  /\ exists ok p',
      parse_statement Reference.E 64 2 0 true Reference.break_in_loop = Done ok p'
      /\ block_of p' 0 = (block_of Reference.break_in_loop 0 ++ [branch_to 9])%list
      /\ _current_block p' = 0.
Proof.
  split; [reflexivity|].
  destruct (proj2 (break_and_continue_statements Reference.E 64 break_ 0 0 true
                     Reference.break_in_loop [Reference.punct ";"] 0
                     (or_introl eq_refl) eq_refl eq_refl
                     ltac:(discriminate) eq_refl ltac:(cbn; lia))
                  ltac:(discriminate))
    as (ok & p' & Hrun & Hblock & _ & Hclosed).
  exists ok, p'. repeat split; assumption.
Defined.

(** C9, witness: [break;] inside a loop, and the statement after it. *)
Lemma statement_after_break_witness :
  exists p',
    parse_statement Reference.E 64 2 0 true Reference.break_in_loop = Done true p'
    /\ parse_statement Reference.E 64 1 0 true p'
       = Done false (with_diagnostic (no_block_error no_location) p').
Proof.
  eexists. split; [vm_compute; reflexivity|].
  refine (proj1 (proj2 (statement_outside_a_block Reference.E 64 0 0 true
                          Reference.break_in_loop))
                [Reference.punct ";"] 0%nat _ _ eq_refl eq_refl _ 0%nat 0%nat true).
  - right. left. reflexivity.
  - vm_compute. reflexivity.
Defined.

(** [switch (1) { ; }]: the statement before the first label is rejected. *)
Example statement_before_the_first_label :
  match parse_statement Reference.E 64 6 0 true (Reference.in_function Reference.unlabelled_switch) with
  | Done ok p => ok = false /\ error_codes p = [3000]
  | Abort _ => False
  end.
Proof. vm_compute. split; reflexivity. Qed.

(** C10, witness: [switch (1) { case 1.5: ; }] after the keyword.  The
    merge label is 10, the loaded selector 11 and the label of the case 12;
    the literal is 0x3FC00000, the bits of 1.5 = 12582912 * 2^-23. *)
Lemma float_case_label_witness :
  1069547520 = 0x3FC00000
  /\ float_of_bits 1069547520 = SpecFloat.S754_finite false 12582912 (-23)
  /\ exists p',
      statement_switch Reference.E (parse_statement Reference.E 64 5) 5 0 no_location 0
                       (Reference.in_function (tl Reference.switch_on_float_case))
      = Done true p'
      /\ nth_error (block_of p' 0) 1
         = Some (mk_instruction OpSwitch 0 0 [11; 10; 1069547520; 12] no_location).
Proof.
  split; [reflexivity|]. split; [reflexivity|].
  pose (p := Reference.in_function (tl Reference.switch_on_float_case)).
  pose (state := fun A (r : outcome unit A) => match r with Done _ q => q | Abort _ => p end).
  pose (selector := reset_to_rvalue_constant (const_type datatype_int 1 1) no_location
                      (scalar_constant 1)).
  pose (p1 := state _ (parse_expression Reference.E 5 0 empty_expression
                         (consumed (set_next_id (uint32 (_next_id p + 1)) p)))).
  pose (selector_int := Reference.record_cast selector int_type).
  pose (p2 := consumed p1).
  pose (p3 := state _ (access_chain_load Reference.E 0 selector_int p2)).
  pose (case_label := reset_to_rvalue_constant (const_type datatype_float 1 1) no_location
                        (scalar_constant 1069547520)).
  pose (p4 := state _ (parse_expression Reference.E 5 1 empty_expression
                         (case_opened 1 (switch_opened 0 no_location 10 0 11 p3)))).
  pose (p5 := state _ (parse_statement Reference.E 64 5 1 true (consumed p4))).
  destruct (case_label_records_the_bits Reference.E (parse_statement Reference.E 64 5) 5 0
              no_location 0 p p1 p2 p3 p4 p5
              (skipn 2 Reference.switch_on_float_case) (skipn 4 Reference.switch_on_float_case)
              (skipn 6 Reference.switch_on_float_case) (skipn 8 Reference.switch_on_float_case)
              [] (Reference.tok case_) selector selector_int case_label 11)
    as (p' & Hrun & Hnode).
  all: try (vm_compute; reflexivity).
  all: try (vm_compute; lia).
  all: try (vm_compute; discriminate).
  exists p'. split; [exact Hrun | exact Hnode].
Defined.

(** [switch (1) { case 1.5: ; }]: the [OpSwitch] of the statement carries
    the selector, the default label and the pair of the literal 0x3FC00000
    and the label of the case. *)
Example float_case_in_a_switch :
  match parse_statement Reference.E 64 6 0 true
                        (Reference.in_function Reference.switch_on_float_case) with
  | Done ok p =>
      ok = true /\ _errors p = []
      /\ map (fun i => (op i, operands i)) (firstn 2 (block_of p 0))
         = [(OpSelectionMerge, [10; 0]); (OpSwitch, [11; 10; 1069547520; 12])]
  | Abort _ => False
  end.
Proof. vm_compute. repeat split; reflexivity. Qed.

(** ** The driver *)

Section DriverFacts.
Context {H : Type}.
Variable E : externals H.
Variable ptr_bits : Z.

Ltac step Hrun :=
  unfold bind at 1 in Hrun;
  match type of Hrun with
  | match ?c with _ => _ end = _ => destruct c as [? ?|?] eqn:?; [|discriminate Hrun]
  end.

Lemma top_level_technique (fuel : nat) (p : parser H) (l : list token) :
  id (_token_next p) = technique ->
  _lexer p = Some l ->
  parse_top_level E ptr_bits (S fuel) p
  = require (parse_technique E fuel) (ret false) (ret true) (consumed p).
Proof.
  intros Htok Hl. cbn [parse_top_level].
  unfold bind at 1. rewrite accept_miss by (rewrite Htok; discriminate).
  unfold bind at 1. rewrite accept_miss by (rewrite Htok; discriminate).
  unfold bind at 1. rewrite (accept_hit technique p l Hl Htok).
  reflexivity.
Qed.

(** C1: [run] on [technique T { pass { = } pass { } }], with any
    collaborators whose [current_scope] only reads: the malformed first
    pass appends error 3000, the pass loop of [parse_technique] goes on to
    the second pass and forgets the failure, and [run] returns [true] with
    the error in the diagnostics. *)
Theorem failed_pass_is_forgotten (h : H) (first_id : Z) :
  (forall p, exists sc, current_scope E p = Done sc p) ->
  exists p',
    run E ptr_bits 30 Reference.two_passes (new_parser h first_id) = Done true p'
    /\ error_codes p' = [3000].
Proof.
  intros Hscope. unfold run.
  unfold bind at 1. unfold modify at 1.
  unfold bind at 1.
  match goal with |- context [consume ?q] =>
    rewrite (consume_done q Reference.two_passes eq_refl) end.
  unfold bind at 1. cbn [loop]. unfold bind at 1. unfold run_body at 1.
  unfold bind at 1. rewrite peek_miss by (cbn; discriminate).
  unfold bind at 1.
  match goal with |- context [parse_top_level E ptr_bits _ ?q] =>
    rewrite (top_level_technique 29 q (tl Reference.two_passes) eq_refl eq_refl) end.
  unfold require at 1. unfold bind at 1. unfold parse_technique at 1.
  unfold require at 1. unfold bind at 1. unfold expect at 1. unfold bind at 1.
  match goal with |- context [accept identifier ?q] =>
    rewrite (accept_hit identifier q (tl (tl Reference.two_passes)) eq_refl eq_refl) end.
  unfold ret at 1. unfold bind at 1. unfold gets at 1. unfold bind at 1.
  match goal with |- context [current_scope E ?q] =>
    destruct (Hscope q) as [sc Hsc]; rewrite Hsc end.
  eexists. split; vm_compute; reflexivity.
Qed.

(** C2: every [run] that returns has written the module to [test.spv] as
    its last step, whatever it returns and whatever diagnostics it has
    appended. *)
Theorem module_is_always_written (fuel : nat) (input : list token) (p : parser H)
        (success : bool) (p' : parser H) :
  run E ptr_bits fuel input p = Done success p' ->
  exists q, p' = set_files (("test.spv", write_module E q) :: _files q) q.
Proof.
  unfold run. intros Hrun.
  do 5 step Hrun.
  unfold bind, write_file, modify, ret in Hrun.
  injection Hrun as _ <-. eexists. reflexivity.
Qed.

End DriverFacts.

(** C1, witness: the reference collaborators. *)
Lemma failed_pass_witness :
  exists p',
    run Reference.E 64 30 Reference.two_passes (new_parser tt 1) = Done true p'
    /\ error_codes p' = [3000].
Proof.
  apply (failed_pass_is_forgotten Reference.E 64 tt 1).
  intros p. eexists. reflexivity.
Defined.

(** [technique T < a = ;]: the expression parser of the reference
    collaborators gives up on [;] without a diagnostic, as the source's does
    on a token that starts no expression, and [run] returns [false] with no
    diagnostic at all. *)
Example failure_without_a_diagnostic :
  match run Reference.E 64 30 Reference.annotation_without_value (new_parser tt 1) with
  | Done ok p => ok = false /\ _errors p = []
  | Abort _ => False
  end.
Proof. vm_compute. split; reflexivity. Qed.

(** C2, witness: [}] alone is a syntax error, and the module is written. *)
Lemma module_written_witness :
  exists p' q,
    run Reference.E 64 30 [Reference.punct "}"] (new_parser tt 1) = Done false p'
    /\ error_codes p' = [3000]
    /\ p' = set_files (("test.spv", write_module Reference.E q) :: _files q) q.
Proof.
  destruct (run Reference.E 64 30 [Reference.punct "}"] (new_parser tt 1))
    as [ok p'|] eqn:Hrun.
  - destruct (module_is_always_written Reference.E 64 30 [Reference.punct "}"]
                (new_parser tt 1) ok p' Hrun) as [q Hq].
    exists p', q. vm_compute in Hrun. injection Hrun as <- <-.
    repeat split. exact Hq.
  - vm_compute in Hrun. discriminate Hrun.
Defined.

(** C2, counterexample: a run that emits error 3000 and returns [false]
    has produced the bytes of a module all the same. *)
Lemma module_written_after_an_error :
  exists p',
    run Reference.E 64 30 [Reference.punct "}"] (new_parser tt 1) = Done false p'
    /\ error_codes p' = [3000]
    /\ _files p' = [("test.spv", [119734787; 66048; 0; 1; 0])].
Proof. eexists. split; [vm_compute; reflexivity|]. split; vm_compute; reflexivity. Qed.

(** * Further properties

    Properties of the code beside the ones above, each read off the
    source. *)

Ltac step Hrun :=
  unfold bind at 1 in Hrun;
  match type of Hrun with
  | match ?c with _ => _ end = _ => destruct c as [? ?|?] eqn:?; [|discriminate Hrun]
  end.

(** ** [semantic_to_builtin] *)

Lemma toupper_idempotent (c : ascii) : Str.toupper (Str.toupper c) = Str.toupper c.
Proof. destruct c as [[] [] [] [] [] [] [] []]; reflexivity. Qed.

Lemma transform_toupper_idempotent (s : string) :
  Str.transform_toupper (Str.transform_toupper s) = Str.transform_toupper s.
Proof.
  induction s as [|c s IH]; [reflexivity|].
  cbn [Str.transform_toupper]. now rewrite toupper_idempotent, IH.
Qed.

(** X1.  The builtin a semantic names does not depend on the case of its
    letters, and the semantic returned is the upper-case spelling, which
    names the same builtin again. *)
Theorem semantic_to_builtin_ignores_case (semantic : string) (index : Z) :
  semantic_to_builtin (Str.transform_toupper semantic) index
  = semantic_to_builtin semantic index
  /\ forall b s i,
      semantic_to_builtin semantic index = Returns (b, s, i) ->
      s = Str.transform_toupper semantic
      /\ semantic_to_builtin s i = Returns (b, s, i).
Proof.
  assert (Hsame : semantic_to_builtin (Str.transform_toupper semantic) index
                  = semantic_to_builtin semantic index).
  { unfold semantic_to_builtin. now rewrite transform_toupper_idempotent. }
  split; [exact Hsame|].
  intros b s i Hrun.
  pose proof (transform_toupper_idempotent semantic) as Hupper.
  unfold semantic_to_builtin in *. clear Hsame.
  remember (Str.transform_toupper semantic) as upper eqn:Hu. clear Hu semantic.
  assert (Hs : s = upper).
  { revert Hrun.
    repeat match goal with
           | |- context [Str.stol ?x] => destruct (Str.stol x)
           | |- context [if ?c then _ else _] => destruct c
           end; cbn [cxx_bind]; intros Hrun; try discriminate Hrun;
      now injection Hrun as _ <- _. }
  subst s. split; [reflexivity|]. rewrite Hupper. revert Hrun.
  repeat match goal with
         | |- context [Str.stol ?x] => destruct (Str.stol x)
         | |- context [if ?c then _ else _] => destruct c
         end; cbn [cxx_bind]; intros Hrun; try discriminate Hrun;
    injection Hrun as <- <-; reflexivity.
Qed.

(** ** Uniforms without components *)

Lemma uniform_size_without_components (type : spv_type) :
  rows type = 0 \/ cols type = 0 -> uniform_size type = 0.
Proof.
  intros [Hr | Hc]; unfold uniform_size.
  - rewrite Hr. reflexivity.
  - rewrite Hc. rewrite Z.mul_0_r. reflexivity.
Qed.

Lemma declare_uniform_without_components {H} (ptr_bits : Z) (name : string)
      (type : spv_type) (info : spv_variable_info) (p : parser H) :
  rows type = 0 \/ cols type = 0 ->
  declare_uniform ptr_bits name type info p = Abort undefined_behaviour.
Proof.
  intros Hdims.
  assert (Hsize : uniform_size (if is_boolean type then set_base type datatype_uint else type)
                  = 0).
  { apply uniform_size_without_components. destruct (is_boolean type); exact Hdims. }
  unfold declare_uniform, bind, gets, get, modify, ret, make_id, add_member_name.
  rewrite Hsize. unfold align. cbn [Z.eqb].
  destruct (_global_ubo_type p =? 0); cbn;
    destruct (_global_ubo_variable p =? 0); reflexivity.
Qed.

(** X2.  A uniform variable whose type has no rows or no columns (a structure,
    a string) is given the size 0, and [align] takes the current offset
    modulo that size: a division by zero. *)
Theorem uniform_without_components_divides_by_zero {H} (E : externals H) (ptr_bits : Z)
        (loc : location) (type : spv_type) (name : string) (section : nat) (global : bool)
        (info : spv_variable_info) (initializer : spv_expression) (p : parser H) :
  is_numeric type = false ->
  is_texture type = false ->
  is_sampler type = false ->
  has type qualifier_uniform = true ->
  rows type = 0 \/ cols type = 0 ->
  variable_symbol E ptr_bits loc type name section global info initializer p
  = Abort undefined_behaviour.
Proof.
  intros Hnumeric Htexture Hsampler Huniform Hdims.
  unfold variable_symbol. rewrite Hnumeric, Htexture, Hsampler, Huniform. cbn [andb].
  unfold bind. now rewrite declare_uniform_without_components.
Qed.

Lemma uniform_string_witness :
  variable_symbol Reference.E 64 no_location (type4 datatype_string 0 0 5) "s" 0 true
                  default_variable_info empty_expression (new_parser tt 1)
  = Abort undefined_behaviour.
Proof.
  apply uniform_without_components_divides_by_zero; try reflexivity. now left.
Defined.

Example global_string_variable :
  run Reference.E 64 30 [Reference.tok string_; Reference.name "s"; Reference.punct ";"]
      (new_parser tt 1)
  = Abort undefined_behaviour.
Proof. vm_compute. reflexivity. Qed.

(** ** Token management *)

Section TokenProperties.
Context {H : Type}.

Lemma consumed_fields (p : parser H) (l : list token) :
  _lexer p = Some l ->
  _lexer_backup (consumed p) = _lexer_backup p
  /\ _token_backup (consumed p) = _token_backup p
  /\ _token (consumed p) = _token_next p
  /\ _token_next (consumed p) = hd eof_token l.
Proof. intros Hl. unfold consumed. rewrite Hl. destruct l; repeat split. Qed.

Lemma consume_times_done (n : nat) :
  forall (p : parser H) (l : list token),
    _lexer p = Some l ->
    exists p', consume_times n p = Done tt p'
               /\ _lexer p' = Some (skipn n l)
               /\ _lexer_backup p' = _lexer_backup p
               /\ _token_backup p' = _token_backup p
               /\ _errors p' = _errors p
               /\ ((n <= S (List.length l))%nat ->
                   _token p' = match n with
                               | O => _token p
                               | S k => nth k (_token_next p :: l) eof_token
                               end).
Proof.
  induction n as [|n IH]; intros p l Hl.
  - exists p. cbn. repeat split; auto.
  - cbn [consume_times]. unfold bind. rewrite (consume_done p l Hl).
    destruct (IH (consumed p) (tl l) (consumed_lexer p l Hl))
      as (p' & Hrun & Hlex & Hlb & Htb & Herr & Htok).
    destruct (consumed_fields p l Hl) as (F1 & F2 & F3 & F4).
    destruct (consumed_frame p) as (_ & _ & _ & _ & F5).
    exists p'. rewrite Hrun. split; [reflexivity|].
    split. { rewrite Hlex. destruct l; [now destruct n | reflexivity]. }
    repeat split; try congruence.
    intros Hn. destruct l as [|t l]; cbn [List.length] in Hn.
    + assert (n = O) by lia. subst n. cbn in Hrun. injection Hrun as <-. exact F3.
    + rewrite Htok by (cbn [tl]; lia). destruct n as [|k]; [exact F3|].
      rewrite F4. reflexivity.
Qed.

(** X3.  [backup], any number of [consume], then [restore]: the next token and
    the lexer are the ones of before and no diagnostic is added, but the
    current token stays the last one consumed, and the saved lexer is the
    one the look-ahead had reached. *)
Theorem restore_rewinds_the_input (n : nat) (p : parser H) (l : list token) :
  _lexer p = Some l ->
  exists p',
    (backup ;; consume_times n ;; restore) p = Done tt p'
    /\ _token_next p' = _token_next p
    /\ _lexer p' = Some l
    /\ _lexer_backup p' = Some (skipn n l)
    /\ _errors p' = _errors p
    /\ ((n <= S (List.length l))%nat ->
        _token p' = match n with
                    | O => _token p
                    | S k => nth k (_token_next p :: l) eof_token
                    end).
Proof.
  intros Hl. unfold bind at 1. unfold backup at 1. rewrite Hl.
  set (q := set_token_backup _ _).
  destruct (consume_times_done n q l eq_refl) as (q' & Hrun & Hlex & Hlb & Htb & Herr & Htok).
  unfold bind. rewrite Hrun. unfold restore, modify.
  eexists. split; [reflexivity|]. cbn.
  rewrite Hlb, Htb, Hlex, Herr. repeat split. exact Htok.
Qed.

Lemma consume_until_loop_stops (t : tokenid) (l : list token) :
  forall (fuel : nat) (p : parser H),
    _lexer p = Some l -> (List.length l + 2 <= fuel)%nat ->
    exists p' k,
      loop fuel (consume_until_body t) tt p = Done tt p'
      /\ _lexer p' = Some (skipn k l)
      /\ (id (_token p') = t \/ id (_token_next p') = end_of_file).
Proof.
  induction l as [|x r IH]; intros fuel p Hl Hfuel.
  - destruct fuel as [|[|fuel]]; [cbn in Hfuel; lia | cbn in Hfuel; lia |].
    cbn [loop]. unfold bind at 1. unfold consume_until_body at 1. unfold bind at 1.
    destruct (consumed_fields p [] Hl) as (_ & _ & Htok & Hnext).
    destruct (tokenid_eq_dec (id (_token_next p)) t) as [Hit|Hmiss].
    { rewrite (accept_hit t p [] Hl Hit). unfold ret. exists (consumed p), O.
      split; [reflexivity|]. split; [apply (consumed_lexer p [] Hl)|].
      left. now rewrite Htok. }
    rewrite (accept_miss t p Hmiss). unfold bind at 1.
    destruct (tokenid_eq_dec (id (_token_next p)) end_of_file) as [Heof|Hmore].
    { unfold peek, gets. rewrite Heof, tokenid_eqb_refl. unfold ret. exists p, O.
      repeat split; auto. }
    rewrite (peek_miss end_of_file p Hmore). unfold bind at 1.
    rewrite (consume_done p [] Hl). unfold ret.
    assert (Hl' : _lexer (consumed p) = Some []) by (apply (consumed_lexer p [] Hl)).
    destruct (consumed_fields (consumed p) [] Hl') as (_ & _ & Htok' & _).
    cbn [loop]. unfold bind at 1. unfold consume_until_body at 1. unfold bind at 1.
    destruct (tokenid_eq_dec (id (_token_next (consumed p))) t) as [Hit|Hmiss'].
    { rewrite (accept_hit t (consumed p) [] Hl' Hit). unfold ret.
      exists (consumed (consumed p)), O.
      split; [reflexivity|]. split; [apply (consumed_lexer (consumed p) [] Hl')|].
      left. now rewrite Htok'. }
    rewrite (accept_miss t (consumed p) Hmiss'). unfold bind at 1.
    unfold peek, gets. rewrite Hnext. cbn [hd eof_token id]. rewrite tokenid_eqb_refl.
    unfold ret. exists (consumed p), O. split; [reflexivity|]. split; [exact Hl'|].
    right. now rewrite Hnext.
  - destruct fuel as [|fuel]; [cbn in Hfuel; lia|].
    cbn [loop]. unfold bind at 1. unfold consume_until_body at 1. unfold bind at 1.
    destruct (consumed_fields p (x :: r) Hl) as (_ & _ & Htok & Hnext).
    destruct (tokenid_eq_dec (id (_token_next p)) t) as [Hit|Hmiss].
    { rewrite (accept_hit t p (x :: r) Hl Hit). unfold ret. exists (consumed p), 1%nat.
      split; [reflexivity|]. split; [apply (consumed_lexer p (x :: r) Hl)|].
      left. now rewrite Htok. }
    rewrite (accept_miss t p Hmiss). unfold bind at 1.
    destruct (tokenid_eq_dec (id (_token_next p)) end_of_file) as [Heof|Hmore].
    { unfold peek, gets. rewrite Heof, tokenid_eqb_refl. unfold ret. exists p, O.
      repeat split; auto. }
    rewrite (peek_miss end_of_file p Hmore). unfold bind at 1.
    rewrite (consume_done p (x :: r) Hl). unfold ret.
    destruct (IH fuel (consumed p)) as (p' & k & Hrun & Hlex & Hstop).
    { apply (consumed_lexer p (x :: r) Hl). }
    { cbn in Hfuel. lia. }
    exists p', (S k). rewrite Hrun. repeat split; assumption.
Qed.

(** X4.  [consume_until] returns, having only moved forward in the input and
    touched neither the diagnostics nor the blocks: it stops on the token
    asked for, or at the end of the input. *)
Theorem consume_until_stops (t : tokenid) (p : parser H) (l : list token) :
  _lexer p = Some l ->
  exists p' k,
    consume_until t p = Done tt p'
    /\ _lexer p' = Some (skipn k l)
    /\ _errors p' = _errors p
    /\ _blocks p' = _blocks p
    /\ (id (_token p') = t \/ id (_token_next p') = end_of_file).
Proof.
  intros Hl.
  destruct (consume_until_done t p l Hl) as (q & Hq & Herrors & Hblocks & _).
  destruct (consume_until_loop_stops t l (remaining_tokens p + 2) p Hl) as (p' & k & Hrun & Hlex & Hstop).
  { unfold remaining_tokens. rewrite Hl. lia. }
  unfold consume_until in *. rewrite Hrun in Hq. injection Hq as <-.
  exists p', k. repeat split; assumption.
Qed.

End TokenProperties.

Lemma restore_witness :
  exists p',
    (backup ;; consume_times 2 ;; restore)
      (Reference.in_function [Reference.name "a"; Reference.name "b"; Reference.punct ";"])
    = Done tt p'
    /\ _token_next p' = Reference.name "a"
    /\ _lexer p' = Some [Reference.name "b"; Reference.punct ";"]
    /\ _token p' = Reference.name "b".
Proof.
  destruct (restore_rewinds_the_input 2
              (Reference.in_function
                 [Reference.name "a"; Reference.name "b"; Reference.punct ";"])
              [Reference.name "b"; Reference.punct ";"] eq_refl)
    as (p' & Hrun & Hnext & Hlex & _ & _ & Htok).
  exists p'. repeat split; try assumption. apply Htok. cbn. lia.
Defined.

Lemma consume_until_witness :
  exists p' k,
    consume_until (chr ";")
      (Reference.in_function [Reference.name "a"; Reference.punct ";"; Reference.name "b"])
    = Done tt p'
    /\ _lexer p' = Some (skipn k [Reference.punct ";"; Reference.name "b"])
    /\ _errors p' = []
    /\ (id (_token p') = chr ";" \/ id (_token_next p') = end_of_file).
Proof.
  destruct (consume_until_stops (chr ";")
              (Reference.in_function
                 [Reference.name "a"; Reference.punct ";"; Reference.name "b"])
              [Reference.punct ";"; Reference.name "b"] eq_refl)
    as (p' & k & Hrun & Hlex & Herrors & _ & Hstop).
  exists p', k. repeat split; assumption.
Defined.

(** ** Type parsing *)

Section TypeProperties.
Context {H : Type}.
Variable E : externals H.

Lemma expect_dimension_range (code : Z) (message : string) (p p' : parser H) (r : Z) :
  expect_dimension E code message p = Done (Some r) p' -> 1 <= r <= 4.
Proof.
  unfold expect_dimension, require. intros Hrun.
  step Hrun. destruct a; [|discriminate Hrun].
  step Hrun. destruct a; [|discriminate Hrun].
  unfold bind, gets in Hrun.
  destruct ((literal_as_int (_token p1) <? 1) || (4 <? literal_as_int (_token p1))) eqn:Hrange.
  - unfold error, modify, ret in Hrun. discriminate Hrun.
  - unfold ret in Hrun. injection Hrun as <- _.
    apply orb_false_elim in Hrange. destruct Hrange as [H1 H2].
    apply Z.ltb_ge in H1. apply Z.ltb_ge in H2. lia.
Qed.

Lemma scalar_shape (type t : spv_type) :
  class_shape type t -> is_scalar t = true -> rows t = 1 /\ cols t = 1 /\ is_numeric t = true.
Proof.
  intros [Hdims _] Hscalar. unfold is_scalar in Hscalar.
  apply andb_prop in Hscalar. destruct Hscalar as [Hscalar Hnumeric].
  apply andb_prop in Hscalar. destruct Hscalar as [Hscalar Hvector].
  apply andb_prop in Hscalar. destruct Hscalar as [_ Hmatrix].
  rewrite Hnumeric in Hdims. cbv iota in Hdims.
  unfold is_vector in Hvector. unfold is_matrix in Hmatrix.
  apply negb_true_iff in Hvector. apply negb_true_iff in Hmatrix.
  apply andb_false_iff in Hmatrix. apply andb_false_iff in Hvector.
  rewrite Z.leb_gt, Z.ltb_ge in Hmatrix. rewrite Z.ltb_ge, Z.eqb_neq in Hvector.
  repeat split; try lia; assumption.
Qed.

(** X5.  A type [accept_type_class] accepts has one to four rows and columns
    when it is numeric and none otherwise; the qualifiers and the array
    length it was given are untouched. *)
Theorem accept_type_class_shape (fuel : nat) :
  forall (type : spv_type) (p : parser H) (t : spv_type) (p' : parser H),
    accept_type_class E fuel type p = Done (true, t) p' -> class_shape type t.
Proof.
  induction fuel as [|fuel IH]; intros type p t p' Hrun; [discriminate Hrun|].
  cbn [accept_type_class] in Hrun.
  step Hrun. destruct a.
  { (* a structure type *)
    unfold bind at 1 in Hrun. unfold gets at 1 in Hrun.
    step Hrun.
    match type of Hrun with (if ?c then _ else _) _ = _ => destruct c end.
    - step Hrun. unfold ret in Hrun. injection Hrun as <- _.
      unfold class_shape. cbn. auto.
    - discriminate Hrun. }
  step Hrun. destruct a.
  { (* vector *)
    step Hrun. destruct a.
    - step Hrun. destruct a as [ok inner].
      destruct ok; cbn [negb] in Hrun.
      2:{ step Hrun. discriminate Hrun. }
      pose proof (IH _ _ _ _ Heqo2) as Hinner.
      destruct (is_scalar inner) eqn:Hscalar; cbn [negb] in Hrun.
      2:{ do 2 step Hrun. discriminate Hrun. }
      destruct (scalar_shape _ _ Hinner Hscalar) as (Hr & Hc & Hnumeric).
      step Hrun. destruct a as [r|]; [|discriminate Hrun].
      apply expect_dimension_range in Heqo3.
      unfold require in Hrun. step Hrun. destruct a; [|discriminate Hrun].
      unfold ret in Hrun. injection Hrun as <- _.
      destruct Hinner as (_ & Hq & Ha).
      unfold class_shape. cbn in *.
      unfold is_numeric in *. cbn in *. destruct (base inner); try discriminate Hnumeric;
        repeat split; auto; lia.
    - unfold ret in Hrun. injection Hrun as <- _. unfold class_shape. cbn. repeat split; lia. }
  step Hrun. destruct a.
  { (* matrix *)
    step Hrun. destruct a.
    - step Hrun. destruct a as [ok inner].
      destruct ok; cbn [negb] in Hrun.
      2:{ step Hrun. discriminate Hrun. }
      pose proof (IH _ _ _ _ Heqo3) as Hinner.
      destruct (is_scalar inner) eqn:Hscalar; cbn [negb] in Hrun.
      2:{ do 2 step Hrun. discriminate Hrun. }
      destruct (scalar_shape _ _ Hinner Hscalar) as (Hr & Hc & Hnumeric).
      step Hrun. destruct a as [r|]; [|discriminate Hrun].
      apply expect_dimension_range in Heqo4.
      step Hrun. destruct a as [c|]; [|discriminate Hrun].
      apply expect_dimension_range in Heqo5.
      unfold require in Hrun. step Hrun. destruct a; [|discriminate Hrun].
      unfold ret in Hrun. injection Hrun as <- _.
      destruct Hinner as (_ & Hq & Ha).
      unfold class_shape. cbn in *.
      unfold is_numeric in *. cbn in *. destruct (base inner); try discriminate Hnumeric;
        repeat split; auto; lia.
    - unfold ret in Hrun. injection Hrun as <- _. unfold class_shape. cbn. repeat split; lia. }
  (* a keyword *)
  unfold bind at 1 in Hrun. unfold gets at 1 in Hrun.
  set (given := set_dims type 0 0) in *.
  destruct (type_of_keyword (id (_token_next p2)) given) as [kw|] eqn:Hkw;
    [|discriminate Hrun].
  step Hrun. unfold ret in Hrun. injection Hrun as <- _.
  unfold type_of_keyword in Hkw.
  destruct (id (_token_next p2)); try discriminate Hkw;
    injection Hkw as <-; unfold class_shape; cbn; repeat split; lia.
Qed.

Lemma has_after_lor (t : spv_type) (j k : Z) :
  0 <= j -> 0 <= k ->
  has (set_qualifiers t (Z.lor (qualifiers t) (2 ^ j))) (2 ^ k)
  = has t (2 ^ k) || (j =? k).
Proof.
  intros Hj Hk. rewrite !has_single_bit by exact Hk. cbn [qualifiers set_qualifiers].
  rewrite Z.lor_spec, Z.pow2_bits_eqb by exact Hj. reflexivity.
Qed.

(** X6.  A type [parse_type] accepts: an integer type is neither [centroid]
    nor [noperspective]; [centroid] never comes alone, [linear] is added
    when [noperspective] is absent; and the dimensions are the ones of
    the type class. *)
Theorem parse_type_interpolation (fuel : nat) (type : spv_type) (p : parser H)
        (t : spv_type) (p' : parser H) :
  parse_type E fuel type p = Done (true, t) p' ->
  (is_integral t = true ->
   has t qualifier_centroid = false /\ has t qualifier_noperspective = false)
  /\ (has t qualifier_centroid = true ->
      has t qualifier_noperspective = true \/ has t qualifier_linear = true)
  /\ (if is_numeric t then 1 <= rows t <= 4 /\ 1 <= cols t <= 4
      else rows t = 0 /\ cols t = 0).
Proof.
  unfold parse_type. intros Hrun.
  step Hrun. destruct a as [any qualified].
  unfold bind at 1 in Hrun. unfold gets at 1 in Hrun.
  step Hrun. destruct a as [ok class].
  destruct ok; cbn [negb] in Hrun; [|discriminate Hrun].
  match goal with Hc : accept_type_class _ _ _ _ = _ |- _ =>
    apply accept_type_class_shape in Hc; destruct Hc as (Hshape & _ & _) end.
  change qualifier_centroid with (2 ^ 12) in *.
  change qualifier_noperspective with (2 ^ 11) in *.
  change qualifier_linear with (2 ^ 10) in *.
  destruct (is_integral class && (has class (2 ^ 12) || has class (2 ^ 11))) eqn:Hint.
  { step Hrun. discriminate Hrun. }
  destruct (has class (2 ^ 12) && negb (has class (2 ^ 11))) eqn:Hcentroid;
    unfold ret in Hrun; injection Hrun as <- _.
  - apply andb_prop in Hcentroid. destruct Hcentroid as [Hc Hn].
    apply negb_true_iff in Hn.
    change (Z.pow_pos 2 10) with (2 ^ 10).
    rewrite !has_after_lor by lia. cbn [Z.eqb Pos.eqb orb]. rewrite !orb_false_r, orb_true_r.
    replace (is_integral (set_qualifiers class (Z.lor (qualifiers class) (2 ^ 10))))
      with (is_integral class) by reflexivity.
    replace (is_numeric (set_qualifiers class (Z.lor (qualifiers class) (2 ^ 10))))
      with (is_numeric class) by reflexivity.
    rewrite Hc in Hint. cbn [orb] in Hint. rewrite andb_true_r in Hint.
    repeat split; try (intros; congruence); auto.
  - repeat split.
    + destruct (has class (2 ^ 12)); [|reflexivity].
      rewrite H0 in Hint. discriminate Hint.
    + destruct (has class (2 ^ 11)); [|reflexivity].
      rewrite H0, orb_true_r in Hint. discriminate Hint.
    + intros Hc. rewrite Hc in Hcentroid. cbn [andb] in Hcentroid.
      apply negb_false_iff in Hcentroid. now left.
    + exact Hshape.
Qed.

(** X7.  An array size [parse_array_size] accepts is absent (0), unsized (-1)
    or between 1 and 65536; nothing else of the type changes. *)
Theorem parse_array_size_range (fuel : nat) (type : spv_type) (p : parser H)
        (t : spv_type) (p' : parser H) :
  parse_array_size E fuel type p = Done (true, t) p' ->
  (array_length t = 0 \/ array_length t = -1 \/ 1 <= array_length t <= 65536)
  /\ set_array_length t (array_length type) = type.
Proof.
  unfold parse_array_size. intros Hrun.
  assert (Hsame : forall a, set_array_length (set_array_length type a) (array_length type)
                            = type) by (intros a; destruct type; reflexivity).
  step Hrun. destruct a; cbn [negb] in Hrun.
  2:{ unfold ret in Hrun. injection Hrun as <- _. split; [now left | apply Hsame]. }
  step Hrun. step Hrun. destruct a0.
  { unfold ret in Hrun. injection Hrun as <- _. split; [right; now left | ].
    rewrite <- (Hsame 0) at 2. destruct type; reflexivity. }
  step Hrun. destruct a0 as [ok expression].
  step Hrun. destruct a0; [|discriminate Hrun].
  match type of Hrun with (if ?c then _ else _) _ = _ => destruct c end.
  { step Hrun. discriminate Hrun. }
  match type of Hrun with (if ?c then _ else _) _ = _ => destruct c eqn:Hrange end.
  { step Hrun. discriminate Hrun. }
  unfold ret in Hrun. injection Hrun as <- _.
  apply orb_false_elim in Hrange. destruct Hrange as [H1 H2].
  apply Z.ltb_ge in H1. apply Z.ltb_ge in H2. cbn [array_length set_array_length] in *.
  split; [right; right; lia|].
  rewrite <- (Hsame 0) at 2. destruct type; reflexivity.
Qed.

End TypeProperties.

Lemma accept_type_class_shape_witness :
  exists p',
    accept_type_class Reference.E 3 default_type
      (Reference.in_function
         [Reference.tok vector; Reference.punct "<"; Reference.tok float_; Reference.punct ",";
          Reference.int_lit 3; Reference.punct ">"; Reference.punct ";"])
    = Done (true, type3 datatype_float 3 1) p'
    /\ class_shape default_type (type3 datatype_float 3 1).
Proof.
  eexists. split; [vm_compute; reflexivity|].
  eapply (accept_type_class_shape Reference.E 3 default_type
            (Reference.in_function
         [Reference.tok vector; Reference.punct "<"; Reference.tok float_; Reference.punct ",";
          Reference.int_lit 3; Reference.punct ">"; Reference.punct ";"])).
  vm_compute. reflexivity.
Defined.

Lemma parse_type_interpolation_witness :
  exists p',
    parse_type Reference.E 3 default_type
      (Reference.in_function [Reference.tok centroid; Reference.tok float2; Reference.name "x"])
    = Done (true, type4 datatype_float 2 1 5120) p'
    /\ has (type4 datatype_float 2 1 5120) qualifier_centroid = true
    /\ has (type4 datatype_float 2 1 5120) qualifier_linear = true.
Proof.
  eexists. split; [vm_compute; reflexivity|]. split; [reflexivity|].
  destruct (proj1 (proj2 (parse_type_interpolation Reference.E 3 default_type
              (Reference.in_function
                 [Reference.tok centroid; Reference.tok float2; Reference.name "x"])
              (type4 datatype_float 2 1 5120) _ ltac:(vm_compute; reflexivity))) eq_refl)
    as [Hn | Hl]; [discriminate Hn | exact Hl].
Defined.

Lemma parse_array_size_witness :
  exists p',
    parse_array_size Reference.E 3 (type3 datatype_float 1 1)
      (Reference.in_function
         [Reference.punct "["; Reference.int_lit 5; Reference.punct "]"; Reference.punct ";"])
    = Done (true, set_array_length (type3 datatype_float 1 1) 5) p'
    /\ 1 <= 5 <= 65536.
Proof.
  eexists. split; [vm_compute; reflexivity|].
  destruct (proj1 (parse_array_size_range Reference.E 3 (type3 datatype_float 1 1)
              (Reference.in_function
                 [Reference.punct "["; Reference.int_lit 5; Reference.punct "]";
                  Reference.punct ";"])
              (set_array_length (type3 datatype_float 1 1) 5) _
              ltac:(vm_compute; reflexivity)))
    as [Hz | [Hu | Hr]]; [discriminate Hz | discriminate Hu | exact Hr].
Defined.

(** ** Literals *)

Section LiteralProperties.
Context {H : Type}.
Variable E : externals H.

Lemma append_assoc (a b c : string) : (a ++ b) ++ c = a ++ (b ++ c).
Proof. induction a as [|x a IH]; cbn; [reflexivity | now rewrite IH]. Qed.

Lemma concat_cons (s : string) (l : list string) :
  String.concat "" (s :: l) = s ++ String.concat "" l.
Proof.
  destruct l as [|x l]; cbn [String.concat].
  - clear. induction s as [|c s IH]; cbn; [reflexivity | now rewrite <- IH].
  - reflexivity.
Qed.

(** The loop over the string literals that follow the first one. *)
Lemma string_literal_loop (more : list token) :
  forall (fuel : nat) (value : string) (q : parser H) (rest : list token),
    _token_next q = hd eof_token (more ++ rest) ->
    _lexer q = Some (tl (more ++ rest)) ->
    Forall (fun t => id t = string_literal) more ->
    id (hd eof_token rest) <> string_literal ->
    (List.length more < fuel)%nat ->
    exists q',
      loop fuel (string_literal_body) value q
      = Done (value ++ String.concat "" (map literal_as_string more)) q'
      /\ _token_next q' = hd eof_token rest
      /\ _lexer q' = Some (tl rest)
      /\ _errors q' = _errors q.
Proof.
  induction more as [|s more IH]; intros fuel value q rest Hnext Hl Hstrings Hstop Hfuel;
    (destruct fuel as [|fuel]; [cbn in Hfuel; lia|]);
    cbn [loop]; unfold bind at 1; unfold string_literal_body at 1; unfold bind at 1.
  - cbn [app] in *. rewrite accept_miss by (rewrite Hnext; exact Hstop).
    unfold ret. exists q. cbn [map String.concat].
    replace (value ++ "") with value
      by (clear; induction value as [|c v IHv]; cbn; [reflexivity | now rewrite <- IHv]).
    repeat split; assumption.
  - cbn [app hd tl] in *. apply Forall_cons_iff in Hstrings. destruct Hstrings as [Hs Hmore].
    rewrite (accept_hit string_literal q _ Hl) by (rewrite Hnext; exact Hs).
    unfold bind at 1. unfold gets at 1. unfold ret at 1.
    destruct (consumed_fields q _ Hl) as (_ & _ & Htok & Hnext').
    destruct (consumed_frame q) as (_ & _ & _ & _ & Herrors).
    destruct (IH fuel (value ++ literal_as_string (_token (consumed q))) (consumed q) rest)
      as (q' & Hrun & Hn & Hlex & He); try assumption.
    + apply (consumed_lexer q _ Hl).
    + cbn in Hfuel. lia.
    + exists q'. rewrite Hrun. rewrite Htok, Hnext. cbn [map]. rewrite concat_cons.
      rewrite append_assoc. repeat split; congruence.
Qed.

(** X8.  Adjacent string literals are one literal: the concatenation of their
    strings. *)
Theorem adjacent_string_literals (fuel : nat) (loc : location) (p : parser H)
        (more rest : list token) :
  id (_token_next p) = string_literal ->
  _lexer p = Some (more ++ rest)%list ->
  Forall (fun t => id t = string_literal) more ->
  id (hd eof_token rest) <> string_literal ->
  (List.length more < fuel)%nat ->
  exists p',
    unary_literal E fuel loc p
    = Done (Some (reset_to_rvalue_constant
                    (const_type datatype_string 0 0) loc
                    (mk_constant (repeat 0 16)
                       (String.concat "" (map literal_as_string (_token_next p :: more)))
                       [])))
           p'
    /\ _token_next p' = hd eof_token rest
    /\ _lexer p' = Some (tl rest)
    /\ _errors p' = _errors p.
Proof.
  intros Hfirst Hl Hstrings Hstop Hfuel. unfold unary_literal.
  do 6 (unfold bind at 1; rewrite accept_miss by (rewrite Hfirst; discriminate)).
  unfold bind at 1. rewrite (accept_hit string_literal p _ Hl Hfirst).
  unfold bind at 1. unfold gets at 1.
  destruct (consumed_fields p _ Hl) as (_ & _ & Htok & Hnext).
  destruct (consumed_frame p) as (_ & _ & _ & _ & Herrors).
  destruct (string_literal_loop more fuel (literal_as_string (_token (consumed p)))
              (consumed p) rest)
    as (q' & Hrun & Hn & Hlex & He); try assumption.
  - apply (consumed_lexer p _ Hl).
  - exists q'. unfold bind. rewrite Hrun. unfold ret. rewrite Htok.
    cbn [map]. rewrite concat_cons. repeat split; congruence.
Qed.

End LiteralProperties.

Lemma adjacent_string_literals_witness :
  exists p',
    unary_literal Reference.E 3 no_location
      (Reference.in_function
         [mk_token string_literal no_location "ab" 0 0 0 0;
          mk_token string_literal no_location "cd" 0 0 0 0; Reference.punct ";"])
    = Done (Some (reset_to_rvalue_constant (const_type datatype_string 0 0) no_location
                    (mk_constant (repeat 0 16) "abcd" []))) p'
    /\ _token_next p' = Reference.punct ";".
Proof.
  destruct (adjacent_string_literals Reference.E 3 no_location
              (Reference.in_function
                 [mk_token string_literal no_location "ab" 0 0 0 0;
                  mk_token string_literal no_location "cd" 0 0 0 0; Reference.punct ";"])
              [mk_token string_literal no_location "cd" 0 0 0 0] [Reference.punct ";"]
              eq_refl eq_refl)
    as (p' & Hrun & Hnext & _).
  - repeat constructor.
  - discriminate.
  - cbn. lia.
  - exists p'. split; [exact Hrun | exact Hnext].
Defined.

(** ** Constant folding *)

(** A lane loop stops without a result at the first lane whose value is
    undefined. *)
Lemma for_lanes_undefined (f : spv_constant -> nat -> option Z) (i : nat) :
  (forall d, f d i = None) ->
  forall (n j : nat) (d : spv_constant),
    (j <= i < j + n)%nat -> for_lanes n j f d = None.
Proof.
  intros Hnone. induction n as [|n IH]; intros j d Hi; [lia|].
  cbn [for_lanes]. destruct (j <? 16)%nat; [|reflexivity].
  destruct (Nat.eq_dec j i) as [->|Hne]; [now rewrite Hnone|].
  destruct (f d j); [|reflexivity]. apply IH. lia.
Qed.

Lemma integer_division_by_zero_is_undefined {H} (E : externals H) (o : Op)
        (type : spv_type) (lhs rhs : spv_constant) (i : nat) :
  In o [OpSDiv; OpUDiv; OpSRem; OpUMod] ->
  (i < Z.to_nat (components type))%nat ->
  as_uint rhs i = 0 ->
  fold_binary E o type lhs rhs = None.
Proof.
  intros Ho Hi Hzero.
  destruct Ho as [<-|[<-|[<-|[<-|[]]]]]; cbn [fold_binary];
    apply (for_lanes_undefined _ i); try lia; intros d;
    rewrite Hzero; reflexivity.
Qed.

(** X9.  Folding an integer division or remainder of two constants divides
    by the right operand without looking at it: a zero in one of its
    components is a division by zero of the compiler itself. *)
Theorem division_by_zero_aborts_the_fold {H} (E : externals H) (o : Op)
        (type : spv_type) (lhs rhs lhs' rhs' : spv_expression) (p p1 p2 : parser H) (i : nat) :
  In o [OpSDiv; OpUDiv; OpSRem; OpUMod] ->
  (i < Z.to_nat (components type))%nat ->
  add_cast_operation E lhs type p = Done lhs' p1 ->
  add_cast_operation E rhs type p1 = Done rhs' p2 ->
  as_uint (exp_constant rhs') i = 0 ->
  fold_constant_operands E o type lhs rhs p = Abort undefined_behaviour.
Proof.
  intros Ho Hi Hl Hr Hzero. unfold fold_constant_operands, bind.
  rewrite Hl, Hr.
  now rewrite (integer_division_by_zero_is_undefined E o type _ _ i Ho Hi Hzero).
Qed.

Lemma division_by_zero_witness :
  fold_constant_operands Reference.E OpSDiv int_type
    (reset_to_rvalue_constant int_type no_location (scalar_constant 1))
    (reset_to_rvalue_constant int_type no_location (scalar_constant 0))
    (new_parser tt 1)
  = Abort undefined_behaviour.
Proof.
  eapply (division_by_zero_aborts_the_fold Reference.E OpSDiv int_type _ _ _ _
            (new_parser tt 1) (new_parser tt 1) (new_parser tt 1) 0%nat).
  - left. reflexivity.
  - cbn. lia.
  - reflexivity.
  - reflexivity.
  - reflexivity.
Defined.

(** A lane loop writes lanes [j .. j+n) and nothing else. *)
Lemma for_lanes_frame (f : spv_constant -> nat -> option Z) :
  forall (n j : nat) (d d' : spv_constant),
    for_lanes n j f d = Some d' ->
    List.length (as_uint_lanes d') = List.length (as_uint_lanes d)
    /\ string_data_of d' = string_data_of d
    /\ as_array d' = as_array d
    /\ forall k, (k < j \/ j + n <= k)%nat -> as_uint d' k = as_uint d k.
Proof.
  induction n as [|n IH]; intros j d d' Hrun; cbn [for_lanes] in Hrun.
  - injection Hrun as <-. repeat split.
  - destruct (j <? 16)%nat; [|discriminate Hrun].
    destruct (f d j) as [v|]; [|discriminate Hrun].
    destruct (IH _ _ _ Hrun) as (Hlen & Hs & Ha & Hk).
    rewrite lanes_set_lane in Hlen.
    split; [exact Hlen|].
    split; [rewrite Hs; now destruct d|].
    split; [rewrite Ha; now destruct d|].
    intros k Hout. rewrite Hk by lia. rewrite as_uint_set_lane.
    replace (Nat.eqb k j) with false by (symmetry; apply Nat.eqb_neq; lia). reflexivity.
Qed.

(** A lane loop whose value for a lane depends on that lane only. *)
Lemma for_lanes_lanewise (g : nat -> Z -> option Z) :
  forall (n j : nat) (d d' : spv_constant),
    List.length (as_uint_lanes d) = 16%nat ->
    for_lanes n j (fun d i => g i (as_uint d i)) d = Some d' ->
    forall k, (j <= k < j + n)%nat ->
              exists v, g k (as_uint d k) = Some v /\ as_uint d' k = uint32 v.
Proof.
  induction n as [|n IH]; intros j d d' Hlen Hrun k Hk; [lia|].
  cbn [for_lanes] in Hrun.
  destruct (j <? 16)%nat eqn:Hj; [|discriminate Hrun].
  destruct (g j (as_uint d j)) as [v|] eqn:Hg; [|discriminate Hrun].
  destruct (Nat.eq_dec k j) as [->|Hne].
  - exists v. split; [exact Hg|].
    destruct (for_lanes_frame _ _ _ _ _ Hrun) as (_ & _ & _ & Hframe).
    rewrite Hframe by lia. rewrite as_uint_set_lane, Nat.eqb_refl, Hlen, Hj. reflexivity.
  - destruct (IH (S j) (set_lane d j v) d') with (k := k) as (w & Hw & Hout); try assumption.
    + now rewrite lanes_set_lane.
    + lia.
    + exists w. split; [|exact Hout].
      rewrite as_uint_set_lane in Hw.
      replace (Nat.eqb k j) with false in Hw by (symmetry; apply Nat.eqb_neq; lia).
      exact Hw.
Qed.

Lemma b2z_flag (b : bool) : uint32 (Z.b2z b) = 0 \/ uint32 (Z.b2z b) = 1.
Proof. destruct b; [right | left]; reflexivity. Qed.

(** X10.  The fold of a comparison writes 0 or 1 in each component of the
    type and leaves the other lanes of the left operand as they are. *)
Theorem folded_comparison_lanes {H} (E : externals H) (o : Op) (type : spv_type)
        (lhs rhs data : spv_constant) :
  In o comparison_ops ->
  List.length (as_uint_lanes lhs) = 16%nat ->
  fold_binary E o type lhs rhs = Some data ->
  forall k,
    ((k < Z.to_nat (components type))%nat -> as_uint data k = 0 \/ as_uint data k = 1)
    /\ ((Z.to_nat (components type) <= k)%nat -> as_uint data k = as_uint lhs k).
Proof.
  intros Ho Hlen Hrun k.
  assert (Hone : forall (g : nat -> bool) (d d' : spv_constant),
             List.length (as_uint_lanes d) = 16%nat ->
             for_lanes (Z.to_nat (components type)) 0 (fun _ i => Some (Z.b2z (g i))) d
             = Some d' ->
             List.length (as_uint_lanes d') = 16%nat
             /\ ((k < Z.to_nat (components type))%nat ->
                 as_uint d' k = 0 \/ as_uint d' k = 1)
             /\ ((Z.to_nat (components type) <= k)%nat -> as_uint d' k = as_uint d k)).
  { intros g d d' Hd Hloop.
    destruct (for_lanes_frame _ _ _ _ _ Hloop) as (Hl & _ & _ & Hframe).
    split; [congruence|]. split.
    - intros Hk.
      destruct (for_lanes_lanewise (fun i _ => Some (Z.b2z (g i))) _ _ _ _ Hd Hloop k)
        as (v & Hv & ->); [lia|].
      injection Hv as <-. apply b2z_flag.
    - intros Hk. apply Hframe. lia. }
  unfold comparison_ops in Ho. cbn [In] in Ho.
  repeat (destruct Ho as [<-|Ho]); try contradiction; cbn [fold_binary] in Hrun;
    try (destruct (Hone _ _ _ Hlen Hrun) as (_ & H1 & H2); split; assumption).
  - match type of Hrun with match ?c with _ => _ end = _ => destruct c as [d1|] eqn:Hfirst end;
      [|discriminate Hrun].
    destruct (Hone _ _ _ Hlen Hfirst) as (Hl1 & _ & F1).
    destruct (Hone _ _ _ Hl1 Hrun) as (_ & H1 & H2).
    split; [assumption|]. intros Hk. rewrite H2, F1 by assumption. reflexivity.
  - match type of Hrun with match ?c with _ => _ end = _ => destruct c as [d1|] eqn:Hfirst end;
      [|discriminate Hrun].
    destruct (Hone _ _ _ Hlen Hfirst) as (Hl1 & _ & F1).
    destruct (Hone _ _ _ Hl1 Hrun) as (_ & H1 & H2).
    split; [assumption|]. intros Hk. rewrite H2, F1 by assumption. reflexivity.
Qed.

Lemma folded_comparison_witness :
  fold_binary Reference.E OpSLessThan int_type (scalar_constant 1) (scalar_constant 2)
  = Some (scalar_constant 1)
  /\ (as_uint (scalar_constant 1) 0 = 0 \/ as_uint (scalar_constant 1) 0 = 1).
Proof.
  split; [reflexivity|].
  apply (proj1 (folded_comparison_lanes Reference.E OpSLessThan int_type
                  (scalar_constant 1) (scalar_constant 2) (scalar_constant 1)
                  ltac:(cbn; tauto) eq_refl eq_refl 0%nat)).
  cbn. lia.
Defined.

Lemma constant_ext (c d : spv_constant) :
  List.length (as_uint_lanes c) = List.length (as_uint_lanes d) ->
  string_data_of c = string_data_of d ->
  as_array c = as_array d ->
  (forall k, as_uint c k = as_uint d k) ->
  c = d.
Proof.
  destruct c as [lc sc ac], d as [ld sd ad]. cbn. unfold as_uint. cbn.
  intros Hlen -> -> Hk. f_equal. apply (nth_ext _ _ 0 0 Hlen). intros n _. apply Hk.
Qed.

(** A lane loop whose value for a lane depends on that lane only runs to
    the end when every lane has a value. *)
Lemma for_lanes_total (g : nat -> Z -> option Z) :
  forall (n j : nat) (d : spv_constant),
    (j + n <= 16)%nat ->
    (forall k, (j <= k < j + n)%nat -> g k (as_uint d k) <> None) ->
    exists d', for_lanes n j (fun d i => g i (as_uint d i)) d = Some d'.
Proof.
  induction n as [|n IH]; intros j d Hn Hdef; [now exists d|].
  cbn [for_lanes].
  replace (j <? 16)%nat with true by (symmetry; apply Nat.ltb_lt; lia).
  destruct (g j (as_uint d j)) as [v|] eqn:Hg; [|exfalso; apply (Hdef j); [lia | exact Hg]].
  apply IH; [lia|]. intros k Hk. rewrite as_uint_set_lane.
  replace (Nat.eqb k j) with false by (symmetry; apply Nat.eqb_neq; lia).
  apply Hdef. lia.
Qed.

Lemma for_lanes_components (f : spv_constant -> nat -> option Z) (n : nat)
      (d d' : spv_constant) :
  for_lanes n 0 f d = Some d' -> (n <= 16)%nat.
Proof.
  assert (Hgen : forall n j d d', for_lanes n j f d = Some d' -> (n = 0 \/ j + n <= 16)%nat).
  { clear. induction n as [|n IH]; intros j d d' Hrun; [now left|]. right.
    cbn [for_lanes] in Hrun. destruct (j <? 16)%nat eqn:Hj; [|discriminate Hrun].
    apply Nat.ltb_lt in Hj. destruct (f d j); [|discriminate Hrun].
    destruct (IH _ _ _ Hrun); lia. }
  intros Hrun. destruct (Hgen _ _ _ _ Hrun); lia.
Qed.

Lemma negate_twice (o : Op) (x v : Z) :
  In o [OpFNegate; OpSNegate; OpNot] ->
  0 <= x < 2 ^ 32 ->
  unary_lane o x = Some v ->
  0 <= uint32 v < 2 ^ 32
  /\ exists w, unary_lane o (uint32 v) = Some w /\ uint32 w = x.
Proof.
  intros Ho Hx Hv.
  assert (Hrange : 0 <= uint32 v < 2 ^ 32) by (apply Z.mod_pos_bound; lia).
  split; [exact Hrange|].
  destruct Ho as [<-|[<-|[<-|[]]]]; cbn [unary_lane] in *.
  - injection Hv as <-. eexists. split; [reflexivity|].
    unfold float_neg.
    assert (Hb : 0 <= Z.lxor x (2 ^ 31) < 2 ^ 32).
    { split; [apply Z.lxor_nonneg; lia|].
      destruct (Z.eq_dec (Z.lxor x (2 ^ 31)) 0) as [->|Hnz]; [lia|].
      apply Z.log2_lt_pow2; [pose proof (Z.lxor_nonneg x (2 ^ 31)); lia|].
      eapply Z.le_lt_trans; [apply Z.log2_lxor; lia|].
      apply Z.max_lub_lt.
      - destruct (Z.eq_dec x 0) as [->|Hx0]; [cbn; lia|]. apply Z.log2_lt_pow2; lia.
      - cbn. lia. }
    rewrite (uint32_small _ Hb), Z.lxor_assoc, Z.lxor_nilpotent, Z.lxor_0_r.
    now apply uint32_small.
  - destruct (as_signed32 x =? INT_MIN) eqn:Hmin; [discriminate Hv|]. injection Hv as <-.
    apply Z.eqb_neq in Hmin. unfold as_signed32, INT_MIN, uint32, wrap in *.
    destruct (x <? 2 ^ 31) eqn:Hlt.
    + apply Z.ltb_lt in Hlt.
      destruct (Z.eq_dec x 0) as [->|Hx0].
      * exists 0. split; reflexivity.
      * assert (Hm : (- x) mod 2 ^ 32 = 2 ^ 32 - x).
        { symmetry. apply (Z.mod_unique_pos _ _ (-1)); lia. }
        rewrite Hm.
        replace (2 ^ 32 - x <? 2 ^ 31) with false by (symmetry; apply Z.ltb_ge; lia).
        replace (2 ^ 32 - x - 2 ^ 32 =? - 2 ^ 31) with false
          by (symmetry; apply Z.eqb_neq; lia).
        eexists. split; [reflexivity|].
        replace (- (2 ^ 32 - x - 2 ^ 32)) with x by lia. apply Z.mod_small. lia.
    + apply Z.ltb_ge in Hlt.
      assert (Hm : (- (x - 2 ^ 32)) mod 2 ^ 32 = 2 ^ 32 - x)
        by (replace (- (x - 2 ^ 32)) with (2 ^ 32 - x) by lia; apply Z.mod_small; lia).
      rewrite Hm.
      replace (2 ^ 32 - x <? 2 ^ 31) with true by (symmetry; apply Z.ltb_lt; lia).
      replace (2 ^ 32 - x =? - 2 ^ 31) with false by (symmetry; apply Z.eqb_neq; lia).
      eexists. split; [reflexivity|].
      symmetry. apply (Z.mod_unique_pos _ _ (-1)); lia.
  - injection Hv as <-. eexists. split; [reflexivity|].
    unfold uint32, wrap, Z.lnot.
    assert (Hm : (Z.pred (- x)) mod 2 ^ 32 = 2 ^ 32 - 1 - x).
    { symmetry. apply (Z.mod_unique_pos _ _ (-1)); lia. }
    rewrite Hm. symmetry. apply (Z.mod_unique_pos _ _ (-1)); lia.
Qed.

(** X11.  Folding a negation or a bitwise complement twice gives the constant
    back, when the first fold is defined. *)
Theorem prefix_operator_twice (o : Op) (type : spv_type) (c c1 : spv_constant) :
  In o [OpFNegate; OpSNegate; OpNot] ->
  lanes_ok c ->
  fold_unary o type c = Some c1 ->
  lanes_ok c1 /\ fold_unary o type c1 = Some c.
Proof.
  intros Ho [Hlen Hrange] Hrun.
  set (n := Z.to_nat (components type)) in *.
  assert (Hfold : forall d, fold_unary o type d
                            = for_lanes n 0 (fun d i => unary_lane o (as_uint d i)) d).
  { intros d. destruct Ho as [<-|[<-|[<-|[]]]]; reflexivity. }
  rewrite Hfold in *.
  pose proof (for_lanes_components _ _ _ _ Hrun) as Hn.
  destruct (for_lanes_frame _ _ _ _ _ Hrun) as (Hlen1 & Hs1 & Ha1 & Hframe1).
  pose proof (for_lanes_lanewise (fun _ x => unary_lane o x) _ _ _ _ Hlen Hrun) as Hlanes1.
  assert (Hrange1 : forall k, 0 <= as_uint c1 k < 2 ^ 32).
  { intros k. destruct (Nat.lt_ge_cases k n) as [Hk|Hk].
    - destruct (Hlanes1 k) as (v & _ & ->); [lia|]. apply Z.mod_pos_bound. lia.
    - rewrite Hframe1 by lia. apply Hrange. }
  split; [split; [congruence | exact Hrange1]|].
  destruct (for_lanes_total (fun _ x => unary_lane o x) n 0 c1) as (c2 & Hrun2); [lia| |].
  { intros k Hk. destruct (Hlanes1 k) as (v & Hv & ->); [lia|].
    destruct (negate_twice o _ v Ho (Hrange k) Hv) as (_ & w & -> & _). discriminate. }
  rewrite Hrun2. f_equal.
  destruct (for_lanes_frame _ _ _ _ _ Hrun2) as (Hlen2 & Hs2 & Ha2 & Hframe2).
  assert (Hlen1' : List.length (as_uint_lanes c1) = 16%nat) by congruence.
  pose proof (for_lanes_lanewise (fun _ x => unary_lane o x) _ _ _ _ Hlen1' Hrun2) as Hlanes2.
  apply constant_ext; try congruence.
  intros k. destruct (Nat.lt_ge_cases k n) as [Hk|Hk].
  - destruct (Hlanes1 k) as (v & Hv & Hc1); [lia|].
    destruct (Hlanes2 k) as (w & Hw & ->); [lia|].
    destruct (negate_twice o _ v Ho (Hrange k) Hv) as (_ & w' & Hw' & Hback).
    rewrite Hc1 in Hw. congruence.
  - rewrite Hframe2, Hframe1 by lia. reflexivity.
Qed.

Lemma prefix_operator_twice_witness :
  lanes_ok (scalar_constant 5)
  /\ fold_unary OpSNegate (type3 datatype_int 1 1) (scalar_constant 5)
     = Some (scalar_constant 4294967291)
  /\ fold_unary OpSNegate (type3 datatype_int 1 1) (scalar_constant 4294967291)
     = Some (scalar_constant 5).
Proof.
  assert (Hok : lanes_ok (scalar_constant 5)).
  { split; [reflexivity|]. intros k. unfold as_uint. cbn.
    do 17 (destruct k as [|k]; [cbn; lia|]). destruct k; cbn; lia. }
  split; [exact Hok|]. split; [reflexivity|].
  exact (proj2 (prefix_operator_twice OpSNegate (type3 datatype_int 1 1) (scalar_constant 5)
                  (scalar_constant 4294967291) (or_intror (or_introl eq_refl)) Hok eq_refl)).
Defined.

(** ** Swizzles *)

Lemma swizzle_set_eqb_eq (a b : swizzle_set) : swizzle_set_eqb a b = true <-> a = b.
Proof. destruct a, b; cbn; split; congruence. Qed.

Lemma swizzle_component_nonneg (c : ascii) (o : Z) (set : swizzle_set) :
  swizzle_component c = Some (o, set) -> 0 <= o <= 3.
Proof.
  unfold swizzle_component.
  destruct c as [[] [] [] [] [] [] [] []]; intros Heq; try discriminate Heq;
    injection Heq as <- _; lia.
Qed.

Lemma vector_swizzle_loop_ok (subscript : string) (type_rows : Z) (rest : string) :
  forall (offsets : list Z) (previous : option swizzle_set) (constant : bool)
         (offsets' : list Z),
    (exists constant',
        vector_swizzle_loop subscript rest type_rows offsets previous constant
        = swizzle_ok offsets' constant')
    <-> exists more set,
        offsets' = (offsets ++ more)%list
        /\ names_components set type_rows rest more
        /\ (previous = None \/ previous = Some set).
Proof.
  unfold names_components.
  induction rest as [|c rest IH]; intros offsets previous constant offsets';
    cbn [vector_swizzle_loop list_ascii_of_string].
  - split.
    + intros (constant' & Heq). injection Heq as <- _.
      exists [], (match previous with Some set => set | None => xyzw end).
      rewrite app_nil_r. repeat split; [constructor|]. destruct previous; auto.
    + intros (more & set & -> & Hall & _). inversion Hall; subst.
      rewrite app_nil_r. now exists constant.
  - split.
    + intros (constant' & Heq).
      destruct (swizzle_component c) as [[o set]|] eqn:Hc; [|discriminate Heq].
      destruct (match previous with
                | Some set' => negb (swizzle_set_eqb set set')
                | None => false
                end) eqn:Hset; [discriminate Heq|].
      destruct (type_rows <=? o) eqn:Hrows; [discriminate Heq|].
      apply Z.leb_gt in Hrows.
      destruct (proj1 (IH _ _ _ _) (ex_intro _ constant' Heq))
        as (more & set' & -> & Hall & Hprev).
      assert (set' = set) by (destruct Hprev as [Hp|Hp]; [discriminate Hp | congruence]).
      subst set'.
      exists (o :: more), set. rewrite <- app_assoc. repeat split.
      * constructor; [|exact Hall]. split; [exact Hc|].
        pose proof (swizzle_component_nonneg _ _ _ Hc). lia.
      * destruct previous as [set'|]; [|now left]. right.
        apply negb_false_iff, swizzle_set_eqb_eq in Hset. congruence.
    + intros (more & set & -> & Hall & Hprev).
      inversion Hall as [|? o ? more' [Hc Ho] Hall']; subst.
      rewrite Hc.
      replace (match previous with
               | Some set' => negb (swizzle_set_eqb set set')
               | None => false
               end) with false.
      2:{ destruct Hprev as [-> | ->]; [reflexivity|].
          symmetry. apply negb_false_iff, swizzle_set_eqb_eq. reflexivity. }
      replace (type_rows <=? o) with false by (symmetry; apply Z.leb_gt; lia).
      replace (offsets ++ o :: more')%list with ((offsets ++ [o]) ++ more')%list
        by (rewrite <- app_assoc; reflexivity).
      apply (proj2 (IH _ _ _ _)). exists more', set. repeat split; auto.
Qed.

Lemma length_list_ascii (s : string) :
  List.length (list_ascii_of_string s) = String.length s.
Proof. induction s as [|c s IH]; cbn; [reflexivity | now rewrite IH]. Qed.

(** X12.  A vector swizzle is accepted exactly when it has at most four
    characters, all of one set, each naming a component the vector has; the
    offsets are those components in order, and the flag tells whether one
    repeats. *)
Theorem vector_swizzle_accepts (subscript : string) (type_rows : Z) (offsets : list Z)
        (constant : bool) :
  vector_swizzle subscript type_rows = swizzle_ok offsets constant
  <-> (String.length subscript <= 4)%nat
      /\ (exists set, names_components set type_rows subscript offsets)
      /\ (constant = true <-> ~ NoDup offsets).
Proof.
  split.
  - intros Hok.
    pose proof (swizzle_flag _ subscript type_rows 0 offsets constant (or_introl eq_refl) Hok)
      as Hflag.
    unfold vector_swizzle in Hok.
    destruct (4 <? Str.size subscript) eqn:Hlen; [discriminate Hok|].
    apply Z.ltb_ge in Hlen. unfold Str.size in Hlen.
    destruct (proj1 (vector_swizzle_loop_ok subscript type_rows subscript [] None false offsets)
                (ex_intro _ constant Hok)) as (more & set & -> & Hall & _).
    split; [lia|]. split; [now exists set | exact Hflag].
  - intros (Hlen & (set & Hall) & Hflag).
    destruct (proj2 (vector_swizzle_loop_ok subscript type_rows subscript [] None false offsets))
      as (constant' & Hok).
    { exists offsets, set. repeat split; auto. }
    assert (Hrun : vector_swizzle subscript type_rows = swizzle_ok offsets constant').
    { unfold vector_swizzle.
      replace (4 <? Str.size subscript) with false; [exact Hok|].
      symmetry. apply Z.ltb_ge. unfold Str.size. lia. }
    pose proof (swizzle_flag _ subscript type_rows 0 offsets constant' (or_introl eq_refl) Hrun)
      as Hflag'.
    rewrite Hrun. f_equal.
    destruct constant, constant'; try reflexivity.
    + assert (Hc : false = true) by (apply Hflag'; now apply Hflag). discriminate Hc.
    + assert (Hc : false = true) by (apply Hflag; now apply Hflag'). discriminate Hc.
Qed.

Lemma get_in_range (s : string) (k : nat) (c : ascii) :
  String.get k s = Some c -> (k < String.length s)%nat.
Proof.
  revert k. induction s as [|x s IH]; intros k Hget; [discriminate Hget|].
  destruct k as [|k]; cbn in *; [lia|]. apply IH in Hget. lia.
Qed.

Lemma char_at_character (s : string) (k : nat) (c : Z) :
  char_at s k = Some c -> c <> 0 -> (k < String.length s)%nat.
Proof.
  unfold char_at. destruct (String.get k s) as [x|] eqn:Hget.
  - intros _ _. eapply get_in_range. exact Hget.
  - destruct (k =? String.length s)%nat; [|discriminate].
    intros Heq. injection Heq as <-. congruence.
Qed.

Lemma matrix_swizzle_loop_ok (subscript : string) (set type_rows type_cols : Z) :
  0 <= set ->
  forall (rounds i j : nat) (offsets : list Z) (constant : bool)
         (offsets' : list Z) (constant' : bool),
    (i <= String.length subscript)%nat ->
    (String.length subscript - i <= rounds)%nat ->
    matrix_swizzle_loop rounds subscript set type_rows type_cols i j offsets constant
    = swizzle_ok offsets' constant' ->
    exists more,
      offsets' = (offsets ++ more)%list
      /\ Forall (matrix_element type_rows type_cols) more
      /\ (i + List.length more * (3 + Z.to_nat set) = String.length subscript)%nat
      /\ (more <> [] -> (j + List.length more <= 4)%nat).
Proof.
  intros Hset.
  induction rounds as [|rounds IH]; intros i j offsets constant offsets' constant' Hi Hrounds;
    cbn [matrix_swizzle_loop].
  - intros Heq. injection Heq as <- _. exists []. rewrite app_nil_r.
    repeat split; [constructor | cbn; lia | congruence].
  - destruct (i <? String.length subscript)%nat eqn:Hlt; cbn [negb].
    2:{ intros Heq. injection Heq as <- _. apply Nat.ltb_ge in Hlt.
        exists []. rewrite app_nil_r. repeat split; [constructor | cbn; lia | congruence]. }
    apply Nat.ltb_lt in Hlt.
    destruct (char_at subscript i) as [c0|]; [|discriminate].
    destruct (negb (c0 =? 95)); [discriminate|].
    destruct (char_at subscript (i + Z.to_nat set + 1)) as [c1|]; [|discriminate].
    destruct ((c1 <? 48 + (if set =? 0 then 1 else 0))
              || (51 + (if set =? 0 then 1 else 0) <? c1)) eqn:H1; [discriminate|].
    destruct (char_at subscript (i + Z.to_nat set + 2)) as [c2|] eqn:Hc2; [|discriminate].
    destruct ((c2 <? 48 + (if set =? 0 then 1 else 0))
              || (51 + (if set =? 0 then 1 else 0) <? c2)) eqn:H2; [discriminate|].
    destruct (char_at subscript (i + 1)) as [cm|]; [|discriminate].
    destruct (negb (set =? 0) && negb (cm =? 109)); [discriminate|].
    match goal with |- context [if ?b then swizzle_error _ else _] => destruct b eqn:Hrange end;
      [discriminate|].
    intros Heq.
    apply orb_false_elim in H1. destruct H1 as [H1a H1b].
    apply orb_false_elim in H2. destruct H2 as [H2a H2b].
    apply Z.ltb_ge in H1a, H1b, H2a, H2b.
    apply orb_false_elim in Hrange. destruct Hrange as [Hrange Hj].
    apply orb_false_elim in Hrange. destruct Hrange as [Hrow Hcol].
    apply Z.leb_gt in Hrow, Hcol. apply Nat.ltb_ge in Hj.
    assert (Hcoef : 0 <= (if set =? 0 then 1 else 0) <= 1) by (destruct (set =? 0); lia).
    assert (Hend : (i + Z.to_nat set + 2 < String.length subscript)%nat)
      by (apply (char_at_character _ _ _ Hc2); lia).
    apply IH in Heq; [|lia|lia]. destruct Heq as (more & -> & Hall & Hlen & Hcount).
    exists ((c1 - 48 - (if set =? 0 then 1 else 0)) * 4
            + (c2 - 48 - (if set =? 0 then 1 else 0)) :: more).
    rewrite <- app_assoc. repeat split.
    + constructor; [|exact Hall].
      exists (c1 - 48 - (if set =? 0 then 1 else 0)), (c2 - 48 - (if set =? 0 then 1 else 0)).
      repeat split; lia.
    + cbn [List.length]. lia.
    + intros _. cbn [List.length]. destruct more as [|o more]; [cbn; lia|].
      specialize (Hcount ltac:(discriminate)). cbn [List.length] in *. lia.
Qed.

(** X13.  An accepted matrix swizzle names one to four elements the matrix has,
    and its length is the number of elements times the length of one
    element name. *)
Theorem matrix_swizzle_in_range (subscript : string) (type_rows type_cols : Z)
        (offsets : list Z) (constant : bool) :
  matrix_swizzle subscript type_rows type_cols = swizzle_ok offsets constant ->
  let set := match char_at subscript 1 with Some 109 => 1 | _ => 0 end in
  Forall (matrix_element type_rows type_cols) offsets
  /\ (1 <= List.length offsets <= 4)%nat
  /\ Str.size subscript = Z.of_nat (List.length offsets) * (3 + set)
  /\ Str.size subscript / (3 + set) = Z.of_nat (List.length offsets).
Proof.
  intros Hok set. unfold matrix_swizzle in Hok.
  destruct (Str.size subscript <? 3) eqn:Hlen; [discriminate Hok|].
  apply Z.ltb_ge in Hlen. unfold Str.size in *.
  fold set in Hok.
  assert (Hset : 0 <= set <= 1).
  { subst set. destruct (char_at subscript 1) as [[|[]|]|]; try lia.
    repeat match goal with |- context [match ?p with _ => _ end] => destruct p end; lia. }
  apply (matrix_swizzle_loop_ok subscript set type_rows type_cols ltac:(lia)) in Hok;
    [|lia|lia].
  destruct Hok as (more & Heq & Hall & Hlength & Hcount).
  cbn [app] in Heq. subst more.
  assert (Hsome : offsets <> []) by (intros ->; cbn in Hlength; lia).
  specialize (Hcount Hsome).
  assert (Hsize : Z.of_nat (String.length subscript)
                  = Z.of_nat (List.length offsets) * (3 + set)).
  { rewrite <- Hlength, Nat.add_0_l.
    rewrite Nat2Z.inj_mul, Nat2Z.inj_add, Z2Nat.id by lia. reflexivity. }
  assert (Hone : (1 <= List.length offsets)%nat)
    by (destruct offsets; [congruence | cbn; lia]).
  repeat split; try assumption; try lia.
  rewrite Hsize. apply Z.div_mul. lia.
Qed.

Lemma get_app_left (s t : string) (k : nat) :
  (k < String.length s)%nat -> String.get k (s ++ t) = String.get k s.
Proof.
  revert k. induction s as [|x s IH]; intros k Hk; cbn in *; [lia|].
  destruct k as [|k]; [reflexivity|]. apply IH. lia.
Qed.

Lemma get_app_right (s t : string) (k : nat) :
  String.get (String.length s + k) (s ++ t) = String.get k t.
Proof. induction s as [|x s IH]; cbn; [reflexivity | exact IH]. Qed.

Lemma length_append (s t : string) :
  String.length (s ++ t) = (String.length s + String.length t)%nat.
Proof. induction s as [|x s IH]; cbn; [reflexivity | now rewrite IH]. Qed.

Lemma get_some (s : string) (k : nat) :
  (k < String.length s)%nat -> exists c, String.get k s = Some c.
Proof.
  revert k. induction s as [|x s IH]; intros k Hk; cbn in *; [lia|].
  destruct k as [|k]; [now exists x|]. apply IH. lia.
Qed.

Lemma char_at_app_left (s t : string) (k : nat) :
  (k < String.length s)%nat -> char_at (s ++ t) k = char_at s k.
Proof.
  intros Hk. unfold char_at. rewrite get_app_left by exact Hk.
  destruct (get_some s k Hk) as (c & ->). reflexivity.
Qed.

Lemma matrix_swizzle_loop_past_the_end (subscript : string) (type_rows type_cols : Z) :
  forall (rounds i j : nat) (offsets : list Z) (constant : bool)
         (offsets' : list Z) (constant' : bool) (rounds' : nat),
    (i <= String.length subscript)%nat ->
    (String.length subscript - i <= rounds)%nat ->
    (rounds < rounds')%nat ->
    matrix_swizzle_loop rounds subscript 1 type_rows type_cols i j offsets constant
    = swizzle_ok offsets' constant' ->
    matrix_swizzle_loop rounds' (subscript ++ "_") 1 type_rows type_cols i j offsets constant
    = swizzle_undefined.
Proof.
  assert (Hlast : forall i j offsets constant rounds',
             i = String.length subscript ->
             matrix_swizzle_loop (S rounds') (subscript ++ "_") 1 type_rows type_cols
                                 i j offsets constant
             = swizzle_undefined).
  { intros i j offsets constant rounds' ->. cbn [matrix_swizzle_loop].
    rewrite length_append. cbn [String.length].
    replace (String.length subscript <? String.length subscript + 1)%nat with true
      by (symmetry; apply Nat.ltb_lt; lia).
    cbn [negb].
    assert (H0 : char_at (subscript ++ "_") (String.length subscript) = Some 95).
    { unfold char_at.
      replace (String.length subscript) with (String.length subscript + 0)%nat at 1 by lia.
      rewrite get_app_right. reflexivity. }
    rewrite H0. cbn [Z.eqb Pos.eqb negb].
    assert (H2 : char_at (subscript ++ "_") (String.length subscript + Z.to_nat 1 + 1) = None).
    { unfold char_at. change (Z.to_nat 1) with 1%nat.
      replace (String.length subscript + 1 + 1)%nat with (String.length subscript + 2)%nat
        by lia.
      rewrite get_app_right. cbn [String.get].
      rewrite length_append. cbn [String.length].
      replace (String.length subscript + 2 =? String.length subscript + 1)%nat with false
        by (symmetry; apply Nat.eqb_neq; lia).
      reflexivity. }
    rewrite H2. reflexivity. }
  induction rounds as [|rounds IH];
    intros i j offsets constant offsets' constant' rounds' Hi Hrounds Hmore.
  - intros _. destruct rounds' as [|rounds']; [lia|]. apply Hlast. lia.
  - destruct rounds' as [|rounds']; [lia|].
    destruct (Nat.eq_dec i (String.length subscript)) as [Heq|Hne];
      [intros _; now apply Hlast|].
    cbn [matrix_swizzle_loop]. rewrite length_append. cbn [String.length].
    replace (i <? String.length subscript)%nat with true by (symmetry; apply Nat.ltb_lt; lia).
    replace (i <? String.length subscript + 1)%nat with true by (symmetry; apply Nat.ltb_lt; lia).
    cbn [negb]. change (Z.to_nat 1) with 1%nat. change (1 =? 0) with false. cbv iota.
    destruct (char_at subscript i) as [c0|] eqn:Hc0; [|discriminate].
    destruct (negb (c0 =? 95)) eqn:Hu; [discriminate|].
    destruct (char_at subscript (i + 1 + 1)) as [c1|] eqn:Hc1; [|discriminate].
    destruct ((c1 <? 48 + 0) || (51 + 0 <? c1)) eqn:H1; [discriminate|].
    destruct (char_at subscript (i + 1 + 2)) as [c2|] eqn:Hc2; [|discriminate].
    destruct ((c2 <? 48 + 0) || (51 + 0 <? c2)) eqn:H2; [discriminate|].
    destruct (char_at subscript (i + 1)) as [cm|] eqn:Hcm; [|discriminate].
    destruct (negb false && negb (cm =? 109)) eqn:Hm; [discriminate|].
    match goal with |- context [if ?b then swizzle_error _ else _] => destruct b eqn:Hrange end;
      [discriminate|].
    intros Hok.
    pose proof H2 as H2'.
    apply orb_false_elim in H2'. destruct H2' as [H2a _]. apply Z.ltb_ge in H2a.
    assert (Hend : (i + 1 + 2 < String.length subscript)%nat)
      by (apply (char_at_character _ _ _ Hc2); lia).
    rewrite !char_at_app_left by lia.
    rewrite Hc0, Hu, Hc1, H1, Hc2, H2, Hcm, Hm, Hrange.
    eapply IH; [| | |exact Hok]; lia.
Qed.

(** X14.  A swizzle of the [_m] set followed by one more [_]: the loop goes on
    to the lone [_] and reads the subscript one character past its
    terminator. *)
Theorem matrix_swizzle_reads_past_the_end (subscript : string) (type_rows type_cols : Z)
        (offsets : list Z) (constant : bool) :
  matrix_swizzle subscript type_rows type_cols = swizzle_ok offsets constant ->
  char_at subscript 1 = Some 109 ->
  matrix_swizzle (subscript ++ "_") type_rows type_cols = swizzle_undefined.
Proof.
  intros Hok Hm. unfold matrix_swizzle in *.
  destruct (Str.size subscript <? 3) eqn:Hlen; [discriminate Hok|].
  apply Z.ltb_ge in Hlen. unfold Str.size in *. rewrite length_append. cbn [String.length].
  replace (Z.of_nat (String.length subscript + 1) <? 3) with false
    by (symmetry; apply Z.ltb_ge; lia).
  rewrite char_at_app_left by lia. rewrite Hm in *.
  eapply matrix_swizzle_loop_past_the_end; [| | |exact Hok]; lia.
Qed.

Lemma matrix_swizzle_witness :
  matrix_swizzle "_m00_m11" 4 4 = swizzle_ok [0; 5] false
  /\ Forall (matrix_element 4 4) [0; 5]
  /\ Str.size "_m00_m11" / (3 + 1) = 2.
Proof.
  split; [reflexivity|].
  destruct (matrix_swizzle_in_range "_m00_m11" 4 4 [0; 5] false eq_refl)
    as (Hall & _ & _ & Hcount).
  split; [exact Hall | exact Hcount].
Defined.

Lemma matrix_swizzle_past_the_end_witness :
  matrix_swizzle "_m00" 4 4 = swizzle_ok [0] false
  /\ matrix_swizzle "_m00_" 4 4 = swizzle_undefined.
Proof.
  split; [reflexivity|].
  exact (matrix_swizzle_reads_past_the_end "_m00" 4 4 [0] false eq_refl eq_refl).
Defined.

(** ** A namespace left open *)

Local Open Scope Z_scope.

Section NamespaceFacts.
Context {H : Type}.
Variable E : externals H.
Variable ptr_bits : Z.

Lemma qualifier_keywords_miss (l : list (tokenid * Z)) (q : Z) (p : parser H) :
  Forall (fun k => id (_token_next p) <> fst k) l ->
  accept_qualifier_keywords l q p = Done q p.
Proof.
  intros Hall. revert q. induction Hall as [|[t bit] l Hne _ IH]; intros q; [reflexivity|].
  cbn [accept_qualifier_keywords]. unfold bind at 1. rewrite (accept_miss t p Hne). apply IH.
Qed.

Lemma accept_type_class_at_the_end (fuel : nat) (type : spv_type) (p : parser H) :
  id (_token_next p) = end_of_file ->
  accept_type_class E (S fuel) type p = Done (false, set_dims type 0 0) p.
Proof.
  intros Heof. cbn [accept_type_class].
  unfold bind at 1. rewrite peek_miss by (rewrite Heof; discriminate).
  unfold bind at 1. rewrite accept_miss by (rewrite Heof; discriminate).
  unfold bind at 1. rewrite accept_miss by (rewrite Heof; discriminate).
  unfold bind at 1, gets at 1. rewrite Heof. reflexivity.
Qed.

Lemma parse_type_at_the_end (fuel : nat) (type : spv_type) (p : parser H) :
  id (_token_next p) = end_of_file ->
  parse_type E (S fuel) type p = Done (false, set_dims (set_qualifiers type 0) 0 0) p.
Proof.
  intros Heof. unfold parse_type. cbn [accept_type_qualifiers].
  unfold bind at 1. unfold bind at 1.
  rewrite qualifier_keywords_miss
    by (repeat constructor; cbn [fst]; rewrite Heof; discriminate).
  cbn [Z.eqb]. unfold ret at 1. unfold bind at 1, gets at 1.
  unfold bind at 1. rewrite accept_type_class_at_the_end by exact Heof.
  reflexivity.
Qed.

(** At the end of the input [parse_top_level] consumes the end-of-file
    token, reports it as unexpected and fails; the input is still at its
    end. *)
Lemma parse_top_level_at_the_end (fuel : nat) (p : parser H) :
  id (_token_next p) = end_of_file ->
  _lexer p = Some [] ->
  parse_top_level E ptr_bits fuel p = Abort out_of_fuel
  \/ exists p',
      parse_top_level E ptr_bits fuel p = Done false p'
      /\ id (_token_next p') = end_of_file
      /\ _lexer p' = Some [].
Proof.
  intros Heof Hl. destruct fuel as [|fuel]; [now left|].
  remember (parse_top_level E ptr_bits (S fuel) p) as r eqn:Hr.
  cbn [parse_top_level] in Hr.
  unfold bind at 1 in Hr. rewrite accept_miss in Hr by (rewrite Heof; discriminate).
  unfold bind at 1 in Hr. rewrite accept_miss in Hr by (rewrite Heof; discriminate).
  unfold bind at 1 in Hr. rewrite accept_miss in Hr by (rewrite Heof; discriminate).
  unfold bind at 1 in Hr.
  destruct fuel as [|fuel]; [left; exact Hr|].
  rewrite parse_type_at_the_end in Hr by exact Heof.
  unfold bind at 1 in Hr. rewrite accept_miss in Hr by (rewrite Heof; discriminate).
  unfold bind at 1 in Hr. rewrite (consume_done p [] Hl) in Hr.
  right. eexists. split; [exact Hr|].
  unfold consumed. rewrite Hl. cbn. split; [reflexivity | exact Hl].
Qed.

Lemma namespace_loop_at_the_end (m : nat) :
  forall (n : nat) (success : bool) (p : parser H),
    id (_token_next p) = end_of_file ->
    _lexer p = Some [] ->
    loop n (namespace_body (parse_top_level E ptr_bits m)) success p = Abort out_of_fuel.
Proof.
  induction n as [|n IH]; intros success p Heof Hl; [reflexivity|].
  cbn [loop]. unfold bind at 1. unfold namespace_body at 1. unfold bind at 1.
  rewrite peek_miss by (rewrite Heof; discriminate).
  unfold bind at 1.
  destruct (parse_top_level_at_the_end m p Heof Hl) as [-> | (p' & -> & Heof' & Hl')];
    [reflexivity|].
  unfold ret at 1. apply IH; assumption.
Qed.

(** X15.  A namespace that is still open at the end of the input: the loop over
    its declarations has no exit there, each round consumes the end of the
    input again and reports it. *)
Theorem unterminated_namespace_never_returns (fuel : nat) (p : parser H)
        (name brace : token) :
  id (_token_next p) = namespace_ ->
  _lexer p = Some [name; brace] ->
  id name = identifier ->
  id brace = chr "{" ->
  (forall s q, exists q',
      enter_namespace E s q = Done tt q'
      /\ _token_next q' = _token_next q /\ _lexer q' = _lexer q) ->
  parse_top_level E ptr_bits fuel p = Abort out_of_fuel.
Proof.
  intros Hns Hl Hname Hbrace Henter.
  destruct fuel as [|fuel]; [reflexivity|].
  cbn [parse_top_level].
  unfold bind at 1. rewrite (accept_hit namespace_ p _ Hl Hns).
  destruct (consumed_fields p _ Hl) as (_ & _ & _ & Hnext).
  pose proof (consumed_lexer p _ Hl) as Hl1. cbn [hd tl] in *.
  unfold require at 1, bind at 1, expect at 1, bind at 1.
  rewrite (accept_hit identifier (consumed p) _ Hl1) by (rewrite Hnext; exact Hname).
  destruct (consumed_fields (consumed p) _ Hl1) as (_ & _ & _ & Hnext2).
  pose proof (consumed_lexer (consumed p) _ Hl1) as Hl2. cbn [hd tl] in *.
  unfold ret at 1. unfold bind at 1, gets at 1.
  unfold require at 1, bind at 1, expect at 1, bind at 1.
  rewrite (accept_hit (chr "{") (consumed (consumed p)) _ Hl2)
    by (rewrite Hnext2; exact Hbrace).
  destruct (consumed_fields (consumed (consumed p)) _ Hl2) as (_ & _ & _ & Hnext3).
  pose proof (consumed_lexer (consumed (consumed p)) _ Hl2) as Hl3. cbn [hd tl] in *.
  unfold ret at 1. unfold bind at 1.
  destruct (Henter (literal_as_string (_token (consumed (consumed p))))
                   (consumed (consumed (consumed p)))) as (q' & -> & Hn' & Hl').
  unfold bind at 1.
  rewrite namespace_loop_at_the_end; [reflexivity| |].
  - rewrite Hn', Hnext3. reflexivity.
  - rewrite Hl', Hl3. reflexivity.
Qed.

End NamespaceFacts.

Lemma unterminated_namespace_witness :
  run Reference.E 64 5 [Reference.tok namespace_; Reference.name "N"; Reference.punct "{"]
      (new_parser tt 1)
  = Abort out_of_fuel.
Proof.
  unfold run. unfold bind at 1, modify at 1.
  unfold bind at 1.
  match goal with |- context [consume ?q] => rewrite (consume_done q _ eq_refl) end.
  unfold bind at 1.
  cbn [loop]. unfold bind at 1. unfold run_body at 1. unfold bind at 1.
  rewrite peek_miss by (vm_compute; discriminate).
  unfold bind at 1.
  rewrite (unterminated_namespace_never_returns Reference.E 64 5 _
             (Reference.name "N") (Reference.punct "{")); try reflexivity.
  intros s q. eexists. split; [reflexivity|]. split; reflexivity.
Defined.

(** ** Qualifiers *)

Local Open Scope Z_scope.

Section QualifierFacts.
Context {H : Type}.

Lemma tokenid_eqb_eq (a b : tokenid) : tokenid_eqb a b = true -> a = b.
Proof. unfold tokenid_eqb. destruct (tokenid_eq_dec a b); [trivial | discriminate]. Qed.

Lemma qualifier_of_keyword (t : tokenid) (bit : Z) :
  In (t, bit) qualifier_keywords -> qualifier_of t = Some bit.
Proof.
  intros Hin. cbn in Hin.
  repeat (destruct Hin as [Heq|Hin]; [injection Heq as <- <-; reflexivity|]).
  destruct Hin.
Qed.

Lemma qualifier_is_keyword (t : tokenid) :
  qualifier_of t <> None -> In t (map fst qualifier_keywords).
Proof.
  unfold qualifier_of. intros Hsome.
  destruct (find _ qualifier_keywords) as [[k bit]|] eqn:Hfind; [|now elim Hsome].
  apply find_some in Hfind. destruct Hfind as [Hin Heq]. cbn [fst] in Heq.
  apply tokenid_eqb_eq in Heq. subst k.
  apply (in_map fst) in Hin. exact Hin.
Qed.

Lemma qualifier_positive (t : tokenid) (bit : Z) : qualifier_of t = Some bit -> 0 < bit.
Proof.
  unfold qualifier_of. intros Hsome.
  destruct (find _ qualifier_keywords) as [[k b]|] eqn:Hfind; [|discriminate Hsome].
  apply find_some in Hfind. destruct Hfind as [Hin _]. injection Hsome as <-. cbn [snd].
  cbn in Hin.
  repeat (destruct Hin as [Heq|Hin]; [injection Heq as <- <-; reflexivity|]).
  destruct Hin.
Qed.

Lemma qualifier_bits_lor (ks : list token) :
  forall q, qualifier_bits ks q = Z.lor q (qualifier_bits ks 0).
Proof.
  unfold qualifier_bits.
  induction ks as [|k ks IH]; intros q; cbn [fold_left].
  - now rewrite Z.lor_0_r.
  - destruct (qualifier_of (id k)) as [bit|]; [|apply IH].
    rewrite (IH (Z.lor q bit)), (IH (Z.lor 0 bit)), Z.lor_0_l. now rewrite Z.lor_assoc.
Qed.

Lemma qualifier_bits_nonzero (ks : list token) :
  Forall (fun t => qualifier_of (id t) <> None) ks ->
  ks <> [] -> qualifier_bits ks 0 <> 0.
Proof.
  intros Hall Hne. destruct ks as [|k ks]; [now elim Hne|].
  apply Forall_cons_iff in Hall. destruct Hall as [Hk _].
  unfold qualifier_bits. cbn [fold_left].
  destruct (qualifier_of (id k)) as [bit|] eqn:Hbit; [|now elim Hk].
  pose proof (qualifier_positive _ _ Hbit) as Hpos.
  fold (qualifier_bits ks (Z.lor 0 bit)).
  rewrite qualifier_bits_lor, Z.lor_0_l.
  intros Hzero. apply Z.lor_eq_0_iff in Hzero. lia.
Qed.

(** One round over the keywords [kws]: it takes a run of qualifier tokens
    off the input, and the first token when [kws] has its keyword. *)
Lemma qualifier_round (kws : list (tokenid * Z)) :
  (forall t bit, In (t, bit) kws -> qualifier_of t = Some bit) ->
  forall (q : Z) (p : parser H) (l ks rest : list token) (stop : token),
    _lexer p = Some l ->
    _token_next p :: l = (ks ++ stop :: rest)%list ->
    qualifier_of (id stop) = None ->
    exists ks1 ks2 p',
      ks = (ks1 ++ ks2)%list
      /\ accept_qualifier_keywords kws q p = Done (qualifier_bits ks1 q) p'
      /\ _lexer p' = Some (tl (ks2 ++ stop :: rest))
      /\ _token_next p' = hd eof_token (ks2 ++ stop :: rest)
      /\ _errors p' = _errors p
      /\ (In (id (_token_next p)) (map fst kws) -> ks1 <> []).
Proof.
  induction kws as [|[t bit] kws IH]; intros Htable q p l ks rest stop Hl Hinput Hstop.
  - exists [], ks, p. cbn [app accept_qualifier_keywords qualifier_bits fold_left].
    rewrite <- Hinput. cbn [hd tl map]. repeat split; try assumption. intros [].
  - cbn [accept_qualifier_keywords]. unfold bind at 1.
    destruct (tokenid_eq_dec (id (_token_next p)) t) as [Heq|Hne].
    + rewrite (accept_hit t p l Hl Heq).
      destruct ks as [|k ks].
      { exfalso. cbn [app] in Hinput. injection Hinput as Hnext _.
        rewrite Hnext in Heq. rewrite Heq in Hstop.
        rewrite (Htable t bit (or_introl eq_refl)) in Hstop. discriminate Hstop. }
      cbn [app] in Hinput. injection Hinput as Hnext Hrest.
      destruct (consumed_fields p l Hl) as (_ & _ & _ & Hnext').
      pose proof (consumed_lexer p l Hl) as Hl'.
      destruct (IH (fun t' b' Hin => Htable t' b' (or_intror Hin)) (Z.lor q bit)
                   (consumed p) (tl l) ks rest stop Hl')
        as (ks1 & ks2 & p' & -> & Hrun & Hlex & Htok & Herr & _).
      { rewrite Hnext', Hrest. destruct ks; reflexivity. }
      { exact Hstop. }
      exists (k :: ks1), ks2, p'. split; [reflexivity|].
      split.
      { rewrite Hrun. unfold qualifier_bits. cbn [fold_left].
        rewrite <- Hnext, Heq, (Htable t bit (or_introl eq_refl)). reflexivity. }
      destruct (consumed_frame p) as (_ & _ & _ & _ & Herrors).
      repeat split; try assumption; [congruence | discriminate].
    + rewrite (accept_miss t p Hne).
      destruct (IH (fun t' b' Hin => Htable t' b' (or_intror Hin)) q p l ks rest stop
                   Hl Hinput Hstop)
        as (ks1 & ks2 & p' & -> & Hrun & Hlex & Htok & Herr & Hfirst).
      exists ks1, ks2, p'. repeat split; try assumption.
      cbn [map fst In]. intros [Heq|Hin]; [now elim Hne | now apply Hfirst].
Qed.

Lemma warning_is_no_error (p : parser H) (d : diagnostic) :
  is_error d = false ->
  error_diagnostics (set_errors (_errors p ++ [d]) p) = error_diagnostics p.
Proof.
  intros Hd. unfold error_diagnostics. cbn. rewrite filter_app. cbn [filter].
  rewrite Hd. apply app_nil_r.
Qed.

(** X16.  Qualifiers are taken in any order and any number: the keywords before
    the first token that is no qualifier are all consumed, and the type
    gets the bits of all of them; only warnings are reported. *)
Theorem qualifiers_in_any_order (fuel : nat) :
  forall (type : spv_type) (p : parser H) (l ks rest : list token) (stop : token),
    _lexer p = Some l ->
    _token_next p :: l = (ks ++ stop :: rest)%list ->
    Forall (fun t => qualifier_of (id t) <> None) ks ->
    qualifier_of (id stop) = None ->
    (List.length ks < fuel)%nat ->
    exists p',
      accept_type_qualifiers fuel type p
      = Done (negb (Nat.eqb (List.length ks) 0),
              set_qualifiers type (qualifier_bits ks (qualifiers type))) p'
      /\ _token_next p' = stop
      /\ _lexer p' = Some rest
      /\ error_diagnostics p' = error_diagnostics p.
Proof.
  induction fuel as [|fuel IH];
    intros type p l ks rest stop Hl Hinput Hall Hstop Hfuel; [lia|].
  cbn [accept_type_qualifiers]. unfold bind at 1.
  destruct (qualifier_round qualifier_keywords qualifier_of_keyword 0 p l ks rest stop
              Hl Hinput Hstop)
    as (ks1 & ks2 & p1 & -> & Hrun & Hlex & Htok & Herr & Hfirst).
  rewrite Hrun.
  apply Forall_app in Hall. destruct Hall as [Hall1 Hall2].
  destruct ks1 as [|k ks1].
  - (* nothing taken: the next token is no qualifier *)
    cbn [qualifier_bits fold_left Z.eqb]. unfold ret.
    destruct ks2 as [|k ks2].
    + exists p1. cbn [app List.length Nat.eqb negb qualifier_bits fold_left hd tl] in *.
      replace (set_qualifiers type (qualifiers type)) with type by (destruct type; reflexivity).
      repeat split; try assumption. unfold error_diagnostics. now rewrite Herr.
    + exfalso. apply Hfirst; [|reflexivity].
      cbn [app] in Hinput. injection Hinput as -> _.
      apply Forall_cons_iff in Hall2. apply qualifier_is_keyword. apply Hall2.
  - pose proof (qualifier_bits_nonzero (k :: ks1) Hall1 ltac:(discriminate)) as Hnz.
    apply Z.eqb_neq in Hnz. rewrite Hnz.
    set (q := qualifier_bits (k :: ks1) 0) in *.
    set (type1 := set_qualifiers type (Z.lor (qualifiers type) q)).
    assert (Hstep : exists p2,
               (if Z.land (qualifiers type) q =? q
                then tok <- gets (@_token H) ;;
                     warning (tok_location tok) 3048 "duplicate usages specified"
                else ret tt) p1 = Done tt p2
               /\ _lexer p2 = _lexer p1 /\ _token_next p2 = _token_next p1
               /\ error_diagnostics p2 = error_diagnostics p1).
    { destruct (Z.land (qualifiers type) q =? q).
      - eexists. split; [reflexivity|]. cbn. repeat split.
        apply warning_is_no_error. reflexivity.
      - exists p1. repeat split. }
    destruct Hstep as (p2 & Hwarn & Hlex2 & Htok2 & Herr2).
    unfold bind at 1. rewrite Hwarn. unfold bind at 1.
    destruct (IH type1 p2 (tl (ks2 ++ stop :: rest)) ks2 rest stop) as (p' & Hrec & Hn & Hl' & He).
    + congruence.
    + rewrite Htok2, Htok. destruct ks2; reflexivity.
    + exact Hall2.
    + exact Hstop.
    + rewrite length_app in Hfuel. cbn [List.length] in Hfuel. lia.
    + rewrite Hrec. unfold ret. exists p'.
      split.
      { rewrite length_app. cbn [List.length Nat.add Nat.eqb negb].
        f_equal. f_equal.
        assert (Hbits : qualifier_bits ((k :: ks1) ++ ks2) (qualifiers type)
                        = qualifier_bits ks2 (Z.lor (qualifiers type) q)).
        { unfold qualifier_bits. rewrite fold_left_app. f_equal.
          exact (qualifier_bits_lor (k :: ks1) (qualifiers type)). }
        rewrite Hbits. subst type1. destruct type; reflexivity. }
      repeat split; try assumption.
      rewrite He, Herr2. unfold error_diagnostics. now rewrite Herr.
Qed.

End QualifierFacts.

Lemma qualifiers_in_any_order_witness :
  exists p',
    accept_type_qualifiers 4 default_type
      (Reference.in_function
         [Reference.tok const_; Reference.tok static_; Reference.tok const_;
          Reference.tok float_])
    = Done (true, set_qualifiers default_type (Z.lor qualifier_const qualifier_static)) p'
    /\ _token_next p' = Reference.tok float_
    /\ error_diagnostics p' = [].
Proof.
  destruct (qualifiers_in_any_order 4 default_type
              (Reference.in_function
                 [Reference.tok const_; Reference.tok static_; Reference.tok const_;
                  Reference.tok float_])
              [Reference.tok static_; Reference.tok const_; Reference.tok float_]
              [Reference.tok const_; Reference.tok static_; Reference.tok const_] []
              (Reference.tok float_) eq_refl eq_refl)
    as (p' & Hrun & Hnext & _ & Herr).
  - repeat constructor; discriminate.
  - reflexivity.
  - cbn [List.length]. lia.
  - exists p'. split; [exact Hrun|]. split; [exact Hnext | exact Herr].
Defined.

(** ** Recovery inside a block *)

Local Open Scope Z_scope.

Section RecoveryFacts.
Context {H : Type}.

Lemma upcoming_consumed (p : parser H) (t : token) (ts : list token) :
  upcoming p (t :: ts) -> ts <> [] ->
  consume p = Done tt (consumed p)
  /\ upcoming (consumed p) ts
  /\ _token (consumed p) = t
  /\ _errors (consumed p) = _errors p.
Proof.
  intros (l & Hl & Hinput) Hts. injection Hinput as Hnext Hrest.
  destruct (consumed_fields p l Hl) as (_ & _ & Htok & Hnext').
  destruct (consumed_frame p) as (_ & _ & _ & _ & Herr).
  split; [apply (consume_done p l Hl)|]. split; [|split; [congruence | exact Herr]].
  exists (tl l). split; [apply (consumed_lexer p l Hl)|].
  rewrite Hnext', Hrest. destruct ts; [now elim Hts | reflexivity].
Qed.

Lemma consume_times_then (n m : nat) :
  forall (s s' : parser H),
    consume_times n s = Done tt s' ->
    consume_times (n + m) s = consume_times m s'.
Proof.
  induction n as [|n IHn]; intros s s' Hs.
  - injection Hs as <-. reflexivity.
  - cbn [consume_times Nat.add] in *. unfold bind in *.
    destruct (consume s) as [[] s1|]; [|discriminate Hs]. now apply IHn.
Qed.

(** A balanced run is skipped whole, and the nesting level after it is
    the one before it. *)
Lemma skip_balanced (b : list token) :
  balanced b ->
  forall (level : Z) (k : nat) (p : parser H) (tail : list token),
    0 <= level ->
    level + Z.of_nat (List.length b) < 2 ^ 32 ->
    upcoming p (b ++ tail) ->
    tail <> [] ->
    exists q,
      consume_times (List.length b) p = Done tt q
      /\ upcoming q tail
      /\ _errors q = _errors p
      /\ loop (List.length b + k) skip_block_body level p = loop k skip_block_body level q.
Proof.
  induction 1 as [|t b Hopen Hclose Heof _ IH|open close inner b Hopen Hclose _ IHinner _ IH];
    intros level k p tail Hlevel Hdepth Hinput Htail.
  - exists p. repeat split. exact Hinput.
  - cbn [app] in Hinput.
    assert (Hnext : _token_next p = t) by (destruct Hinput as (l & _ & Heq); congruence).
    destruct (upcoming_consumed p t (b ++ tail) Hinput) as (Hc & Hinput' & _ & Herr).
    { destruct b; [exact Htail | discriminate]. }
    cbn [List.length] in Hdepth.
    destruct (IH level k (consumed p) tail Hlevel ltac:(lia) Hinput' Htail)
      as (q & Hq & Hup & Herrq & Hloop).
    exists q. cbn [List.length consume_times]. unfold bind at 1. rewrite Hc.
    split; [exact Hq|]. split; [exact Hup|]. split; [congruence|].
    cbn [Nat.add loop].
    unfold bind at 1. unfold skip_block_body at 1.
    unfold bind at 1. rewrite peek_miss by (rewrite Hnext; exact Heof).
    unfold bind at 1. rewrite accept_miss by (rewrite Hnext; exact Hopen).
    unfold bind at 1. rewrite accept_miss by (rewrite Hnext; exact Hclose).
    unfold bind at 1. rewrite Hc. unfold ret at 1. exact Hloop.
  - cbn [app] in Hinput. rewrite <- app_assoc in Hinput. cbn [app] in Hinput.
    cbn [List.length] in Hdepth. rewrite length_app in Hdepth. cbn [List.length] in Hdepth.
    assert (Hnext : _token_next p = open) by (destruct Hinput as (l & _ & Heq); congruence).
    destruct (upcoming_consumed p open _ Hinput) as (Hc & Hinput1 & _ & Herr1).
    { destruct inner; discriminate. }
    destruct (IHinner (level + 1) (S (List.length b + k)) (consumed p)
                (close :: b ++ tail)%list ltac:(lia) ltac:(lia) Hinput1 ltac:(discriminate))
      as (q1 & Hq1 & Hup1 & Herrq1 & Hloop1).
    assert (Hnext1 : _token_next q1 = close)
      by (destruct Hup1 as (l & _ & Heq); congruence).
    destruct (upcoming_consumed q1 close (b ++ tail) Hup1) as (Hc1 & Hinput2 & _ & Herr2).
    { destruct b; [exact Htail | discriminate]. }
    destruct (IH level k (consumed q1) tail Hlevel ltac:(lia) Hinput2 Htail)
      as (q & Hq & Hup & Herrq & Hloop).
    exists q.
    assert (Hlen : List.length (open :: inner ++ close :: b)
                   = S (List.length inner + S (List.length b)))
      by (cbn [List.length]; rewrite length_app; reflexivity).
    rewrite Hlen.
    split.
    { cbn [consume_times]. unfold bind at 1. rewrite Hc.
      rewrite (consume_times_then _ _ _ _ Hq1). cbn [consume_times]. unfold bind at 1.
      rewrite Hc1. exact Hq. }
    split; [exact Hup|]. split; [congruence|].
    destruct Hinput as (l & Hl & _).
    cbn [Nat.add loop].
    unfold bind at 1. unfold skip_block_body at 1.
    unfold bind at 1. rewrite peek_miss by (rewrite Hnext, Hopen; discriminate).
    unfold bind at 1. rewrite (accept_hit (chr "{") p l Hl) by (rewrite Hnext; exact Hopen).
    unfold ret at 1.
    replace (uint32 (level + 1)) with (level + 1)
      by (unfold uint32, wrap; rewrite Z.mod_small; lia).
    replace (List.length inner + S (List.length b) + k)%nat
      with (List.length inner + S (List.length b + k))%nat by lia.
    rewrite Hloop1.
    destruct Hup1 as (l1 & Hl1 & _).
    cbn [loop].
    unfold bind at 1. unfold skip_block_body at 1.
    unfold bind at 1. rewrite peek_miss by (rewrite Hnext1, Hclose; discriminate).
    unfold bind at 1. rewrite accept_miss by (rewrite Hnext1, Hclose; discriminate).
    unfold bind at 1.
    rewrite (accept_hit (chr "}") q1 l1 Hl1) by (rewrite Hnext1; exact Hclose).
    replace (level + 1 =? 0) with false by (symmetry; apply Z.eqb_neq; lia).
    unfold ret at 1.
    replace (uint32 (level + 1 - 1)) with level
      by (unfold uint32, wrap; rewrite Z.mod_small; lia).
    exact Hloop.
Qed.

(** X17.  After a statement that failed, the rest of the block is skipped: the
    tokens up to the brace that closes the block, blocks nested in it
    included, and that brace, are consumed and nothing more. *)
Theorem rest_of_the_block_is_skipped (fuel : nat) (p : parser H)
        (body rest : list token) (close : token) :
  upcoming p (body ++ close :: rest) ->
  balanced body ->
  id close = chr "}" ->
  (List.length body < fuel)%nat ->
  Z.of_nat (List.length body) < 2 ^ 32 ->
  exists p',
    loop fuel skip_block_body 0 p = Done tt p'
    /\ consume_times (S (List.length body)) p = Done tt p'
    /\ _token p' = close
    /\ _token_next p' = hd eof_token rest
    /\ _lexer p' = Some (tl rest)
    /\ _errors p' = _errors p.
Proof.
  intros Hinput Hbalanced Hclose Hfuel Hdepth.
  destruct (skip_balanced body Hbalanced 0 (fuel - List.length body) p (close :: rest))
    as (q & Hq & Hup & Herr & Hloop); [lia | lia | exact Hinput | discriminate |].
  replace (List.length body + (fuel - List.length body))%nat with fuel in Hloop by lia.
  assert (Hnext : _token_next q = close) by (destruct Hup as (l & _ & Heq); congruence).
  destruct Hup as (l & Hl & Hrest).
  destruct (consumed_fields q l Hl) as (_ & _ & Htok & Hnext').
  destruct (consumed_frame q) as (_ & _ & _ & _ & Herr').
  exists (consumed q). split.
  { rewrite Hloop. destruct (fuel - List.length body)%nat as [|k] eqn:Hk; [lia|].
    cbn [loop].
    unfold bind at 1. unfold skip_block_body at 1.
    unfold bind at 1. rewrite peek_miss by (rewrite Hnext, Hclose; discriminate).
    unfold bind at 1. rewrite accept_miss by (rewrite Hnext, Hclose; discriminate).
    unfold bind at 1. rewrite (accept_hit (chr "}") q l Hl) by (rewrite Hnext; exact Hclose).
    reflexivity. }
  split.
  { replace (S (List.length body)) with (List.length body + 1)%nat by lia.
    rewrite (consume_times_then _ _ _ _ Hq). cbn [consume_times]. unfold bind, ret.
    rewrite (consume_done q l Hl). reflexivity. }
  injection Hrest as _ Hrest. subst l.
  split; [congruence|]. split; [exact Hnext'|].
  split; [apply (consumed_lexer q rest Hl) | congruence].
Qed.

End RecoveryFacts.

Lemma rest_of_the_block_witness :
  exists p',
    loop 7 skip_block_body 0
      (Reference.in_function
         [Reference.name "x"; Reference.punct "{"; Reference.name "y"; Reference.punct "}";
          Reference.punct ";"; Reference.punct "}"; Reference.name "z"])
    = Done tt p'
    /\ _token p' = Reference.punct "}"
    /\ _token_next p' = Reference.name "z"
    /\ _lexer p' = Some [].
Proof.
  destruct (rest_of_the_block_is_skipped 7
              (Reference.in_function
                 [Reference.name "x"; Reference.punct "{"; Reference.name "y";
                  Reference.punct "}"; Reference.punct ";"; Reference.punct "}";
                  Reference.name "z"])
              [Reference.name "x"; Reference.punct "{"; Reference.name "y";
               Reference.punct "}"; Reference.punct ";"]
              [Reference.name "z"] (Reference.punct "}"))
    as (p' & Hrun & _ & Htok & Hnext & Hl & _).
  - eexists. split; reflexivity.
  - apply balanced_token; try discriminate.
    apply (@balanced_block (Reference.punct "{") (Reference.punct "}") [Reference.name "y"]
             [Reference.punct ";"]); try reflexivity.
    + apply balanced_token; try discriminate. constructor.
    + apply balanced_token; try discriminate. constructor.
  - reflexivity.
  - cbn [List.length]. lia.
  - cbn [List.length]. lia.
  - exists p'. repeat split; assumption.
Defined.

(** ** The break and continue targets *)

Local Open Scope Z_scope.

Section TargetFacts.
Context {H : Type}.

Lemma from_to_ret {A} (a : A) (s : list Z * list Z) : from_to s (@ret H A a) s.
Proof. intros p r p' Hs Hrun. injection Hrun as _ <-. exact Hs. Qed.

Lemma from_to_fail {A} (why : abort) (s s' : list Z * list Z) : from_to s (@fail H A why) s'.
Proof. intros p r p' _ Hrun. discriminate Hrun. Qed.

Lemma from_to_bind {A B} (c : M H A) (k : A -> M H B) (s s1 s2 : list Z * list Z) :
  from_to s c s1 -> (forall a, from_to s1 (k a) s2) -> from_to s (bind c k) s2.
Proof.
  intros Hc Hk p r p' Hs Hrun. unfold bind in Hrun.
  destruct (c p) as [a q|] eqn:Hcp; [|discriminate Hrun].
  exact (Hk a q r p' (Hc p a q Hs Hcp) Hrun).
Qed.

Lemma from_to_gets {A} (f : parser H -> A) (s : list Z * list Z) : from_to s (gets f) s.
Proof. intros p r p' Hs Hrun. injection Hrun as _ <-. exact Hs. Qed.

Lemma from_to_get (s : list Z * list Z) : from_to s (@get H) s.
Proof. intros p r p' Hs Hrun. injection Hrun as _ <-. exact Hs. Qed.

Lemma from_to_modify (f : parser H -> parser H) (s : list Z * list Z) :
  (forall p, targets (f p) = targets p) -> from_to s (modify f) s.
Proof. intros Hf p r p' Hs Hrun. injection Hrun as _ <-. now rewrite Hf. Qed.

Lemma from_to_loop {S R} (body : S -> M H (loop_step S R)) (s : list Z * list Z) :
  (forall x, from_to s (body x) s) -> forall fuel x, from_to s (loop fuel body x) s.
Proof.
  intros Hbody. induction fuel as [|fuel IH]; intros x; [apply from_to_fail|].
  cbn [loop]. eapply from_to_bind; [apply Hbody|].
  intros [x'|r]; [apply IH | apply from_to_ret].
Qed.

Lemma from_to_lex (s : list Z * list Z) : from_to s (@lex H) s.
Proof.
  intros p r p' Hs Hrun. unfold lex in Hrun.
  destruct (_lexer p) as [[|t l]|]; [| |discriminate Hrun]; injection Hrun as _ <-; exact Hs.
Qed.

Lemma from_to_make_id (s : list Z * list Z) : from_to s (@make_id H) s.
Proof. intros p r p' Hs Hrun. injection Hrun as _ <-. exact Hs. Qed.

Lemma from_to_new_block (s : list Z * list Z) : from_to s (@new_block H) s.
Proof. intros p r p' Hs Hrun. injection Hrun as _ <-. exact Hs. Qed.

Lemma from_to_backup (s : list Z * list Z) : from_to s (@backup H) s.
Proof.
  intros p r p' Hs Hrun. unfold backup in Hrun.
  destruct (_lexer p); [|discriminate Hrun]. injection Hrun as _ <-. exact Hs.
Qed.

Lemma from_to_push_break (label : Z) (b c : list Z) :
  from_to (b, c) (@push_break_target H label) (b ++ [label], c)%list.
Proof.
  intros p r p' Hs Hrun. injection Hrun as _ <-. unfold targets in *. cbn.
  injection Hs as -> ->. reflexivity.
Qed.

Lemma from_to_push_continue (label : Z) (b c : list Z) :
  from_to (b, c) (@push_continue_target H label) (b, c ++ [label])%list.
Proof.
  intros p r p' Hs Hrun. injection Hrun as _ <-. unfold targets in *. cbn.
  injection Hs as -> ->. reflexivity.
Qed.

Lemma from_to_pop_break (label : Z) (b c : list Z) :
  from_to (b ++ [label], c)%list (@pop_break_target H) (b, c).
Proof.
  intros p r p' Hs Hrun. injection Hrun as _ <-. unfold targets in *. cbn.
  injection Hs as -> ->. now rewrite removelast_last.
Qed.

Lemma from_to_pop_continue (label : Z) (b c : list Z) :
  from_to (b, c ++ [label])%list (@pop_continue_target H) (b, c).
Proof.
  intros p r p' Hs Hrun. injection Hrun as _ <-. unfold targets in *. cbn.
  injection Hs as -> ->. now rewrite removelast_last.
Qed.

End TargetFacts.

Create HintDb keeps.

Ltac collaborator :=
  match goal with
  | HE : collaborators_all _ _ |- _ =>
      first [ apply (@all_find_symbol _ _ _ HE)
            | apply (@all_find_symbol_in _ _ _ HE)
            | apply (@all_insert_symbol _ _ _ HE)
            | apply (@all_current_scope _ _ _ HE)
            | apply (@all_enter_scope _ _ _ HE)
            | apply (@all_leave_scope _ _ _ HE)
            | apply (@all_enter_namespace _ _ _ HE)
            | apply (@all_leave_namespace _ _ _ HE)
            | apply (@all_resolve_function_call _ _ _ HE)
            | apply (@all_convert_type _ _ _ HE)
            | apply (@all_convert_constant _ _ _ HE)
            | apply (@all_define_struct _ _ _ HE)
            | apply (@all_define_variable _ _ _ HE)
            | apply (@all_leave_function _ _ _ HE)
            | apply (@all_add_cast_operation _ _ _ HE)
            | apply (@all_add_struct_member_access _ _ _ HE)
            | apply (@all_access_chain_load _ _ _ HE)
            | apply (@all_access_chain_store _ _ _ HE)
            | apply (@all_parse_expression_unary _ _ _ HE)
            | apply (@all_parse_expression_multary _ _ _ HE)
            | apply (@all_parse_struct _ _ _ HE)
            | apply (@all_parse_function _ _ _ HE)
            | apply (@all_parse_variable_properties _ _ _ HE)
            | apply (@all_synthesize_entry_point _ _ _ HE) ]
  end.

Ltac head_of t := lazymatch t with ?f _ => head_of f | _ => t end.

(** Walks a computation built from the monad's operations; what it cannot
    settle is left as a goal. *)
Ltac keep :=
  lazymatch goal with
  | |- from_to _ (bind _ _) _ => eapply from_to_bind; [keep | intros ?; keep]
  | |- from_to _ (ret _) _ => apply from_to_ret
  | |- from_to _ (fail _) _ => apply from_to_fail
  | |- from_to _ (gets _) _ => apply from_to_gets
  | |- from_to _ get _ => apply from_to_get
  | |- from_to _ (modify _) _ => apply from_to_modify; intros ?; reflexivity
  | |- from_to _ lex _ => apply from_to_lex
  | |- from_to _ make_id _ => apply from_to_make_id
  | |- from_to _ new_block _ => apply from_to_new_block
  | |- from_to _ backup _ => apply from_to_backup
  | |- from_to _ (push_break_target _) _ => apply from_to_push_break
  | |- from_to _ (push_continue_target _) _ => apply from_to_push_continue
  | |- from_to _ pop_break_target _ => apply from_to_pop_break
  | |- from_to _ pop_continue_target _ => apply from_to_pop_continue
  | |- from_to _ (loop _ _ _) _ => apply from_to_loop; intros ?; keep
  | |- from_to _ (if ?b then _ else _) _ => destruct b; keep
  | |- from_to _ (match ?x with _ => _ end) _ => destruct x; keep
  | |- from_to _ ?c _ =>
      first [ solve [eauto 2 with keeps nocore]
            | collaborator
            | let h := head_of c in progress unfold h; keep
            | idtac ]
  end.

Section TargetFacts2.
Context {H : Type}.
Variable E : externals H.
Variable ptr_bits : Z.
Hypothesis HE : collaborators_all (@keeps_targets H) E.

Lemma consume_until_keeps (t : tokenid) (s : list Z * list Z) :
  from_to s (@consume_until H t) s.
Proof.
  intros p r p' Hs Hrun. unfold consume_until in Hrun.
  assert (Hloop : forall n, from_to s (loop n (@consume_until_body H t) tt) s)
    by (intros n; keep).
  exact (Hloop _ p r p' Hs Hrun).
Qed.
Hint Resolve consume_until_keeps : keeps.

Lemma accept_qualifier_keywords_keeps (l : list (tokenid * Z)) (s : list Z * list Z) :
  forall q, from_to s (@accept_qualifier_keywords H l q) s.
Proof. induction l as [|[t bit] l IH]; intros q; cbn [accept_qualifier_keywords]; keep. Qed.
Hint Resolve accept_qualifier_keywords_keeps : keeps.

Lemma accept_type_qualifiers_keeps (fuel : nat) (s : list Z * list Z) :
  forall type, from_to s (@accept_type_qualifiers H fuel type) s.
Proof.
  induction fuel as [|fuel IH]; intros type; cbn [accept_type_qualifiers]; keep.
Qed.
Hint Resolve accept_type_qualifiers_keeps : keeps.

Lemma accept_type_class_keeps (fuel : nat) (s : list Z * list Z) :
  forall type, from_to s (accept_type_class E fuel type) s.
Proof.
  induction fuel as [|fuel IH]; intros type; cbn [accept_type_class]; keep.
Qed.
Hint Resolve accept_type_class_keeps : keeps.

Lemma parse_type_keeps (fuel : nat) (type : spv_type) (s : list Z * list Z) :
  from_to s (parse_type E fuel type) s.
Proof. keep. Qed.
Hint Resolve parse_type_keeps : keeps.

Lemma parse_expression_keeps (fuel section : nat) (e : spv_expression) (s : list Z * list Z) :
  from_to s (parse_expression E fuel section e) s.
Proof. keep. Qed.
Hint Resolve parse_expression_keeps : keeps.

Lemma parse_array_size_keeps (fuel : nat) (type : spv_type) (s : list Z * list Z) :
  from_to s (parse_array_size E fuel type) s.
Proof. keep. Qed.
Hint Resolve parse_array_size_keeps : keeps.

Lemma parse_annotations_keeps (fuel : nat) (a : list (string * spv_constant))
      (s : list Z * list Z) :
  from_to s (parse_annotations E fuel a) s.
Proof. keep. Qed.
Hint Resolve parse_annotations_keeps : keeps.

Lemma parse_variable_keeps (fuel : nat) (type : spv_type) (name : string) (section : nat)
      (global : bool) (s : list Z * list Z) :
  from_to s (parse_variable E ptr_bits fuel type name section global) s.
Proof. keep. Qed.
Hint Resolve parse_variable_keeps : keeps.

Section StatementTargets.

Variable rec : nat -> bool -> M H bool.
Hypothesis Hrec : forall section scoped s, from_to s (rec section scoped) s.
Hint Resolve Hrec : keeps.

Lemma loop_body_keeps (section : nat) (merge_label continue_label : Z) (scoped : bool)
      (s : list Z * list Z) :
  from_to s (loop_body rec section merge_label continue_label scoped) s.
Proof. destruct s as [b c]. unfold loop_body. keep. Qed.
Hint Resolve loop_body_keeps : keeps.

Lemma statement_switch_keeps (fuel section : nat) (loc : location) (selection_control : Z)
      (s : list Z * list Z) :
  from_to s (statement_switch E rec fuel section loc selection_control) s.
Proof. destruct s as [b c]. unfold statement_switch. keep. Qed.
Hint Resolve statement_switch_keeps : keeps.

Lemma statement_keeps (fuel section : nat) (scoped : bool) (s : list Z * list Z) :
  from_to s (statement E ptr_bits rec fuel section scoped) s.
Proof. keep. Qed.

End StatementTargets.

Lemma parse_statement_keeps (fuel : nat) :
  forall (section : nat) (scoped : bool) (s : list Z * list Z),
    from_to s (parse_statement E ptr_bits fuel section scoped) s.
Proof.
  induction fuel as [|fuel IH]; intros section scoped s; cbn [parse_statement].
  - apply from_to_fail.
  - apply statement_keeps. exact IH.
Qed.

End TargetFacts2.

Ltac generator :=
  match goal with
  | HC : codegen_all _ _ |- _ =>
      first [ apply (@gen_add_member_access _ _ _ HC)
            | apply (@gen_add_static_index_access _ _ _ HC)
            | apply (@gen_add_dynamic_index_access _ _ _ HC)
            | apply (@gen_structs_at _ _ _ HC)
            | apply (@gen_structs_assign _ _ _ HC)
            | apply (@gen_define_function _ _ _ HC)
            | apply (@gen_define_parameter _ _ _ HC)
            | apply (@gen_function_variables _ _ _ HC)
            | apply (@gen_function_definition _ _ _ HC)
            | apply (@gen_add_builtin _ _ _ HC)
            | apply (@gen_add_entry_point _ _ _ HC) ]
  end.

(** What is known of the functions of the parser above the collaborators. *)
Ltac kept :=
  match goal with
  | |- from_to _ (consume_until _) _ => apply consume_until_keeps
  | HE : collaborators_all _ ?E |- from_to _ (accept_type_class ?E _ _) _ =>
      apply (accept_type_class_keeps E HE)
  | HE : collaborators_all _ ?E |- from_to _ (parse_type ?E _ _) _ =>
      apply (parse_type_keeps E HE)
  | HE : collaborators_all _ ?E |- from_to _ (parse_expression ?E _ _ _) _ =>
      apply (parse_expression_keeps E HE)
  | HE : collaborators_all _ ?E |- from_to _ (parse_array_size ?E _ _) _ =>
      apply (parse_array_size_keeps E HE)
  | HE : collaborators_all _ ?E |- from_to _ (parse_statement ?E ?b _ _ _) _ =>
      apply (parse_statement_keeps E b HE)
  | |- _ => generator
  end.
Hint Extern 1 (from_to _ _ _) => kept : keeps.

Section SourceTargets.
Context {H : Type}.
Variable E : externals H.
Variable C : codegen H.
Variable ptr_bits : Z.
Variable unary : nat -> spv_expression -> M H (bool * spv_expression).
Hypothesis HE : collaborators_all (@keeps_targets H) E.
Hypothesis HC : codegen_all (@keeps_targets H) C.
Hypothesis Hunary : forall section e s, from_to s (unary section e) s.
Hint Resolve Hunary : keeps.

Lemma increment_keeps section location o exp value s :
  from_to s (increment E section location o exp value) s.
Proof. keep. Qed.
Hint Resolve increment_keeps : keeps.

Lemma prefix_operator_keeps section location o exp s :
  from_to s (prefix_operator E unary section location o exp) s.
Proof. keep. Qed.

Lemma parenthesized_keeps fuel section location exp s :
  from_to s (parenthesized E unary fuel section location exp) s.
Proof. keep. Qed.

Lemma cast_all_keeps type elements s : from_to s (cast_all E type elements) s.
Proof. induction elements as [|e l IH]; cbn [cast_all]; keep. Qed.
Hint Resolve cast_all_keeps : keeps.

Lemma cast_and_load_all_keeps section type elements s :
  from_to s (cast_and_load_all E section type elements) s.
Proof. induction elements as [|e l IH]; cbn [cast_and_load_all]; keep. Qed.
Hint Resolve cast_and_load_all_keeps : keeps.

Lemma initializer_list_keeps fuel section location exp s :
  from_to s (initializer_list E fuel section location exp) s.
Proof. keep. Qed.

Lemma constructor_constant_keeps type arguments s :
  forall i data, from_to s (constructor_constant E type arguments i data) s.
Proof. induction arguments as [|e l IH]; intros i data; cbn [constructor_constant]; keep. Qed.
Hint Resolve constructor_constant_keeps : keeps.

Lemma extract_scalars_keeps section type argument n s :
  forall index, from_to s (extract_scalars E C section type argument n index) s.
Proof. induction n as [|n IH]; intros index; cbn [extract_scalars]; keep. Qed.
Hint Resolve extract_scalars_keeps : keeps.

Lemma matrix_scalars_keeps section type arguments s :
  from_to s (matrix_scalars E C section type arguments) s.
Proof. induction arguments as [|e l IH]; cbn [matrix_scalars]; keep. Qed.
Hint Resolve matrix_scalars_keeps : keeps.

Lemma vector_arguments_keeps section type arguments s :
  from_to s (vector_arguments E section type arguments) s.
Proof. induction arguments as [|e l IH]; cbn [vector_arguments]; keep. Qed.
Hint Resolve vector_arguments_keeps : keeps.

Lemma constructor_keeps fuel section location type exp s :
  from_to s (constructor E C fuel section location type exp) s.
Proof. keep. Qed.

Lemma call_parameters_keeps section types arguments s :
  forall i, from_to s (call_parameters E section types i arguments) s.
Proof. induction arguments as [|e l IH]; intros i; cbn [call_parameters]; keep. Qed.
Hint Resolve call_parameters_keeps : keeps.

Lemma copy_in_keeps section arguments s :
  forall parameters, from_to s (copy_in E section arguments parameters) s.
Proof.
  induction arguments as [|e l IH]; intros [|q parameters]; cbn [copy_in]; keep.
Qed.
Hint Resolve copy_in_keeps : keeps.

Lemma copy_out_keeps section arguments s :
  forall parameters, from_to s (copy_out E section arguments parameters) s.
Proof.
  induction arguments as [|e l IH]; intros [|q parameters]; cbn [copy_out]; keep.
Qed.
Hint Resolve copy_out_keeps : keeps.

Lemma emit_call_keeps section loc sym parameters exp s :
  from_to s (emit_call E section loc sym parameters exp) s.
Proof. keep. Qed.
Hint Resolve emit_call_keeps : keeps.

Lemma named_keeps fuel section location exp s :
  from_to s (named E C fuel section location exp) s.
Proof. keep. Qed.

Lemma postfix_body_keeps fuel section exp s :
  from_to s (postfix_body E C fuel section exp) s.
Proof. keep. Qed.

Lemma parse_expression_unary_body_keeps fuel section exp s :
  from_to s (parse_expression_unary_body E C unary fuel section exp) s.
Proof.
  unfold parse_expression_unary_body.
  eapply from_to_bind; [keep|]. intros next.
  eapply from_to_bind; [|intros [e|r]; [apply from_to_loop; intros e'; apply postfix_body_keeps
                                       | apply from_to_ret]].
  eapply from_to_bind; [keep|]. intros [o|].
  - apply prefix_operator_keeps.
  - eapply from_to_bind; [keep|]. intros [|]; [apply parenthesized_keeps|].
    eapply from_to_bind; [keep|]. intros [|]; [apply initializer_list_keeps|].
    eapply from_to_bind; [keep|]. intros [e|]; [apply from_to_ret|].
    eapply from_to_bind; [keep|]. intros [[|] type];
      [apply constructor_keeps | apply named_keeps].
Qed.

Lemma binary_operation_keeps section o right_precedence lhs s :
  from_to s (binary_operation E C section o right_precedence lhs) s.
Proof. keep. Qed.

Lemma ternary_operation_keeps fuel section lhs s :
  from_to s (ternary_operation E C fuel section lhs) s.
Proof. keep. Qed.

Lemma parse_expression_multary_body_keeps fuel section lhs left_precedence s :
  from_to s (parse_expression_multary_body E C unary fuel section lhs left_precedence) s.
Proof.
  unfold parse_expression_multary_body.
  eapply from_to_bind; [keep|]. intros [[|] e]; [|apply from_to_ret].
  apply from_to_loop. intros e'. unfold multary_body.
  eapply from_to_bind; [keep|]. intros [[o' p']|]; [|apply from_to_ret].
  destruct (p' <=? left_precedence); [apply from_to_ret|].
  eapply from_to_bind; [keep|]. intros _.
  destruct (negb (Op_eqb o' OpSelect));
    [apply binary_operation_keeps | apply ternary_operation_keeps].
Qed.

Lemma struct_member_access_keeps exp subscript location s :
  from_to s (struct_member_access C exp subscript location) s.
Proof. keep. Qed.

Lemma parse_variable_properties_body_keeps fuel props s :
  from_to s (parse_variable_properties_body E fuel props) s.
Proof. keep. Qed.

Lemma add_member_names_keeps definition members s :
  forall i, from_to s (add_member_names (H := H) definition i members) s.
Proof. induction members as [|m l IH]; intros i; cbn [add_member_names]; keep. Qed.
Hint Resolve add_member_names_keeps : keeps.

Lemma parse_struct_body_keeps fuel s : from_to s (parse_struct_body E C fuel) s.
Proof. keep. Qed.

Lemma parse_function_body_keeps fuel type name s :
  from_to s (parse_function_body E C ptr_bits fuel type name) s.
Proof. keep. Qed.

Lemma create_output_variables_keeps members s :
  from_to s (create_output_variables E C members) s.
Proof. induction members as [|m l IH]; cbn [create_output_variables]; keep. Qed.
Hint Resolve create_output_variables_keeps : keeps.

Lemma load_members_keeps section is_ps members s :
  from_to s (load_members E C section is_ps members) s.
Proof. induction members as [|m l IH]; cbn [load_members]; keep. Qed.
Hint Resolve load_members_keeps : keeps.

Lemma entry_parameters_keeps section is_ps parameters s :
  forall io cp, from_to s (entry_parameters E C section is_ps parameters io cp) s.
Proof. induction parameters as [|m l IH]; intros io cp; cbn [entry_parameters]; keep. Qed.
Hint Resolve entry_parameters_keeps : keeps.

Lemma store_members_keeps section value io members s :
  forall mi ii, from_to s (store_members E section value io members mi ii) s.
Proof. induction members as [|m l IH]; intros mi ii; cbn [store_members]; keep. Qed.
Hint Resolve store_members_keeps : keeps.

Lemma entry_results_keeps section parameters io cp s :
  forall pi ii, from_to s (entry_results E C section parameters io cp pi ii) s.
Proof. induction parameters as [|m l IH]; intros pi ii; cbn [entry_results]; keep. Qed.
Hint Resolve entry_results_keeps : keeps.

Lemma store_result_members_keeps section call_result members s :
  forall mi, from_to s (store_result_members E C section call_result members mi) s.
Proof. induction members as [|m l IH]; intros mi; cbn [store_result_members]; keep. Qed.
Hint Resolve store_result_members_keeps : keeps.

Lemma synthesize_entry_point_body_keeps state location sym s :
  from_to s (synthesize_entry_point_body E C state location sym) s.
Proof. keep. Qed.

End SourceTargets.

Section SourceTargets2.
Context {H : Type}.
Variable E : externals H.
Variable C : codegen H.
Variable ptr_bits : Z.
Hypothesis HO : outside_all (@keeps_targets H) E.
Hypothesis HC : codegen_all (@keeps_targets H) C.

Lemma with_functions_keeps unary multary member structure function properties entry :
  (forall s, keeps_targets (unary s)) ->
  (forall s e l, keeps_targets (multary s e l)) ->
  (forall e n l, keeps_targets (member e n l)) ->
  keeps_targets structure ->
  (forall t n, keeps_targets (function t n)) ->
  (forall i, keeps_targets (properties i)) ->
  (forall s l y, keeps_targets (entry s l y)) ->
  collaborators_all (@keeps_targets H)
    (with_functions E unary multary member structure function properties entry).
Proof. intros. destruct HO. split; cbn; assumption. Qed.

Lemma levels_keep (fuel : nat) :
  collaborators_all (@keeps_targets H) (fst (levels E C ptr_bits fuel))
  /\ forall section e s, from_to s (snd (levels E C ptr_bits fuel) section e) s.
Proof.
  induction fuel as [|fuel [IHE IHu]]; cbn [levels].
  - split; [|intros; apply from_to_fail].
    apply with_functions_keeps; intros; intros st; apply from_to_fail.
  - destruct (levels E C ptr_bits fuel) as [below unary_below]. cbn [fst snd] in *.
    split.
    + apply with_functions_keeps; intros; intros st.
      * now apply parse_expression_unary_body_keeps.
      * now apply parse_expression_multary_body_keeps.
      * now apply struct_member_access_keeps.
      * now apply parse_struct_body_keeps.
      * now apply parse_function_body_keeps.
      * now apply parse_variable_properties_body_keeps.
      * now apply synthesize_entry_point_body_keeps.
    + intros section e s. now apply parse_expression_unary_body_keeps.
Qed.

End SourceTargets2.

(** X18.  A statement leaves the stacks of break and continue targets as it
    found them, whether it is accepted or not: what a loop or a switch
    pushes it pops on every way out.  The parser is the one of
    [effect_parser], in which the expressions and the declarations are the
    functions of effect_parser.cpp; the collaborators outside
    effect_parser.cpp are taken not to touch the two stacks. *)
Theorem statement_keeps_the_targets {H} (E : externals H) (C : codegen H) (ptr_bits : Z)
        (depth fuel section : nat) (scoped : bool) (p p' : parser H) (ok : bool) :
  outside_all (@keeps_targets H) E ->
  codegen_all (@keeps_targets H) C ->
  parse_statement (effect_parser E C ptr_bits depth) ptr_bits fuel section scoped p = Done ok p' ->
  _loop_break_target_stack p' = _loop_break_target_stack p
  /\ _loop_continue_target_stack p' = _loop_continue_target_stack p.
Proof.
  intros HO HC Hrun.
  pose proof (parse_statement_keeps (effect_parser E C ptr_bits depth) ptr_bits
                (proj1 (levels_keep E C ptr_bits HO HC depth))
                fuel section scoped (targets p) p ok p' eq_refl Hrun) as Hkeep.
  unfold targets in Hkeep. injection Hkeep as Hb Hc. split; assumption.
Qed.

(** The collaborators with a symbol table do not touch the two stacks. *)
Lemma table_keeps_targets (failed_op : Op) :
  outside_all (@keeps_targets Table.state) (Table.E failed_op)
  /\ codegen_all (@keeps_targets Table.state) Table.C.
Proof.
  split; split; cbn; intros; intros st;
    unfold Table.lookup, Table.insert, Table.enter, Table.leave, Table.resolve,
           Table.given_or_fresh, Table.begin_function, Table.blocks_of_function,
           Table.table, Table.update;
    keep.
Qed.

(** X18, witness: [while (1 < 2) { break; }] in a function body, entered
    with the break targets 7 and 9. *)
Lemma statement_keeps_the_targets_witness :
  exists p',
    parse_statement (Table.parser_of OpFunctionCall 8) 64 8 1 true
      (set_loop_break_target_stack [7; 9] (Table.in_function Table.loop_with_break))
    = Done true p'
    /\ _loop_break_target_stack p' = [7; 9]
    /\ _loop_continue_target_stack p' = [].
Proof.
  eexists. split; [vm_compute; reflexivity|].
  apply (statement_keeps_the_targets (Table.E OpFunctionCall) Table.C 64 8 8 1 true
           (set_loop_break_target_stack [7; 9] (Table.in_function Table.loop_with_break))
           _ true (proj1 (table_keeps_targets OpFunctionCall))
           (proj2 (table_keeps_targets OpFunctionCall))).
  vm_compute. reflexivity.
Defined.

(** ** Diagnostics *)

Local Open Scope Z_scope.

Section DiagnosticFacts.
Context {H : Type}.

Lemma appends_ret {A} (a : A) : appends_diagnostics (@ret H A a).
Proof. intros p r p' Hrun. injection Hrun as _ <-. exists []. now rewrite app_nil_r. Qed.

Lemma appends_fail {A} (why : abort) : appends_diagnostics (@fail H A why).
Proof. intros p r p' Hrun. discriminate Hrun. Qed.

Lemma appends_bind {A B} (c : M H A) (k : A -> M H B) :
  appends_diagnostics c -> (forall a, appends_diagnostics (k a)) ->
  appends_diagnostics (bind c k).
Proof.
  intros Hc Hk p r p' Hrun. unfold bind in Hrun.
  destruct (c p) as [a q|] eqn:Hcp; [|discriminate Hrun].
  destruct (Hc p a q Hcp) as [m1 H1]. destruct (Hk a q r p' Hrun) as [m2 H2].
  exists (m1 ++ m2)%list. now rewrite H2, H1, app_assoc.
Qed.

Lemma appends_gets {A} (f : parser H -> A) : appends_diagnostics (gets f).
Proof. intros p r p' Hrun. injection Hrun as _ <-. exists []. now rewrite app_nil_r. Qed.

Lemma appends_get : appends_diagnostics (@get H).
Proof. intros p r p' Hrun. injection Hrun as _ <-. exists []. now rewrite app_nil_r. Qed.

Lemma appends_modify (f : parser H -> parser H) :
  (forall p, exists more, _errors (f p) = (_errors p ++ more)%list) ->
  appends_diagnostics (modify f).
Proof. intros Hf p r p' Hrun. injection Hrun as _ <-. apply Hf. Qed.

Lemma appends_loop {S R} (body : S -> M H (loop_step S R)) :
  (forall x, appends_diagnostics (body x)) ->
  forall fuel x, appends_diagnostics (loop fuel body x).
Proof.
  intros Hbody. induction fuel as [|fuel IH]; intros x; [apply appends_fail|].
  cbn [loop]. apply appends_bind; [apply Hbody|].
  intros [x'|r]; [apply IH | apply appends_ret].
Qed.

Lemma appends_lex : appends_diagnostics (@lex H).
Proof.
  intros p r p' Hrun. unfold lex in Hrun.
  destruct (_lexer p) as [[|t l]|]; [| |discriminate Hrun]; injection Hrun as _ <-;
    exists []; cbn; now rewrite app_nil_r.
Qed.

Lemma appends_make_id : appends_diagnostics (@make_id H).
Proof. intros p r p' Hrun. injection Hrun as _ <-. exists []. cbn. now rewrite app_nil_r. Qed.

Lemma appends_new_block : appends_diagnostics (@new_block H).
Proof. intros p r p' Hrun. injection Hrun as _ <-. exists []. cbn. now rewrite app_nil_r. Qed.

Lemma appends_backup : appends_diagnostics (@backup H).
Proof.
  intros p r p' Hrun. unfold backup in Hrun.
  destruct (_lexer p); [|discriminate Hrun]. injection Hrun as _ <-.
  exists []. cbn. now rewrite app_nil_r.
Qed.

End DiagnosticFacts.

Create HintDb appends.

(** Walks a computation built from the monad's operations; what it cannot
    settle is left as a goal. *)
Ltac grow :=
  lazymatch goal with
  | |- appends_diagnostics (bind _ _) => apply appends_bind; [grow | intros ?; grow]
  | |- appends_diagnostics (ret _) => apply appends_ret
  | |- appends_diagnostics (fail _) => apply appends_fail
  | |- appends_diagnostics (gets _) => apply appends_gets
  | |- appends_diagnostics get => apply appends_get
  | |- appends_diagnostics (modify _) =>
      apply appends_modify; intros ?;
      first [ exists []; cbn; symmetry; apply app_nil_r | eexists; reflexivity ]
  | |- appends_diagnostics lex => apply appends_lex
  | |- appends_diagnostics make_id => apply appends_make_id
  | |- appends_diagnostics new_block => apply appends_new_block
  | |- appends_diagnostics backup => apply appends_backup
  | |- appends_diagnostics (loop _ _ _) => apply appends_loop; intros ?; grow
  | |- appends_diagnostics (if ?b then _ else _) => destruct b; grow
  | |- appends_diagnostics (match ?x with _ => _ end) => destruct x; grow
  | |- appends_diagnostics ?c =>
      first [ solve [eauto 2 with appends nocore]
            | collaborator
            | let h := head_of c in progress unfold h; grow
            | idtac ]
  end.

Section DiagnosticFacts2.
Context {H : Type}.
Variable E : externals H.
Variable ptr_bits : Z.
Hypothesis HE : collaborators_all (@appends_diagnostics H) E.

Lemma consume_until_appends (t : tokenid) : appends_diagnostics (@consume_until H t).
Proof.
  intros p r p' Hrun. unfold consume_until in Hrun.
  assert (Hloop : forall n, appends_diagnostics (loop n (@consume_until_body H t) tt))
    by (intros n; grow).
  exact (Hloop _ p r p' Hrun).
Qed.
Hint Resolve consume_until_appends : appends.

Lemma accept_qualifier_keywords_appends (l : list (tokenid * Z)) :
  forall q, appends_diagnostics (@accept_qualifier_keywords H l q).
Proof. induction l as [|[t bit] l IH]; intros q; cbn [accept_qualifier_keywords]; grow. Qed.
Hint Resolve accept_qualifier_keywords_appends : appends.

Lemma accept_type_qualifiers_appends (fuel : nat) :
  forall type, appends_diagnostics (@accept_type_qualifiers H fuel type).
Proof.
  induction fuel as [|fuel IH]; intros type; cbn [accept_type_qualifiers]; grow.
Qed.
Hint Resolve accept_type_qualifiers_appends : appends.

Lemma accept_type_class_appends (fuel : nat) :
  forall type, appends_diagnostics (accept_type_class E fuel type).
Proof.
  induction fuel as [|fuel IH]; intros type; cbn [accept_type_class]; grow.
Qed.
Hint Resolve accept_type_class_appends : appends.

Lemma parse_type_appends (fuel : nat) (type : spv_type) :
  appends_diagnostics (parse_type E fuel type).
Proof. grow. Qed.
Hint Resolve parse_type_appends : appends.

Lemma parse_expression_appends (fuel section : nat) (e : spv_expression) :
  appends_diagnostics (parse_expression E fuel section e).
Proof. grow. Qed.
Hint Resolve parse_expression_appends : appends.

Lemma parse_annotations_appends (fuel : nat) (a : list (string * spv_constant)) :
  appends_diagnostics (parse_annotations E fuel a).
Proof. grow. Qed.
Hint Resolve parse_annotations_appends : appends.

Lemma parse_variable_appends (fuel : nat) (type : spv_type) (name : string) (section : nat)
      (global : bool) :
  appends_diagnostics (parse_variable E ptr_bits fuel type name section global).
Proof. grow. Qed.
Hint Resolve parse_variable_appends : appends.

Lemma statement_appends (rec : nat -> bool -> M H bool) (fuel section : nat) (scoped : bool) :
  (forall section scoped, appends_diagnostics (rec section scoped)) ->
  appends_diagnostics (statement E ptr_bits rec fuel section scoped).
Proof. intros Hrec. grow. Qed.

Lemma parse_statement_appends (fuel : nat) :
  forall (section : nat) (scoped : bool),
    appends_diagnostics (parse_statement E ptr_bits fuel section scoped).
Proof.
  induction fuel as [|fuel IH]; intros section scoped; cbn [parse_statement].
  - apply appends_fail.
  - apply statement_appends. exact IH.
Qed.

Lemma parse_technique_appends (fuel : nat) : appends_diagnostics (parse_technique E fuel).
Proof. grow. Qed.
Hint Resolve parse_technique_appends : appends.

Lemma parse_top_level_appends (fuel : nat) :
  appends_diagnostics (parse_top_level E ptr_bits fuel).
Proof. induction fuel as [|fuel IH]; cbn [parse_top_level]; grow. Qed.
Hint Resolve parse_top_level_appends : appends.

Lemma convert_member_types_appends (members : list spv_struct_member_info) :
  appends_diagnostics (convert_member_types E members).
Proof. induction members as [|m members IH]; cbn [convert_member_types]; grow. Qed.
Hint Resolve convert_member_types_appends : appends.

Lemma run_appends (fuel : nat) (input : list token) :
  appends_diagnostics (run E ptr_bits fuel input).
Proof. grow. Qed.

End DiagnosticFacts2.

(** What is known of the functions of the parser above the collaborators. *)
Ltac appended :=
  match goal with
  | |- appends_diagnostics (consume_until _) => apply consume_until_appends
  | HE : collaborators_all _ ?E |- appends_diagnostics (accept_type_class ?E _ _) =>
      apply (accept_type_class_appends E HE)
  | HE : collaborators_all _ ?E |- appends_diagnostics (parse_type ?E _ _) =>
      apply (parse_type_appends E HE)
  | HE : collaborators_all _ ?E |- appends_diagnostics (parse_expression ?E _ _ _) =>
      apply (parse_expression_appends E HE)
  | HE : collaborators_all _ ?E |- appends_diagnostics (parse_statement ?E ?b _ _ _) =>
      apply (parse_statement_appends E b HE)
  | |- _ => generator
  end.
Hint Extern 1 (appends_diagnostics _) => appended : appends.

Section SourceDiagnostics.
Context {H : Type}.
Variable E : externals H.
Variable C : codegen H.
Variable ptr_bits : Z.
Variable unary : nat -> spv_expression -> M H (bool * spv_expression).
Hypothesis HE : collaborators_all (@appends_diagnostics H) E.
Hypothesis HC : codegen_all (@appends_diagnostics H) C.
Hypothesis Hunary : forall section e, appends_diagnostics (unary section e).
Hint Resolve Hunary : appends.

Lemma increment_appends section location o exp value :
  appends_diagnostics (increment E section location o exp value).
Proof. grow. Qed.
Hint Resolve increment_appends : appends.

Lemma prefix_operator_appends section location o exp :
  appends_diagnostics (prefix_operator E unary section location o exp).
Proof. grow. Qed.

Lemma parenthesized_appends fuel section location exp :
  appends_diagnostics (parenthesized E unary fuel section location exp).
Proof. grow. Qed.

Lemma cast_all_appends type elements : appends_diagnostics (cast_all E type elements).
Proof. induction elements as [|e l IH]; cbn [cast_all]; grow. Qed.
Hint Resolve cast_all_appends : appends.

Lemma cast_and_load_all_appends section type elements :
  appends_diagnostics (cast_and_load_all E section type elements).
Proof. induction elements as [|e l IH]; cbn [cast_and_load_all]; grow. Qed.
Hint Resolve cast_and_load_all_appends : appends.

Lemma initializer_list_appends fuel section location exp :
  appends_diagnostics (initializer_list E fuel section location exp).
Proof. grow. Qed.

Lemma constructor_constant_appends type arguments :
  forall i data, appends_diagnostics (constructor_constant E type arguments i data).
Proof. induction arguments as [|e l IH]; intros i data; cbn [constructor_constant]; grow. Qed.
Hint Resolve constructor_constant_appends : appends.

Lemma extract_scalars_appends section type argument n :
  forall index, appends_diagnostics (extract_scalars E C section type argument n index).
Proof. induction n as [|n IH]; intros index; cbn [extract_scalars]; grow. Qed.
Hint Resolve extract_scalars_appends : appends.

Lemma matrix_scalars_appends section type arguments :
  appends_diagnostics (matrix_scalars E C section type arguments).
Proof. induction arguments as [|e l IH]; cbn [matrix_scalars]; grow. Qed.
Hint Resolve matrix_scalars_appends : appends.

Lemma vector_arguments_appends section type arguments :
  appends_diagnostics (vector_arguments E section type arguments).
Proof. induction arguments as [|e l IH]; cbn [vector_arguments]; grow. Qed.
Hint Resolve vector_arguments_appends : appends.

Lemma constructor_appends fuel section location type exp :
  appends_diagnostics (constructor E C fuel section location type exp).
Proof. grow. Qed.

Lemma call_parameters_appends section types arguments :
  forall i, appends_diagnostics (call_parameters E section types i arguments).
Proof. induction arguments as [|e l IH]; intros i; cbn [call_parameters]; grow. Qed.
Hint Resolve call_parameters_appends : appends.

Lemma copy_in_appends section arguments :
  forall parameters, appends_diagnostics (copy_in E section arguments parameters).
Proof.
  induction arguments as [|e l IH]; intros [|q parameters]; cbn [copy_in]; grow.
Qed.
Hint Resolve copy_in_appends : appends.

Lemma copy_out_appends section arguments :
  forall parameters, appends_diagnostics (copy_out E section arguments parameters).
Proof.
  induction arguments as [|e l IH]; intros [|q parameters]; cbn [copy_out]; grow.
Qed.
Hint Resolve copy_out_appends : appends.

Lemma emit_call_appends section loc sym parameters exp :
  appends_diagnostics (emit_call E section loc sym parameters exp).
Proof. grow. Qed.
Hint Resolve emit_call_appends : appends.

Lemma named_appends fuel section location exp :
  appends_diagnostics (named E C fuel section location exp).
Proof. grow. Qed.

Lemma postfix_body_appends fuel section exp :
  appends_diagnostics (postfix_body E C fuel section exp).
Proof. grow. Qed.

Lemma parse_expression_unary_body_appends fuel section exp :
  appends_diagnostics (parse_expression_unary_body E C unary fuel section exp).
Proof.
  unfold parse_expression_unary_body.
  apply appends_bind; [grow|]. intros next.
  apply appends_bind; [|intros [e|r]; [apply appends_loop; intros e'; apply postfix_body_appends
                                       | apply appends_ret]].
  apply appends_bind; [grow|]. intros [o|].
  - apply prefix_operator_appends.
  - apply appends_bind; [grow|]. intros [|]; [apply parenthesized_appends|].
    apply appends_bind; [grow|]. intros [|]; [apply initializer_list_appends|].
    apply appends_bind; [grow|]. intros [e|]; [apply appends_ret|].
    apply appends_bind; [grow|]. intros [[|] type];
      [apply constructor_appends | apply named_appends].
Qed.

Lemma binary_operation_appends section o right_precedence lhs :
  appends_diagnostics (binary_operation E C section o right_precedence lhs).
Proof. grow. Qed.

Lemma ternary_operation_appends fuel section lhs :
  appends_diagnostics (ternary_operation E C fuel section lhs).
Proof. grow. Qed.

Lemma parse_expression_multary_body_appends fuel section lhs left_precedence :
  appends_diagnostics (parse_expression_multary_body E C unary fuel section lhs left_precedence).
Proof.
  unfold parse_expression_multary_body.
  apply appends_bind; [grow|]. intros [[|] e]; [|apply appends_ret].
  apply appends_loop. intros e'. unfold multary_body.
  apply appends_bind; [grow|]. intros [[o' p']|]; [|apply appends_ret].
  destruct (p' <=? left_precedence); [apply appends_ret|].
  apply appends_bind; [grow|]. intros _.
  destruct (negb (Op_eqb o' OpSelect));
    [apply binary_operation_appends | apply ternary_operation_appends].
Qed.

Lemma struct_member_access_appends exp subscript location :
  appends_diagnostics (struct_member_access C exp subscript location).
Proof. grow. Qed.

Lemma parse_variable_properties_body_appends fuel props :
  appends_diagnostics (parse_variable_properties_body E fuel props).
Proof. grow. Qed.

Lemma add_member_names_appends definition members :
  forall i, appends_diagnostics (add_member_names (H := H) definition i members).
Proof. induction members as [|m l IH]; intros i; cbn [add_member_names]; grow. Qed.
Hint Resolve add_member_names_appends : appends.

Lemma parse_struct_body_appends fuel : appends_diagnostics (parse_struct_body E C fuel).
Proof. grow. Qed.

Lemma parse_function_body_appends fuel type name :
  appends_diagnostics (parse_function_body E C ptr_bits fuel type name).
Proof. grow. Qed.

Lemma create_output_variables_appends members :
  appends_diagnostics (create_output_variables E C members).
Proof. induction members as [|m l IH]; cbn [create_output_variables]; grow. Qed.
Hint Resolve create_output_variables_appends : appends.

Lemma load_members_appends section is_ps members :
  appends_diagnostics (load_members E C section is_ps members).
Proof. induction members as [|m l IH]; cbn [load_members]; grow. Qed.
Hint Resolve load_members_appends : appends.

Lemma entry_parameters_appends section is_ps parameters :
  forall io cp, appends_diagnostics (entry_parameters E C section is_ps parameters io cp).
Proof. induction parameters as [|m l IH]; intros io cp; cbn [entry_parameters]; grow. Qed.
Hint Resolve entry_parameters_appends : appends.

Lemma store_members_appends section value io members :
  forall mi ii, appends_diagnostics (store_members E section value io members mi ii).
Proof. induction members as [|m l IH]; intros mi ii; cbn [store_members]; grow. Qed.
Hint Resolve store_members_appends : appends.

Lemma entry_results_appends section parameters io cp :
  forall pi ii, appends_diagnostics (entry_results E C section parameters io cp pi ii).
Proof. induction parameters as [|m l IH]; intros pi ii; cbn [entry_results]; grow. Qed.
Hint Resolve entry_results_appends : appends.

Lemma store_result_members_appends section call_result members :
  forall mi, appends_diagnostics (store_result_members E C section call_result members mi).
Proof. induction members as [|m l IH]; intros mi; cbn [store_result_members]; grow. Qed.
Hint Resolve store_result_members_appends : appends.

Lemma synthesize_entry_point_body_appends state location sym :
  appends_diagnostics (synthesize_entry_point_body E C state location sym).
Proof. grow. Qed.

End SourceDiagnostics.

Section SourceDiagnostics2.
Context {H : Type}.
Variable E : externals H.
Variable C : codegen H.
Variable ptr_bits : Z.
Hypothesis HO : outside_all (@appends_diagnostics H) E.
Hypothesis HC : codegen_all (@appends_diagnostics H) C.

Lemma with_functions_appends unary multary member structure function properties entry :
  (forall s, appends_diagnostics (unary s)) ->
  (forall s e l, appends_diagnostics (multary s e l)) ->
  (forall e n l, appends_diagnostics (member e n l)) ->
  appends_diagnostics structure ->
  (forall t n, appends_diagnostics (function t n)) ->
  (forall i, appends_diagnostics (properties i)) ->
  (forall s l y, appends_diagnostics (entry s l y)) ->
  collaborators_all (@appends_diagnostics H)
    (with_functions E unary multary member structure function properties entry).
Proof. intros. destruct HO. split; cbn; assumption. Qed.

Lemma levels_append (fuel : nat) :
  collaborators_all (@appends_diagnostics H) (fst (levels E C ptr_bits fuel))
  /\ forall section e, appends_diagnostics (snd (levels E C ptr_bits fuel) section e).
Proof.
  induction fuel as [|fuel [IHE IHu]]; cbn [levels].
  - split; [|intros; apply appends_fail].
    apply with_functions_appends; intros; apply appends_fail.
  - destruct (levels E C ptr_bits fuel) as [below unary_below]. cbn [fst snd] in *.
    split.
    + apply with_functions_appends; intros.
      * now apply parse_expression_unary_body_appends.
      * now apply parse_expression_multary_body_appends.
      * now apply struct_member_access_appends.
      * now apply parse_struct_body_appends.
      * now apply parse_function_body_appends.
      * now apply parse_variable_properties_body_appends.
      * now apply synthesize_entry_point_body_appends.
    + intros section e. now apply parse_expression_unary_body_appends.
Qed.

End SourceDiagnostics2.

(** X19.  The parser only ever adds to the diagnostics: what [run] finds
    reported when it starts is still there when it returns, in the same
    order and before anything new.  The parser is the one of
    [effect_parser], in which the expressions and the declarations are the
    functions of effect_parser.cpp; the collaborators outside
    effect_parser.cpp are taken to add to the diagnostics only. *)
Theorem diagnostics_are_only_appended {H} (E : externals H) (C : codegen H) (ptr_bits : Z)
        (depth fuel : nat) (input : list token) (p p' : parser H) (ok : bool) :
  outside_all (@appends_diagnostics H) E ->
  codegen_all (@appends_diagnostics H) C ->
  run (effect_parser E C ptr_bits depth) ptr_bits fuel input p = Done ok p' ->
  exists more, _errors p' = (_errors p ++ more)%list.
Proof.
  intros HO HC Hrun.
  exact (run_appends (effect_parser E C ptr_bits depth) ptr_bits
           (proj1 (levels_append E C ptr_bits HO HC depth)) fuel input p ok p' Hrun).
Qed.

(** The collaborators with a symbol table report nothing themselves. *)
Lemma table_appends (failed_op : Op) :
  outside_all (@appends_diagnostics Table.state) (Table.E failed_op)
  /\ codegen_all (@appends_diagnostics Table.state) Table.C.
Proof.
  split; split; cbn; intros;
    unfold Table.lookup, Table.insert, Table.enter, Table.leave, Table.resolve,
           Table.given_or_fresh, Table.begin_function, Table.blocks_of_function,
           Table.table, Table.update;
    grow.
Qed.

(** X19, witness: [float f(float x) { return f(x); }], compiled after a
    warning was reported. *)
Lemma diagnostics_are_only_appended_witness :
  exists p' more,
    run (Table.parser_of OpFunctionCall 12) 64 12 Table.recursive_function
        (set_errors [mk_diagnostic sev_warning no_location 5000 "earlier"]
                    (new_parser Table.empty 1))
    = Done false p'
    /\ _errors p'
       = ([mk_diagnostic sev_warning no_location 5000 "earlier"] ++ more)%list.
Proof.
  destruct (diagnostics_are_only_appended (Table.E OpFunctionCall) Table.C 64 12 12
              Table.recursive_function
              (set_errors [mk_diagnostic sev_warning no_location 5000 "earlier"]
                          (new_parser Table.empty 1))
              _ false (proj1 (table_appends OpFunctionCall))
              (proj2 (table_appends OpFunctionCall)) ltac:(vm_compute; reflexivity))
    as [more Hmore].
  eexists _, more. split; [vm_compute; reflexivity | exact Hmore].
Defined.

(** The diagnostics of that run: the earlier warning, then error 3004. *)
Example diagnostics_after_the_earlier_one :
  match run (Table.parser_of OpFunctionCall 12) 64 12 Table.recursive_function
            (set_errors [mk_diagnostic sev_warning no_location 5000 "earlier"]
                        (new_parser Table.empty 1)) with
  | Done ok p =>
      ok = false
      /\ _errors p
         = [ mk_diagnostic sev_warning no_location 5000 "earlier";
             mk_diagnostic sev_error no_location 3004 "undeclared identifier 'f'" ]
  | Abort _ => False
  end.
Proof. vm_compute. split; reflexivity. Qed.

(** ** Recovery inside a pass *)

Local Open Scope Z_scope.

Section PassFacts.
Context {H : Type}.
Variable E : externals H.

Lemma ends_with_bind {A B} (Q : B -> parser H -> Prop) (c : M H A) (k : A -> M H B) :
  (forall a, ends_with Q (k a)) -> ends_with Q (bind c k).
Proof.
  intros Hk p r p' Hrun. unfold bind in Hrun.
  destruct (c p) as [a q|]; [|discriminate Hrun]. exact (Hk a q r p' Hrun).
Qed.

Lemma ends_with_then {A B} (Q1 : A -> parser H -> Prop) (Q : B -> parser H -> Prop)
      (c : M H A) (k : A -> M H B) :
  ends_with Q1 c ->
  (forall a q r p', Q1 a q -> k a q = Done r p' -> Q r p') ->
  ends_with Q (bind c k).
Proof.
  intros Hc Hk p r p' Hrun. unfold bind in Hrun.
  destruct (c p) as [a q|] eqn:Hcp; [|discriminate Hrun].
  exact (Hk a q r p' (Hc p a q Hcp) Hrun).
Qed.

Lemma ends_with_fail {A} (Q : A -> parser H -> Prop) (why : abort) :
  ends_with Q (fail why).
Proof. intros p r p' Hrun. discriminate Hrun. Qed.

Lemma accepted_token (t : tokenid) (p p' : parser H) :
  accept t p = Done true p' -> id (_token p') = t.
Proof.
  unfold accept, bind, peek, gets. intros Hrun.
  destruct (tokenid_eqb (id (_token_next p)) t) eqn:Heq; [|discriminate Hrun].
  apply tokenid_eqb_eq in Heq.
  unfold consume, bind, modify, lex in Hrun. cbn in Hrun.
  destruct (_lexer p) as [[|x l]|]; [| |discriminate Hrun];
    injection Hrun as <-; exact Heq.
Qed.

Lemma consume_until_skips : ends_with (fun _ p => skipped_to_brace p) (@consume_until H (chr "}")).
Proof.
  intros p r p' Hrun. unfold consume_until in Hrun. revert Hrun.
  generalize (remaining_tokens p + 2)%nat. intros n. revert p.
  induction n as [|n IH]; intros p Hrun; [discriminate Hrun|].
  cbn [loop] in Hrun. unfold bind at 1 in Hrun. unfold consume_until_body at 1 in Hrun.
  unfold bind at 1 in Hrun.
  destruct (accept (chr "}") p) as [[|] q|] eqn:Haccept; [| |discriminate Hrun].
  - injection Hrun as _ <-. left. apply (accepted_token _ _ _ Haccept).
  - unfold bind at 1 in Hrun. unfold peek at 1, gets at 1 in Hrun.
    destruct (tokenid_eqb (id (_token_next q)) end_of_file) eqn:Heof.
    + injection Hrun as _ <-. right. apply tokenid_eqb_eq. exact Heof.
    + unfold bind at 1 in Hrun.
      destruct (consume q) as [[] q'|]; [|discriminate Hrun].
      apply (IH q'). exact Hrun.
Qed.

Lemma pass_fails_skips {S} (info : spv_pass_info) :
  ends_with (@pass_round H S) (pass_fails info).
Proof.
  intros p r p' Hrun. unfold pass_fails, bind in Hrun.
  destruct (consume_until (chr "}") p) as [[] q|] eqn:Hskip; [|discriminate Hrun].
  injection Hrun as <- <-. exact (consume_until_skips p tt q Hskip).
Qed.

End PassFacts.

(** Walks a computation down to the ways it can end. *)
Ltac ends :=
  lazymatch goal with
  | |- ends_with _ (bind _ _) => apply ends_with_bind; intros ?; ends
  | |- ends_with _ (require _ _ _) => unfold require at 1; ends
  | |- ends_with _ (pass_fails _) => apply pass_fails_skips
  | |- ends_with _ (fail _) => apply ends_with_fail
  | |- ends_with _ (ret (Continue _)) =>
      let Hrun := fresh in intros ? ? ? Hrun; injection Hrun as <- _; exact I
  | |- ends_with _ (if ?b then _ else _) => destruct b; ends
  | |- ends_with _ (match ?x with _ => _ end) => destruct x; ends
  | |- _ => idtac
  end.

Section PassFacts2.
Context {H : Type}.
Variable E : externals H.

Lemma pass_symbol_state_ends (fuel : nat) (state : string) (is_shader_state : bool)
      (info : spv_pass_info) :
  ends_with pass_round (pass_symbol_state E fuel state is_shader_state info).
Proof. unfold pass_symbol_state. ends. Qed.

Lemma pass_value_state_ends (state : string) (loc : location) (info : spv_pass_info) :
  ends_with pass_round (pass_value_state E state loc info).
Proof. unfold pass_value_state. ends. Qed.

Lemma pass_state_body_ends (fuel : nat) (info : spv_pass_info) :
  ends_with pass_round (pass_state_body E fuel info).
Proof.
  intros p r p' Hrun. unfold pass_state_body in Hrun.
  unfold bind at 1 in Hrun. unfold peek at 1, gets at 1 in Hrun.
  destruct (tokenid_eqb (id (_token_next p)) (chr "}")) eqn:Hclose.
  - (* the closing brace is there: [expect] takes it *)
    unfold bind at 1 in Hrun. unfold expect at 1, bind at 1 in Hrun.
    unfold accept at 1, bind at 1, peek at 1, gets at 1 in Hrun. rewrite Hclose in Hrun.
    unfold bind at 1 in Hrun.
    destruct (consume p) as [[] q|]; [|discriminate Hrun].
    injection Hrun as <- _. exact I.
  - clear Hclose. revert p r p' Hrun.
    change (ends_with pass_round
              (require (expect E identifier) (pass_fails info)
                 (tok <- gets (@_token H) ;;
                  require (expect E (chr "=")) (pass_fails info)
                    (r <- (if String.eqb (literal_as_string tok) "VertexShader"
                              || String.eqb (literal_as_string tok) "PixelShader"
                              || Str.compare0 12 "RenderTarget" (literal_as_string tok)
                                 && ((Str.size (literal_as_string tok) =? 12)
                                     || match char_at (literal_as_string tok) 12 with
                                        | Some c => (48 <=? c) && (c <? 56)
                                        | None => false
                                        end)
                           then pass_symbol_state E fuel (literal_as_string tok)
                                  (String.eqb (literal_as_string tok) "VertexShader"
                                   || String.eqb (literal_as_string tok) "PixelShader") info
                           else pass_value_state E (literal_as_string tok)
                                  (tok_location tok) info) ;;
                     match r with
                     | Break b => ret (Break b)
                     | Continue info =>
                         require (expect E (chr ";")) (pass_fails info) (ret (Continue info))
                     end)))).
    unfold require at 1. apply ends_with_bind. intros [|]; [|apply pass_fails_skips].
    apply ends_with_bind. intros tok.
    unfold require at 1. apply ends_with_bind. intros [|]; [|apply pass_fails_skips].
    apply (ends_with_then pass_round).
    + destruct (_ || _); [apply pass_symbol_state_ends | apply pass_value_state_ends].
    + intros [info1|b] q r p' Hq Hrun.
      * revert q r p' Hrun Hq. intros q r p' Hrun _. revert q r p' Hrun.
        change (ends_with pass_round
                  (require (expect E (chr ";")) (@pass_fails H spv_pass_info info1)
                           (ret (Continue info1)))).
        ends.
      * injection Hrun as <- <-. exact Hq.
Qed.

(** X20.  Once the opening brace of a pass is read, a pass that fails has always
    skipped ahead: the last token consumed is a closing brace, or the
    input is at its end. *)
Theorem failed_pass_is_skipped (fuel : nat) (info info' : spv_pass_info) (p p' : parser H) :
  loop fuel (pass_state_body E fuel) info p = Done (false, info') p' ->
  skipped_to_brace p'.
Proof.
  revert info p. generalize fuel at 2. intros n.
  induction fuel as [|k IH]; intros info p Hrun; [discriminate Hrun|].
  cbn [loop] in Hrun. unfold bind at 1 in Hrun.
  destruct (pass_state_body E n info p) as [[info1|[ok info1]] q|] eqn:Hbody;
    [| |discriminate Hrun].
  - exact (IH info1 q Hrun).
  - injection Hrun as -> _ <-. exact (pass_state_body_ends n info p _ q Hbody).
Qed.

End PassFacts2.

Lemma failed_pass_is_skipped_witness :
  exists info' p',
    loop 3 (pass_state_body Reference.E 3) Reference.empty_pass
         (Reference.in_function [Reference.punct "="; Reference.punct "}"; Reference.tok pass])
    = Done (false, info') p'
    /\ skipped_to_brace p'.
Proof.
  eexists _, _. split; [vm_compute; reflexivity|].
  apply (failed_pass_is_skipped Reference.E 3 Reference.empty_pass Reference.empty_pass
           (Reference.in_function
              [Reference.punct "="; Reference.punct "}"; Reference.tok pass])).
  vm_compute. reflexivity.
Defined.
